(** * trif-lang native compiler: lexer, parser, code generators, driver

    A shallow embedding of [src/native] (lexer.cpp, parser.cpp, codegen.cpp,
    compiler.cpp, main.cpp), the properties of it that the specification
    states, and further properties of the code.

    Conventions of the embedding.
    - [std::string] is [string]; a [char] is an [ascii].
    - [int] is [Z] for the line and column counters (they are printed with
      [std::to_string]) and for the counter of temporary names; no wrap-around
      is written out for them: a counter passes [INT_MAX] only on an input of
      more than two thousand million characters, and the overflow of a signed
      [int] is undefined in C++.  The indentation level, which the code guards
      against going below zero, is a [nat].
    - A C++ function that may throw returns a [result]; [Throw what] carries the
      [what()] of the exception.  A message that holds a character of the
      source is cut before a NUL, as the C string [what()] returns is
      ([Str.c_str]).
    - Recursive descent is defined with a fuel argument; [OutOfFuel] is not a
      behaviour of the program, and the termination theorems show that the fuel
      the entry points supply is never exhausted.
    - [std::stod] and [operator<<(double)] are taken as parameters of the
      development (Section variables): nothing proved here depends on how a
      decimal literal is rounded or printed. *)

From Stdlib Require Import String Ascii List ZArith Lia Bool DecimalString.
From Stdlib Require DecimalZ DecimalPos.
Import ListNotations.

Set Warnings "-register-all".

Open Scope list_scope.
Open Scope string_scope.

(* ===================================================================== *)
(** ** Outcomes of a call *)

Inductive result (A : Type) : Type :=
| Ok (a : A)              (* normal return *)
| Throw (what : string)   (* a C++ exception with this message *)
| OutOfRange              (* [tokens_[i]] read past the end of the vector *)
| OutOfFuel.              (* the model's recursion budget was exhausted *)

Arguments Ok {A} a.
Arguments Throw {A} what.
Arguments OutOfRange {A}.
Arguments OutOfFuel {A}.

Definition returns {A} (r : result A) : Prop := exists a, r = Ok a.
Definition throws {A} (r : result A) : Prop := exists what, r = Throw what.

(* ===================================================================== *)
(** ** Strings as the C++ code uses them *)

Module Str.

Fixpoint take (n : nat) (s : string) : string :=
  match n, s with
  | S n', String c s' => String c (take n' s')
  | _, _ => ""
  end.

Fixpoint drop (n : nat) (s : string) : string :=
  match n, s with
  | S n', String _ s' => drop n' s'
  | _, _ => s
  end.

(** [std::string_view::find(needle)]: the first position of [needle]. *)
Fixpoint find (needle s : string) : option nat :=
  if String.prefix needle s then Some 0
  else match s with
       | "" => None
       | String _ s' => option_map S (find needle s')
       end.

(** [std::count(value.begin(), value.end(), c)]. *)
Fixpoint count (c : ascii) (s : string) : nat :=
  match s with
  | "" => 0
  | String d s' => (if Ascii.eqb d c then 1 else 0) + count c s'
  end.

(** [value.find_last_of(c)]: the last position of [c]. *)
Fixpoint find_last_of (c : ascii) (s : string) : option nat :=
  match s with
  | "" => None
  | String d s' =>
      match find_last_of c s' with
      | Some i => Some (S i)
      | None => if Ascii.eqb d c then Some 0 else None
      end
  end.

(** The longest prefix whose characters all satisfy [p]: what a greedy
    character-class repetition matches. *)
Fixpoint take_while (p : ascii -> bool) (s : string) : string :=
  match s with
  | String c s' => if p c then String c (take_while p s') else ""
  | "" => ""
  end.

Definition is_empty (s : string) : bool :=
  match s with "" => true | _ => false end.

(** [s.c_str()] read as a C string, as the [what()] of an exception made
    from [s] is read: the characters before the first NUL. *)
Definition c_str (s : string) : string :=
  take_while (fun c => negb (Ascii.eqb c "000")) s.

(** [std::string(n, ' ')]. *)
Fixpoint spaces (n : nat) : string :=
  match n with
  | O => ""
  | S n' => String " " (spaces n')
  end.

Fixpoint map (f : ascii -> ascii) (s : string) : string :=
  match s with
  | "" => ""
  | String c s' => String (f c) (map f s')
  end.

(** [std::to_string(int)]. *)
Definition of_Z (z : Z) : string := NilZero.string_of_int (Z.to_int z).

End Str.

Definition LF : ascii := "010"%char.
Definition CR : ascii := "013"%char.
Definition TAB : ascii := "009"%char.
Definition BACKSLASH : ascii := "\"%char.
Definition DQUOTE : ascii := "034"%char.
Definition SQUOTE : ascii := "'"%char.
Definition NUL : ascii := "000"%char.

(* ===================================================================== *)
(** ** token.hpp *)

Module Lexer.

Record Token : Type := mkToken {
  type : string;
  value : string;
  line : Z;
  column : Z
}.

Definition TokenStream := list Token.

(** *** The regular expressions of [token_patterns], matched with
    [match_continuous] (anchored at the start of the remainder).  Each
    matcher returns the matched text, [None] when the pattern fails. *)

Definition in_range (lo hi c : ascii) : bool :=
  (nat_of_ascii lo <=? nat_of_ascii c)%nat && (nat_of_ascii c <=? nat_of_ascii hi)%nat.

Definition is_digit (c : ascii) : bool := in_range "0" "9" c.

Definition is_name_start (c : ascii) : bool :=
  in_range "A" "Z" c || in_range "a" "z" c || Ascii.eqb c "_".

Definition is_name_char (c : ascii) : bool :=
  is_name_start c || is_digit c.

(** ECMAScript [.]: any character but a line terminator. *)
Definition is_dot_char (c : ascii) : bool :=
  negb (Ascii.eqb c LF) && negb (Ascii.eqb c CR).

(** [\d+(?:\.\d+)?] *)
Definition match_NUMBER (s : string) : option string :=
  let ds := Str.take_while is_digit s in
  if Str.is_empty ds then None
  else match Str.drop (String.length ds) s with
       | String c rest =>
           let fs := Str.take_while is_digit rest in
           if Ascii.eqb c "." && negb (Str.is_empty fs)
           then Some (ds ++ String c fs)
           else Some ds
       | "" => Some ds
       end.

(** The body of the STRING pattern for the quote character [q]: any
    number of items, each a character other than [q] and the backslash or a
    backslash followed by a [.] character, then [q].  Returns the text after
    the opening quote, up to and including the closing one. *)
Fixpoint match_string_body (q : ascii) (s : string) : option string :=
  match s with
  | "" => None
  | String c s' =>
      if Ascii.eqb c q then Some (String c "")
      else if Ascii.eqb c BACKSLASH then
        match s' with
        | "" => None
        | String d s'' =>
            if is_dot_char d
            then option_map (fun m => String c (String d m)) (match_string_body q s'')
            else None
        end
      else option_map (String c) (match_string_body q s')
  end.

(** The STRING pattern: the double-quoted alternative, then the
    single-quoted one. *)
Definition match_STRING (s : string) : option string :=
  match s with
  | String c s' =>
      if Ascii.eqb c DQUOTE || Ascii.eqb c SQUOTE
      then option_map (String c) (match_string_body c s')
      else None
  | "" => None
  end.

(** [//[^\n]*] *)
Definition match_COMMENT (s : string) : option string :=
  if String.prefix "//" s
  then Some ("//" ++ Str.take_while (fun c => negb (Ascii.eqb c LF)) (Str.drop 2 s))
  else None.

(** [[A-Za-z_][A-Za-z0-9_]*] *)
Definition match_NAME (s : string) : option string :=
  match s with
  | String c s' =>
      if is_name_start c then Some (String c (Str.take_while is_name_char s')) else None
  | "" => None
  end.

Definition is_op_char (c : ascii) : bool :=
  existsb (Ascii.eqb c)
    ["+"; "-"; "*"; "/"; "%"; "="; "<"; ">"; "!"]%char.

(** [==|!=|<=|>=|=>|&&|\|\||[+\-*/%=<>!]]: the alternatives in order. *)
Definition match_OP (s : string) : option string :=
  match find (fun op => String.prefix op s) ["=="; "!="; "<="; ">="; "=>"; "&&"; "||"] with
  | Some op => Some op
  | None =>
      match s with
      | String c _ => if is_op_char c then Some (String c "") else None
      | "" => None
      end
  end.

(** A one-character pattern such as [\(]. *)
Definition match_char (c : ascii) (s : string) : option string :=
  match s with
  | String d _ => if Ascii.eqb d c then Some (String d "") else None
  | "" => None
  end.

(** [[ \t]+] *)
Definition match_SKIP (s : string) : option string :=
  let ws := Str.take_while (fun c => Ascii.eqb c " " || Ascii.eqb c TAB) s in
  if Str.is_empty ws then None else Some ws.

Definition Pattern : Type := string * (string -> option string).

Definition token_patterns : list Pattern :=
  [ ("NUMBER", match_NUMBER);
    ("STRING", match_STRING);
    ("COMMENT", match_COMMENT);
    ("NAME", match_NAME);
    ("OP", match_OP);
    ("NEWLINE", match_char LF);
    ("SKIP", match_SKIP);
    ("LPAREN", match_char "(");
    ("RPAREN", match_char ")");
    ("LBRACE", match_char "{");
    ("RBRACE", match_char "}");
    ("LBRACKET", match_char "[");
    ("RBRACKET", match_char "]");
    ("COMMA", match_char ",");
    ("COLON", match_char ":");
    ("DOT", match_char ".");
    ("SEMICOLON", match_char ";") ].

(** The [for (const auto& pattern : token_patterns())] loop: the first
    pattern that matches, with its name and the matched text. *)
Fixpoint first_match (ps : list Pattern) (remaining : string) : option (string * string) :=
  match ps with
  | [] => None
  | (name, re) :: ps' =>
      match re remaining with
      | Some m => Some (name, m)
      | None => first_match ps' remaining
      end
  end.

Definition kKeywords : list string :=
  [ "let"; "fn"; "function"; "return"; "if"; "else"; "while";
    "for"; "in"; "true"; "false"; "null"; "import"; "as";
    "from"; "const"; "export"; "default"; "spawn" ].

Definition is_keyword (value : string) : bool :=
  existsb (String.eqb value) kKeywords.

(** [std::toupper] in the C locale. *)
Definition toupper (c : ascii) : ascii :=
  if in_range "a" "z" c then ascii_of_nat (nat_of_ascii c - 32) else c.

Definition uppercase (value : string) : string := Str.map toupper value.

(** [decode_string_literal]: the loop over [content], then the wrapper. *)
Fixpoint decode_content (content : string) : string :=
  match content with
  | "" => ""
  | String c rest =>
      if Ascii.eqb c BACKSLASH then
        match rest with
        | String next rest' =>
            let decoded :=
              if Ascii.eqb next "n" then LF
              else if Ascii.eqb next "t" then TAB
              else if Ascii.eqb next "r" then CR
              else if Ascii.eqb next BACKSLASH then BACKSLASH
              else if Ascii.eqb next DQUOTE then DQUOTE
              else if Ascii.eqb next SQUOTE then SQUOTE
              else next in
            String decoded (decode_content rest')
        | "" => String c ""
        end
      else String c (decode_content rest)
  end.

Definition decode_string_literal (raw : string) : string :=
  if (String.length raw <? 2)%nat then raw
  else decode_content (Str.take (String.length raw - 2) (Str.drop 1 raw)).

(** *** [tokenize] *)

(** The cursor of [tokenize]: [remaining] is [source] from [index] on. *)
Record Cursor : Type := mkCursor {
  remaining : string;
  cur_line : Z;
  cur_column : Z;
  tokens : TokenStream
}.

Inductive Step : Type :=
| Next (c : Cursor)
| Done (ts : TokenStream)
| Fail (what : string).

Definition size (s : string) : Z := Z.of_nat (String.length s).

(** One iteration of the [while (index < source.size())] loop, or the
    final [push_back] of the EOF token when the loop condition fails. *)
Definition tokenize_step (c : Cursor) : Step :=
  let rem := remaining c in
  let ln := cur_line c in
  let col := cur_column c in
  if Str.is_empty rem then Done (tokens c ++ [mkToken "EOF" "" ln col])%list
  else if String.prefix "/*" rem then
    match Str.find "*/" rem with
    | None => Fail ("Unterminated block comment at line " ++ Str.of_Z ln)
    | Some e =>
        let value := Str.take (e + 2) rem in
        let newline_count := Str.count LF value in
        let col' :=
          if (0 <? newline_count)%nat then
            match Str.find_last_of LF value with
            | Some pos => (size value - Z.of_nat pos)%Z
            | None => col   (* not reached: [value] has a newline *)
            end
          else (col + size value)%Z in
        Next (mkCursor (Str.drop (String.length value) rem)
                       (ln + Z.of_nat newline_count)%Z col' (tokens c))
    end
  else
    match first_match token_patterns rem with
    | None =>
        Fail (Str.c_str ("Unexpected character '" ++ Str.take 1 rem ++ "' at line "
                         ++ Str.of_Z ln ++ " column " ++ Str.of_Z col))
    | Some (kind, value) =>
        let rest := Str.drop (String.length value) rem in
        if String.eqb kind "NEWLINE" then
          Next (mkCursor rest (ln + 1)%Z 1%Z (tokens c ++ [mkToken kind value ln col])%list)
        else if String.eqb kind "SKIP" || String.eqb kind "COMMENT" then
          Next (mkCursor rest ln (col + size value)%Z (tokens c))
        else
          let kind1 :=
            if String.eqb kind "NAME" && is_keyword value then uppercase value else kind in
          let value1 :=
            if String.eqb kind1 "STRING" then decode_string_literal value else value in
          Next (mkCursor rest ln (col + size value)%Z
                         (tokens c ++ [mkToken kind1 value1 ln col])%list)
    end.

Fixpoint tokenize_loop (fuel : nat) (c : Cursor) : result TokenStream :=
  match fuel with
  | O => OutOfFuel
  | S fuel' =>
      match tokenize_step c with
      | Done ts => Ok ts
      | Fail what => Throw what
      | Next c' => tokenize_loop fuel' c'
      end
  end.

Definition start (source : string) : Cursor := mkCursor source 1 1 [].

(** Every iteration consumes at least one character, so one more
    iteration than there are characters is always enough
    (see [tokenize_loop_fuel]). *)
Definition tokenize (source : string) : result TokenStream :=
  tokenize_loop (S (String.length source)) (start source).

End Lexer.

(* ===================================================================== *)
(** ** ast.hpp *)

Module AST.

Module NodeKind.
Inductive t : Type :=
| Module | ImportFrom | Import | Let | Assign | FunctionDef | ExportNames
| ExportDefault | Return | If | While | For | Spawn
| Name | Number | String | Boolean | Null | BinaryOp | UnaryOp | Call
| Attribute | ListLiteral | DictLiteral.

Definition eqb (a b : t) : bool :=
  match a, b with
  | Module, Module | ImportFrom, ImportFrom | Import, Import | Let, Let
  | Assign, Assign | FunctionDef, FunctionDef | ExportNames, ExportNames
  | ExportDefault, ExportDefault | Return, Return | If, If | While, While
  | For, For | Spawn, Spawn | Name, Name | Number, Number | String, String
  | Boolean, Boolean | Null, Null | BinaryOp, BinaryOp | UnaryOp, UnaryOp
  | Call, Call | Attribute, Attribute | ListLiteral, ListLiteral
  | DictLiteral, DictLiteral => true
  | _, _ => false
  end.
End NodeKind.

Section Nodes.

(** The type of [Number::value]. *)
Variable double : Type.

(** The structs deriving from [Expression].  The constructor of the
    [String] struct is [String_], the name [String] being the
    constructor of Rocq strings. *)
Inductive Expression : Type :=
| Name (id : string)
| Number (value : double)
| String_ (value : string)
| Boolean (value : bool)
| Null
| BinaryOp (left : Expression) (op : string) (right : Expression)
| UnaryOp (op : string) (operand : Expression)
| Call (func : Expression) (args : list Expression)
| Attribute (value : Expression) (attr : string)
| ListLiteral (elements : list Expression)
| DictLiteral (pairs : list (Expression * Expression)).

(** What a [NodePtr] in a statement list points to: one of the
    statement structs, or an [Expression] standing as a statement.  (A
    [NodePtr] could also point to a [Module]; the parser never puts one
    in a body, and the type leaves it out.) *)
Inductive Node : Type :=
| ImportFrom (module : string) (names : list (string * string))
             (default_name : option string) (namespace_name : option string)
| Import (module : string) (alias : option string)
| Let (name : string) (value : Expression)
      (mutable_flag : bool) (exported : bool) (is_default : bool)
| Assign (target : Expression) (value : Expression)
| FunctionDef (name : string) (params : list string) (body : list Node)
              (exported : bool) (is_default : bool)
| ExportNames (names : list (string * string)) (source : option string)
| ExportDefault (value : Expression)
| Return (value : option Expression)
| If (test : Expression) (body : list Node) (orelse : list Node)
| While (test : Expression) (body : list Node)
| For (target : string) (iterator : Expression) (body : list Node)
| Spawn (call : Expression)
| Expr (e : Expression).

Record Module : Type := make_module { body : list Node }.

Definition expression_kind (e : Expression) : NodeKind.t :=
  match e with
  | Name _ => NodeKind.Name
  | Number _ => NodeKind.Number
  | String_ _ => NodeKind.String
  | Boolean _ => NodeKind.Boolean
  | Null => NodeKind.Null
  | BinaryOp _ _ _ => NodeKind.BinaryOp
  | UnaryOp _ _ => NodeKind.UnaryOp
  | Call _ _ => NodeKind.Call
  | Attribute _ _ => NodeKind.Attribute
  | ListLiteral _ => NodeKind.ListLiteral
  | DictLiteral _ => NodeKind.DictLiteral
  end.

(** [node->kind]. *)
Definition kind (n : Node) : NodeKind.t :=
  match n with
  | ImportFrom _ _ _ _ => NodeKind.ImportFrom
  | Import _ _ => NodeKind.Import
  | Let _ _ _ _ _ => NodeKind.Let
  | Assign _ _ => NodeKind.Assign
  | FunctionDef _ _ _ _ _ => NodeKind.FunctionDef
  | ExportNames _ _ => NodeKind.ExportNames
  | ExportDefault _ => NodeKind.ExportDefault
  | Return _ => NodeKind.Return
  | If _ _ _ => NodeKind.If
  | While _ _ => NodeKind.While
  | For _ _ _ => NodeKind.For
  | Spawn _ => NodeKind.Spawn
  | Expr e => expression_kind e
  end.

End Nodes.

Arguments Name {double} id.
Arguments Number {double} value.
Arguments String_ {double} value.
Arguments Boolean {double} value.
Arguments Null {double}.
Arguments BinaryOp {double} left op right.
Arguments UnaryOp {double} op operand.
Arguments Call {double} func args.
Arguments Attribute {double} value attr.
Arguments ListLiteral {double} elements.
Arguments DictLiteral {double} pairs.
Arguments ImportFrom {double} module names default_name namespace_name.
Arguments Import {double} module alias.
Arguments Let {double} name value mutable_flag exported is_default.
Arguments Assign {double} target value.
Arguments FunctionDef {double} name params body exported is_default.
Arguments ExportNames {double} names source.
Arguments ExportDefault {double} value.
Arguments Return {double} value.
Arguments If {double} test body orelse.
Arguments While {double} test body.
Arguments For {double} target iterator body.
Arguments Spawn {double} call.
Arguments Expr {double} e.
Arguments make_module {double} body.
Arguments body {double} m.
Arguments expression_kind {double} e.
Arguments kind {double} n.

End AST.

(* ===================================================================== *)
(** ** parser.cpp *)

Module Parser.

Import Lexer AST.

(** A member function of [Parser]: it reads [tokens_] from [index_] on and
    advances [index_].  The state is the part of [tokens_] from [index_]
    on; the tokens before [index_] are never read again. *)
Definition M (A : Type) : Type := TokenStream -> result (A * TokenStream).

Definition ret {A} (a : A) : M A := fun ts => Ok (a, ts).

Definition bind {A B} (m : M A) (k : A -> M B) : M B :=
  fun ts =>
    match m ts with
    | Ok (a, ts') => k a ts'
    | Throw what => Throw what
    | OutOfRange => OutOfRange
    | OutOfFuel => OutOfFuel
    end.

Definition throw {A} (what : string) : M A := fun _ => Throw what.
Definition out_of_fuel {A} : M A := fun _ => OutOfFuel.

Declare Scope parser_scope.
Delimit Scope parser_scope with parser.
Notation "x <- m ;; k" := (bind m (fun x => k))
  (at level 61, m at next level, right associativity) : parser_scope.
Notation "m ;;; k" := (bind m (fun _ => k))
  (at level 61, right associativity) : parser_scope.
Open Scope parser_scope.

(** [tokens_[index_]]. *)
Definition current : M Token :=
  fun ts => match ts with
            | [] => OutOfRange
            | t :: _ => Ok (t, ts)
            end.

(** [tokens_[index_ + 1]]. *)
Definition peek : M Token :=
  fun ts => match ts with
            | _ :: t :: _ => Ok (t, ts)
            | _ => OutOfRange
            end.

(** [consume(expected)]; [consume ""] is the call without argument. *)
Definition consume (expected : string) : M Token :=
  fun ts => match ts with
            | [] => OutOfRange
            | token :: ts' =>
                if negb (Str.is_empty expected) && negb (type token =? expected)
                then Throw ("Expected " ++ expected ++ " but got " ++ type token
                            ++ " at line " ++ Str.of_Z (line token))
                else Ok (token, ts')
            end.

(** [match(type)]. *)
Definition match_ (ty : string) : M bool :=
  fun ts => match ts with
            | [] => OutOfRange
            | t :: ts' => if type t =? ty then Ok (true, ts') else Ok (false, ts)
            end.

Definition is_separator (t : Token) : bool :=
  (type t =? "NEWLINE") || (type t =? "SEMICOLON").

Fixpoint optional_newline (fuel : nat) : M unit :=
  match fuel with
  | O => out_of_fuel
  | S fuel' =>
      tok <- current ;;
      if is_separator tok then consume "" ;;; optional_newline fuel'
      else ret tt
  end.

Fixpoint parse_dotted_name_loop (fuel : nat) (result : string) : M string :=
  match fuel with
  | O => out_of_fuel
  | S fuel' =>
      tok <- current ;;
      if type tok =? "DOT" then
        consume "DOT" ;;;
        name <- consume "NAME" ;;
        parse_dotted_name_loop fuel' (result ++ "." ++ value name)
      else ret result
  end.

Definition parse_dotted_name (fuel : nat) : M string :=
  name <- consume "NAME" ;;
  parse_dotted_name_loop fuel (value name).

Definition parse_module_specifier (fuel : nat) : M string :=
  tok <- current ;;
  if type tok =? "STRING" then
    t <- consume "STRING" ;; ret (value t)
  else parse_dotted_name fuel.

(** The loop shared, word for word, by [parse_import_specifiers] and
    [parse_export_specifiers]; it stops at RBRACE or after a specifier that
    no COMMA follows. *)
Fixpoint parse_specifiers_loop (fuel : nat) (names : list (string * string))
  : M (list (string * string)) :=
  match fuel with
  | O => out_of_fuel
  | S fuel' =>
      tok <- current ;;
      if negb (type tok =? "RBRACE") then
        imported <- consume "NAME" ;;
        has_as <- match_ "AS" ;;
        alias <- (if has_as : bool
                  then (t <- consume "NAME" ;; ret (value t))
                  else ret (value imported)) ;;
        let names' := (names ++ [(value imported, alias)])%list in
        more <- match_ "COMMA" ;;
        if more : bool then parse_specifiers_loop fuel' names' else ret names'
      else ret names
  end.

Definition parse_import_specifiers (fuel : nat) : M (list (string * string)) :=
  consume "LBRACE" ;;;
  names <- parse_specifiers_loop fuel [] ;;
  consume "RBRACE" ;;;
  ret names.

Definition parse_export_specifiers (fuel : nat) : M (list (string * string)) :=
  consume "LBRACE" ;;;
  names <- parse_specifiers_loop fuel [] ;;
  consume "RBRACE" ;;;
  ret names.

(** [import STRING [as NAME]] and [import MODULE [as NAME]] end alike. *)
Definition parse_optional_alias : M (option string) :=
  has_as <- match_ "AS" ;;
  if has_as : bool then (t <- consume "NAME" ;; ret (Some (value t))) else ret None.

Section Grammar.

Context {double : Type}.

(** [std::stod]: the value, or the [what()] of the [std::invalid_argument]
    or [std::out_of_range] it throws. *)
Variable stod : string -> double + string.

Definition parse_import_statement (fuel : nat) : M (Node double) :=
  consume "IMPORT" ;;;
  tok <- current ;;
  if type tok =? "STRING" then
    module_name <- consume "STRING" ;;
    alias <- parse_optional_alias ;;
    ret (Import (value module_name) alias)
  else
    name_then_comma <-
      (tok <- current ;;
       if type tok =? "NAME" then (nxt <- peek ;; ret (type nxt =? "COMMA"))
       else ret false) ;;
    bindings <-
      (if name_then_comma : bool then
         default_target <- consume "NAME" ;;
         consume "COMMA" ;;;
         tok <- current ;;
         if type tok =? "LBRACE" then
           names <- parse_import_specifiers fuel ;;
           ret (Some (value default_target), names, None)
         else throw "Expected named import list after comma"
       else
         name_then_from <-
           (tok <- current ;;
            if type tok =? "NAME" then (nxt <- peek ;; ret (type nxt =? "FROM"))
            else ret false) ;;
         if name_then_from : bool then
           default_target <- consume "NAME" ;;
           ret (Some (value default_target), [], None)
         else
           tok <- current ;;
           if type tok =? "LBRACE" then
             names <- parse_import_specifiers fuel ;;
             ret (None, names, None)
           else if (type tok =? "OP") && (value tok =? "*") then
             consume "OP" ;;;
             consume "AS" ;;;
             namespace_name <- consume "NAME" ;;
             ret (None, [], Some (value namespace_name))
           else ret (None, [], None)) ;;
    let '(default_target, names, namespace_name) := bindings in
    if match default_target with Some _ => true | None => false end
       || negb (match names with [] => true | _ => false end)
       || match namespace_name with Some _ => true | None => false end
    then
      consume "FROM" ;;;
      module_name <- parse_module_specifier fuel ;;
      ret (ImportFrom module_name names default_target namespace_name)
    else
      module_name <- parse_module_specifier fuel ;;
      alias <- parse_optional_alias ;;
      ret (Import module_name alias).

Section Expressions.

(** The recursive call [parse_expression()]; the knot is tied by
    [parse_expression] below. *)
Variable parse_expression : M (Expression double).

(** [while (true) { xs.push_back(parse_expression()); if (!match("COMMA")) break; }],
    the loop of a call's arguments and of a list literal. *)
Fixpoint parse_expression_list (fuel : nat) (xs : list (Expression double))
  : M (list (Expression double)) :=
  match fuel with
  | O => out_of_fuel
  | S fuel' =>
      x <- parse_expression ;;
      let xs' := (xs ++ [x])%list in
      more <- match_ "COMMA" ;;
      if more : bool then parse_expression_list fuel' xs' else ret xs'
  end.

Fixpoint parse_dict_pairs (fuel : nat) (pairs : list (Expression double * Expression double))
  : M (list (Expression double * Expression double)) :=
  match fuel with
  | O => out_of_fuel
  | S fuel' =>
      key <- parse_expression ;;
      consume "COLON" ;;;
      val <- parse_expression ;;
      let pairs' := (pairs ++ [(key, val)])%list in
      more <- match_ "COMMA" ;;
      if more : bool then parse_dict_pairs fuel' pairs' else ret pairs'
  end.

Definition parse_primary (fuel : nat) : M (Expression double) :=
  tok <- current ;;
  if type tok =? "NUMBER" then
    consume "" ;;;
    match stod (value tok) with
    | inl d => ret (Number d)
    | inr what => throw what
    end
  else if type tok =? "STRING" then
    consume "" ;;; ret (String_ (value tok))
  else if type tok =? "TRUE" then
    consume "" ;;; ret (Boolean true)
  else if type tok =? "FALSE" then
    consume "" ;;; ret (Boolean false)
  else if type tok =? "NULL" then
    consume "" ;;; ret Null
  else if type tok =? "NAME" then
    consume "" ;;; ret (Name (value tok))
  else if type tok =? "LPAREN" then
    consume "" ;;;
    expr <- parse_expression ;;
    consume "RPAREN" ;;;
    ret expr
  else if type tok =? "LBRACKET" then
    consume "" ;;;
    nxt <- current ;;
    elements <- (if negb (type nxt =? "RBRACKET")
                 then parse_expression_list fuel []
                 else ret []) ;;
    consume "RBRACKET" ;;;
    ret (ListLiteral elements)
  else if type tok =? "LBRACE" then
    consume "" ;;;
    nxt <- current ;;
    pairs <- (if negb (type nxt =? "RBRACE")
              then parse_dict_pairs fuel []
              else ret []) ;;
    consume "RBRACE" ;;;
    ret (DictLiteral pairs)
  else
    throw ("Unexpected token " ++ type tok ++ " at line " ++ Str.of_Z (line tok)).

(** The [while (true)] loop of [parse_call_expression]. *)
Fixpoint parse_call_loop (fuel : nat) (expr : Expression double) : M (Expression double) :=
  match fuel with
  | O => out_of_fuel
  | S fuel' =>
      is_call <- match_ "LPAREN" ;;
      if is_call : bool then
        nxt <- current ;;
        args <- (if negb (type nxt =? "RPAREN")
                 then parse_expression_list fuel' []
                 else ret []) ;;
        consume "RPAREN" ;;;
        parse_call_loop fuel' (Call expr args)
      else
        is_attr <- match_ "DOT" ;;
        if is_attr : bool then
          attr <- consume "NAME" ;;
          parse_call_loop fuel' (Attribute expr (value attr))
        else ret expr
  end.

Definition parse_call_expression (fuel : nat) : M (Expression double) :=
  expr <- parse_primary fuel ;;
  parse_call_loop fuel expr.

Fixpoint parse_unary (fuel : nat) : M (Expression double) :=
  match fuel with
  | O => out_of_fuel
  | S fuel' =>
      tok <- current ;;
      if (type tok =? "OP") && ((value tok =? "-") || (value tok =? "!")) then
        op <- consume "OP" ;;
        operand <- parse_unary fuel' ;;
        ret (UnaryOp (value op) operand)
      else parse_call_expression fuel'
  end.

(** The loop of a left-associative binary level: while the current
    token is an OP whose text is one of [ops], build a [BinaryOp] whose
    right operand is parsed by [next].  The six levels of the source
    differ in [ops] and [next] only. *)
Fixpoint parse_binary_loop (ops : list string) (next : M (Expression double))
         (fuel : nat) (expr : Expression double) : M (Expression double) :=
  match fuel with
  | O => out_of_fuel
  | S fuel' =>
      tok <- current ;;
      if (type tok =? "OP") && existsb (String.eqb (value tok)) ops then
        op <- consume "OP" ;;
        right <- next ;;
        parse_binary_loop ops next fuel' (BinaryOp expr (value op) right)
      else ret expr
  end.

Definition parse_factor (fuel : nat) : M (Expression double) :=
  expr <- parse_unary fuel ;;
  parse_binary_loop ["*"; "/"; "%"] (parse_unary fuel) fuel expr.

Definition parse_term (fuel : nat) : M (Expression double) :=
  expr <- parse_factor fuel ;;
  parse_binary_loop ["+"; "-"] (parse_factor fuel) fuel expr.

Definition parse_comparison (fuel : nat) : M (Expression double) :=
  expr <- parse_term fuel ;;
  parse_binary_loop ["<"; ">"; "<="; ">="] (parse_term fuel) fuel expr.

Definition parse_equality (fuel : nat) : M (Expression double) :=
  expr <- parse_comparison fuel ;;
  parse_binary_loop ["=="; "!="] (parse_comparison fuel) fuel expr.

Definition parse_and (fuel : nat) : M (Expression double) :=
  expr <- parse_equality fuel ;;
  parse_binary_loop ["&&"] (parse_equality fuel) fuel expr.

Definition parse_or (fuel : nat) : M (Expression double) :=
  expr <- parse_and fuel ;;
  parse_binary_loop ["||"] (parse_and fuel) fuel expr.

End Expressions.

Fixpoint parse_expression (fuel : nat) : M (Expression double) :=
  match fuel with
  | O => out_of_fuel
  | S fuel' => parse_or (parse_expression fuel') fuel'
  end.

Definition parse_variable_statement (fuel : nat) (mutable_flag exported is_default : bool)
  : M (Node double) :=
  name <- consume "NAME" ;;
  tok <- current ;;
  if negb (type tok =? "OP") || negb (value tok =? "=") then
    throw "Expected '=' in variable declaration"
  else
    consume "OP" ;;;
    val <- parse_expression fuel ;;
    ret (Let (value name) val mutable_flag exported is_default).

(** [while (true) { params.push_back(consume("NAME").value); if (!match("COMMA")) break; }] *)
Fixpoint parse_params_loop (fuel : nat) (params : list string) : M (list string) :=
  match fuel with
  | O => out_of_fuel
  | S fuel' =>
      p <- consume "NAME" ;;
      let params' := (params ++ [value p])%list in
      more <- match_ "COMMA" ;;
      if more : bool then parse_params_loop fuel' params' else ret params'
  end.

Section Statements.

(** The recursive call [parse_statement()]; the knot is tied by
    [parse_statement] below. *)
Variable parse_statement : M (Node double).

(** The [while (current().type != "RBRACE")] loop of [parse_block]. *)
Fixpoint parse_block_loop (fuel : nat) (body : list (Node double)) : M (list (Node double)) :=
  match fuel with
  | O => out_of_fuel
  | S fuel' =>
      tok <- current ;;
      if negb (type tok =? "RBRACE") then
        if is_separator tok then
          consume "" ;;; parse_block_loop fuel' body
        else
          stmt <- parse_statement ;;
          parse_block_loop fuel' (body ++ [stmt])%list
      else ret body
  end.

Definition parse_block (fuel : nat) : M (list (Node double)) :=
  consume "LBRACE" ;;;
  body <- parse_block_loop fuel [] ;;
  consume "RBRACE" ;;;
  ret body.

Definition parse_function_statement (fuel : nat) (exported is_default : bool)
  : M (Node double) :=
  consume "" ;;;
  tok <- current ;;
  name <- (if type tok =? "NAME" then (t <- consume "NAME" ;; ret (value t))
           else if is_default then ret "_default_export"
           else throw "Function declaration requires a name") ;;
  consume "LPAREN" ;;;
  tok <- current ;;
  params <- (if negb (type tok =? "RPAREN") then parse_params_loop fuel [] else ret []) ;;
  consume "RPAREN" ;;;
  body <- parse_block fuel ;;
  ret (FunctionDef name params body exported is_default).

Definition parse_export_statement (fuel : nat) : M (Node double) :=
  consume "EXPORT" ;;;
  tok <- current ;;
  if type tok =? "DEFAULT" then
    consume "DEFAULT" ;;;
    tok <- current ;;
    if (type tok =? "FN") || (type tok =? "FUNCTION") then
      parse_function_statement fuel true true
    else if (type tok =? "LET") || (type tok =? "CONST") then
      let mut := type tok =? "LET" in
      consume "" ;;;
      parse_variable_statement fuel mut true true
    else
      val <- parse_expression fuel ;;
      ret (ExportDefault val)
  else if (type tok =? "FN") || (type tok =? "FUNCTION") then
    parse_function_statement fuel true false
  else if (type tok =? "LET") || (type tok =? "CONST") then
    let mut := type tok =? "LET" in
    consume "" ;;;
    parse_variable_statement fuel mut true false
  else if type tok =? "LBRACE" then
    names <- parse_export_specifiers fuel ;;
    has_from <- match_ "FROM" ;;
    source <- (if has_from : bool
               then (m <- parse_module_specifier fuel ;; ret (Some m))
               else ret None) ;;
    ret (ExportNames names source)
  else throw "Unsupported export statement".

(** The body of [Parser::parse_statement]. *)
Definition parse_statement_body (fuel : nat) : M (Node double) :=
  tok <- current ;;
  if type tok =? "IMPORT" then
    stmt <- parse_import_statement fuel ;;
    optional_newline fuel ;;;
    ret stmt
  else if type tok =? "EXPORT" then
    stmt <- parse_export_statement fuel ;;
    optional_newline fuel ;;;
    ret stmt
  else if (type tok =? "LET") || (type tok =? "CONST") then
    let is_mutable := type tok =? "LET" in
    consume "" ;;;
    stmt <- parse_variable_statement fuel is_mutable false false ;;
    optional_newline fuel ;;;
    ret stmt
  else if (type tok =? "FN") || (type tok =? "FUNCTION") then
    stmt <- parse_function_statement fuel false false ;;
    optional_newline fuel ;;;
    ret stmt
  else if type tok =? "RETURN" then
    consume "" ;;;
    nxt <- current ;;
    val <- (if negb (type nxt =? "NEWLINE") && negb (type nxt =? "RBRACE")
               && negb (type nxt =? "EOF")
            then (e <- parse_expression fuel ;; ret (Some e))
            else ret None) ;;
    optional_newline fuel ;;;
    ret (Return val)
  else if type tok =? "IF" then
    consume "" ;;;
    test <- parse_expression fuel ;;
    body <- parse_block fuel ;;
    has_else <- match_ "ELSE" ;;
    orelse <- (if has_else : bool then parse_block fuel else ret []) ;;
    optional_newline fuel ;;;
    ret (If test body orelse)
  else if type tok =? "WHILE" then
    consume "" ;;;
    test <- parse_expression fuel ;;
    body <- parse_block fuel ;;
    optional_newline fuel ;;;
    ret (While test body)
  else if type tok =? "FOR" then
    consume "" ;;;
    target <- consume "NAME" ;;
    consume "IN" ;;;
    iterator <- parse_expression fuel ;;
    body <- parse_block fuel ;;
    optional_newline fuel ;;;
    ret (For (value target) iterator body)
  else if type tok =? "SPAWN" then
    consume "" ;;;
    call_expr <- parse_expression fuel ;;
    if negb (NodeKind.eqb (expression_kind call_expr) NodeKind.Call) then
      throw "spawn expects a function call"
    else
      optional_newline fuel ;;;
      ret (Spawn call_expr)
  else
    expr <- parse_expression fuel ;;
    is_assignment <-
      (if NodeKind.eqb (expression_kind expr) NodeKind.Name
          || NodeKind.eqb (expression_kind expr) NodeKind.Attribute
       then (nxt <- current ;; ret ((type nxt =? "OP") && (value nxt =? "=")))
       else ret false) ;;
    if is_assignment : bool then
      consume "OP" ;;;
      val <- parse_expression fuel ;;
      optional_newline fuel ;;;
      ret (Assign expr val)
    else
      optional_newline fuel ;;;
      ret (Expr expr).

End Statements.

Fixpoint parse_statement (fuel : nat) : M (Node double) :=
  match fuel with
  | O => out_of_fuel
  | S fuel' => parse_statement_body (parse_statement fuel') fuel'
  end.

(** The [while (current().type != "EOF")] loop of [Parser::parse]. *)
Fixpoint parse_loop (fuel : nat) (body : list (Node double)) : M (list (Node double)) :=
  match fuel with
  | O => out_of_fuel
  | S fuel' =>
      tok <- current ;;
      if negb (type tok =? "EOF") then
        if is_separator tok then
          consume "" ;;; parse_loop fuel' body
        else
          stmt <- parse_statement fuel' ;;
          parse_loop fuel' (body ++ [stmt])%list
      else ret body
  end.

(** Every call consumes a token before it recurses, so a budget of the
    number of tokens plus a constant is never exhausted on a stream that
    holds an EOF token. *)
Definition fuel_for (tokens : TokenStream) : nat := List.length tokens + 5.

(** [trif::parser::parse]. *)
Definition parse (tokens : TokenStream) : result (Module double) :=
  match parse_loop (fuel_for tokens) [] tokens with
  | Ok (body, _) => Ok (make_module body)
  | Throw what => Throw what
  | OutOfRange => OutOfRange
  | OutOfFuel => OutOfFuel
  end.

End Grammar.

End Parser.

(* ===================================================================== *)
(** ** codegen.cpp *)

Module IndentedEmitter.

Record t : Type := mk {
  stream_ : string;
  indent_ : nat
}.

Definition init : t := mk "" 0.

Definition emit (line : string) (e : t) : t :=
  mk (stream_ e ++ Str.spaces (indent_ e * 4) ++ line ++ String LF "") (indent_ e).

Definition indent (e : t) : t := mk (stream_ e) (S (indent_ e)).

Definition dedent (e : t) : result t :=
  match indent_ e with
  | O => Throw "Indentation underflow"
  | S n => Ok (mk (stream_ e) n)
  end.

Definition str (e : t) : string := stream_ e.

End IndentedEmitter.

(** A [void] member function of a visitor: it updates the visitor's state or
    throws. *)
Module Visit.

Section Combinators.
Context {S : Type}.

Definition V : Type := S -> result S.

Definition skip : V := fun st => Ok st.

Definition seq (a b : V) : V :=
  fun st => match a st with
            | Ok st' => b st'
            | r => r
            end.

Definition when (c : bool) (a : V) : V := if c then a else skip.

(** [for (const auto& x : xs) f(x);] *)
Definition for_each {A} (f : A -> V) : list A -> V :=
  fix go (xs : list A) : V :=
    match xs with
    | [] => skip
    | x :: xs' => seq (f x) (go xs')
    end.
End Combinators.

Arguments V S : clear implicits.

End Visit.

Declare Scope visit_scope.
Delimit Scope visit_scope with visit.
Notation "a ;; b" := (Visit.seq a b) (at level 61, right associativity) : visit_scope.

(** [join(values, sep)] is [String.concat sep values]. *)
Definition join (values : list string) (sep : string) : string := String.concat sep values.

(** [repr_string], the same function in both visitors. *)
Fixpoint repr_string_body (value : string) : string :=
  match value with
  | "" => ""
  | String c rest =>
      (if Ascii.eqb c BACKSLASH then String BACKSLASH (String BACKSLASH "")
       else if Ascii.eqb c DQUOTE then String BACKSLASH (String DQUOTE "")
       else if Ascii.eqb c LF then String BACKSLASH "n"
       else if Ascii.eqb c TAB then String BACKSLASH "t"
       else if Ascii.eqb c CR then String BACKSLASH "r"
       else String c "") ++ repr_string_body rest
  end.

Definition repr_string (value : string) : string :=
  String DQUOTE (repr_string_body value ++ String DQUOTE "").

Module PythonVisitor.

Import AST Visit.
Open Scope visit_scope.

Record State : Type := mkState {
  emitter_ : IndentedEmitter.t;
  temp_index_ : Z
}.

Definition init : State := mkState IndentedEmitter.init 0.

Definition emit (line : string) : V State :=
  fun st => Ok (mkState (IndentedEmitter.emit line (emitter_ st)) (temp_index_ st)).

Definition indent : V State :=
  fun st => Ok (mkState (IndentedEmitter.indent (emitter_ st)) (temp_index_ st)).

Definition dedent : V State :=
  fun st => match IndentedEmitter.dedent (emitter_ st) with
            | Ok e => Ok (mkState e (temp_index_ st))
            | Throw what => Throw what
            | OutOfRange => OutOfRange
            | OutOfFuel => OutOfFuel
            end.

(** [temp(prefix)]: the name, and the state with the counter incremented;
    [with_temp prefix k] runs [k] on the fresh name. *)
Definition temp (prefix : string) (st : State) : string * State :=
  ("__trif_" ++ prefix ++ "_" ++ Str.of_Z (temp_index_ st),
   mkState (emitter_ st) (temp_index_ st + 1)).

Definition with_temp (prefix : string) (k : string -> V State) : V State :=
  fun st => let '(name, st') := temp prefix st in k name st'.

Section Platform.

Context {double : Type}.

(** [oss << value] for a [double]. *)
Variable double_to_string : double -> string.

Fixpoint render_expression (expr : Expression double) : string :=
  match expr with
  | Name id => id
  | Number value => double_to_string value
  | String_ value => repr_string value
  | Boolean value => if value then "True" else "False"
  | Null => "None"
  | BinaryOp lhs op rhs =>
      render_expression lhs ++ " " ++ op ++ " " ++ render_expression rhs
  | UnaryOp op operand => op ++ render_expression operand
  | Call func args =>
      render_expression func ++ "(" ++ join (List.map render_expression args) ", " ++ ")"
  | Attribute value attr => render_expression value ++ "." ++ attr
  | ListLiteral elements =>
      "[" ++ join (List.map render_expression elements) ", " ++ "]"
  | DictLiteral pairs =>
      "{" ++ join (List.map (fun kv => render_expression (fst kv) ++ ": "
                                       ++ render_expression (snd kv)) pairs) ", " ++ "}"
  end.

Definition replace_dot_dash (c : ascii) : ascii :=
  if Ascii.eqb c "." || Ascii.eqb c "-" then "_"%char else c.

Definition visit_import (module : string) (alias : option string) : V State :=
  let target := Str.map replace_dot_dash (match alias with Some a => a | None => module end) in
  emit (target ++ " = runtime.import_module('" ++ module ++ "')").

Definition visit_import_from (module : string) (names : list (string * string))
           (default_name namespace_name : option string) : V State :=
  with_temp "import" (fun temp_name =>
    emit (temp_name ++ " = runtime.import_module('" ++ module ++ "')") ;;
    match namespace_name with
    | Some ns => emit (ns ++ " = " ++ temp_name)
    | None => skip
    end ;;
    match default_name with
    | Some d => emit (d ++ " = runtime.extract_default(" ++ temp_name ++ ")")
    | None => skip
    end ;;
    for_each (fun '(source, alias) =>
                emit (alias ++ " = runtime.extract_export(" ++ temp_name ++ ", '"
                      ++ source ++ "')")) names).

Definition visit_let (name : string) (value : Expression double)
           (mutable_flag exported is_default : bool) : V State :=
  let assignment := name ++ " = " ++ render_expression value in
  let assignment := if negb mutable_flag then assignment ++ "  # const" else assignment in
  emit assignment ;;
  when exported (emit ("__trif_exports__['" ++ name ++ "'] = " ++ name)) ;;
  when is_default (emit ("__trif_default_export__ = " ++ name)).

Definition visit_assign (target value : Expression double) : V State :=
  emit (render_expression target ++ " = " ++ render_expression value).

Definition visit_return (value : option (Expression double)) : V State :=
  match value with
  | None => emit "return None"
  | Some v => emit ("return " ++ render_expression v)
  end.

Definition visit_export_names (names : list (string * string)) (source : option string)
  : V State :=
  match source with
  | Some src =>
      with_temp "export" (fun temp_name =>
        emit (temp_name ++ " = runtime.import_module('" ++ src ++ "')") ;;
        for_each (fun '(source, alias) =>
                    emit ("__trif_exports__['" ++ alias ++ "'] = runtime.extract_export("
                          ++ temp_name ++ ", '" ++ source ++ "')")) names)
  | None =>
      for_each (fun '(local, alias) =>
                  emit ("__trif_exports__['" ++ alias ++ "'] = " ++ local)) names
  end.

Definition visit_export_default (value : Expression double) : V State :=
  emit ("__trif_default_export__ = " ++ render_expression value).

Definition visit_spawn (call : Expression double) : V State :=
  emit ("runtime.spawn(" ++ render_expression call ++ ")").

(** [node->body.back()->kind != NodeKind::Return], on a body that is
    not empty. *)
Definition last_is_not_Return (body : list (Node double)) : bool :=
  match List.last (List.map Some body) None with
  | Some stmt => negb (NodeKind.eqb (kind stmt) NodeKind.Return)
  | None => true
  end.

Section Recursive.

(** The recursive call [visit(stmt)]; the knot is tied by [visit]. *)
Variable visit : Node double -> V State.

Definition visit_function_def (name : string) (params : list string)
           (body : list (Node double)) (exported is_default : bool) : V State :=
  emit ("def " ++ name ++ "(" ++ join params ", " ++ "):") ;;
  indent ;;
  match body with
  | [] => emit "return None"
  | _ :: _ =>
      for_each visit body ;;
      when (match body with [] => true | _ => false end || last_is_not_Return body)
           (emit "return None")
  end ;;
  dedent ;;
  when exported (emit ("__trif_exports__['" ++ name ++ "'] = " ++ name)) ;;
  when is_default (emit ("__trif_default_export__ = " ++ name)) ;;
  emit "".

Definition visit_if (test : Expression double) (body orelse : list (Node double))
  : V State :=
  emit ("if " ++ render_expression test ++ ":") ;;
  indent ;;
  for_each visit body ;;
  dedent ;;
  when (negb (match orelse with [] => true | _ => false end))
       (emit "else:" ;;
        indent ;;
        for_each visit orelse ;;
        dedent).

Definition visit_while (test : Expression double) (body : list (Node double)) : V State :=
  emit ("while " ++ render_expression test ++ ":") ;;
  indent ;;
  for_each visit body ;;
  dedent.

Definition visit_for (target : string) (iterator : Expression double)
           (body : list (Node double)) : V State :=
  emit ("for " ++ target ++ " in " ++ render_expression iterator ++ ":") ;;
  indent ;;
  for_each visit body ;;
  dedent.

End Recursive.

Fixpoint visit (node : Node double) : V State :=
  match node with
  | Import module alias => visit_import module alias
  | ImportFrom module names default_name namespace_name =>
      visit_import_from module names default_name namespace_name
  | Let name value mutable_flag exported is_default =>
      visit_let name value mutable_flag exported is_default
  | Assign target value => visit_assign target value
  | FunctionDef name params body exported is_default =>
      visit_function_def visit name params body exported is_default
  | Return value => visit_return value
  | ExportNames names source => visit_export_names names source
  | ExportDefault value => visit_export_default value
  | If test body orelse => visit_if visit test body orelse
  | While test body => visit_while visit test body
  | For target iterator body => visit_for visit target iterator body
  | Spawn call => visit_spawn call
  | Expr e => emit (render_expression e)
  end.

Definition generate_from (module : Module double) : V State :=
  emit "import pathlib" ;;
  emit "import sys" ;;
  emit "_trif_origin = pathlib.Path(__file__).resolve().parent if '__file__' in globals() else pathlib.Path.cwd()" ;;
  emit "for _candidate in (_trif_origin, _trif_origin.parent):" ;;
  indent ;;
  emit "candidate_pkg = _candidate / 'trif_lang'" ;;
  emit "if candidate_pkg.exists():" ;;
  indent ;;
  emit "if str(_candidate) not in sys.path:" ;;
  indent ;;
  emit "sys.path.insert(0, str(_candidate))" ;;
  dedent ;;
  emit "break" ;;
  dedent ;;
  dedent ;;
  emit "from trif_lang.runtime import runtime" ;;
  emit "__trif_exports__ = {}" ;;
  emit "__trif_default_export__ = None" ;;
  emit "" ;;
  for_each visit (body module) ;;
  emit "" ;;
  emit "runtime.register_module_exports(__name__, __trif_exports__, __trif_default_export__)" ;;
  emit "" ;;
  emit "if __name__ == '__main__':" ;;
  indent ;;
  emit "runtime.default_entry_point(locals())" ;;
  dedent.

(** [PythonVisitor::generate] on a visitor in state [st]. *)
Definition generate (module : Module double) (st : State) : result string :=
  match generate_from module st with
  | Ok st' => Ok (IndentedEmitter.str (emitter_ st'))
  | Throw what => Throw what
  | OutOfRange => OutOfRange
  | OutOfFuel => OutOfFuel
  end.

End Platform.

End PythonVisitor.

Module JavaScriptVisitor.

Import AST Visit.
Open Scope visit_scope.

(** The visitor's only member is [emitter_]. *)
Definition State : Type := IndentedEmitter.t.

Definition init : State := IndentedEmitter.init.

Definition emit (line : string) : V State :=
  fun st => Ok (IndentedEmitter.emit line st).

Definition indent : V State := fun st => Ok (IndentedEmitter.indent st).

Definition dedent : V State := IndentedEmitter.dedent.

Section Platform.

Context {double : Type}.

(** [oss << value] for a [double]. *)
Variable double_to_string : double -> string.

Fixpoint render_expression (expr : Expression double) : string :=
  match expr with
  | Name id => id
  | Number value => double_to_string value
  | String_ value => repr_string value
  | Boolean value => if value then "true" else "false"
  | Null => "null"
  | BinaryOp lhs op rhs =>
      render_expression lhs ++ " " ++ op ++ " " ++ render_expression rhs
  | UnaryOp op operand => op ++ render_expression operand
  | Call func args =>
      render_expression func ++ "(" ++ join (List.map render_expression args) ", " ++ ")"
  | Attribute value attr => render_expression value ++ "." ++ attr
  | ListLiteral elements =>
      "[" ++ join (List.map render_expression elements) ", " ++ "]"
  | DictLiteral pairs =>
      "{" ++ join (List.map (fun kv => render_expression (fst kv) ++ ": "
                                       ++ render_expression (snd kv)) pairs) ", " ++ "}"
  end.

Definition visit_import (module : string) (alias : option string) : V State :=
  let target := match alias with Some a => a | None => module end in
  emit ("const " ++ target ++ " = await runtime.importModule('" ++ module ++ "');").

Definition visit_import_from (module : string) (names : list (string * string))
           (default_name namespace_name : option string) : V State :=
  emit ("const __mod = await runtime.importModule('" ++ module ++ "');") ;;
  match namespace_name with
  | Some ns => emit ("const " ++ ns ++ " = __mod;")
  | None => skip
  end ;;
  match default_name with
  | Some d => emit ("const " ++ d ++ " = runtime.extractDefault(__mod);")
  | None => skip
  end ;;
  for_each (fun '(source, alias) =>
              emit ("const " ++ alias ++ " = runtime.extractExport(__mod, '"
                    ++ source ++ "');")) names.

Definition visit_let (name : string) (value : Expression double)
           (mutable_flag exported is_default : bool) : V State :=
  let keyword := if mutable_flag then "let" else "const" in
  emit (keyword ++ " " ++ name ++ " = " ++ render_expression value ++ ";") ;;
  when exported (emit ("__trif_exports__.set('" ++ name ++ "', " ++ name ++ ");")) ;;
  when is_default (emit ("__trif_default_export__ = " ++ name ++ ";")).

Definition visit_assign (target value : Expression double) : V State :=
  emit (render_expression target ++ " = " ++ render_expression value ++ ";").

Definition visit_return (value : option (Expression double)) : V State :=
  match value with
  | None => emit "return null;"
  | Some v => emit ("return " ++ render_expression v ++ ";")
  end.

Definition visit_export_names (names : list (string * string)) (source : option string)
  : V State :=
  match source with
  | Some src =>
      emit ("const __mod = await runtime.importModule('" ++ src ++ "');") ;;
      for_each (fun '(source, alias) =>
                  emit ("__trif_exports__.set('" ++ alias
                        ++ "', runtime.extractExport(__mod, '" ++ source ++ "'));")) names
  | None =>
      for_each (fun '(local, alias) =>
                  emit ("__trif_exports__.set('" ++ alias ++ "', " ++ local ++ ");")) names
  end.

Definition visit_export_default (value : Expression double) : V State :=
  emit ("__trif_default_export__ = " ++ render_expression value ++ ";").

Definition visit_spawn (call : Expression double) : V State :=
  emit ("runtime.spawn(" ++ render_expression call ++ ");").

Section Recursive.

(** The recursive call [visit(stmt)]; the knot is tied by [visit]. *)
Variable visit : Node double -> V State.

Definition visit_function_def (name : string) (params : list string)
           (body : list (Node double)) (exported is_default : bool) : V State :=
  emit ("function " ++ name ++ "(" ++ join params ", " ++ ") {") ;;
  indent ;;
  match body with
  | [] => emit "return null;"
  | _ :: _ => for_each visit body ;; emit "return null;"
  end ;;
  dedent ;;
  emit "}" ;;
  when exported (emit ("__trif_exports__.set('" ++ name ++ "', " ++ name ++ ");")) ;;
  when is_default (emit ("__trif_default_export__ = " ++ name ++ ";")) ;;
  emit "".

Definition visit_if (test : Expression double) (body orelse : list (Node double))
  : V State :=
  emit ("if (" ++ render_expression test ++ ") {") ;;
  indent ;;
  for_each visit body ;;
  dedent ;;
  when (negb (match orelse with [] => true | _ => false end))
       (emit "} else {" ;;
        indent ;;
        for_each visit orelse ;;
        dedent) ;;
  emit "}".

Definition visit_while (test : Expression double) (body : list (Node double)) : V State :=
  emit ("while (" ++ render_expression test ++ ") {") ;;
  indent ;;
  for_each visit body ;;
  dedent ;;
  emit "}".

Definition visit_for (target : string) (iterator : Expression double)
           (body : list (Node double)) : V State :=
  emit ("for (const " ++ target ++ " of " ++ render_expression iterator ++ ") {") ;;
  indent ;;
  for_each visit body ;;
  dedent ;;
  emit "}".

End Recursive.

Fixpoint visit (node : Node double) : V State :=
  match node with
  | Import module alias => visit_import module alias
  | ImportFrom module names default_name namespace_name =>
      visit_import_from module names default_name namespace_name
  | Let name value mutable_flag exported is_default =>
      visit_let name value mutable_flag exported is_default
  | Assign target value => visit_assign target value
  | FunctionDef name params body exported is_default =>
      visit_function_def visit name params body exported is_default
  | Return value => visit_return value
  | ExportNames names source => visit_export_names names source
  | ExportDefault value => visit_export_default value
  | If test body orelse => visit_if visit test body orelse
  | While test body => visit_while visit test body
  | For target iterator body => visit_for visit target iterator body
  | Spawn call => visit_spawn call
  | Expr e => emit (render_expression e ++ ";")
  end.

Definition generate_from (module : Module double) : V State :=
  emit "import { runtime } from '@trif/lang/runtime.js'" ;;
  emit "const __trif_exports__ = new Map();" ;;
  emit "let __trif_default_export__ = null;" ;;
  emit "" ;;
  for_each visit (body module) ;;
  emit "" ;;
  emit "export default __trif_default_export__;" ;;
  emit "export const exports = __trif_exports__;".

(** [JavaScriptVisitor::generate] on a visitor in state [st]. *)
Definition generate (module : Module double) (st : State) : result string :=
  match generate_from module st with
  | Ok st' => Ok (IndentedEmitter.str st')
  | Throw what => Throw what
  | OutOfRange => OutOfRange
  | OutOfFuel => OutOfFuel
  end.

End Platform.

End JavaScriptVisitor.

(** [PythonGenerator::generate] and [JavaScriptGenerator::generate]: each
    call constructs a visitor of its own. *)
Module PythonGenerator.
Definition generate {double} (double_to_string : double -> string)
           (module : AST.Module double) : result string :=
  PythonVisitor.generate double_to_string module PythonVisitor.init.
End PythonGenerator.

Module JavaScriptGenerator.
Definition generate {double} (double_to_string : double -> string)
           (module : AST.Module double) : result string :=
  JavaScriptVisitor.generate double_to_string module JavaScriptVisitor.init.
End JavaScriptGenerator.

(* ===================================================================== *)
(** ** compiler.cpp *)

Module Compiler.

Record CompileOptions : Type := mkOptions {
  target : string;
  aggressive_errors : bool
}.

Definition generate_cpp_stub {double} (module : AST.Module double) : string :=
  "#include <trif/runtime.hpp>" ++ String LF "" ++
  "#include <utility>" ++ String LF "" ++
  String LF "" ++
  "int main(int argc, char** argv) {" ++ String LF "" ++
  "    trif::runtime::Runtime runtime;" ++ String LF "" ++
  "    auto exports = runtime.create_module();" ++ String LF "" ++
  "    auto default_export = runtime.null_value();" ++ String LF "" ++
  "    runtime.bootstrap(argv[0]);" ++ String LF "" ++
  "    // TODO: Generated body" ++ String LF "" ++
  "    runtime.register_module(exports, default_export);" ++ String LF "" ++
  "    return 0;" ++ String LF "" ++
  "}" ++ String LF "".

Section Platform.

Context {double : Type}.
Variable stod : string -> double + string.
Variable double_to_string : double -> string.

Record CompileResult : Type := mkResult {
  module : AST.Module double;
  output_text : option string
}.

Definition and_then {A B} (r : result A) (k : A -> result B) : result B :=
  match r with
  | Ok a => k a
  | Throw what => Throw what
  | OutOfRange => OutOfRange
  | OutOfFuel => OutOfFuel
  end.

(** The [try] block of [compile_source]. *)
Definition compile_source_try (source : string) (options : CompileOptions)
  : result CompileResult :=
  and_then (Lexer.tokenize source) (fun tokens =>
  and_then (Parser.parse stod tokens) (fun module =>
  if target options =? "python" then
    and_then (PythonGenerator.generate double_to_string module) (fun text =>
    Ok (mkResult module (Some text)))
  else if (target options =? "javascript") || (target options =? "js") then
    and_then (JavaScriptGenerator.generate double_to_string module) (fun text =>
    Ok (mkResult module (Some text)))
  else if (target options =? "cpp") || (target options =? "c++") then
    Ok (mkResult module (Some (generate_cpp_stub module)))
  else Throw ("Unknown target: " ++ target options))).

(** [Compiler::compile_source]: the [catch] clause rethrows, or throws
    the wrapped message. *)
Definition compile_source (source : string) (options : CompileOptions)
  : result CompileResult :=
  match compile_source_try source options with
  | Throw what =>
      if aggressive_errors options then Throw what
      else Throw ("Compilation failed: " ++ what)
  | r => r
  end.

(** The files [std::ifstream] can open, with their contents. *)
Definition FileSystem : Type := string -> option string.

(** [Compiler::compile_file]. *)
Definition compile_file (fs : FileSystem) (path : string) (options : CompileOptions)
  : result CompileResult :=
  match fs path with
  | None => Throw ("Unable to open file: " ++ path)
  | Some contents => compile_source contents options
  end.

End Platform.

Arguments module {double} c.
Arguments output_text {double} c.

End Compiler.

(* ===================================================================== *)
(** ** main.cpp *)

Module Main.

Import Compiler.

Record Arguments : Type := mkArguments {
  input : option string;
  output : option string;
  target : string;
  aggressive_errors : bool
}.

(** [Arguments args;] with the default member initialisers. *)
Definition default_arguments : Arguments := mkArguments None None "python" false.

(** The argument [value] when it is neither [--target] nor [--output]
    followed by a value: the last three branches of the loop body. *)
Definition other_argument (value : string) (args : Arguments) : result Arguments :=
  if value =? "--aggressive-errors" then
    Ok (mkArguments (input args) (output args) (target args) true)
  else match input args with
       | None => Ok (mkArguments (Some value) (output args) (target args)
                                 (aggressive_errors args))
       | Some _ => Throw ("Unrecognized argument: " ++ value)
       end.

(** The [for] loop of [parse_arguments], over [argv[i]], [argv[i + 1]],
    ...; [i + 1 < argc] is: another argument follows. *)
Fixpoint parse_arguments_from (argv : list string) (args : Arguments)
  : result Arguments :=
  match argv with
  | [] => Ok args
  | value :: rest =>
      match rest with
      | next :: rest' =>
          if value =? "--target" then
            parse_arguments_from rest'
              (mkArguments (input args) (output args) next (aggressive_errors args))
          else if value =? "--output" then
            parse_arguments_from rest'
              (mkArguments (input args) (Some next) (target args) (aggressive_errors args))
          else
            match other_argument value args with
            | Ok args' => parse_arguments_from rest args'
            | r => r
            end
      | [] =>
          match other_argument value args with
          | Ok args' => parse_arguments_from rest args'
          | r => r
          end
      end
  end.

(** [parse_arguments(argc, argv)]; [argv] is [argv[1]], ..., [argv[argc - 1]]. *)
Definition parse_arguments (argv : list string) : result Arguments :=
  parse_arguments_from argv default_arguments.

(** What [main] can open: the files [std::ifstream] can read, with their
    contents, and the paths [std::ofstream] can open for writing. *)
Record World : Type := mkWorld {
  files : FileSystem;
  writable : string -> bool
}.

(** What a run of [main] leaves behind: its return value, what it wrote to
    [std::cout] and [std::cerr], and the file it wrote with its contents. *)
Record Outcome : Type := mkOutcome {
  exit_code : Z;
  stdout : string;
  stderr : string;
  written : option (string * string)
}.

(** [write_output(path, content)]: the effect on [std::cout] and on the
    file of the path, or the exception. *)
Definition write_output (w : World) (path : option string) (content : string)
  : result (string * option (string * string)) :=
  match path with
  | None => Ok (content ++ String LF "", None)
  | Some p =>
      if writable w p then Ok ("", Some (p, content))
      else Throw ("Unable to write to output path: " ++ p)
  end.

Section Platform.

Context {double : Type}.
Variable stod : string -> double + string.
Variable double_to_string : double -> string.

(** The [try] block of [main]. *)
Definition main_try (w : World) (argv : list string)
  : result (string * option (string * string)) :=
  and_then (parse_arguments argv) (fun args =>
  match input args with
  | None => Throw "No input file provided"
  | Some path =>
      and_then (compile_file stod double_to_string (files w) path
                             (mkOptions (target args) (aggressive_errors args)))
        (fun result =>
           match output_text result with
           | Some text => write_output w (output args) text
           | None => Ok ("", None)
           end)
  end).

(** [main]: the [catch] clause prints the message and returns 1. *)
Definition main (w : World) (argv : list string) : result Outcome :=
  match main_try w argv with
  | Ok (out, file) => Ok (mkOutcome 0 out "" file)
  | Throw what => Ok (mkOutcome 1 "" ("trifc: " ++ what ++ String LF "") None)
  | OutOfRange => OutOfRange
  | OutOfFuel => OutOfFuel
  end.

End Platform.

End Main.

(* ===================================================================== *)
(** ** A platform for the closed examples

    The examples below need some [double], [std::stod] and [operator<<].
    In this one a double is written as the text of the decimal literal it was
    read from; [stod] accepts the texts the NUMBER pattern matches and
    rejects the others with the message of libstdc++. *)

Module DecimalText.

Definition double : Type := string.

Definition stod (s : string) : double + string :=
  match Lexer.match_NUMBER s with
  | Some m => if String.eqb m s then inl s else inr "stod"
  | None => inr "stod"
  end.

Definition double_to_string (d : double) : string := d.

End DecimalText.

(* ===================================================================== *)
(** ** Vocabulary of the specification *)

Module Spec.

Import Lexer AST.

(** Every character of [s] satisfies [p]. *)
Fixpoint all_chars (p : ascii -> bool) (s : string) : bool :=
  match s with
  | "" => true
  | String c s' => p c && all_chars p s'
  end.

(** A character the lexer decodes to itself and [repr_string] prints as
    itself: not the backslash, and none of the characters the generator
    escapes. *)
Definition plain (c : ascii) : bool :=
  negb (Ascii.eqb c BACKSLASH) && negb (Ascii.eqb c DQUOTE) && negb (Ascii.eqb c LF)
  && negb (Ascii.eqb c TAB) && negb (Ascii.eqb c CR).

(** [quoted q payload] is the literal: [payload] between two [q]. *)
Definition quoted (q : ascii) (payload : string) : string :=
  String q (payload ++ String q "").

(** The token stream holds an EOF token / ends with one. *)
Definition has_eof (ts : TokenStream) : bool :=
  existsb (fun t => type t =? "EOF") ts.

Definition ends_with_EOF (ts : TokenStream) : Prop :=
  exists front eof, ts = (front ++ [eof])%list /\ type eof = "EOF".

(** Every [Spawn] node of the tree has a [Call] as its [call]. *)
Fixpoint spawn_calls {double} (n : Node double) : bool :=
  match n with
  | Spawn call => NodeKind.eqb (expression_kind call) NodeKind.Call
  | FunctionDef _ _ body _ _ => forallb spawn_calls body
  | If _ body orelse => forallb spawn_calls body && forallb spawn_calls orelse
  | While _ body => forallb spawn_calls body
  | For _ _ body => forallb spawn_calls body
  | _ => true
  end.

(** The lines of a text: the segments that a newline ends, and the
    segment after the last newline when it is not empty. *)
Fixpoint lines_from (current : string) (s : string) : list string :=
  match s with
  | "" => if Str.is_empty current then [] else [current]
  | String c s' =>
      if Ascii.eqb c LF then current :: lines_from "" s'
      else lines_from (current ++ String c "") s'
  end.

Definition lines (s : string) : list string := lines_from "" s.

Definition leading_spaces (s : string) : nat :=
  String.length (Str.take_while (fun c => Ascii.eqb c " ") s).

Definition indented_by_fours (s : string) : Prop :=
  Forall (fun l => Nat.modulo (leading_spaces l) 4 = 0) (lines s).

(** The text of one newline. *)
Definition LFs : string := String LF "".

(** A line that begins with a number of spaces that is not a multiple of
    four. *)
Definition badly_indented (l : string) : bool :=
  negb (Nat.eqb (Nat.modulo (leading_spaces l) 4) 0).

(** A pattern that never matches the empty text. *)
Definition nonempty_match (re : string -> option string) : Prop :=
  forall s m, re s = Some m -> m <> "".

(** [reaches c c']: the loop of [tokenize], at iteration start in the
    cursor [c], comes to an iteration start in the cursor [c']. *)
Inductive reaches : Cursor -> Cursor -> Prop :=
| reaches_here (c : Cursor) : reaches c c
| reaches_next (c c' c'' : Cursor) :
    tokenize_step c = Next c' -> reaches c' c'' -> reaches c c''.

(** [parse(tokenize(source))]. *)
Definition parse_source {double} (stod : string -> double + string) (source : string)
  : result (Module double) :=
  match tokenize source with
  | Ok tokens => Parser.parse stod tokens
  | Throw what => Throw what
  | OutOfRange => OutOfRange
  | OutOfFuel => OutOfFuel
  end.

(** [ensures Q r]: if the call returned, its value satisfies [Q]. *)
Definition ensures {A} (Q : A -> Prop) (r : result (A * TokenStream)) : Prop :=
  match r with
  | Ok (a, _) => Q a
  | _ => True
  end.

(** [within n r]: the call returned with at most [n] tokens left, an EOF
    token among them, or it threw; it neither read past the end of the
    vector nor exhausted the budget of the model. *)
Definition within (n : nat) {A} (r : result (A * TokenStream)) : Prop :=
  match r with
  | Ok (_, ts') => has_eof ts' = true /\ List.length ts' <= n
  | Throw _ => True
  | OutOfRange => False
  | OutOfFuel => False
  end.


(** The statement lists directly under a node. *)
Definition children {double} (n : Node double) : list (Node double) :=
  match n with
  | FunctionDef _ _ body _ _ => body
  | If _ body orelse => body ++ orelse
  | While _ body => body
  | For _ _ body => body
  | _ => []
  end.

Fixpoint last_statement {double} (body : list (Node double)) : option (Node double) :=
  match body with
  | [] => None
  | [stmt] => Some stmt
  | _ :: rest => last_statement rest
  end.

(** The body is not empty and its last statement is a [Return]. *)
Definition ends_with_Return {double} (body : list (Node double)) : bool :=
  match last_statement body with
  | Some (Return _) => true
  | _ => false
  end.

(** The line [emit] writes for [text] at indent level [k]. *)
Definition emitted_line (k : nat) (text : string) : string :=
  Str.spaces (k * 4) ++ text ++ String LF "".

(** What [visit_function_def] and [visit_let] of the Python visitor write
    for the export flags of [name], at indent level [k]. *)
Definition export_lines (k : nat) (name : string) (exported is_default : bool) : string :=
  (if exported then emitted_line k ("__trif_exports__['" ++ name ++ "'] = " ++ name) else "")
  ++ (if is_default then emitted_line k ("__trif_default_export__ = " ++ name) else "").

(** [follows Inv k k' v]: started at indent level [k] with a stream that
    satisfies [Inv], the visitor function [v] returns, at indent level [k']
    and with a stream that satisfies [Inv]. *)
Definition follows (Inv : string -> Prop) (k k' : nat) (v : Visit.V PythonVisitor.State)
  : Prop :=
  forall st,
    IndentedEmitter.indent_ (PythonVisitor.emitter_ st) = k ->
    Inv (IndentedEmitter.stream_ (PythonVisitor.emitter_ st)) ->
    exists st',
      v st = Ok st'
      /\ IndentedEmitter.indent_ (PythonVisitor.emitter_ st') = k'
      /\ Inv (IndentedEmitter.stream_ (PythonVisitor.emitter_ st')).


Definition no_newline (s : string) : bool :=
  all_chars (fun c => negb (Ascii.eqb c LF)) s.

Definition starts_with_space (s : string) : bool :=
  match s with
  | String c _ => Ascii.eqb c " "
  | "" => false
  end.

(** A text that [emit] may be given without breaking the indentation
    of the output: it holds no newline and does not begin with a space. *)
Definition text_ok (s : string) : bool :=
  no_newline s && negb (starts_with_space s).

(** A text that is not empty, holds no newline and does not begin with a
    space: what the patterns NAME and OP of the lexer match. *)
Definition word (s : string) : bool :=
  text_ok s && negb (Str.is_empty s).

Definition word_if_any (s : option string) : bool :=
  match s with
  | Some w => word w
  | None => true
  end.

Definition word_pair (p : string * string) : bool := word (fst p) && word (snd p).

Section Tidy.

Context {double : Type}.

(** [operator<<] for a [double]. *)
Variable double_to_string : double -> string.

(** Every name, operator and attribute of the expression is a [word],
    and so is every number as printed. *)
Fixpoint tidy_expression (e : Expression double) : bool :=
  match e with
  | Name id => word id
  | Number value => word (double_to_string value)
  | String_ _ | Boolean _ | Null => true
  | BinaryOp lhs op rhs => tidy_expression lhs && word op && tidy_expression rhs
  | UnaryOp op operand => word op && tidy_expression operand
  | Call func args => tidy_expression func && forallb tidy_expression args
  | Attribute value attr => tidy_expression value && word attr
  | ListLiteral elements => forallb tidy_expression elements
  | DictLiteral pairs =>
      forallb (fun kv => tidy_expression (fst kv) && tidy_expression (snd kv)) pairs
  end.

(** Every name and operator of the statement is a [word], and so is
    every number as printed; every module string satisfies [module_ok]. *)
Fixpoint tidy (module_ok : string -> bool) (n : Node double) : bool :=
  match n with
  | ImportFrom module names default_name namespace_name =>
      module_ok module && forallb word_pair names
      && word_if_any default_name && word_if_any namespace_name
  | Import module alias => module_ok module && word_if_any alias
  | Let name value _ _ _ => word name && tidy_expression value
  | Assign target value => tidy_expression target && tidy_expression value
  | FunctionDef name params body _ _ =>
      word name && forallb word params && forallb (tidy module_ok) body
  | ExportNames names source =>
      forallb word_pair names
      && match source with
         | Some src => module_ok src
         | None => true
         end
  | ExportDefault value => tidy_expression value
  | Return None => true
  | Return (Some value) => tidy_expression value
  | If test body orelse =>
      tidy_expression test && forallb (tidy module_ok) body
      && forallb (tidy module_ok) orelse
  | While test body => tidy_expression test && forallb (tidy module_ok) body
  | For target iterator body =>
      word target && tidy_expression iterator && forallb (tidy module_ok) body
  | Spawn call => tidy_expression call
  | Expr e => tidy_expression e
  end.

End Tidy.

(** The module strings of the import and re-export statements of a tree. *)
Fixpoint module_strings {double} (n : Node double) : list string :=
  match n with
  | ImportFrom module _ _ _ => [module]
  | Import module _ => [module]
  | ExportNames _ (Some src) => [src]
  | FunctionDef _ _ body _ _ => flat_map module_strings body
  | If _ body orelse => flat_map module_strings body ++ flat_map module_strings orelse
  | While _ body => flat_map module_strings body
  | For _ _ body => flat_map module_strings body
  | _ => []
  end.

(** A stream made of emitted lines whose texts are [text_ok]. *)
Inductive well_indented : string -> Prop :=
| well_indented_empty : well_indented ""
| well_indented_emit (s : string) (k : nat) (text : string) :
    well_indented s -> text_ok text = true ->
    well_indented (s ++ emitted_line k text).


(** A token as [tokenize] makes it: the text of a NAME or OP token is a
    [word]. *)
Definition lexed_token (t : Token) : bool :=
  if (type t =? "NAME") || (type t =? "OP") then word (value t) else true.

Definition lexed (ts : TokenStream) : bool := forallb lexed_token ts.


(** [yields Q r]: if the call returned, its value satisfies [Q] and the
    tokens it left are [lexed]. *)
Definition yields {A} (Q : A -> Prop) (r : result (A * TokenStream)) : Prop :=
  match r with
  | Ok (a, ts') => Q a /\ lexed ts' = true
  | _ => True
  end.

(** The token is [lexed], and of the type [expected] when a type is
    expected. *)
Definition lexed_as (expected : string) (t : Token) : Prop :=
  lexed_token t = true /\ (Str.is_empty expected = false -> type t = expected).


(** The two tokens have the same type and the same text; their positions
    may differ. *)
Definition same_text (a b : Token) : bool :=
  (type a =? type b) && (value a =? value b).

(** [t2] stands where [t1] stood: it is the same token but for its
    position or, where a replacement is [allowed], a SEMICOLON token for a
    NEWLINE token. *)
Definition stands_for (allowed : bool) (t1 t2 : Token) : bool :=
  same_text t1 t2 || (allowed && (type t1 =? "NEWLINE") && (type t2 =? "SEMICOLON")).

(** [separators_replaced after_return ts1 ts2]: the stream [ts2] is [ts1]
    with some of its NEWLINE tokens replaced by SEMICOLON tokens, none of
    them right after a RETURN token, the positions of the tokens left
    aside; [after_return] tells whether the token before the streams is a
    RETURN token. *)
Fixpoint separators_replaced (after_return : bool) (ts1 ts2 : TokenStream) : bool :=
  match ts1, ts2 with
  | [], [] => true
  | t1 :: ts1', t2 :: ts2' =>
      stands_for (negb after_return) t1 t2
      && separators_replaced (type t1 =? "RETURN") ts1' ts2'
  | _, _ => false
  end.

Definition same_words (t1 t2 : Token) : Prop :=
  type t1 = type t2 /\ value t1 = value t2.

(** Two tokens of the same type and text, or a NEWLINE token and the
    SEMICOLON token that replaces it. *)
Definition alike (t1 t2 : Token) : Prop :=
  same_words t1 t2 \/ (type t1 = "NEWLINE" /\ type t2 = "SEMICOLON").

(** [agrees Q r1 r2]: if the call on the first stream returned, the call
    on the second returned too, with a value that [Q] relates to the first
    and with the rest of the second stream standing for the rest of the
    first. *)
Definition agrees {A} (Q : A -> A -> Prop) (r1 r2 : result (A * TokenStream)) : Prop :=
  match r1 with
  | Ok (a1, ts1') =>
      exists a2 ts2', r2 = Ok (a2, ts2') /\ Q a1 a2
                      /\ separators_replaced false ts1' ts2' = true
  | _ => True
  end.


(** The types of the tokens that stand before the EOF token: the names of
    the patterns but SKIP and COMMENT, and the keywords in upper case. *)
Definition token_types : list string :=
  ["NUMBER"; "STRING"; "NAME"; "OP"; "NEWLINE"; "LPAREN"; "RPAREN"; "LBRACE"; "RBRACE";
   "LBRACKET"; "RBRACKET"; "COMMA"; "COLON"; "DOT"; "SEMICOLON"]
  ++ List.map uppercase kKeywords.

(** The token [tokenize] makes of the text [text] that the pattern [kind]
    matched. *)
Definition made_from (kind text : string) (t : Token) : Prop :=
  type t = (if (kind =? "NAME") && is_keyword text then uppercase text else kind)
  /\ value t = (if type t =? "STRING" then decode_string_literal text else text).

(** The token comes from a match of a pattern other than SKIP and
    COMMENT. *)
Definition from_pattern (t : Token) : Prop :=
  exists rem kind text,
    first_match token_patterns rem = Some (kind, text)
    /\ (kind =? "SKIP") || (kind =? "COMMENT") = false
    /\ made_from kind text t.

(** The operators of the OP pattern. *)
Definition operators : list string :=
  ["=="; "!="; "<="; ">="; "=>"; "&&"; "||";
   "+"; "-"; "*"; "/"; "%"; "="; "<"; ">"; "!"].

(** An identifier: a letter or an underscore, then letters, digits and
    underscores. *)
Definition identifier (s : string) : bool :=
  match s with
  | String c s' => is_name_start c && all_chars is_name_char s'
  | "" => false
  end.

(** A character with which no token, no comment and no white space
    begins. *)
Definition starts_no_token (c : ascii) : bool :=
  negb (is_digit c || is_name_start c || is_op_char c
        || existsb (Ascii.eqb c)
             [DQUOTE; SQUOTE; "&"; "|"; LF; " "; TAB;
              "("; ")"; "{"; "}"; "["; "]"; ","; ":"; "."; ";"]%char).

(** The lines of the tokens never decrease along the stream. *)
Fixpoint lines_ascend (ts : TokenStream) : Prop :=
  match ts with
  | t :: (t' :: _) as rest => (line t <= line t')%Z /\ lines_ascend rest
  | _ => True
  end.


(** What the parser guarantees of the statements it builds, at any depth:
    the target of an assignment is a name or an attribute; a declaration
    that is the default export is exported; an import with [from] binds
    something (a default name, a named import or a namespace). *)
Fixpoint statement_shape {double} (n : Node double) : bool :=
  match n with
  | Assign target _ =>
      NodeKind.eqb (expression_kind target) NodeKind.Name
      || NodeKind.eqb (expression_kind target) NodeKind.Attribute
  | Let _ _ _ exported is_default => implb is_default exported
  | FunctionDef _ _ body exported is_default =>
      implb is_default exported && forallb statement_shape body
  | ImportFrom _ names default_name namespace_name =>
      match default_name with Some _ => true | None => false end
      || negb (match names with [] => true | _ => false end)
      || match namespace_name with Some _ => true | None => false end
  | If _ body orelse => forallb statement_shape body && forallb statement_shape orelse
  | While _ body => forallb statement_shape body
  | For _ _ body => forallb statement_shape body
  | _ => true
  end.

(** The types of the tokens with which a statement or an expression
    begins: the statement keywords, the literals, a name and the opening
    brackets.  (An OP token begins one when it is [-] or [!].) *)
Definition statement_starts : list string :=
  ["IMPORT"; "EXPORT"; "LET"; "CONST"; "FN"; "FUNCTION"; "RETURN"; "IF"; "WHILE";
   "FOR"; "SPAWN"; "NUMBER"; "STRING"; "TRUE"; "FALSE"; "NULL"; "NAME"; "LPAREN";
   "LBRACKET"; "LBRACE"].

Definition starts_no_statement (t : Token) : bool :=
  negb (existsb (String.eqb (type t)) statement_starts)
  && negb ((type t =? "OP") && ((value t =? "-") || (value t =? "!"))).


(** The tokens of [x o1 x1 o2 x2 ...]: an operand, then operators each
    followed by an operand, then the EOF token. *)
Definition chain_tokens (x : Token) (rest : list (Token * Token)) (eof : Token)
  : TokenStream :=
  x :: (flat_map (fun p => [fst p; snd p]) rest ++ [eof])%list.

(** The operands are names and the operators are [+] and [-]. *)
Definition additive_step (p : Token * Token) : bool :=
  (type (fst p) =? "OP") && ((value (fst p) =? "+") || (value (fst p) =? "-"))
  && (type (snd p) =? "NAME").

(** The tree that leans to the left: [((x o1 x1) o2 x2) ...]. *)
Definition left_nested {double} (x : Token) (rest : list (Token * Token))
  : Expression double :=
  fold_left (fun acc p => BinaryOp acc (value (fst p)) (Name (value (snd p))))
            rest (Name (value x)).

(** A token after which an operand of the chain ends: it opens no call
    and no attribute, and it is no multiplicative operator. *)
Definition ends_operand (h : Token) : Prop :=
  (type h =? "LPAREN") = false /\ (type h =? "DOT") = false
  /\ (type h =? "OP") && existsb (String.eqb (value h)) ["*"; "/"; "%"] = false.

(** [balanced k k' v]: started at indent level [k], the function [v] of
    the JavaScript visitor returns, at indent level [k']. *)
Definition balanced (k k' : nat) (v : Visit.V JavaScriptVisitor.State) : Prop :=
  forall st,
    IndentedEmitter.indent_ st = k ->
    exists st', v st = Ok st' /\ IndentedEmitter.indent_ st' = k'.


(** What [PythonVisitor::generate] writes before the statements of the
    module and after them. *)
Definition python_prelude : string :=
  emitted_line 0 "import pathlib"
  ++ emitted_line 0 "import sys"
  ++ emitted_line 0 "_trif_origin = pathlib.Path(__file__).resolve().parent if '__file__' in globals() else pathlib.Path.cwd()"
  ++ emitted_line 0 "for _candidate in (_trif_origin, _trif_origin.parent):"
  ++ emitted_line 1 "candidate_pkg = _candidate / 'trif_lang'"
  ++ emitted_line 1 "if candidate_pkg.exists():"
  ++ emitted_line 2 "if str(_candidate) not in sys.path:"
  ++ emitted_line 3 "sys.path.insert(0, str(_candidate))"
  ++ emitted_line 2 "break"
  ++ emitted_line 0 "from trif_lang.runtime import runtime"
  ++ emitted_line 0 "__trif_exports__ = {}"
  ++ emitted_line 0 "__trif_default_export__ = None"
  ++ emitted_line 0 "".

Definition python_epilogue : string :=
  emitted_line 0 ""
  ++ emitted_line 0 "runtime.register_module_exports(__name__, __trif_exports__, __trif_default_export__)"
  ++ emitted_line 0 ""
  ++ emitted_line 0 "if __name__ == '__main__':"
  ++ emitted_line 1 "runtime.default_entry_point(locals())".

(** The statements of the tree for which the Python visitor makes a
    temporary name: the imports with [from] and the re-exports. *)
Fixpoint temps {double} (n : Node double) : nat :=
  match n with
  | ImportFrom _ _ _ _ => 1
  | ExportNames _ (Some _) => 1
  | FunctionDef _ _ body _ _ => list_sum (List.map temps body)
  | If _ body orelse => list_sum (List.map temps body) + list_sum (List.map temps orelse)
  | While _ body => list_sum (List.map temps body)
  | For _ _ body => list_sum (List.map temps body)
  | _ => 0
  end.

(** [emits k k' P v]: started at indent level [k], the visitor function
    [v] returns at indent level [k'], having added to the end of the stream
    a text that satisfies [P]. *)
Definition emits (k k' : nat) (P : string -> Prop) (v : Visit.V PythonVisitor.State)
  : Prop :=
  forall st,
    IndentedEmitter.indent_ (PythonVisitor.emitter_ st) = k ->
    exists st' text,
      v st = Ok st'
      /\ IndentedEmitter.indent_ (PythonVisitor.emitter_ st') = k'
      /\ IndentedEmitter.stream_ (PythonVisitor.emitter_ st')
         = IndentedEmitter.stream_ (PythonVisitor.emitter_ st) ++ text
      /\ P text.

(** The state [st] of the Python visitor, with [s] before its stream. *)
Definition after_text (s : string) (st : PythonVisitor.State) : PythonVisitor.State :=
  PythonVisitor.mkState
    (IndentedEmitter.mk (s ++ IndentedEmitter.stream_ (PythonVisitor.emitter_ st))
                        (IndentedEmitter.indent_ (PythonVisitor.emitter_ st)))
    (PythonVisitor.temp_index_ st).

(** [framed v]: what the visitor function [v] does is the same whatever
    the stream holds already: with a text [s] before the stream it returns
    the same state, with [s] before its stream, or throws the same. *)
Definition framed (v : Visit.V PythonVisitor.State) : Prop :=
  forall s st,
    v (after_text s st)
    = match v st with
      | Ok st' => Ok (after_text s st')
      | Throw what => Throw what
      | OutOfRange => OutOfRange
      | OutOfFuel => OutOfFuel
      end.

(** [counts n v]: when the visitor function [v] returns, it has made [n]
    temporary names. *)
Definition counts (n : nat) (v : Visit.V PythonVisitor.State) : Prop :=
  forall st st',
    v st = Ok st' ->
    PythonVisitor.temp_index_ st' = (PythonVisitor.temp_index_ st + Z.of_nat n)%Z.


(** [keeps Inv k k' v]: started at indent level [k] with a stream that
    satisfies [Inv], the function [v] of the JavaScript visitor returns, at
    indent level [k'] and with a stream that satisfies [Inv]. *)
Definition keeps (Inv : string -> Prop) (k k' : nat)
           (v : Visit.V JavaScriptVisitor.State) : Prop :=
  forall st,
    IndentedEmitter.indent_ st = k ->
    Inv (IndentedEmitter.stream_ st) ->
    exists st',
      v st = Ok st'
      /\ IndentedEmitter.indent_ st' = k'
      /\ Inv (IndentedEmitter.stream_ st').

(** The expression holds no [Boolean] and no [Null] literal. *)
Fixpoint no_keyword_literal {double} (e : Expression double) : bool :=
  match e with
  | Boolean _ | Null => false
  | Name _ | Number _ | String_ _ => true
  | BinaryOp lhs _ rhs => no_keyword_literal lhs && no_keyword_literal rhs
  | UnaryOp _ operand => no_keyword_literal operand
  | Call func args => no_keyword_literal func && forallb no_keyword_literal args
  | Attribute value _ => no_keyword_literal value
  | ListLiteral elements => forallb no_keyword_literal elements
  | DictLiteral pairs =>
      forallb (fun kv => no_keyword_literal (fst kv) && no_keyword_literal (snd kv)) pairs
  end.


(** The targets [compile_source] knows. *)
Definition known_target (target : string) : bool :=
  existsb (String.eqb target) ["python"; "javascript"; "js"; "cpp"; "c++"].

(** The arguments that are options of [trifc]. *)
Definition option_word (value : string) : bool :=
  existsb (String.eqb value) ["--target"; "--output"; "--aggressive-errors"].


(** [value] follows [flag] in [argv]. *)
Definition follows_flag (flag value : string) (argv : list string) : Prop :=
  exists before after, argv = (before ++ flag :: value :: after)%list.

(** What [parse_arguments] may hold after reading some of [argv], when it
    held [args0] before. *)
Definition read_from (argv : list string) (args0 args : Main.Arguments) : Prop :=
  (Main.input args = Main.input args0 \/ exists v, Main.input args = Some v /\ In v argv
                                         /\ v <> "--aggressive-errors"
                                         /\ Main.input args0 = None)
  /\ (Main.output args = Main.output args0
      \/ exists v, Main.output args = Some v /\ follows_flag "--output" v argv)
  /\ (Main.target args = Main.target args0 \/ follows_flag "--target" (Main.target args) argv)
  /\ (Main.aggressive_errors args = Main.aggressive_errors args0
      \/ Main.aggressive_errors args = true /\ In "--aggressive-errors" argv).

(** The outcome of a run that succeeded: nothing on [std::cerr], and the
    output on [std::cout], with a line end, or in a file that could be
    opened. *)
Definition succeeded (w : Main.World) (o : Main.Outcome) : Prop :=
  Main.exit_code o = 0%Z /\ Main.stderr o = ""
  /\ ((exists text, Main.stdout o = text ++ String LF "" /\ Main.written o = None)
      \/ (exists path text, Main.stdout o = "" /\ Main.written o = Some (path, text)
                            /\ Main.writable w path = true)).

(** The outcome of a run that failed with the message [what]: the
    message on [std::cerr], after [trifc: ] and before a line end, nothing
    on [std::cout], no file written. *)
Definition failed (what : string) (o : Main.Outcome) : Prop :=
  Main.exit_code o = 1%Z /\ Main.stdout o = "" /\ Main.written o = None
  /\ Main.stderr o = "trifc: " ++ what ++ String LF "".

(** A world with one source file and one path that can be written. *)
Definition example_world : Main.World :=
  Main.mkWorld (fun path => if path =? "main.trif" then Some "let x = 1" else None)
          (fun path => path =? "out.py").


(** Where the character after [text] stands, when [text] begins at line
    [ln] and column [col]: a newline begins a line, at column 1, and
    another character takes one column. *)
Fixpoint position_after (text : string) (ln col : Z) : Z * Z :=
  match text with
  | "" => (ln, col)
  | String c rest =>
      if Ascii.eqb c LF then position_after rest (ln + 1) 1
      else position_after rest ln (col + 1)
  end.

(** The line and the column, from 1, of the character after [before] in a
    text that begins with [before]. *)
Definition position_of (before : string) : Z * Z := position_after before 1 1.

(** A STRING token whose value holds no newline, or another token. *)
Definition on_one_line (t : Token) : bool :=
  if type t =? "STRING" then no_newline (value t) else true.

(** The token is made of a piece of the source, and its line and column
    are those of the first character of that piece. *)
Definition located (source : string) (t : Token) : Prop :=
  exists before text after,
    source = before ++ text ++ after
    /\ (line t, column t) = position_of before
    /\ value t = (if type t =? "STRING" then decode_string_literal text else text).

(** The cursor stands after a part of the source, and counts its lines
    and columns - as long as no string literal held a newline. *)
Definition tracked (source : string) (c : Cursor) : Prop :=
  exists consumed,
    source = consumed ++ remaining c
    /\ (forallb on_one_line (tokens c) = true ->
        (cur_line c, cur_column c) = position_of consumed
        /\ Forall (located source) (tokens c)).

(** The cursor stands after a part of the source, and its counters are
    the line and the column of the character that follows. *)
Definition stands_at (source : string) (c : Cursor) : Prop :=
  exists consumed,
    source = consumed ++ remaining c
    /\ (cur_line c, cur_column c) = position_of consumed.

(** The cursors at which the loop of [tokenize] begins its next [n]
    iterations, from the cursor [c] on, and the cursor it comes to; [None]
    when the loop ends before. *)
Fixpoint passes (n : nat) (c : Cursor) : option (list Cursor * Cursor) :=
  match n with
  | O => Some ([], c)
  | S n' =>
      match tokenize_step c with
      | Next c' =>
          match passes n' c' with
          | Some (cs, e) => Some (c :: cs, e)
          | None => None
          end
      | _ => None
      end
  end.

(** The text at the cursor does not begin with a string literal that
    holds a newline: the literal is the match of the STRING pattern, the
    one the iteration reads when there is one, with its quotes and
    escapes as they are written. *)
Definition literal_on_one_line (c : Cursor) : bool :=
  match match_STRING (remaining c) with
  | Some text => no_newline text
  | None => true
  end.

(** What the pattern [name] matches is the beginning of the text, and
    holds a newline only for NEWLINE and STRING. *)
Definition matches_start (name : string) (re : string -> option string) : Prop :=
  forall s m,
    re s = Some m ->
    (exists rest, s = m ++ rest)
    /\ (name = "NEWLINE" -> m = String LF "")
    /\ (name = "STRING" -> no_newline (decode_string_literal m) = true ->
        no_newline m = true)
    /\ (name <> "NEWLINE" -> name <> "STRING" -> no_newline m = true).


(** The number of lines of [s] that begin with [start]. *)
Definition lines_with (start s : string) : nat :=
  List.length (List.filter (String.prefix start) (lines s)).

(** The text is empty or ends with a newline. *)
Definition whole_lines (s : string) : Prop := s = "" \/ exists u, s = u ++ LFs.

(** Whole lines, of which [c] at least begin with [start]. *)
Definition holds_lines (start : string) (c : nat) (s : string) : Prop :=
  whole_lines s /\ (c <= lines_with start s)%nat.

(** The statements for which the JavaScript visitor imports a module:
    an import with [from], and an export with [from]. *)
Definition imports_module {double} (n : Node double) : bool :=
  match n with
  | ImportFrom _ _ _ _ => true
  | ExportNames _ (Some _) => true
  | _ => false
  end.

(** The declaration the JavaScript visitor writes for an imported
    module, up to its value. *)
Definition module_declaration : string := "const __mod = ".

(** [moves Pre Post k k' v]: started at indent level [k] with a stream
    that satisfies [Pre], the function [v] of the JavaScript visitor
    returns, at indent level [k'] and with a stream that satisfies
    [Post]. *)
Definition moves (Pre Post : string -> Prop) (k k' : nat)
           (v : Visit.V JavaScriptVisitor.State) : Prop :=
  forall st,
    IndentedEmitter.indent_ st = k ->
    Pre (IndentedEmitter.stream_ st) ->
    exists st',
      v st = Ok st'
      /\ IndentedEmitter.indent_ st' = k'
      /\ Post (IndentedEmitter.stream_ st').

(** The state in which the body of a function is visited: the [def]
    line is written and the indent level is one more. *)
Definition in_function (name : string) (params : list string) (st : PythonVisitor.State)
  : PythonVisitor.State :=
  PythonVisitor.mkState
    (IndentedEmitter.indent
       (IndentedEmitter.emit ("def " ++ name ++ "(" ++ join params ", " ++ "):")
                             (PythonVisitor.emitter_ st)))
    (PythonVisitor.temp_index_ st).

End Spec.

(* ===================================================================== *)
(** * Properties *)

(* ===================================================================== *)
(** ** Facts about strings *)

Module StrFacts.

Import Str.

Lemma length_append (s t : string) :
  String.length (s ++ t) = String.length s + String.length t.
Proof. induction s as [|c s IH]; simpl; [reflexivity | now rewrite IH]. Qed.

Lemma append_nil_r (s : string) : s ++ "" = s.
Proof. induction s as [|c s IH]; simpl; [reflexivity | now rewrite IH]. Qed.

Lemma append_assoc (s t u : string) : (s ++ t) ++ u = s ++ (t ++ u).
Proof. induction s as [|c s IH]; simpl; [reflexivity | now rewrite IH]. Qed.

Lemma take_app_length (s t : string) : take (String.length s) (s ++ t) = s.
Proof. induction s as [|c s IH]; simpl; [now destruct t | now rewrite IH]. Qed.

Lemma drop_app_length (s t : string) : drop (String.length s) (s ++ t) = t.
Proof. induction s as [|c s IH]; simpl; [now destruct t | exact IH]. Qed.

Lemma drop_all (s : string) : drop (String.length s) s = "".
Proof. induction s as [|c s IH]; simpl; [reflexivity | exact IH]. Qed.

Lemma length_drop (n : nat) (s : string) :
  String.length (drop n s) = String.length s - n.
Proof.
  revert s; induction n as [|n IH]; intros [|c s]; simpl; try reflexivity.
  apply IH.
Qed.

Lemma length_take (n : nat) (s : string) :
  String.length (take n s) = Nat.min n (String.length s).
Proof.
  revert s; induction n as [|n IH]; intros [|c s]; simpl; try reflexivity.
  now rewrite IH.
Qed.

End StrFacts.

(* ===================================================================== *)
(** ** The lexer *)

Module LexerFacts.

Import Lexer Spec StrFacts.

Lemma plain_not_backslash c : plain c = true -> Ascii.eqb c BACKSLASH = false.
Proof.
  unfold plain; intros H.
  destruct (Ascii.eqb c BACKSLASH); [discriminate H | reflexivity].
Qed.

Lemma decode_content_plain (s : string) :
  all_chars plain s = true -> decode_content s = s.
Proof.
  induction s as [|c s IH]; simpl; intros H; [reflexivity|].
  apply andb_true_iff in H as [Hc Hs].
  rewrite (plain_not_backslash c Hc), (IH Hs); reflexivity.
Qed.

Lemma repr_string_body_plain (s : string) :
  all_chars plain s = true -> repr_string_body s = s.
Proof.
  induction s as [|c s IH]; simpl; intros H; [reflexivity|].
  apply andb_true_iff in H as [Hc Hs].
  rewrite (IH Hs). unfold plain in Hc.
  destruct (Ascii.eqb c BACKSLASH), (Ascii.eqb c DQUOTE), (Ascii.eqb c LF),
    (Ascii.eqb c TAB), (Ascii.eqb c CR); try discriminate Hc; reflexivity.
Qed.

Lemma decode_quoted (q1 q2 : ascii) (payload : string) :
  decode_string_literal (String q1 (payload ++ String q2 "")) = decode_content payload.
Proof.
  unfold decode_string_literal.
  change (String.length (String q1 (payload ++ String q2 "")))
    with (S (String.length (payload ++ String q2 ""))).
  rewrite length_append; simpl String.length.
  replace (S (String.length payload + 1) <? 2)%nat with false
    by (symmetry; apply Nat.ltb_ge; lia).
  replace (S (String.length payload + 1) - 2) with (String.length payload) by lia.
  simpl Str.drop. now rewrite take_app_length.
Qed.

(** The STRING pattern matches the whole of a literal whose payload has
    neither a backslash nor the quote character. *)
Lemma match_string_body_plain (q : ascii) (payload rest : string) :
  all_chars (fun c => negb (Ascii.eqb c q) && negb (Ascii.eqb c BACKSLASH)) payload = true ->
  match_string_body q (payload ++ String q rest) = Some (payload ++ String q "").
Proof.
  induction payload as [|c s IH]; simpl; intros H.
  - now rewrite Ascii.eqb_refl.
  - apply andb_true_iff in H as [Hc Hs].
    apply andb_true_iff in Hc as [Hq Hb].
    apply negb_true_iff in Hq, Hb. rewrite Hq, Hb, (IH Hs). reflexivity.
Qed.

End LexerFacts.

Module LexerTotal.

Import Lexer Spec StrFacts.

Lemma match_NUMBER_nonempty : nonempty_match match_NUMBER.
Proof.
  intros s m; unfold match_NUMBER.
  destruct (Str.take_while is_digit s) as [|c ds] eqn:E; [discriminate|].
  cbn [Str.is_empty].
  destruct (Str.drop (String.length (String c ds)) s) as [|d rest];
    [intros [= <-]; discriminate|].
  destruct (_ && _); intros [= <-]; discriminate.
Qed.

Lemma match_STRING_nonempty : nonempty_match match_STRING.
Proof.
  intros [|c s] m; simpl; [discriminate|].
  destruct (_ || _); [|discriminate].
  destruct (match_string_body c s); simpl; [intros [= <-]|]; discriminate.
Qed.

Lemma match_COMMENT_nonempty : nonempty_match match_COMMENT.
Proof.
  intros s m; unfold match_COMMENT.
  destruct (String.prefix "//" s); [intros [= <-]|]; discriminate.
Qed.

Lemma match_NAME_nonempty : nonempty_match match_NAME.
Proof.
  intros [|c s] m; simpl; [discriminate|].
  destruct (is_name_start c); [intros [= <-]|]; discriminate.
Qed.

Lemma match_OP_nonempty : nonempty_match match_OP.
Proof.
  intros s m; unfold match_OP.
  destruct (find _ _) as [op|] eqn:E.
  - intros [= <-]. apply find_some in E as [Hin _].
    simpl in Hin.
    repeat (destruct Hin as [<-|Hin]; [discriminate|]). destruct Hin.
  - destruct s as [|c s]; [discriminate|].
    destruct (is_op_char c); [intros [= <-]|]; discriminate.
Qed.

Lemma match_char_nonempty (c : ascii) : nonempty_match (match_char c).
Proof.
  intros [|d s] m; simpl; [discriminate|].
  destruct (Ascii.eqb d c); [intros [= <-]|]; discriminate.
Qed.

Lemma match_SKIP_nonempty : nonempty_match match_SKIP.
Proof.
  intros s m; unfold match_SKIP.
  destruct (Str.take_while _ s) as [|c ws]; simpl; [|intros [= <-]]; discriminate.
Qed.

Lemma first_match_nonempty (ps : list Pattern) (rem kind value : string) :
  Forall (fun p => nonempty_match (snd p)) ps ->
  first_match ps rem = Some (kind, value) -> value <> "".
Proof.
  induction 1 as [|[name re] ps Hre _ IH]; simpl; [discriminate|].
  destruct (re rem) as [m|] eqn:E; [|exact IH].
  intros [= <- <-]. exact (Hre _ _ E).
Qed.

Lemma token_patterns_nonempty : Forall (fun p => nonempty_match (snd p)) token_patterns.
Proof.
  unfold token_patterns.
  repeat (apply Forall_cons;
          [first [ exact match_NUMBER_nonempty | exact match_STRING_nonempty
                 | exact match_COMMENT_nonempty | exact match_NAME_nonempty
                 | exact match_OP_nonempty | exact match_SKIP_nonempty
                 | apply match_char_nonempty ] |]).
  apply Forall_nil.
Qed.

Lemma drop_shrinks (value rem : string) :
  value <> "" -> rem <> "" ->
  String.length (Str.drop (String.length value) rem) < String.length rem.
Proof.
  intros Hv Hr. rewrite length_drop.
  destruct value; [now elim Hv|]. destruct rem; [now elim Hr|]. simpl. lia.
Qed.

Lemma is_empty_false (s : string) : Str.is_empty s = false -> s <> "".
Proof. destruct s; [discriminate | discriminate]. Qed.

(** Every iteration of the loop of [tokenize] moves the cursor forward. *)
Lemma tokenize_step_shrinks (c c' : Cursor) :
  tokenize_step c = Next c' ->
  String.length (remaining c') < String.length (remaining c).
Proof.
  unfold tokenize_step.
  destruct (Str.is_empty (remaining c)) eqn:Hne; [discriminate|].
  apply is_empty_false in Hne.
  destruct (String.prefix "/*" (remaining c)).
  - destruct (Str.find "*/" (remaining c)) as [e|]; [|discriminate].
    intros [= <-]; simpl. apply drop_shrinks; [|exact Hne].
    destruct (remaining c); [now elim Hne|].
    replace (e + 2) with (S (e + 1)) by lia. discriminate.
  - destruct (first_match token_patterns (remaining c)) as [[kind value]|] eqn:E;
      [|discriminate].
    pose proof (first_match_nonempty _ _ _ _ token_patterns_nonempty E) as Hv.
    destruct (kind =? "NEWLINE"); [|destruct (_ || _)];
      intros [= <-]; simpl; now apply drop_shrinks.
Qed.

Lemma tokenize_step_Done (c : Cursor) (ts : TokenStream) :
  tokenize_step c = Done ts -> ends_with_EOF ts.
Proof.
  unfold tokenize_step.
  destruct (Str.is_empty (remaining c)).
  - intros [= <-]. now exists (tokens c), (mkToken "EOF" "" (cur_line c) (cur_column c)).
  - destruct (String.prefix "/*" (remaining c)).
    + destruct (Str.find "*/" (remaining c)); discriminate.
    + destruct (first_match token_patterns (remaining c)) as [[kind value]|];
        [|discriminate].
      destruct (kind =? "NEWLINE"); [|destruct (_ || _)]; discriminate.
Qed.

(** The budget [tokenize] gives its loop is never exhausted: the loop
    returns a stream that ends with an EOF token, or throws. *)
Lemma tokenize_loop_fuel (fuel : nat) (c : Cursor) :
  String.length (remaining c) < fuel ->
  (exists ts, tokenize_loop fuel c = Ok ts /\ ends_with_EOF ts)
  \/ throws (tokenize_loop fuel c).
Proof.
  revert c; induction fuel as [|fuel IH]; intros c Hlen; [lia|].
  simpl. destruct (tokenize_step c) as [c'|ts|what] eqn:E.
  - apply IH. apply tokenize_step_shrinks in E. lia.
  - left. exists ts. split; [reflexivity | exact (tokenize_step_Done _ _ E)].
  - right. now exists what.
Qed.

Lemma tokenize_total (source : string) :
  (exists ts, tokenize source = Ok ts /\ ends_with_EOF ts) \/ throws (tokenize source).
Proof. apply tokenize_loop_fuel. simpl. lia. Qed.

End LexerTotal.

Module RoundTrip.

Import Lexer Spec StrFacts LexerFacts.

Lemma all_chars_and (p r : ascii -> bool) (s : string) :
  all_chars p s = true -> all_chars r s = true ->
  all_chars (fun c => r c && p c) s = true.
Proof.
  induction s as [|c s IH]; simpl; [reflexivity|].
  intros [Hp Hs]%andb_true_iff [Hr Hs']%andb_true_iff.
  now rewrite Hp, Hr, IH.
Qed.

Lemma all_chars_impl (p r : ascii -> bool) (s : string) :
  (forall c, p c = true -> r c = true) -> all_chars p s = true -> all_chars r s = true.
Proof.
  intros Hpr. induction s as [|c s IH]; simpl; [reflexivity|].
  intros [Hp Hs]%andb_true_iff. now rewrite (Hpr _ Hp), IH.
Qed.

Lemma tokenize_step_literal (q : ascii) (payload : string) :
  q = DQUOTE \/ q = SQUOTE ->
  all_chars plain payload = true ->
  all_chars (fun c => negb (Ascii.eqb c q)) payload = true ->
  tokenize_step (start (quoted q payload))
  = Next (mkCursor "" 1 (1 + size (quoted q payload)) [mkToken "STRING" payload 1 1]).
Proof.
  intros Hq Hplain Hnq.
  assert (Hm : match_STRING (quoted q payload) = Some (quoted q payload)).
  { unfold quoted, match_STRING.
    replace (Ascii.eqb q DQUOTE || Ascii.eqb q SQUOTE) with true
      by (destruct Hq as [-> | ->]; reflexivity).
    rewrite match_string_body_plain; [reflexivity|].
    apply all_chars_and; [|exact Hnq].
    revert Hplain. apply all_chars_impl. intros c Hc.
    now rewrite (plain_not_backslash c Hc). }
  assert (Hfirst : first_match token_patterns (quoted q payload)
                   = Some ("STRING", quoted q payload)).
  { unfold token_patterns, first_match.
    replace (match_NUMBER (quoted q payload)) with (@None string)
      by (destruct Hq as [-> | ->]; reflexivity).
    now rewrite Hm. }
  unfold tokenize_step, start; cbn [remaining cur_line cur_column tokens].
  replace (Str.is_empty (quoted q payload)) with false by reflexivity.
  replace (String.prefix "/*" (quoted q payload)) with false
    by (destruct Hq as [-> | ->]; reflexivity).
  rewrite Hfirst. cbn [String.eqb Ascii.eqb Bool.eqb orb andb].
  rewrite drop_all. unfold quoted at 2. rewrite decode_quoted, decode_content_plain by assumption.
  reflexivity.
Qed.

(** C7.  A string literal whose payload has no backslash and none of the
    characters the generator escapes: the lexer turns the literal into one
    STRING token whose value is the payload, [decode_string_literal] maps the
    literal to the payload, and [repr_string] prints the payload back
    between double quotes. *)
Theorem string_literal_round_trip (q : ascii) (payload : string) :
  q = DQUOTE \/ q = SQUOTE ->
  all_chars plain payload = true ->
  all_chars (fun c => negb (Ascii.eqb c q)) payload = true ->
  tokenize (quoted q payload)
  = Ok [mkToken "STRING" payload 1 1;
        mkToken "EOF" "" 1 (1 + size (quoted q payload))]
  /\ repr_string (decode_string_literal (quoted q payload)) = quoted DQUOTE payload.
Proof.
  intros Hq Hplain Hnq. split.
  - unfold tokenize.
    change (String.length (quoted q payload))
      with (S (String.length (payload ++ String q ""))).
    cbn [tokenize_loop]. rewrite tokenize_step_literal by assumption.
    reflexivity.
  - unfold quoted at 1. rewrite decode_quoted, decode_content_plain by assumption.
    unfold repr_string, quoted. now rewrite repr_string_body_plain.
Qed.

Lemma string_literal_round_trip_witness :
  tokenize (quoted DQUOTE "hello, world")
  = Ok [mkToken "STRING" "hello, world" 1 1; mkToken "EOF" "" 1 15]
  /\ repr_string (decode_string_literal (quoted DQUOTE "hello, world"))
     = quoted DQUOTE "hello, world".
Proof.
  apply (string_literal_round_trip DQUOTE "hello, world");
    [left; reflexivity | reflexivity | reflexivity].
Defined.

End RoundTrip.

Module BlockComment.

Import Lexer Spec StrFacts LexerTotal.

Lemma tokenize_loop_reaches (c c' : Cursor) :
  reaches c c' ->
  forall fuel, String.length (remaining c) < fuel ->
  exists fuel', String.length (remaining c') < fuel'
                /\ tokenize_loop fuel c = tokenize_loop fuel' c'.
Proof.
  induction 1 as [c|c c' c'' Hstep _ IH]; intros fuel Hfuel.
  - now exists fuel.
  - destruct fuel as [|fuel]; [lia|].
    pose proof (tokenize_step_shrinks _ _ Hstep) as Hlt.
    destruct (IH fuel ltac:(lia)) as (fuel' & Hfuel' & Heq).
    exists fuel'. split; [exact Hfuel'|]. simpl. now rewrite Hstep.
Qed.

Lemma tokenize_step_line (c c' : Cursor) :
  tokenize_step c = Next c' -> (cur_line c <= cur_line c')%Z.
Proof.
  unfold tokenize_step.
  destruct (Str.is_empty (remaining c)); [discriminate|].
  destruct (String.prefix "/*" (remaining c)).
  - destruct (Str.find "*/" (remaining c)); [|discriminate].
    intros [= <-]; simpl. lia.
  - destruct (first_match token_patterns (remaining c)) as [[kind value]|]; [|discriminate].
    destruct (kind =? "NEWLINE"); [|destruct (_ || _)]; intros [= <-]; simpl; lia.
Qed.

Lemma reaches_line (c c' : Cursor) : reaches c c' -> (cur_line c <= cur_line c')%Z.
Proof.
  induction 1 as [c|c c' c'' Hstep _ IH]; [lia|].
  apply tokenize_step_line in Hstep. lia.
Qed.

(** What the loop throws at a comment opener that nothing closes. *)
Lemma unterminated_block_comment_thrown (source : string) (c : Cursor) :
  reaches (start source) c ->
  String.prefix "/*" (remaining c) = true ->
  Str.find "*/" (remaining c) = None ->
  tokenize source
  = Throw ("Unterminated block comment at line " ++ Str.of_Z (cur_line c)).
Proof.
  intros Hreach Hopen Hclose. unfold tokenize.
  destruct (tokenize_loop_reaches _ _ Hreach (S (String.length source)))
    as (fuel' & Hfuel' & ->); [simpl; lia|].
  destruct fuel' as [|fuel']; [lia|].
  simpl. unfold tokenize_step. rewrite Hopen, Hclose.
  destruct (remaining c); [discriminate Hopen | reflexivity].
Qed.

(** C5, what the code does.  When the loop of [tokenize] comes to a
    position where the remaining text begins with the comment opener and
    holds no comment closer, [tokenize] throws the unterminated-block-comment
    error.  Its message gives the line counter of the lexer at that
    position, at least 1, and no column: a comment opened at any column of
    a line, in any source, gives the very same message. *)
Theorem unterminated_block_comment (source : string) (c : Cursor) :
  reaches (start source) c ->
  String.prefix "/*" (remaining c) = true ->
  Str.find "*/" (remaining c) = None ->
  tokenize source
  = Throw ("Unterminated block comment at line " ++ Str.of_Z (cur_line c))
  /\ (1 <= cur_line c)%Z
  /\ forall source' c',
       reaches (start source') c' ->
       String.prefix "/*" (remaining c') = true ->
       Str.find "*/" (remaining c') = None ->
       cur_line c' = cur_line c ->
       tokenize source' = tokenize source.
Proof.
  intros Hreach Hopen Hclose. split; [|split].
  - now apply unterminated_block_comment_thrown.
  - apply reaches_line in Hreach. exact Hreach.
  - intros source' c' Hreach' Hopen' Hclose' Hline.
    rewrite (unterminated_block_comment_thrown source c Hreach Hopen Hclose).
    rewrite (unterminated_block_comment_thrown source' c' Hreach' Hopen' Hclose').
    now rewrite Hline.
Qed.

(** At line 2, column 3; the message is that of a comment opened at line
    2, column 1. *)
Lemma unterminated_block_comment_witness :
  tokenize (String " " (String " " (String LF "x /* y")))
  = Throw "Unterminated block comment at line 2"
  /\ tokenize (String LF "/* y")
     = tokenize (String " " (String " " (String LF "x /* y"))).
Proof.
  destruct (unterminated_block_comment
              (String " " (String " " (String LF "x /* y")))
              (mkCursor "/* y" 2 3
                 [mkToken "NEWLINE" (String LF "") 1 3; mkToken "NAME" "x" 2 1]))
    as (Hthrown & _ & Hsame).
  - eapply reaches_next; [reflexivity|].
    eapply reaches_next; [reflexivity|].
    eapply reaches_next; [reflexivity|].
    eapply reaches_next; [reflexivity|].
    apply reaches_here.
  - reflexivity.
  - reflexivity.
  - split; [exact Hthrown|].
    apply (Hsame (String LF "/* y")
                 (mkCursor "/* y" 2 1 [mkToken "NEWLINE" (String LF "") 1 1])).
    + eapply reaches_next; [reflexivity|]. apply reaches_here.
    + reflexivity.
    + reflexivity.
    + reflexivity.
Defined.

End BlockComment.

Module Precedence.

Import Lexer AST Parser Spec.

(** Reduce the left-hand side until a call of [stod] blocks it. *)
Ltac whd_lhs :=
  match goal with
  | |- ?l = _ => let l' := eval lazy head in l in change l with l'
  end.

Lemma tokenize_sum_product :
  tokenize "1 + 2 * 3"
  = Ok [mkToken "NUMBER" "1" 1 1; mkToken "OP" "+" 1 3; mkToken "NUMBER" "2" 1 5;
        mkToken "OP" "*" 1 7; mkToken "NUMBER" "3" 1 9; mkToken "EOF" "" 1 10].
Proof. reflexivity. Qed.

(** C6.  [1 + 2 * 3] is a sum whose right operand is the product,
    [a || b && c] is a disjunction whose right operand is the conjunction,
    and [!!x] is the negation of a negation. *)
Theorem operator_precedence {double} (stod : string -> double + string) (d1 d2 d3 : double) :
  stod "1" = inl d1 -> stod "2" = inl d2 -> stod "3" = inl d3 ->
  parse_source stod "1 + 2 * 3"
  = Ok (make_module
          [Expr (BinaryOp (Number d1) "+" (BinaryOp (Number d2) "*" (Number d3)))])
  /\ parse_source stod "a || b && c"
     = Ok (make_module
             [Expr (BinaryOp (Name "a") "||" (BinaryOp (Name "b") "&&" (Name "c")))])
  /\ parse_source stod "!!x"
     = Ok (make_module [Expr (UnaryOp "!" (UnaryOp "!" (Name "x")))]).
Proof.
  intros H1 H2 H3. split; [|split; reflexivity].
  unfold parse_source. rewrite tokenize_sum_product.
  whd_lhs. cbn [value]. rewrite H1.
  whd_lhs. cbn [value]. rewrite H2.
  whd_lhs. cbn [value]. rewrite H3.
  reflexivity.
Qed.

Lemma operator_precedence_witness :
  parse_source DecimalText.stod "1 + 2 * 3"
  = Ok (make_module
          [Expr (BinaryOp (Number "1") "+" (BinaryOp (Number "2") "*" (Number "3")))])
  /\ parse_source DecimalText.stod "a || b && c"
     = Ok (make_module
             [Expr (BinaryOp (Name "a") "||" (BinaryOp (Name "b") "&&" (Name "c")))])
  /\ parse_source DecimalText.stod "!!x"
     = Ok (make_module [Expr (UnaryOp "!" (UnaryOp "!" (Name "x")))]).
Proof.
  apply (operator_precedence DecimalText.stod "1" "2" "3"); reflexivity.
Defined.

End Precedence.

Module SpawnInvariant.

Import Lexer AST Parser Spec.
Open Scope parser_scope.

Lemma ensures_bind {A B} (Q1 : A -> Prop) (Q2 : B -> Prop) (m : M A) (k : A -> M B) ts :
  ensures Q1 (m ts) ->
  (forall a ts', Q1 a -> ensures Q2 (k a ts')) ->
  ensures Q2 (bind m k ts).
Proof.
  unfold bind. destruct (m ts) as [[a ts']| | |]; simpl; auto.
Qed.

Lemma ensures_any {A} (m : M A) ts : ensures (fun _ => True) (m ts).
Proof. unfold ensures. destruct (m ts) as [[a ts']| | |]; exact I. Qed.

Lemma ensures_bind_any {A B} (Q : B -> Prop) (m : M A) (k : A -> M B) ts :
  (forall a ts', ensures Q (k a ts')) -> ensures Q (bind m k ts).
Proof.
  intros H. apply (ensures_bind (fun _ => True)); [apply ensures_any | auto].
Qed.

Create HintDb spawn.

Ltac ensures_step :=
  lazymatch goal with
  | |- ensures _ (ret _ _) => cbn [ensures ret]
  | |- ensures _ (throw _ _) => exact I
  | |- ensures _ (out_of_fuel _) => exact I
  | |- ensures _ ((if ?c then _ else _) _) => destruct c eqn:?
  | |- ensures _ ((let '(_, _) := ?p in _) _) => destruct p
  | |- ensures _ (bind (if ?c then _ else _) _ _) => destruct c eqn:?
  | |- ensures ?Q (bind (ret ?a) ?k ?ts) => change (ensures Q (k a ts)); cbv beta
  | |- ensures _ (bind _ _ _) =>
      first [ eapply ensures_bind; [solve [eauto with spawn] | intros ? ? ?]
            | apply ensures_bind_any; intros ? ? ]
  | |- ensures _ _ => solve [eauto with spawn]
  end.

Section Grammar.

Context {double : Type} (stod : string -> double + string).

Let good := fun n : Node double => spawn_calls n = true.
Let all_good := fun b : list (Node double) => forallb spawn_calls b = true.

Lemma forallb_snoc (body : list (Node double)) (n : Node double) :
  forallb spawn_calls body = true -> spawn_calls n = true ->
  forallb spawn_calls (body ++ [n]) = true.
Proof. intros Hb Hn. rewrite forallb_app, Hb; simpl. now rewrite Hn. Qed.

Lemma parse_import_statement_spawn fuel ts :
  ensures good (parse_import_statement fuel ts).
Proof.
  unfold parse_import_statement. repeat ensures_step; reflexivity.
Qed.

Lemma parse_variable_statement_spawn fuel m e d ts :
  ensures good (parse_variable_statement stod fuel m e d ts).
Proof.
  unfold parse_variable_statement. repeat ensures_step; reflexivity.
Qed.

Section Statements.

Variable parse_statement : M (Node double).
Hypothesis parse_statement_spawn : forall ts, ensures good (parse_statement ts).

Lemma parse_block_loop_spawn fuel : forall body ts,
  forallb spawn_calls body = true ->
  ensures all_good (parse_block_loop parse_statement fuel body ts).
Proof.
  induction fuel as [|fuel IH]; intros body ts Hbody; [exact I|].
  cbn [parse_block_loop].
  apply ensures_bind_any; intros tok ts1.
  destruct (negb _); [|exact Hbody].
  destruct (is_separator tok).
  - apply ensures_bind_any; intros _ ts2. now apply IH.
  - eapply ensures_bind; [apply parse_statement_spawn|].
    intros stmt ts2 Hstmt. apply IH. now apply forallb_snoc.
Qed.

Lemma parse_block_spawn fuel ts :
  ensures all_good (parse_block parse_statement fuel ts).
Proof.
  unfold parse_block.
  apply ensures_bind_any; intros _ ts1.
  eapply ensures_bind; [now apply parse_block_loop_spawn|].
  intros body ts2 Hbody.
  apply ensures_bind_any; intros _ ts3. exact Hbody.
Qed.

Hint Resolve parse_block_spawn parse_import_statement_spawn
  parse_variable_statement_spawn : spawn.

Lemma parse_function_statement_spawn fuel e d ts :
  ensures good (parse_function_statement parse_statement fuel e d ts).
Proof.
  unfold parse_function_statement. repeat ensures_step; assumption.
Qed.

Hint Resolve parse_function_statement_spawn : spawn.

Lemma parse_export_statement_spawn fuel ts :
  ensures good (parse_export_statement stod parse_statement fuel ts).
Proof.
  unfold parse_export_statement. repeat ensures_step; reflexivity.
Qed.

Hint Resolve parse_export_statement_spawn : spawn.

Lemma parse_statement_body_spawn fuel ts :
  ensures good (parse_statement_body stod parse_statement fuel ts).
Proof.
  unfold parse_statement_body. repeat ensures_step.
  all: try assumption; try reflexivity.
  - (* If, with and without else *)
    cbn [good spawn_calls]. apply andb_true_iff. split; assumption.
  - cbn [good spawn_calls]. apply andb_true_iff. split; [assumption | reflexivity].
  - (* Spawn: the kind test has passed *)
    cbn [good spawn_calls]. now apply negb_false_iff.
Qed.

End Statements.

Lemma parse_statement_spawn fuel : forall ts,
  ensures good (parse_statement stod fuel ts).
Proof.
  induction fuel as [|fuel IH]; intros ts; [exact I|].
  cbn [parse_statement]. now apply parse_statement_body_spawn.
Qed.

Lemma parse_loop_spawn fuel : forall body ts,
  forallb spawn_calls body = true ->
  ensures all_good (parse_loop stod fuel body ts).
Proof.
  induction fuel as [|fuel IH]; intros body ts Hbody; [exact I|].
  cbn [parse_loop].
  apply ensures_bind_any; intros tok ts1.
  destruct (negb _); [|exact Hbody].
  destruct (is_separator tok).
  - apply ensures_bind_any; intros _ ts2. now apply IH.
  - eapply ensures_bind; [apply parse_statement_spawn|].
    intros stmt ts2 Hstmt. apply IH. now apply forallb_snoc.
Qed.

Lemma parse_spawn tokens module :
  parse stod tokens = Ok module -> forallb spawn_calls (body module) = true.
Proof.
  unfold parse.
  pose proof (parse_loop_spawn (fuel_for tokens) [] tokens eq_refl) as H.
  destruct (parse_loop stod (fuel_for tokens) [] tokens) as [[b ts]| | |];
    try discriminate.
  intros [= <-]. exact H.
Qed.

Lemma spawn_rejects_non_call fuel tok rest expr rest' :
  type tok = "SPAWN" ->
  parse_expression stod fuel rest = Ok (expr, rest') ->
  expression_kind expr <> NodeKind.Call ->
  parse_statement stod (S fuel) (tok :: rest) = Throw "spawn expects a function call".
Proof.
  intros Htype Hexpr Hkind.
  cbn [parse_statement]. unfold parse_statement_body.
  unfold bind at 1. cbn [current]. rewrite Htype. cbn [String.eqb Ascii.eqb Bool.eqb orb].
  unfold bind at 1. cbn [consume Str.is_empty negb andb].
  unfold bind at 1. rewrite Hexpr.
  destruct expr; try reflexivity. now elim Hkind.
Qed.

End Grammar.

(** C3.  In every module that [parse] returns, every [Spawn] node has a
    [Call] as its [call], at any depth; and a [spawn] statement whose
    expression parses to anything else makes [parse_statement] throw
    the error of the spawn guard. *)
Theorem spawn_call_is_Call {double} (stod : string -> double + string) :
  (forall tokens module,
      parse stod tokens = Ok module -> forallb spawn_calls (body module) = true)
  /\ (forall fuel tok rest expr rest',
         type tok = "SPAWN" ->
         parse_expression stod fuel rest = Ok (expr, rest') ->
         expression_kind expr <> NodeKind.Call ->
         parse_statement stod (S fuel) (tok :: rest)
         = Throw "spawn expects a function call").
Proof.
  split.
  - apply parse_spawn.
  - apply spawn_rejects_non_call.
Qed.

Lemma spawn_call_is_Call_witness :
  forallb spawn_calls
    [Spawn (Call (Name "worker") [Name "id"] : Expression DecimalText.double)] = true
  /\ parse_statement DecimalText.stod 9
       [mkToken "SPAWN" "spawn" 1 1; mkToken "NAME" "worker" 1 7; mkToken "EOF" "" 1 13]
     = Throw "spawn expects a function call".
Proof.
  destruct (spawn_call_is_Call DecimalText.stod) as [Hparse Hreject]. split.
  - apply (Hparse [mkToken "SPAWN" "spawn" 1 1; mkToken "NAME" "worker" 1 7;
                   mkToken "LPAREN" "(" 1 13; mkToken "NAME" "id" 1 14;
                   mkToken "RPAREN" ")" 1 16; mkToken "EOF" "" 1 17]
                  (make_module [Spawn (Call (Name "worker") [Name "id"])])).
    reflexivity.
  - apply (Hreject 8 (mkToken "SPAWN" "spawn" 1 1)
                   [mkToken "NAME" "worker" 1 7; mkToken "EOF" "" 1 13]
                   (Name "worker") [mkToken "EOF" "" 1 13]).
    + reflexivity.
    + reflexivity.
    + discriminate.
Defined.

End SpawnInvariant.

Module Termination.

Import Lexer AST Parser Spec.
Open Scope parser_scope.

Lemma within_mono {A} (n n' : nat) (r : result (A * TokenStream)) :
  n <= n' -> within n r -> within n' r.
Proof.
  destruct r as [[a ts]| | |]; simpl; auto. intros Hle [Heof Hlen]. split; [exact Heof | lia].
Qed.

Lemma within_bind {A B} (n1 n2 : nat) (m : M A) (k : A -> M B) ts :
  within n1 (m ts) ->
  (forall a ts', has_eof ts' = true -> List.length ts' <= n1 -> within n2 (k a ts')) ->
  within n2 (bind m k ts).
Proof.
  unfold bind. destruct (m ts) as [[a ts']| | |]; simpl; auto.
  intros [Heof Hlen] Hk. now apply Hk.
Qed.

Lemma has_eof_cons (ts : TokenStream) :
  has_eof ts = true -> exists t ts', ts = t :: ts'.
Proof. destruct ts as [|t ts']; [discriminate | now exists t, ts']. Qed.

Lemma has_eof_length (ts : TokenStream) : has_eof ts = true -> 1 <= List.length ts.
Proof. destruct ts; [discriminate | simpl; lia]. Qed.

Lemma has_eof_tail (t : Token) (ts : TokenStream) (ty : string) :
  has_eof (t :: ts) = true -> type t = ty -> (ty =? "EOF") = false -> has_eof ts = true.
Proof. unfold has_eof; simpl. intros H Ht Hne. now rewrite Ht, Hne in H. Qed.

(** *** The primitives, on a stream that holds an EOF token *)

Lemma within_current {B} (n : nat) (k : Token -> M B) ts :
  has_eof ts = true ->
  (forall t ts', ts = t :: ts' -> within n (k t (t :: ts'))) ->
  within n (bind current k ts).
Proof. intros [t [ts' ->]]%has_eof_cons Hk. now apply Hk. Qed.

Lemma within_consume_any {B} (n : nat) (k : Token -> M B) t ts :
  within n (k t ts) -> within n (bind (consume "") k (t :: ts)).
Proof. exact (fun H => H). Qed.

Lemma within_consume {B} (expected : string) (n : nat) (k : Token -> M B) ts :
  has_eof ts = true ->
  Str.is_empty expected = false ->
  (forall t ts', ts = t :: ts' -> type t = expected -> within n (k t ts')) ->
  within n (bind (consume expected) k ts).
Proof.
  intros [t [ts' ->]]%has_eof_cons Hne Hk. unfold bind, consume. rewrite Hne.
  destruct (type t =? expected) eqn:E; simpl; [|exact I].
  apply Hk; [reflexivity | now apply String.eqb_eq].
Qed.

Lemma within_match {B} (ty : string) (n : nat) (k : bool -> M B) ts :
  has_eof ts = true ->
  (forall t ts', ts = t :: ts' -> type t = ty -> within n (k true ts')) ->
  within n (k false ts) ->
  within n (bind (match_ ty) k ts).
Proof.
  intros [t [ts' ->]]%has_eof_cons Hyes Hno. unfold bind, match_.
  destruct (type t =? ty) eqn:E; [|exact Hno].
  apply (Hyes t ts'); [reflexivity | now apply String.eqb_eq].
Qed.

Lemma within_peek {B} (n : nat) (k : Token -> M B) t ts :
  has_eof ts = true ->
  (forall t' ts', ts = t' :: ts' -> within n (k t' (t :: t' :: ts'))) ->
  within n (bind peek k (t :: ts)).
Proof. intros [t' [ts' ->]]%has_eof_cons Hk. now apply Hk. Qed.

Lemma within_ret {A} (n : nat) (a : A) ts :
  has_eof ts = true -> List.length ts <= n -> within n (ret a ts).
Proof. now split. Qed.

Lemma bind_ret {A B} (a : A) (k : A -> M B) ts : bind (ret a) k ts = k a ts.
Proof. reflexivity. Qed.

Lemma bind_assoc {A B C} (m : M A) (f : A -> M B) (k : B -> M C) ts :
  bind (bind m f) k ts = bind m (fun a => bind (f a) k) ts.
Proof. unfold bind. now destruct (m ts) as [[a ts']| | |]. Qed.

(** What a passed test says about the type of the token. *)
Ltac learn :=
  repeat match goal with
    | H : (_ && _) = true |- _ => apply andb_true_iff in H; destruct H
    | H : (_ || _) = true |- _ => apply orb_true_iff in H; destruct H
    | H : negb _ = true |- _ => apply negb_true_iff in H
    | H : negb _ = false |- _ => apply negb_false_iff in H
    | H : (type _ =? _) = true |- _ => apply String.eqb_eq in H
    end;
  try discriminate.

(** [has_eof] of the stream after tokens whose types are known. *)
Ltac saturate_eof :=
  repeat match goal with
    | Heof : has_eof (?t :: ?ts) = true, Ht : type ?t = ?ty |- _ =>
        lazymatch goal with
        | _ : has_eof ts = true |- _ => fail
        | _ => idtac
        end;
        pose proof (has_eof_tail t ts ty Heof Ht eq_refl)
    end.

Ltac eof := saturate_eof; assumption.

Ltac len :=
  repeat match goal with
    | H : has_eof ?ts = true |- _ =>
        lazymatch goal with
        | _ : 1 <= List.length ts |- _ => fail
        | _ => pose proof (has_eof_length ts H)
        end
    end;
  cbn [List.length] in *; lia.

(** Use the equation a primitive gives on the stream it read. *)
Ltac same_tokens :=
  match goal with
  | H : ?ts = _ :: _ |- _ =>
      first [ is_var ts; subst ts | injection H as ? ?; subst ]
  end.

Create HintDb within.

Ltac call_function := fail.

Ltac run_step :=
  lazymatch goal with
  | |- within _ (Throw _) => exact I
  | |- within _ (throw _ _) => exact I
  | |- within _ (ret _ _) => apply within_ret; [eof | len]
  | |- within _ ((if ?c then _ else _) _) => destruct c eqn:?; learn
  | |- within _ ((let '(_, _) := ?p in _) _) => destruct p
  | |- within _ (bind current _ _) =>
      apply within_current; [eof | intros ? ? ?; same_tokens]
  | |- within _ (bind (consume "") _ (_ :: _)) => apply within_consume_any
  | |- within _ (bind (consume _) _ _) =>
      apply within_consume; [eof | reflexivity | intros ? ? ? ?; same_tokens]
  | |- within _ (bind (match_ _) _ _) =>
      apply within_match; [eof | intros ? ? ? ?; same_tokens | ]
  | |- within _ (bind peek _ (_ :: _)) =>
      apply within_peek; [eof | intros ? ? ?; same_tokens]
  | |- within _ (bind (ret _) _ _) => rewrite bind_ret
  | |- within _ (bind (if ?c then _ else _) _ _) => destruct c eqn:?; learn
  | |- within _ (bind (bind _ _) _ _) => rewrite bind_assoc
  | |- within _ (bind (throw _) _ _) => exact I
  end.

Ltac run := repeat (cbv beta match; run_step).

(** A call whose lemma is in the hint database, in bind or tail position. *)
Ltac call lemma :=
  lazymatch goal with
  | |- within _ (bind _ _ _) =>
      eapply within_bind; [eapply lemma; [eof | len ..] | intros ? ? ? ?]
  | |- within _ _ =>
      eapply within_mono; [|eapply lemma; [eof | len ..]]; [len]
  end.

(** *** The functions that call neither [parse_expression] nor
    [parse_statement] *)

Lemma optional_newline_within fuel : forall ts,
  has_eof ts = true -> List.length ts < fuel ->
  within (List.length ts) (optional_newline fuel ts).
Proof.
  induction fuel as [|fuel IH]; intros ts Heof Hlen; [lia|].
  cbn [optional_newline]. run.
  unfold is_separator in *; learn.
  all: eapply within_mono; [|apply IH; [eof | len]]; len.
Qed.

Lemma parse_dotted_name_loop_within fuel : forall result ts,
  has_eof ts = true -> List.length ts < fuel ->
  within (List.length ts) (parse_dotted_name_loop fuel result ts).
Proof.
  induction fuel as [|fuel IH]; intros result ts Heof Hlen; [lia|].
  cbn [parse_dotted_name_loop]. run.
  eapply within_mono; [|apply IH; [eof | len]]; len.
Qed.

Lemma parse_dotted_name_within fuel ts :
  has_eof ts = true -> List.length ts <= fuel ->
  within (List.length ts - 1) (parse_dotted_name fuel ts).
Proof.
  intros Heof Hlen. unfold parse_dotted_name. run.
  call parse_dotted_name_loop_within.
Qed.

Lemma parse_module_specifier_within fuel ts :
  has_eof ts = true -> List.length ts <= fuel ->
  within (List.length ts - 1) (parse_module_specifier fuel ts).
Proof.
  intros Heof Hlen. unfold parse_module_specifier. run.
  call parse_dotted_name_within.
Qed.

Lemma parse_specifiers_loop_within fuel : forall names ts,
  has_eof ts = true -> List.length ts < fuel ->
  within (List.length ts) (parse_specifiers_loop fuel names ts).
Proof.
  induction fuel as [|fuel IH]; intros names ts Heof Hlen; [lia|].
  cbn [parse_specifiers_loop]. run.
  all: call IH.
Qed.

Lemma parse_import_specifiers_within fuel ts :
  has_eof ts = true -> List.length ts <= fuel ->
  within (List.length ts - 1) (parse_import_specifiers fuel ts).
Proof.
  intros Heof Hlen. unfold parse_import_specifiers. run.
  call parse_specifiers_loop_within. run.
Qed.

Lemma parse_export_specifiers_within fuel ts :
  has_eof ts = true -> List.length ts <= fuel ->
  within (List.length ts - 1) (parse_export_specifiers fuel ts).
Proof. exact (parse_import_specifiers_within fuel ts). Qed.

Lemma parse_optional_alias_within ts :
  has_eof ts = true -> within (List.length ts) (parse_optional_alias ts).
Proof. intros Heof. unfold parse_optional_alias. run. Qed.

Section Grammar.

Context {double : Type} (stod : string -> double + string).

Lemma parse_import_statement_within fuel ts :
  has_eof ts = true -> List.length ts <= fuel ->
  within (List.length ts - 1) (parse_import_statement (double := double) fuel ts).
Proof.
  intros Heof Hlen. unfold parse_import_statement.
  repeat (cbv beta match;
          first [ run_step
                | call parse_optional_alias_within
                | call parse_import_specifiers_within
                | call parse_module_specifier_within ]).
Qed.

Section Expressions.

Variable parse_expression : M (Expression double).
Variable bound : nat.
Hypothesis parse_expression_within : forall ts,
  has_eof ts = true -> List.length ts < bound ->
  within (List.length ts - 1) (parse_expression ts).

Lemma parse_expression_list_within fuel : forall xs ts,
  has_eof ts = true -> List.length ts < fuel -> List.length ts < bound ->
  within (List.length ts - 1) (parse_expression_list parse_expression fuel xs ts).
Proof.
  induction fuel as [|fuel IH]; intros xs ts Heof Hlen Hbound; [lia|].
  cbn [parse_expression_list].
  call parse_expression_within. run.
  call IH.
Qed.

Lemma parse_dict_pairs_within fuel : forall pairs ts,
  has_eof ts = true -> List.length ts < fuel -> List.length ts < bound ->
  within (List.length ts - 1) (parse_dict_pairs parse_expression fuel pairs ts).
Proof.
  induction fuel as [|fuel IH]; intros pairs ts Heof Hlen Hbound; [lia|].
  cbn [parse_dict_pairs].
  call parse_expression_within. run.
  call parse_expression_within. run.
  call IH.
Qed.

Ltac go :=
  repeat (cbv beta match;
          first [ run_step
                | call parse_expression_within
                | call parse_expression_list_within
                | call parse_dict_pairs_within ]).

Lemma parse_primary_within fuel ts :
  has_eof ts = true -> List.length ts <= fuel -> List.length ts <= bound ->
  within (List.length ts - 1) (parse_primary stod parse_expression fuel ts).
Proof.
  intros Heof Hlen Hbound. unfold parse_primary. go.
  all: destruct (stod _); go.
Qed.

Lemma parse_call_loop_within fuel : forall expr ts,
  has_eof ts = true -> List.length ts < fuel -> List.length ts <= bound ->
  within (List.length ts) (parse_call_loop parse_expression fuel expr ts).
Proof.
  induction fuel as [|fuel IH]; intros expr ts Heof Hlen Hbound; [lia|].
  cbn [parse_call_loop]. go.
  all: call IH.
Qed.

Lemma parse_call_expression_within fuel ts :
  has_eof ts = true -> List.length ts <= fuel -> List.length ts <= bound ->
  within (List.length ts - 1) (parse_call_expression stod parse_expression fuel ts).
Proof.
  intros Heof Hlen Hbound. unfold parse_call_expression.
  call parse_primary_within. call parse_call_loop_within.
Qed.

Lemma parse_unary_within fuel : forall ts,
  has_eof ts = true -> List.length ts < fuel -> List.length ts <= bound ->
  within (List.length ts - 1) (parse_unary stod parse_expression fuel ts).
Proof.
  induction fuel as [|fuel IH]; intros ts Heof Hlen Hbound; [lia|].
  cbn [parse_unary]. go.
  1-2: call IH; go.
  call parse_call_expression_within.
Qed.

(** A binary level, given that the level below it advances. *)
Lemma parse_binary_loop_within ops (next : M (Expression double)) (below : nat)
      (Hnext : forall ts, has_eof ts = true -> List.length ts <= below ->
                          within (List.length ts - 1) (next ts)) fuel :
  forall expr ts,
    has_eof ts = true -> List.length ts < fuel -> List.length ts <= S below ->
    within (List.length ts) (parse_binary_loop ops next fuel expr ts).
Proof.
  induction fuel as [|fuel IH]; intros expr ts Heof Hlen Hbelow; [lia|].
  cbn [parse_binary_loop]. go.
  call Hnext. call IH.
Qed.

Lemma binary_level_within ops (next : nat -> M (Expression double))
      (Hnext : forall fuel ts,
          has_eof ts = true -> List.length ts < fuel -> List.length ts <= bound ->
          within (List.length ts - 1) (next fuel ts)) fuel ts :
  has_eof ts = true -> List.length ts < fuel -> List.length ts <= bound ->
  within (List.length ts - 1)
         ((expr <- next fuel ;; parse_binary_loop ops (next fuel) fuel expr) ts).
Proof.
  intros Heof Hlen Hbound.
  call Hnext.
  eapply within_mono;
    [|apply (parse_binary_loop_within ops (next fuel) (Nat.min (fuel - 1) bound))].
  - len.
  - intros ts1 Heof1 Hlen1. apply Hnext; [eof | len ..].
  - eof.
  - len.
  - len.
Qed.

Lemma parse_factor_within fuel ts :
  has_eof ts = true -> List.length ts < fuel -> List.length ts <= bound ->
  within (List.length ts - 1) (parse_factor stod parse_expression fuel ts).
Proof. apply (binary_level_within _ _ parse_unary_within). Qed.

Lemma parse_term_within fuel ts :
  has_eof ts = true -> List.length ts < fuel -> List.length ts <= bound ->
  within (List.length ts - 1) (parse_term stod parse_expression fuel ts).
Proof. apply (binary_level_within _ _ parse_factor_within). Qed.

Lemma parse_comparison_within fuel ts :
  has_eof ts = true -> List.length ts < fuel -> List.length ts <= bound ->
  within (List.length ts - 1) (parse_comparison stod parse_expression fuel ts).
Proof. apply (binary_level_within _ _ parse_term_within). Qed.

Lemma parse_equality_within fuel ts :
  has_eof ts = true -> List.length ts < fuel -> List.length ts <= bound ->
  within (List.length ts - 1) (parse_equality stod parse_expression fuel ts).
Proof. apply (binary_level_within _ _ parse_comparison_within). Qed.

Lemma parse_and_within fuel ts :
  has_eof ts = true -> List.length ts < fuel -> List.length ts <= bound ->
  within (List.length ts - 1) (parse_and stod parse_expression fuel ts).
Proof. apply (binary_level_within _ _ parse_equality_within). Qed.

Lemma parse_or_within fuel ts :
  has_eof ts = true -> List.length ts < fuel -> List.length ts <= bound ->
  within (List.length ts - 1) (parse_or stod parse_expression fuel ts).
Proof. apply (binary_level_within _ _ parse_and_within). Qed.

End Expressions.

(** Every call of [parse_expression] that returns has consumed a token. *)
Lemma parse_expression_within fuel : forall ts,
  has_eof ts = true -> List.length ts + 1 < fuel ->
  within (List.length ts - 1) (parse_expression stod fuel ts).
Proof.
  induction fuel as [|fuel IH]; intros ts Heof Hlen; [lia|].
  cbn [parse_expression].
  apply (parse_or_within (parse_expression stod fuel) (fuel - 1)); [|eof|len..].
  intros ts1 Heof1 Hlen1. apply IH; [eof | len].
Qed.

Lemma parse_variable_statement_within fuel m e d ts :
  has_eof ts = true -> List.length ts + 1 < fuel ->
  within (List.length ts - 1) (parse_variable_statement stod fuel m e d ts).
Proof.
  intros Heof Hlen. unfold parse_variable_statement. run.
  all: call parse_expression_within; run.
Qed.

Lemma parse_params_loop_within fuel : forall params ts,
  has_eof ts = true -> List.length ts < fuel ->
  within (List.length ts - 1) (parse_params_loop fuel params ts).
Proof.
  induction fuel as [|fuel IH]; intros params ts Heof Hlen; [lia|].
  cbn [parse_params_loop]. run. call IH.
Qed.

Section Statements.

Variable parse_statement : M (Node double).
Variable bound : nat.
Hypothesis parse_statement_within : forall ts,
  has_eof ts = true -> List.length ts < bound ->
  within (List.length ts - 1) (parse_statement ts).

Lemma parse_block_loop_within fuel : forall body ts,
  has_eof ts = true -> List.length ts < fuel -> List.length ts < bound ->
  within (List.length ts) (parse_block_loop parse_statement fuel body ts).
Proof.
  induction fuel as [|fuel IH]; intros body ts Heof Hlen Hbound; [lia|].
  cbn [parse_block_loop]. run.
  - unfold is_separator in *; learn; call IH.
  - call parse_statement_within. call IH.
Qed.

Lemma parse_block_within fuel ts :
  has_eof ts = true -> List.length ts <= fuel -> List.length ts <= bound ->
  within (List.length ts - 1) (parse_block parse_statement fuel ts).
Proof.
  intros Heof Hlen Hbound. unfold parse_block. run.
  call parse_block_loop_within. run.
Qed.

Ltac go :=
  repeat (cbv beta match;
          first [ run_step
                | call parse_expression_within
                | call parse_block_within
                | call parse_params_loop_within
                | call parse_variable_statement_within
                | call parse_export_specifiers_within
                | call parse_module_specifier_within
                | call optional_newline_within ]).

Lemma parse_function_statement_within fuel e d t ts :
  has_eof (t :: ts) = true -> (type t = "FN" \/ type t = "FUNCTION") ->
  List.length (t :: ts) <= fuel -> List.length (t :: ts) <= bound ->
  within (List.length ts) (parse_function_statement parse_statement fuel e d (t :: ts)).
Proof.
  intros Heof [Ht|Ht] Hlen Hbound; unfold parse_function_statement; go.
Qed.

Ltac call_function_statement :=
  lazymatch goal with
  | |- within _ (bind (parse_function_statement _ _ _ _) _ (_ :: _)) =>
      eapply within_bind;
      [eapply parse_function_statement_within;
       [eof | first [left; assumption | right; assumption] | len ..]
      | intros ? ? ? ?]
  | |- within _ (parse_function_statement _ _ _ _ (_ :: _)) =>
      eapply within_mono;
      [|eapply parse_function_statement_within;
        [eof | first [left; assumption | right; assumption] | len ..]]; [len]
  end.

Ltac go ::=
  repeat (cbv beta match;
          first [ run_step
                | call_function_statement
                | call parse_expression_within
                | call parse_block_within
                | call parse_params_loop_within
                | call parse_variable_statement_within
                | call parse_export_specifiers_within
                | call parse_module_specifier_within
                | call parse_import_statement_within
                | call optional_newline_within ]).

Lemma parse_export_statement_within fuel ts :
  has_eof ts = true -> List.length ts + 2 < fuel -> List.length ts <= bound ->
  within (List.length ts - 1) (parse_export_statement stod parse_statement fuel ts).
Proof.
  intros Heof Hlen Hbound. unfold parse_export_statement. go.
Qed.

Lemma parse_statement_body_within fuel ts :
  has_eof ts = true -> List.length ts + 2 < fuel -> List.length ts <= bound ->
  within (List.length ts - 1) (parse_statement_body stod parse_statement fuel ts).
Proof.
  intros Heof Hlen Hbound. unfold parse_statement_body.
  repeat (cbv beta match;
          first [ run_step
                | call_function_statement
                | call parse_export_statement_within
                | call parse_expression_within
                | call parse_block_within
                | call parse_variable_statement_within
                | call parse_import_statement_within
                | call optional_newline_within ]).
Qed.

End Statements.

(** Every call of [parse_statement] that returns has consumed a token. *)
Lemma parse_statement_within fuel : forall ts,
  has_eof ts = true -> List.length ts + 3 < fuel ->
  within (List.length ts - 1) (parse_statement stod fuel ts).
Proof.
  induction fuel as [|fuel IH]; intros ts Heof Hlen; [lia|].
  cbn [parse_statement].
  apply (parse_statement_body_within (parse_statement stod fuel) (fuel - 3));
    [|eof|len..].
  intros ts1 Heof1 Hlen1. apply IH; [eof | len].
Qed.

Lemma parse_loop_within fuel : forall body ts,
  has_eof ts = true -> List.length ts + 4 < fuel ->
  within (List.length ts) (parse_loop stod fuel body ts).
Proof.
  induction fuel as [|fuel IH]; intros body ts Heof Hlen; [lia|].
  cbn [parse_loop]. run.
  - unfold is_separator in *; learn; call IH.
  - call parse_statement_within. call IH.
Qed.

Lemma ends_with_EOF_has_eof (ts : TokenStream) : ends_with_EOF ts -> has_eof ts = true.
Proof.
  intros (front & eof & -> & Heof). unfold has_eof.
  rewrite existsb_app; simpl. rewrite Heof; simpl. now rewrite orb_true_r.
Qed.

Lemma parse_total (tokens : TokenStream) :
  has_eof tokens = true ->
  returns (parse stod tokens) \/ throws (parse stod tokens).
Proof.
  intros Heof. unfold parse.
  pose proof (parse_loop_within (fuel_for tokens) [] tokens Heof) as H.
  unfold fuel_for in *.
  destruct (parse_loop stod (List.length tokens + 5) [] tokens) as [[body rest]|what| |].
  - left. now exists (make_module body).
  - right. now exists what.
  - elim H. lia.
  - elim H. lia.
Qed.

Lemma parse_statement_advances fuel ts :
  has_eof ts = true -> List.length ts + 3 < fuel ->
  (exists stmt rest, parse_statement stod fuel ts = Ok (stmt, rest)
                     /\ List.length rest < List.length ts)
  \/ throws (parse_statement stod fuel ts).
Proof.
  intros Heof Hlen.
  pose proof (parse_statement_within fuel ts Heof Hlen) as H.
  destruct (parse_statement stod fuel ts) as [[stmt rest]|what| |].
  - left. exists stmt, rest. split; [reflexivity|]. destruct H as [_ H]. len.
  - right. now exists what.
  - elim H.
  - elim H.
Qed.

End Grammar.

(** C10.  On a token stream that ends with an EOF token [parse] returns a
    module or throws: it neither reads past the end of the stream nor runs
    without end.  The reason is that a call of [parse_statement] on a stream
    that holds an EOF token, the one iteration of the statement loop and of
    the loop of [parse_block] that does not consume a separator, returns
    with fewer tokens left or throws. *)
Theorem parse_terminates {double} (stod : string -> double + string)
        (tokens : TokenStream) :
  ends_with_EOF tokens ->
  (returns (parse stod tokens) \/ throws (parse stod tokens))
  /\ (forall fuel ts,
         has_eof ts = true -> List.length ts + 3 < fuel ->
         (exists stmt rest, parse_statement stod fuel ts = Ok (stmt, rest)
                            /\ List.length rest < List.length ts)
         \/ throws (parse_statement stod fuel ts)).
Proof.
  intros Hend. split.
  - apply parse_total. now apply ends_with_EOF_has_eof.
  - apply parse_statement_advances.
Qed.

Lemma parse_terminates_witness :
  ends_with_EOF [mkToken "NAME" "x" 1 1; mkToken "EOF" "" 1 2]
  /\ (returns (parse DecimalText.stod [mkToken "NAME" "x" 1 1; mkToken "EOF" "" 1 2])
      \/ throws (parse DecimalText.stod [mkToken "NAME" "x" 1 1; mkToken "EOF" "" 1 2]))
  /\ has_eof [mkToken "NAME" "x" 1 1; mkToken "EOF" "" 1 2] = true
  /\ List.length [mkToken "NAME" "x" 1 1; mkToken "EOF" "" 1 2] + 3 < 6
  /\ ((exists stmt rest,
          parse_statement DecimalText.stod 6 [mkToken "NAME" "x" 1 1; mkToken "EOF" "" 1 2]
          = Ok (stmt, rest)
          /\ List.length rest < List.length [mkToken "NAME" "x" 1 1; mkToken "EOF" "" 1 2])
      \/ throws (parse_statement DecimalText.stod 6
                   [mkToken "NAME" "x" 1 1; mkToken "EOF" "" 1 2])).
Proof.
  assert (Hend : ends_with_EOF [mkToken "NAME" "x" 1 1; mkToken "EOF" "" 1 2]).
  { exists [mkToken "NAME" "x" 1 1], (mkToken "EOF" "" 1 2). split; reflexivity. }
  destruct (parse_terminates DecimalText.stod _ Hend) as [Hparse Hstatement].
  split; [exact Hend|]. split; [exact Hparse|].
  split; [reflexivity|]. split; [simpl; lia|].
  apply Hstatement; [reflexivity | simpl; lia].
Defined.

End Termination.

Module PythonFacts.

Import AST Visit PythonVisitor Spec StrFacts.
Open Scope visit_scope.

Lemma Node_children_ind {double} (P : Node double -> Prop) :
  (forall n, Forall P (children n) -> P n) -> forall n, P n.
Proof.
  intros step. fix IH 1. intros n. apply step.
  destruct n as [ | | | | ? ? body ? ? | | | | ? body orelse | ? body | ? ? body | | ];
    simpl; try apply Forall_nil.
  - induction body as [|stmt body IHbody]; constructor; [apply IH | exact IHbody].
  - apply Forall_app. split.
    + induction body as [|stmt body IHbody]; constructor; [apply IH | exact IHbody].
    + induction orelse as [|stmt orelse IHbody]; constructor; [apply IH | exact IHbody].
  - induction body as [|stmt body IHbody]; constructor; [apply IH | exact IHbody].
  - induction body as [|stmt body IHbody]; constructor; [apply IH | exact IHbody].
Qed.

Section Rules.

Variable Inv : string -> Prop.

Lemma follows_emit (k : nat) (text : string) :
  (forall s, Inv s -> Inv (s ++ emitted_line k text)) ->
  follows Inv k k (emit text).
Proof.
  intros Hemit st Hk Hinv. eexists. split; [reflexivity|].
  simpl. split; [exact Hk|]. rewrite Hk. now apply Hemit.
Qed.

Lemma follows_indent (k : nat) : follows Inv k (S k) indent.
Proof.
  intros st Hk Hinv. eexists. split; [reflexivity|]. simpl. now rewrite Hk.
Qed.

Lemma follows_dedent (k : nat) : follows Inv (S k) k dedent.
Proof.
  intros st Hk Hinv. unfold dedent, IndentedEmitter.dedent. rewrite Hk.
  eexists. split; [reflexivity|]. now simpl.
Qed.

Lemma follows_skip (k : nat) : follows Inv k k skip.
Proof. intros st Hk Hinv. now exists st. Qed.

Lemma follows_seq (k k1 k2 : nat) (a b : V State) :
  follows Inv k k1 a -> follows Inv k1 k2 b -> follows Inv k k2 (a ;; b).
Proof.
  intros Ha Hb st Hk Hinv. destruct (Ha st Hk Hinv) as (st1 & E1 & Hk1 & Hinv1).
  destruct (Hb st1 Hk1 Hinv1) as (st2 & E2 & Hk2 & Hinv2).
  exists st2. unfold seq. rewrite E1. auto.
Qed.

Lemma follows_when (k : nat) (c : bool) (a : V State) :
  follows Inv k k a -> follows Inv k k (when c a).
Proof. destruct c; [auto | intros _; apply follows_skip]. Qed.

Lemma follows_for_each {A} (k : nat) (f : A -> V State) (xs : list A) :
  Forall (fun x => follows Inv k k (f x)) xs -> follows Inv k k (for_each f xs).
Proof.
  induction 1 as [|x xs Hx _ IH]; simpl; [apply follows_skip|].
  eapply follows_seq; eassumption.
Qed.

Lemma follows_with_temp (k k' : nat) (prefix : string) (body : string -> V State) :
  (forall i, follows Inv k k' (body ("__trif_" ++ prefix ++ "_" ++ Str.of_Z i))) ->
  follows Inv k k' (with_temp prefix body).
Proof.
  intros Hbody st Hk Hinv. unfold with_temp, temp.
  now apply Hbody.
Qed.

End Rules.

End PythonFacts.

Module TextFacts.

Import Spec StrFacts.

Lemma all_chars_app (p : ascii -> bool) (a b : string) :
  all_chars p (a ++ b) = all_chars p a && all_chars p b.
Proof. induction a as [|c a IH]; simpl; [reflexivity | now rewrite IH, andb_assoc]. Qed.

Lemma no_newline_app (a b : string) :
  no_newline (a ++ b) = no_newline a && no_newline b.
Proof. apply all_chars_app. Qed.

Lemma word_no_newline (s : string) : word s = true -> no_newline s = true.
Proof. unfold word, text_ok. now intros [[H _]%andb_true_iff _]%andb_true_iff. Qed.

Lemma word_text_ok (s : string) : word s = true -> text_ok s = true.
Proof. unfold word. now intros [H _]%andb_true_iff. Qed.

Lemma word_app (a b : string) :
  word a = true -> no_newline b = true -> word (a ++ b) = true.
Proof.
  intros Ha Hb. destruct a as [|c a]; [discriminate Ha|].
  unfold word, text_ok in *.
  apply andb_true_iff in Ha as [[Hn Hs]%andb_true_iff _].
  rewrite no_newline_app, Hn, Hb. simpl in *. now rewrite Hs.
Qed.

Lemma text_ok_app (a b : string) :
  word a = true -> no_newline b = true -> text_ok (a ++ b) = true.
Proof. intros Ha Hb. now apply word_text_ok, word_app. Qed.

(** A text that begins with a character other than the space and the
    newline, such as the keyword of a statement. *)
Lemma word_cons (c : ascii) (s : string) :
  negb (Ascii.eqb c LF) && negb (Ascii.eqb c " ") = true ->
  no_newline s = true -> word (String c s) = true.
Proof.
  unfold word, text_ok, no_newline. simpl.
  intros [H1 H2]%andb_true_iff Hs. now rewrite H1, H2, Hs.
Qed.

Lemma no_newline_concat (sep : string) (l : list string) :
  no_newline sep = true -> forallb no_newline l = true ->
  no_newline (String.concat sep l) = true.
Proof.
  intros Hsep. induction l as [|x [|y l] IH]; simpl; intros H.
  - reflexivity.
  - now rewrite andb_true_r in H.
  - apply andb_true_iff in H as [Hx Hl].
    rewrite !no_newline_app, Hx, Hsep. simpl. now apply IH.
Qed.

Lemma no_newline_repr_string_body (s : string) : no_newline (repr_string_body s) = true.
Proof.
  induction s as [|c s IH]; [reflexivity|]. simpl.
  rewrite no_newline_app, IH, andb_true_r.
  destruct (Ascii.eqb c BACKSLASH); [reflexivity|].
  destruct (Ascii.eqb c DQUOTE); [reflexivity|].
  destruct (Ascii.eqb c LF) eqn:E; [reflexivity|].
  destruct (Ascii.eqb c TAB); [reflexivity|].
  destruct (Ascii.eqb c CR); [reflexivity|].
  unfold no_newline; simpl. now rewrite E.
Qed.

Lemma word_repr_string (s : string) : word (repr_string s) = true.
Proof.
  unfold repr_string. apply word_cons; [reflexivity|].
  now rewrite no_newline_app, no_newline_repr_string_body.
Qed.

Lemma no_newline_map (f : ascii -> ascii) (s : string) :
  (forall c, Ascii.eqb (f c) LF = Ascii.eqb c LF) ->
  no_newline (Str.map f s) = no_newline s.
Proof.
  intros Hf. unfold no_newline. induction s as [|c s IH]; simpl; [reflexivity|].
  now rewrite Hf, IH.
Qed.

Lemma no_newline_of_Z (z : Z) : no_newline (Str.of_Z z) = true.
Proof.
  assert (H : forall d, no_newline (NilEmpty.string_of_uint d) = true).
  { induction d; simpl; auto. }
  assert (H0 : forall d, no_newline (NilZero.string_of_uint d) = true).
  { intros d. destruct d; try reflexivity; apply (H (_ d)). }
  unfold Str.of_Z. destruct (Z.to_int z) as [d|d]; simpl; [apply H0|].
  apply (H0 d).
Qed.

Lemma temp_name_word (prefix : string) (i : Z) :
  no_newline prefix = true ->
  word ("__trif_" ++ prefix ++ "_" ++ Str.of_Z i) = true.
Proof.
  intros Hp. apply word_app; [reflexivity|].
  now rewrite !no_newline_app, Hp, no_newline_of_Z.
Qed.

End TextFacts.

Module LexedTokens.

Import Lexer Spec StrFacts TextFacts LexerTotal.

Lemma all_chars_take_while (p : ascii -> bool) (s : string) :
  all_chars p (Str.take_while p s) = true.
Proof.
  induction s as [|c s IH]; simpl; [reflexivity|].
  destruct (p c) eqn:E; simpl; [now rewrite E | reflexivity].
Qed.

Lemma is_name_char_not_newline (c : ascii) :
  is_name_char c = true -> negb (Ascii.eqb c LF) = true.
Proof.
  destruct c as [[] [] [] [] [] [] [] []]; try reflexivity; discriminate.
Qed.

Lemma is_name_start_not_space (c : ascii) :
  is_name_start c = true -> negb (Ascii.eqb c " ") = true.
Proof.
  destruct c as [[] [] [] [] [] [] [] []]; try reflexivity; discriminate.
Qed.

Lemma match_NAME_word (s m : string) : match_NAME s = Some m -> word m = true.
Proof.
  destruct s as [|c s]; simpl; [discriminate|].
  destruct (is_name_start c) eqn:Hc; [|discriminate]. intros [= <-].
  apply word_cons.
  - rewrite (is_name_start_not_space c Hc), andb_true_r.
    apply is_name_char_not_newline. unfold is_name_char. now rewrite Hc.
  - apply (RoundTrip.all_chars_impl is_name_char); [apply is_name_char_not_newline|].
    apply all_chars_take_while.
Qed.

Lemma is_op_char_word (c : ascii) : is_op_char c = true -> word (String c "") = true.
Proof.
  destruct c as [[] [] [] [] [] [] [] []]; try reflexivity; discriminate.
Qed.

Lemma match_OP_word (s m : string) : match_OP s = Some m -> word m = true.
Proof.
  unfold match_OP. destruct (find _ _) as [op|] eqn:E.
  - intros [= <-]. apply find_some in E as [Hin _]. simpl in Hin.
    repeat (destruct Hin as [<-|Hin]; [reflexivity|]). destruct Hin.
  - destruct s as [|c s]; [discriminate|].
    destruct (is_op_char c) eqn:Hc; [|discriminate].
    intros [= <-]. now apply is_op_char_word.
Qed.

(** The match of the first pattern is the match of a pattern of the list,
    under its name. *)
Lemma first_match_In (ps : list Pattern) (rem kind value : string) :
  first_match ps rem = Some (kind, value) ->
  exists re, In (kind, re) ps /\ re rem = Some value.
Proof.
  induction ps as [|[name re] ps IH]; simpl; [discriminate|].
  destruct (re rem) as [m|] eqn:E.
  - intros [= <- <-]. exists re. split; [now left | exact E].
  - intros H. destruct (IH H) as (re' & Hin & Hre). exists re'. split; [now right | exact Hre].
Qed.

Lemma first_match_word (rem kind value : string) :
  first_match token_patterns rem = Some (kind, value) ->
  (kind =? "NAME") || (kind =? "OP") = true -> word value = true.
Proof.
  intros (re & Hin & Hre)%first_match_In Hkind.
  unfold token_patterns in Hin. simpl in Hin.
  repeat (destruct Hin as [[= <- <-]|Hin];
          [first [ discriminate Hkind
                 | exact (match_NAME_word _ _ Hre)
                 | exact (match_OP_word _ _ Hre) ]|]).
  destruct Hin.
Qed.

Lemma keyword_kind (value : string) :
  is_keyword value = true ->
  (uppercase value =? "NAME") || (uppercase value =? "OP") = false.
Proof.
  unfold is_keyword. intros [k [Hin ->%String.eqb_eq]]%existsb_exists.
  unfold kKeywords in Hin. simpl in Hin.
  repeat (destruct Hin as [<-|Hin]; [reflexivity|]). destruct Hin.
Qed.

Lemma lexed_snoc (ts : TokenStream) (t : Token) :
  lexed ts = true -> lexed_token t = true -> lexed (ts ++ [t])%list = true.
Proof. unfold lexed. intros Hts Ht. rewrite forallb_app, Hts; simpl. now rewrite Ht. Qed.

Lemma tokenize_step_lexed (c : Cursor) :
  lexed (tokens c) = true ->
  match tokenize_step c with
  | Next c' => lexed (tokens c') = true
  | Done ts => lexed ts = true
  | Fail _ => True
  end.
Proof.
  intros Hc. unfold tokenize_step.
  destruct (Str.is_empty (remaining c)); [now apply lexed_snoc|].
  destruct (String.prefix "/*" (remaining c)).
  - now destruct (Str.find "*/" (remaining c)).
  - destruct (first_match token_patterns (remaining c)) as [[kind text]|] eqn:E;
      [|exact I].
    destruct (kind =? "NEWLINE") eqn:Hnl.
    + cbn [tokens]. apply lexed_snoc; [exact Hc|].
      apply String.eqb_eq in Hnl. subst kind. reflexivity.
    + destruct (_ || _); [exact Hc|].
      cbn [tokens]. apply lexed_snoc; [exact Hc|].
      unfold lexed_token; cbn [type value].
      destruct (kind =? "NAME") eqn:Hname.
      * destruct (is_keyword text) eqn:Hkw; cbn [andb].
        -- now rewrite (keyword_kind text Hkw).
        -- cbn [orb]. apply String.eqb_eq in Hname. subst kind. cbn [String.eqb Ascii.eqb Bool.eqb].
           apply (first_match_word _ _ _ E). reflexivity.
      * cbn [andb]. rewrite Hname. cbn [orb].
        destruct (kind =? "OP") eqn:Hop; [|reflexivity].
        apply String.eqb_eq in Hop. subst kind. cbn [String.eqb Ascii.eqb Bool.eqb].
        apply (first_match_word _ _ _ E). reflexivity.
Qed.

Lemma tokenize_loop_lexed (fuel : nat) : forall c ts,
  lexed (tokens c) = true -> tokenize_loop fuel c = Ok ts -> lexed ts = true.
Proof.
  induction fuel as [|fuel IH]; intros c ts Hc; [discriminate|].
  simpl. pose proof (tokenize_step_lexed c Hc) as Hstep.
  destruct (tokenize_step c) as [c'|ts'|what]; [now apply IH | | discriminate].
  now intros [= <-].
Qed.

(** In the stream [tokenize] returns, the text of every NAME and OP
    token is a [word]. *)
Lemma tokenize_lexed (source : string) (ts : TokenStream) :
  tokenize source = Ok ts -> lexed ts = true.
Proof. apply tokenize_loop_lexed. reflexivity. Qed.

End LexedTokens.

Module TidyParse.

Import Lexer AST Parser Spec StrFacts TextFacts.
Open Scope parser_scope.

Lemma yields_bind {A B} (Q1 : A -> Prop) (Q2 : B -> Prop) (m : M A) (k : A -> M B) ts :
  yields Q1 (m ts) ->
  (forall a ts', Q1 a -> lexed ts' = true -> yields Q2 (k a ts')) ->
  yields Q2 (bind m k ts).
Proof.
  unfold bind. destruct (m ts) as [[a ts']| | |]; simpl; auto.
  intros [Ha Hts] Hk. now apply Hk.
Qed.

Lemma yields_weaken {A} (Q1 Q2 : A -> Prop) (r : result (A * TokenStream)) :
  (forall a, Q1 a -> Q2 a) -> yields Q1 r -> yields Q2 r.
Proof. destruct r as [[a ts]| | |]; simpl; auto. intros H [Ha Hts]. auto. Qed.

Lemma lexed_cons (t : Token) (ts : TokenStream) :
  lexed (t :: ts) = true -> lexed_token t = true /\ lexed ts = true.
Proof. unfold lexed; simpl. apply andb_true_iff. Qed.

Lemma yields_current ts :
  lexed ts = true -> yields (fun t => lexed_token t = true) (current ts).
Proof.
  destruct ts as [|t ts]; [intros _; exact I|].
  intros H. split; [apply (lexed_cons _ _ H) | exact H].
Qed.

Lemma yields_consume (expected : string) ts :
  lexed ts = true -> yields (lexed_as expected) (consume expected ts).
Proof.
  destruct ts as [|t ts]; [intros _; exact I|].
  intros [Ht Hts]%lexed_cons. unfold consume, lexed_as.
  destruct (Str.is_empty expected); simpl; [split; [split|]; auto; discriminate|].
  destruct (type t =? expected) eqn:E; simpl; [|exact I].
  apply String.eqb_eq in E. now repeat split.
Qed.

Lemma yields_match (ty : string) ts :
  lexed ts = true -> yields (fun _ => True) (match_ ty ts).
Proof.
  destruct ts as [|t ts]; [intros _; exact I|].
  intros H. unfold match_. destruct (type t =? ty); simpl; [|now split].
  split; [exact I | apply (lexed_cons _ _ H)].
Qed.

Lemma yields_peek ts : lexed ts = true -> yields (fun _ => True) (peek ts).
Proof. destruct ts as [|t [|t' ts]]; intros H; simpl; auto. Qed.

Lemma yields_ret {A} (Q : A -> Prop) (a : A) ts :
  Q a -> lexed ts = true -> yields Q (ret a ts).
Proof. now split. Qed.

Lemma lexed_token_word (t : Token) :
  lexed_token t = true -> type t = "NAME" \/ type t = "OP" -> word (value t) = true.
Proof. unfold lexed_token. intros H [Ht | Ht]; now rewrite Ht in H. Qed.

(** The words among the tokens at hand. *)
Ltac words_of_tokens :=
  cbv beta in *;
  Termination.learn;
  repeat match goal with
    | H : lexed_as ?e ?t |- _ =>
        let H1 := fresh "Hlexed" in
        let H2 := fresh "Htype" in
        destruct H as [H1 H2];
        try specialize (H2 eq_refl)
    end;
  repeat match goal with
    | H : lexed_token ?t = true, Ht : type ?t = "NAME" |- _ =>
        lazymatch goal with
        | _ : word (value t) = true |- _ => fail
        | _ => pose proof (lexed_token_word t H (or_introl Ht))
        end
    | H : lexed_token ?t = true, Ht : type ?t = "OP" |- _ =>
        lazymatch goal with
        | _ : word (value t) = true |- _ => fail
        | _ => pose proof (lexed_token_word t H (or_intror Ht))
        end
    end.

Ltac no_newlines :=
  repeat match goal with
    | H : word ?x = true |- _ =>
        lazymatch goal with
        | _ : no_newline x = true |- _ => fail
        | _ => pose proof (word_no_newline x H)
        end
    end;
  rewrite ?no_newline_app;
  repeat match goal with
    | H : no_newline ?x = true |- context [no_newline ?x] => rewrite H
    end;
  reflexivity.

Ltac yield_step :=
  lazymatch goal with
  | |- yields _ (Throw _) => exact I
  | |- yields _ (throw _ _) => exact I
  | |- yields _ (out_of_fuel _) => exact I
  | |- yields _ (ret _ _) => apply yields_ret; [words_of_tokens | assumption]
  | |- yields _ ((if ?c then _ else _) _) => destruct c eqn:?
  | |- yields _ ((let '(_, _) := ?p in _) _) => destruct p
  | |- yields _ (bind current _ _) =>
      eapply yields_bind; [apply yields_current; assumption | intros ? ? ? ?]
  | |- yields _ (bind (consume _) _ _) =>
      eapply yields_bind; [apply yields_consume; assumption | intros ? ? ? ?]
  | |- yields _ (bind (match_ _) _ _) =>
      eapply yields_bind; [apply yields_match; assumption | intros ? ? ? ?]
  | |- yields _ (bind peek _ _) =>
      eapply yields_bind; [apply yields_peek; assumption | intros ? ? ? ?]
  | |- yields _ (bind (ret _) _ _) => rewrite Termination.bind_ret
  | |- yields _ (bind (if ?c then _ else _) _ _) => destruct c eqn:?
  | |- yields _ (bind (bind _ _) _ _) => rewrite Termination.bind_assoc
  | |- yields _ (bind (throw _) _ _) => exact I
  end.

Ltac yielding := repeat (cbv beta match; yield_step).

Ltac calling lemma :=
  lazymatch goal with
  | |- yields _ (bind _ _ _) =>
      eapply yields_bind;
      [eapply lemma; first [eassumption | reflexivity] | intros ? ? ? ?]
  | |- yields _ _ => eapply lemma; first [eassumption | reflexivity]
  end.

Lemma optional_newline_yields fuel : forall ts,
  lexed ts = true -> yields (fun _ => True) (optional_newline fuel ts).
Proof.
  induction fuel as [|fuel IH]; intros ts Hts; [exact I|].
  cbn [optional_newline]. yielding; [|exact I]. calling IH.
Qed.

Lemma parse_dotted_name_loop_yields fuel : forall result ts,
  word result = true -> lexed ts = true ->
  yields (fun s => word s = true) (parse_dotted_name_loop fuel result ts).
Proof.
  induction fuel as [|fuel IH]; intros result ts Hres Hts; [exact I|].
  cbn [parse_dotted_name_loop]. yielding; [|assumption].
  apply IH; [|assumption]. words_of_tokens.
  apply word_app; [assumption | no_newlines].
Qed.

Lemma parse_dotted_name_yields fuel ts :
  lexed ts = true -> yields (fun s => word s = true) (parse_dotted_name fuel ts).
Proof.
  intros Hts. unfold parse_dotted_name. yielding.
  apply parse_dotted_name_loop_yields; [words_of_tokens|]; assumption.
Qed.

Lemma parse_module_specifier_yields fuel ts :
  lexed ts = true -> yields (fun _ => True) (parse_module_specifier fuel ts).
Proof.
  intros Hts. unfold parse_module_specifier. yielding; [exact I|].
  eapply yields_weaken; [|apply parse_dotted_name_yields; assumption]. auto.
Qed.

Lemma parse_specifiers_loop_yields fuel : forall names ts,
  forallb word_pair names = true -> lexed ts = true ->
  yields (fun l => forallb word_pair l = true) (parse_specifiers_loop fuel names ts).
Proof.
  induction fuel as [|fuel IH]; intros names ts Hnames Hts; [exact I|].
  cbn [parse_specifiers_loop]. yielding; try assumption.
  all: try (apply IH; [|assumption]).
  all: words_of_tokens; rewrite forallb_app, Hnames; unfold word_pair; cbn;
    repeat match goal with H : word _ = true |- _ => rewrite H end; reflexivity.
Qed.

Lemma parse_import_specifiers_yields fuel ts :
  lexed ts = true ->
  yields (fun l => forallb word_pair l = true) (parse_import_specifiers fuel ts).
Proof.
  intros Hts. unfold parse_import_specifiers. yielding.
  eapply yields_bind; [now apply parse_specifiers_loop_yields|].
  intros names ts1 Hnames Hts1. yielding. assumption.
Qed.

Lemma parse_optional_alias_yields ts :
  lexed ts = true -> yields (fun a => word_if_any a = true) (parse_optional_alias ts).
Proof.
  intros Hts. unfold parse_optional_alias. yielding; [assumption | reflexivity].
Qed.

Section Grammar.

Context {double : Type}.
Variable stod : string -> double + string.
Variable double_to_string : double -> string.

(** Every number [std::stod] returns is printed as a [word]. *)
Hypothesis numbers_print_as_words :
  forall s d, stod s = inl d -> word (double_to_string d) = true.

Let tidy_node (n : Node double) : Prop :=
  tidy double_to_string (fun _ => true) n = true.
Let tidy_nodes (b : list (Node double)) : Prop :=
  forallb (tidy double_to_string (fun _ => true)) b = true.
Let tidy_expr (e : Expression double) : Prop :=
  tidy_expression double_to_string e = true.

(** Close a goal on the tidiness of a node built from the tokens and
    values at hand. *)
Ltac use_facts :=
  repeat match goal with
    | H : word _ = true |- _ => rewrite H
    | H : word_if_any _ = true |- _ => rewrite H
    | H : forallb _ _ = true |- _ => rewrite H
    | H : tidy_expression _ _ = true |- _ => rewrite H
    | H : tidy _ _ _ = true |- _ => rewrite H
    end.

Ltac tidy_done :=
  words_of_tokens;
  unfold tidy_node, tidy_nodes, tidy_expr in *;
  cbv beta in *;
  cbn [tidy tidy_expression word_if_any forallb] in *;
  rewrite ?forallb_app; cbn [forallb];
  use_facts; unfold word_pair; cbn [fst snd]; use_facts;
  try (erewrite numbers_print_as_words by eassumption);
  reflexivity.

Lemma parse_import_statement_yields fuel ts :
  lexed ts = true -> yields tidy_node (parse_import_statement fuel ts).
Proof.
  intros Hts. unfold parse_import_statement.
  repeat (cbv beta match;
          first [ yield_step
                | calling parse_optional_alias_yields
                | calling parse_import_specifiers_yields
                | calling parse_module_specifier_yields ]).
  all: tidy_done.
Qed.

Section Expressions.

Variable parse_expression : M (Expression double).

Hypothesis parse_expression_yields :
  forall ts, lexed ts = true -> yields tidy_expr (parse_expression ts).

Lemma parse_expression_list_yields fuel : forall xs ts,
  forallb (tidy_expression double_to_string) xs = true -> lexed ts = true ->
  yields (fun l => forallb (tidy_expression double_to_string) l = true)
         (parse_expression_list parse_expression fuel xs ts).
Proof.
  induction fuel as [|fuel IH]; intros xs ts Hxs Hts; [exact I|].
  cbn [parse_expression_list].
  calling parse_expression_yields. yielding.
  - apply IH; [tidy_done | assumption].
  - tidy_done.
Qed.

Lemma parse_dict_pairs_yields fuel : forall pairs ts,
  tidy_expr (DictLiteral pairs) -> lexed ts = true ->
  yields (fun l => tidy_expr (DictLiteral l))
         (parse_dict_pairs parse_expression fuel pairs ts).
Proof.
  induction fuel as [|fuel IH]; intros pairs ts Hpairs Hts; [exact I|].
  cbn [parse_dict_pairs].
  calling parse_expression_yields. yielding.
  calling parse_expression_yields. yielding.
  - apply IH; [tidy_done | assumption].
  - tidy_done.
Qed.

Lemma parse_primary_yields fuel ts :
  lexed ts = true -> yields tidy_expr (parse_primary stod parse_expression fuel ts).
Proof.
  intros Hts. unfold parse_primary.
  repeat (cbv beta match;
          first [ yield_step
                | calling parse_expression_yields
                | calling parse_expression_list_yields
                | calling parse_dict_pairs_yields
                | match goal with
                  | |- yields _ (match stod ?s with _ => _ end _) =>
                      destruct (stod s) eqn:?
                  end ]).
  all: try exact I.
  all: tidy_done.
Qed.

Lemma parse_call_loop_yields fuel : forall expr ts,
  tidy_expr expr -> lexed ts = true ->
  yields tidy_expr (parse_call_loop parse_expression fuel expr ts).
Proof.
  induction fuel as [|fuel IH]; intros expr ts Hexpr Hts; [exact I|].
  cbn [parse_call_loop].
  repeat (cbv beta match;
          first [ yield_step | calling parse_expression_list_yields ]).
  all: try (apply IH; [|assumption]).
  all: tidy_done.
Qed.

Lemma parse_call_expression_yields fuel ts :
  lexed ts = true ->
  yields tidy_expr (parse_call_expression stod parse_expression fuel ts).
Proof.
  intros Hts. unfold parse_call_expression.
  calling parse_primary_yields. now apply parse_call_loop_yields.
Qed.

Lemma parse_unary_yields fuel : forall ts,
  lexed ts = true -> yields tidy_expr (parse_unary stod parse_expression fuel ts).
Proof.
  induction fuel as [|fuel IH]; intros ts Hts; [exact I|].
  cbn [parse_unary].
  repeat (cbv beta match; first [ yield_step | calling IH ]).
  all: first [now apply parse_call_expression_yields | tidy_done].
Qed.

Lemma parse_binary_loop_yields ops (next : M (Expression double)) :
  (forall ts, lexed ts = true -> yields tidy_expr (next ts)) ->
  forall fuel expr ts,
    tidy_expr expr -> lexed ts = true ->
    yields tidy_expr (parse_binary_loop ops next fuel expr ts).
Proof.
  intros Hnext. induction fuel as [|fuel IH]; intros expr ts Hexpr Hts; [exact I|].
  cbn [parse_binary_loop].
  repeat (cbv beta match; first [ yield_step | calling Hnext ]).
  all: first [apply IH; [tidy_done | assumption] | tidy_done].
Qed.

Lemma binary_level_yields ops (next : M (Expression double)) fuel ts :
  (forall ts, lexed ts = true -> yields tidy_expr (next ts)) ->
  lexed ts = true ->
  yields tidy_expr ((expr <- next ;; parse_binary_loop ops next fuel expr) ts).
Proof.
  intros Hnext Hts. calling Hnext. now apply parse_binary_loop_yields.
Qed.

Lemma parse_or_yields fuel ts :
  lexed ts = true -> yields tidy_expr (parse_or stod parse_expression fuel ts).
Proof.
  intros Hts.
  unfold parse_or, parse_and, parse_equality, parse_comparison, parse_term, parse_factor.
  repeat (apply binary_level_yields; [intros ? ? | assumption]).
  now apply parse_unary_yields.
Qed.

End Expressions.

Lemma parse_expression_yields fuel : forall ts,
  lexed ts = true -> yields tidy_expr (parse_expression stod fuel ts).
Proof.
  induction fuel as [|fuel IH]; intros ts Hts; [exact I|].
  cbn [parse_expression]. now apply parse_or_yields.
Qed.



Lemma parse_variable_statement_yields fuel mutable_flag exported is_default ts :
  lexed ts = true ->
  yields tidy_node
         (parse_variable_statement stod fuel mutable_flag exported is_default ts).
Proof.
  intros Hts. unfold parse_variable_statement.
  repeat (cbv beta match; first [ yield_step | calling parse_expression_yields ]).
  all: tidy_done.
Qed.

Lemma parse_params_loop_yields fuel : forall params ts,
  forallb word params = true -> lexed ts = true ->
  yields (fun l => forallb word l = true) (parse_params_loop fuel params ts).
Proof.
  induction fuel as [|fuel IH]; intros params ts Hparams Hts; [exact I|].
  cbn [parse_params_loop]. yielding.
  all: first [apply IH; [tidy_done | assumption] | tidy_done].
Qed.

Section Statements.

Variable parse_statement : M (Node double).

Hypothesis parse_statement_yields :
  forall ts, lexed ts = true -> yields tidy_node (parse_statement ts).

Lemma parse_block_loop_yields fuel : forall body ts,
  tidy_nodes body -> lexed ts = true ->
  yields tidy_nodes (parse_block_loop parse_statement fuel body ts).
Proof.
  induction fuel as [|fuel IH]; intros body ts Hbody Hts; [exact I|].
  cbn [parse_block_loop].
  repeat (cbv beta match; first [ yield_step | calling parse_statement_yields ]).
  all: first [apply IH; [tidy_done | assumption] | tidy_done].
Qed.

Lemma parse_block_yields fuel ts :
  lexed ts = true -> yields tidy_nodes (parse_block parse_statement fuel ts).
Proof.
  intros Hts. unfold parse_block.
  repeat (cbv beta match; first [ yield_step | calling parse_block_loop_yields ]).
  all: tidy_done.
Qed.

Lemma parse_function_statement_yields fuel exported is_default ts :
  lexed ts = true ->
  yields tidy_node
         (parse_function_statement parse_statement fuel exported is_default ts).
Proof.
  intros Hts. unfold parse_function_statement.
  repeat (cbv beta match;
          first [ yield_step
                | calling parse_params_loop_yields
                | calling parse_block_yields ]).
  all: tidy_done.
Qed.

Lemma parse_export_specifiers_yields fuel ts :
  lexed ts = true ->
  yields (fun l => forallb word_pair l = true) (parse_export_specifiers fuel ts).
Proof. exact (parse_import_specifiers_yields fuel ts). Qed.

Lemma parse_export_statement_yields fuel ts :
  lexed ts = true ->
  yields tidy_node (parse_export_statement stod parse_statement fuel ts).
Proof.
  intros Hts. unfold parse_export_statement.
  repeat (cbv beta zeta match;
          first [ yield_step
                | calling parse_function_statement_yields
                | calling parse_variable_statement_yields
                | calling parse_expression_yields
                | calling parse_export_specifiers_yields
                | calling parse_module_specifier_yields ]).
  all: tidy_done.
Qed.

Lemma parse_statement_body_yields fuel ts :
  lexed ts = true ->
  yields tidy_node (parse_statement_body stod parse_statement fuel ts).
Proof.
  intros Hts. unfold parse_statement_body.
  repeat (cbv beta zeta match;
          first [ yield_step
                | calling parse_import_statement_yields
                | calling parse_export_statement_yields
                | calling parse_function_statement_yields
                | calling parse_variable_statement_yields
                | calling parse_expression_yields
                | calling parse_block_yields
                | calling optional_newline_yields ]).
  all: tidy_done.
Qed.

End Statements.

Lemma parse_statement_yields fuel : forall ts,
  lexed ts = true -> yields tidy_node (parse_statement stod fuel ts).
Proof.
  induction fuel as [|fuel IH]; intros ts Hts; [exact I|].
  cbn [parse_statement]. now apply parse_statement_body_yields.
Qed.

Lemma parse_loop_yields fuel : forall body ts,
  tidy_nodes body -> lexed ts = true ->
  yields tidy_nodes (parse_loop stod fuel body ts).
Proof.
  induction fuel as [|fuel IH]; intros body ts Hbody Hts; [exact I|].
  cbn [parse_loop].
  repeat (cbv beta match; first [ yield_step | calling parse_statement_yields ]).
  all: first [apply IH; [tidy_done | assumption] | tidy_done].
Qed.

(** What [parse] returns on [lexed] tokens is tidy but for its module
    strings. *)
Lemma parse_tidy (tokens : TokenStream) (module : Module double) :
  lexed tokens = true -> parse stod tokens = Ok module ->
  forallb (tidy double_to_string (fun _ => true)) (body module) = true.
Proof.
  intros Hts. unfold parse.
  pose proof (parse_loop_yields (fuel_for tokens) [] tokens eq_refl Hts) as H.
  destruct (parse_loop stod (fuel_for tokens) [] tokens) as [[b ts']| | |];
    try discriminate.
  intros [= <-]. apply H.
Qed.

End Grammar.

Section ModuleStrings.

Context {double : Type}.
Variable double_to_string : double -> string.
Variable module_ok : string -> bool.

Let tidy_but_strings (n : Node double) : bool :=
  tidy double_to_string (fun _ => true) n.

Lemma tidy_body_module_strings (body : list (Node double)) :
  Forall (fun n => tidy_but_strings n = true ->
                   forallb module_ok (module_strings n) = true ->
                   tidy double_to_string module_ok n = true) body ->
  forallb tidy_but_strings body = true ->
  forallb module_ok (flat_map module_strings body) = true ->
  forallb (tidy double_to_string module_ok) body = true.
Proof.
  induction 1 as [|n body Hn _ IH]; [reflexivity|].
  cbn [forallb flat_map]. rewrite forallb_app.
  intros [H1 H2]%andb_true_iff [H3 H4]%andb_true_iff.
  now rewrite (Hn H1 H3), (IH H2 H4).
Qed.

(** A tree that is tidy but for its module strings is tidy when they
    satisfy [module_ok]. *)
Lemma tidy_module_strings (n : Node double) :
  tidy_but_strings n = true ->
  forallb module_ok (module_strings n) = true ->
  tidy double_to_string module_ok n = true.
Proof.
  induction n as [n IH] using PythonFacts.Node_children_ind.
  unfold tidy_but_strings in *.
  destruct n;
    repeat match goal with x : option _ |- _ => destruct x end;
    cbn [tidy module_strings children forallb] in *.
  all: try apply Forall_app in IH as [IH1 IH2].
  all: rewrite ?forallb_app, ?andb_true_r; intros Htidy Hstrings.
  all: repeat match goal with
         | H : _ && _ = true |- _ => apply andb_true_iff in H as [? ?]
         end.
  all: repeat match goal with
         | H : Forall _ ?b |- _ =>
             rewrite (tidy_body_module_strings b H) by assumption; clear H
         end.
  all: repeat match goal with
         | H : _ = true |- _ => rewrite H
         end.
  all: try reflexivity; try assumption.
Qed.

End ModuleStrings.

Lemma is_digit_not_newline (c : ascii) :
  is_digit c = true -> negb (Ascii.eqb c LF) = true.
Proof.
  destruct c as [[] [] [] [] [] [] [] []]; try reflexivity; discriminate.
Qed.

Lemma is_digit_not_space (c : ascii) :
  is_digit c = true -> negb (Ascii.eqb c " ") = true.
Proof.
  destruct c as [[] [] [] [] [] [] [] []]; try reflexivity; discriminate.
Qed.

Lemma digits_no_newline (s : string) :
  no_newline (Str.take_while is_digit s) = true.
Proof.
  apply (RoundTrip.all_chars_impl is_digit); [apply is_digit_not_newline|].
  apply LexedTokens.all_chars_take_while.
Qed.

Lemma digits_word (s : string) :
  Str.is_empty (Str.take_while is_digit s) = false ->
  word (Str.take_while is_digit s) = true.
Proof.
  destruct s as [|c s]; [discriminate|]. cbn [Str.take_while].
  destruct (is_digit c) eqn:Hc; [|discriminate]. intros _.
  apply word_cons; [|apply digits_no_newline].
  now rewrite (is_digit_not_newline c Hc), (is_digit_not_space c Hc).
Qed.

(** What the pattern NUMBER matches is a [word]. *)
Lemma match_NUMBER_word (s m : string) : match_NUMBER s = Some m -> word m = true.
Proof.
  unfold match_NUMBER. cbv zeta.
  destruct (Str.is_empty (Str.take_while is_digit s)) eqn:E; [discriminate|].
  pose proof (digits_word s E) as Hds.
  destruct (Str.drop _ s) as [|c rest]; [now intros [= <-]|].
  destruct (_ && _) eqn:Hc; intros [= <-]; [|exact Hds].
  apply andb_true_iff in Hc as [Hc _]. apply Ascii.eqb_eq in Hc as ->.
  apply word_app; [exact Hds|].
  exact (digits_no_newline rest).
Qed.

(** The numbers of the platform [DecimalText] are printed as words. *)
Lemma decimal_text_numbers (s : string) (d : DecimalText.double) :
  DecimalText.stod s = inl d -> word (DecimalText.double_to_string d) = true.
Proof.
  unfold DecimalText.stod, DecimalText.double_to_string.
  destruct (match_NUMBER s) as [m|] eqn:E; [|discriminate].
  destruct (String.eqb m s) eqn:Em; [|discriminate].
  intros [= <-]. apply String.eqb_eq in Em as <-. exact (match_NUMBER_word _ _ E).
Qed.

End TidyParse.

Module Interchange.

Import Lexer AST Parser Spec.
Open Scope parser_scope.

Lemma same_text_words (a b : Token) : same_text a b = true -> same_words a b.
Proof.
  unfold same_text. intros [H1 H2]%andb_true_iff.
  split; now apply String.eqb_eq.
Qed.

Lemma stands_for_alike (allowed : bool) (t1 t2 : Token) :
  stands_for allowed t1 t2 = true -> alike t1 t2.
Proof.
  unfold stands_for. intros [H|H]%orb_true_iff.
  - left. now apply same_text_words.
  - right. apply andb_true_iff in H as [[_ H1]%andb_true_iff H2].
    split; now apply String.eqb_eq.
Qed.

Lemma stands_for_weaken (allowed : bool) (t1 t2 : Token) :
  stands_for allowed t1 t2 = true -> stands_for true t1 t2 = true.
Proof.
  unfold stands_for. intros [H|H]%orb_true_iff; apply orb_true_iff; [now left|right].
  destruct allowed; [exact H | discriminate].
Qed.

Lemma separators_replaced_weaken (b : bool) (ts1 ts2 : TokenStream) :
  separators_replaced b ts1 ts2 = true -> separators_replaced false ts1 ts2 = true.
Proof.
  destruct ts1 as [|t1 ts1], ts2 as [|t2 ts2]; cbn [separators_replaced]; auto.
  intros [H1 H2]%andb_true_iff. cbn [negb].
  now rewrite (stands_for_weaken _ _ _ H1), H2.
Qed.

Lemma separators_replaced_cons (b : bool) (t1 : Token) (ts1 ts2 : TokenStream) :
  separators_replaced b (t1 :: ts1) ts2 = true ->
  exists t2 ts2', ts2 = t2 :: ts2' /\ alike t1 t2
                  /\ separators_replaced (type t1 =? "RETURN") ts1 ts2' = true.
Proof.
  destruct ts2 as [|t2 ts2]; cbn [separators_replaced]; [discriminate|].
  intros [H1 H2]%andb_true_iff. exists t2, ts2.
  split; [reflexivity|]. split; [now apply (stands_for_alike _ _ _ H1) | exact H2].
Qed.

(** Right after a RETURN token the two streams begin with tokens of the
    same type and text. *)
Lemma separators_replaced_after_return (t1 : Token) (ts1 ts2 : TokenStream) :
  separators_replaced true (t1 :: ts1) ts2 = true ->
  exists t2 ts2', ts2 = t2 :: ts2' /\ same_words t1 t2
                  /\ separators_replaced false (t1 :: ts1) (t2 :: ts2') = true.
Proof.
  destruct ts2 as [|t2 ts2]; cbn [separators_replaced]; [discriminate|].
  unfold stands_for. cbn [negb andb]. rewrite orb_false_r.
  intros [H1 H2]%andb_true_iff. exists t2, ts2.
  split; [reflexivity|]. split; [now apply same_text_words|].
  now rewrite H1, H2.
Qed.

Lemma separators_replaced_length (b : bool) (ts1 ts2 : TokenStream) :
  separators_replaced b ts1 ts2 = true -> List.length ts1 = List.length ts2.
Proof.
  revert b ts2. induction ts1 as [|t1 ts1 IH]; intros b [|t2 ts2];
    cbn [separators_replaced List.length]; try discriminate; [reflexivity|].
  intros [_ H]%andb_true_iff. f_equal. exact (IH _ _ H).
Qed.

Lemma agrees_bind {A B} (Q1 : A -> A -> Prop) (Q2 : B -> B -> Prop)
      (m1 m2 : M A) (k1 k2 : A -> M B) ts1 ts2 :
  agrees Q1 (m1 ts1) (m2 ts2) ->
  (forall a1 a2 ts1' ts2', Q1 a1 a2 -> separators_replaced false ts1' ts2' = true ->
                           agrees Q2 (k1 a1 ts1') (k2 a2 ts2')) ->
  agrees Q2 (bind m1 k1 ts1) (bind m2 k2 ts2).
Proof.
  unfold bind, agrees at 1. destruct (m1 ts1) as [[a1 ts1']| | |]; try (intros; exact I).
  intros (a2 & ts2' & -> & Hq & Hr) Hk. now apply Hk.
Qed.

Lemma agrees_ret {A} (Q : A -> A -> Prop) (a1 a2 : A) ts1 ts2 :
  Q a1 a2 -> separators_replaced false ts1 ts2 = true ->
  agrees Q (ret a1 ts1) (ret a2 ts2).
Proof. intros Hq Hr. now exists a2, ts2. Qed.

Lemma agrees_current ts1 ts2 :
  separators_replaced false ts1 ts2 = true -> agrees alike (current ts1) (current ts2).
Proof.
  destruct ts1 as [|t1 ts1]; [intros _; exact I|]. intros H.
  destruct (separators_replaced_cons _ _ _ _ H) as (t2 & ts2' & -> & Ha & _).
  now exists t2, (t2 :: ts2').
Qed.

Lemma agrees_peek ts1 ts2 :
  separators_replaced false ts1 ts2 = true -> agrees alike (peek ts1) (peek ts2).
Proof.
  destruct ts1 as [|t1 [|n1 ts1]]; try (intros _; exact I). intros H.
  destruct (separators_replaced_cons _ _ _ _ H) as (t2 & ts2' & -> & _ & H').
  destruct (separators_replaced_cons _ _ _ _ H') as (n2 & ts2'' & -> & Ha & _).
  now exists n2, (t2 :: n2 :: ts2'').
Qed.

Lemma agrees_consume_any ts1 ts2 :
  separators_replaced false ts1 ts2 = true ->
  agrees (fun _ _ => True) (consume "" ts1) (consume "" ts2).
Proof.
  destruct ts1 as [|t1 ts1]; [intros _; exact I|]. intros H.
  destruct (separators_replaced_cons _ _ _ _ H) as (t2 & ts2' & -> & _ & H').
  exists t2, ts2'. repeat split. exact (separators_replaced_weaken _ _ _ H').
Qed.

Lemma agrees_consume (expected : string) ts1 ts2 :
  Str.is_empty expected = false -> expected <> "NEWLINE" ->
  separators_replaced false ts1 ts2 = true ->
  agrees same_words (consume expected ts1) (consume expected ts2).
Proof.
  intros Hne Hnl. destruct ts1 as [|t1 ts1]; [intros _; exact I|]. intros H.
  destruct (separators_replaced_cons _ _ _ _ H) as (t2 & ts2' & -> & Ha & H').
  unfold consume. rewrite Hne. cbn [negb andb].
  destruct (type t1 =? expected) eqn:E; cbn [negb]; [|exact I].
  apply String.eqb_eq in E. destruct Ha as [Hw|[Ht1 _]]; [|congruence].
  rewrite <- (proj1 Hw), (proj2 (String.eqb_eq _ _) E). cbn [negb].
  exists t2, ts2'. split; [reflexivity|]. split; [exact Hw|].
  exact (separators_replaced_weaken _ _ _ H').
Qed.

Lemma agrees_match (ty : string) ts1 ts2 :
  ty <> "NEWLINE" -> ty <> "SEMICOLON" ->
  separators_replaced false ts1 ts2 = true ->
  agrees eq (match_ ty ts1) (match_ ty ts2).
Proof.
  intros Hnl Hsc. destruct ts1 as [|t1 ts1]; [intros _; exact I|]. intros H.
  destruct (separators_replaced_cons _ _ _ _ H) as (t2 & ts2' & -> & Ha & H').
  unfold match_. destruct Ha as [[Hty _]|[Ht1 Ht2]].
  - rewrite <- Hty. destruct (type t1 =? ty).
    + exists true, ts2'. repeat split. exact (separators_replaced_weaken _ _ _ H').
    + now exists false, (t2 :: ts2').
  - rewrite Ht1, Ht2.
    destruct ("NEWLINE" =? ty) eqn:E1; [apply String.eqb_eq in E1; congruence|].
    destruct ("SEMICOLON" =? ty) eqn:E2; [apply String.eqb_eq in E2; congruence|].
    now exists false, (t2 :: ts2').
Qed.

(** The tests of the parser on a NEWLINE token and on the SEMICOLON token
    that replaces it. *)
Ltac separator_case Ht1 Ht2 :=
  unfold is_separator;
  rewrite ?Ht1, ?Ht2;
  cbn [String.eqb Ascii.eqb Bool.eqb andb orb negb].

(** The tests of the parser on two tokens of the same type and text. *)
Ltac same_case Hw :=
  let Hty := fresh "Hty" in
  let Hval := fresh "Hval" in
  destruct Hw as [Hty Hval]; unfold is_separator; rewrite <- ?Hty, <- ?Hval.

Ltac agree_step :=
  lazymatch goal with
  | |- agrees _ (Throw _) _ => exact I
  | |- agrees _ (throw _ _) _ => exact I
  | |- agrees _ (out_of_fuel _) _ => exact I
  | |- agrees _ (ret _ _) (ret _ _) => apply agrees_ret; [|assumption]
  | |- agrees _ ((if ?c then _ else _) _) ((if ?c then _ else _) _) => destruct c eqn:?
  | |- agrees _ ((let '(_, _) := ?p in _) _) ((let '(_, _) := ?p in _) _) => destruct p
  | |- agrees _ (bind current _ _) (bind current _ _) =>
      eapply agrees_bind;
      [apply agrees_current; assumption
      | let Hw := fresh "Hw" in
        let Ht1 := fresh "Ht1" in
        let Ht2 := fresh "Ht2" in
        intros ? ? ? ? [Hw|[Ht1 Ht2]] ?; cbv beta;
        [same_case Hw | separator_case Ht1 Ht2]]
  | |- agrees _ (bind peek _ _) (bind peek _ _) =>
      eapply agrees_bind;
      [apply agrees_peek; assumption
      | let Hw := fresh "Hw" in
        let Ht1 := fresh "Ht1" in
        let Ht2 := fresh "Ht2" in
        intros ? ? ? ? [Hw|[Ht1 Ht2]] ?; cbv beta;
        [same_case Hw | separator_case Ht1 Ht2]]
  | |- agrees _ (bind (consume "") _ _) (bind (consume "") _ _) =>
      eapply agrees_bind; [apply agrees_consume_any; assumption | intros ? ? ? ? _ ?]
  | |- agrees _ (bind (consume _) _ _) (bind (consume _) _ _) =>
      eapply agrees_bind;
      [apply agrees_consume; [reflexivity | discriminate | assumption]
      | let Hw := fresh "Hw" in intros ? ? ? ? Hw ?; cbv beta; same_case Hw]
  | |- agrees _ (bind (match_ _) _ _) (bind (match_ _) _ _) =>
      eapply agrees_bind;
      [apply agrees_match; [discriminate | discriminate | assumption]
      | intros ? ? ? ? <- ?]
  | |- agrees _ (bind (ret _) _ _) _ => rewrite !Termination.bind_ret
  | |- agrees _ (bind (if ?c then _ else _) _ _) (bind (if ?c then _ else _) _ _) =>
      destruct c eqn:?
  | |- agrees _ (bind (bind _ _) _ _) _ => rewrite !Termination.bind_assoc
  | |- agrees _ (bind (throw _) _ _) _ => exact I
  end.

Ltac agreeing := repeat (cbv beta match; agree_step).

(** A call of a function that returns equal values on the two streams. *)
Ltac same_call lemma :=
  lazymatch goal with
  | |- agrees _ (bind _ _ _) (bind _ _ _) =>
      eapply agrees_bind;
      [eapply lemma; first [eassumption | reflexivity] | intros ? ? ? ? <- ?]
  | |- agrees _ _ _ => eapply lemma; first [eassumption | reflexivity]
  end.

Lemma optional_newline_agrees fuel : forall ts1 ts2,
  separators_replaced false ts1 ts2 = true ->
  agrees eq (optional_newline fuel ts1) (optional_newline fuel ts2).
Proof.
  induction fuel as [|fuel IH]; intros ts1 ts2 H; [exact I|].
  cbn [optional_newline]. agreeing.
  all: try reflexivity.
  all: same_call IH.
Qed.

Lemma parse_dotted_name_loop_agrees fuel : forall result ts1 ts2,
  separators_replaced false ts1 ts2 = true ->
  agrees eq (parse_dotted_name_loop fuel result ts1) (parse_dotted_name_loop fuel result ts2).
Proof.
  induction fuel as [|fuel IH]; intros result ts1 ts2 H; [exact I|].
  cbn [parse_dotted_name_loop]. agreeing.
  all: try reflexivity.
  all: same_call IH.
Qed.

Lemma parse_dotted_name_agrees fuel ts1 ts2 :
  separators_replaced false ts1 ts2 = true ->
  agrees eq (parse_dotted_name fuel ts1) (parse_dotted_name fuel ts2).
Proof.
  intros H. unfold parse_dotted_name. agreeing. same_call parse_dotted_name_loop_agrees.
Qed.

Lemma parse_module_specifier_agrees fuel ts1 ts2 :
  separators_replaced false ts1 ts2 = true ->
  agrees eq (parse_module_specifier fuel ts1) (parse_module_specifier fuel ts2).
Proof.
  intros H. unfold parse_module_specifier. agreeing.
  all: try reflexivity.
  all: same_call parse_dotted_name_agrees.
Qed.

Lemma parse_specifiers_loop_agrees fuel : forall names ts1 ts2,
  separators_replaced false ts1 ts2 = true ->
  agrees eq (parse_specifiers_loop fuel names ts1) (parse_specifiers_loop fuel names ts2).
Proof.
  induction fuel as [|fuel IH]; intros names ts1 ts2 H; [exact I|].
  cbn [parse_specifiers_loop]. agreeing.
  all: try reflexivity.
  all: same_call IH.
Qed.

Lemma parse_import_specifiers_agrees fuel ts1 ts2 :
  separators_replaced false ts1 ts2 = true ->
  agrees eq (parse_import_specifiers fuel ts1) (parse_import_specifiers fuel ts2).
Proof.
  intros H. unfold parse_import_specifiers.
  repeat (cbv beta match; first [agree_step | same_call parse_specifiers_loop_agrees]).
  reflexivity.
Qed.

Lemma parse_export_specifiers_agrees fuel ts1 ts2 :
  separators_replaced false ts1 ts2 = true ->
  agrees eq (parse_export_specifiers fuel ts1) (parse_export_specifiers fuel ts2).
Proof. exact (parse_import_specifiers_agrees fuel ts1 ts2). Qed.

Lemma parse_optional_alias_agrees ts1 ts2 :
  separators_replaced false ts1 ts2 = true ->
  agrees eq (parse_optional_alias ts1) (parse_optional_alias ts2).
Proof. intros H. unfold parse_optional_alias. agreeing; reflexivity. Qed.

Section Grammar.

Context {double : Type}.
Variable stod : string -> double + string.

Lemma parse_import_statement_agrees fuel ts1 ts2 :
  separators_replaced false ts1 ts2 = true ->
  agrees eq (parse_import_statement (double := double) fuel ts1)
            (parse_import_statement fuel ts2).
Proof.
  intros H. unfold parse_import_statement.
  repeat (cbv beta match;
          first [ agree_step
                | same_call parse_optional_alias_agrees
                | same_call parse_import_specifiers_agrees
                | same_call parse_module_specifier_agrees ]).
  all: reflexivity.
Qed.

Section Expressions.

Variable parse_expression : M (Expression double).

Hypothesis parse_expression_agrees :
  forall ts1 ts2, separators_replaced false ts1 ts2 = true ->
                  agrees eq (parse_expression ts1) (parse_expression ts2).

Lemma parse_expression_list_agrees fuel : forall xs ts1 ts2,
  separators_replaced false ts1 ts2 = true ->
  agrees eq (parse_expression_list parse_expression fuel xs ts1)
            (parse_expression_list parse_expression fuel xs ts2).
Proof.
  induction fuel as [|fuel IH]; intros xs ts1 ts2 H; [exact I|].
  cbn [parse_expression_list].
  repeat (cbv beta match; first [agree_step | same_call parse_expression_agrees]).
  all: try reflexivity.
  all: same_call IH.
Qed.

Lemma parse_dict_pairs_agrees fuel : forall pairs ts1 ts2,
  separators_replaced false ts1 ts2 = true ->
  agrees eq (parse_dict_pairs parse_expression fuel pairs ts1)
            (parse_dict_pairs parse_expression fuel pairs ts2).
Proof.
  induction fuel as [|fuel IH]; intros pairs ts1 ts2 H; [exact I|].
  cbn [parse_dict_pairs].
  repeat (cbv beta match; first [agree_step | same_call parse_expression_agrees]).
  all: try reflexivity.
  all: same_call IH.
Qed.

Lemma parse_primary_agrees fuel ts1 ts2 :
  separators_replaced false ts1 ts2 = true ->
  agrees eq (parse_primary stod parse_expression fuel ts1)
            (parse_primary stod parse_expression fuel ts2).
Proof.
  intros H. unfold parse_primary.
  repeat (cbv beta match;
          first [ agree_step
                | same_call parse_expression_agrees
                | same_call parse_expression_list_agrees
                | same_call parse_dict_pairs_agrees
                | match goal with
                  | |- agrees _ (match stod ?s with _ => _ end _) _ =>
                      destruct (stod s) eqn:?
                  end ]).
  all: reflexivity.
Qed.

Lemma parse_call_loop_agrees fuel : forall expr ts1 ts2,
  separators_replaced false ts1 ts2 = true ->
  agrees eq (parse_call_loop parse_expression fuel expr ts1)
            (parse_call_loop parse_expression fuel expr ts2).
Proof.
  induction fuel as [|fuel IH]; intros expr ts1 ts2 H; [exact I|].
  cbn [parse_call_loop].
  repeat (cbv beta match;
          first [ agree_step | same_call parse_expression_list_agrees ]).
  all: try reflexivity.
  all: same_call IH.
Qed.

Lemma parse_call_expression_agrees fuel ts1 ts2 :
  separators_replaced false ts1 ts2 = true ->
  agrees eq (parse_call_expression stod parse_expression fuel ts1)
            (parse_call_expression stod parse_expression fuel ts2).
Proof.
  intros H. unfold parse_call_expression.
  same_call parse_primary_agrees. same_call parse_call_loop_agrees.
Qed.

Lemma parse_unary_agrees fuel : forall ts1 ts2,
  separators_replaced false ts1 ts2 = true ->
  agrees eq (parse_unary stod parse_expression fuel ts1)
            (parse_unary stod parse_expression fuel ts2).
Proof.
  induction fuel as [|fuel IH]; intros ts1 ts2 H; [exact I|].
  cbn [parse_unary].
  repeat (cbv beta match; first [ agree_step | same_call IH ]).
  all: try reflexivity.
  all: same_call parse_call_expression_agrees.
Qed.

Lemma parse_binary_loop_agrees ops (next : M (Expression double)) :
  (forall ts1 ts2, separators_replaced false ts1 ts2 = true ->
                   agrees eq (next ts1) (next ts2)) ->
  forall fuel expr ts1 ts2,
    separators_replaced false ts1 ts2 = true ->
    agrees eq (parse_binary_loop ops next fuel expr ts1)
              (parse_binary_loop ops next fuel expr ts2).
Proof.
  intros Hnext. induction fuel as [|fuel IH]; intros expr ts1 ts2 H; [exact I|].
  cbn [parse_binary_loop].
  repeat (cbv beta match; first [ agree_step | same_call Hnext ]).
  all: try reflexivity.
  all: same_call IH.
Qed.

Lemma binary_level_agrees ops (next : M (Expression double)) fuel ts1 ts2 :
  (forall ts1 ts2, separators_replaced false ts1 ts2 = true ->
                   agrees eq (next ts1) (next ts2)) ->
  separators_replaced false ts1 ts2 = true ->
  agrees eq ((expr <- next ;; parse_binary_loop ops next fuel expr) ts1)
            ((expr <- next ;; parse_binary_loop ops next fuel expr) ts2).
Proof.
  intros Hnext H. same_call Hnext. now apply parse_binary_loop_agrees.
Qed.

Lemma parse_or_agrees fuel ts1 ts2 :
  separators_replaced false ts1 ts2 = true ->
  agrees eq (parse_or stod parse_expression fuel ts1)
            (parse_or stod parse_expression fuel ts2).
Proof.
  intros H.
  unfold parse_or, parse_and, parse_equality, parse_comparison, parse_term, parse_factor.
  repeat (apply binary_level_agrees; [intros ? ? ? | assumption]).
  now apply parse_unary_agrees.
Qed.

End Expressions.

Lemma parse_expression_agrees fuel : forall ts1 ts2,
  separators_replaced false ts1 ts2 = true ->
  agrees eq (parse_expression stod fuel ts1) (parse_expression stod fuel ts2).
Proof.
  induction fuel as [|fuel IH]; intros ts1 ts2 H; [exact I|].
  cbn [parse_expression]. now apply parse_or_agrees.
Qed.

Lemma parse_variable_statement_agrees fuel mutable_flag exported is_default ts1 ts2 :
  separators_replaced false ts1 ts2 = true ->
  agrees eq (parse_variable_statement stod fuel mutable_flag exported is_default ts1)
            (parse_variable_statement stod fuel mutable_flag exported is_default ts2).
Proof.
  intros H. unfold parse_variable_statement.
  repeat (cbv beta match; first [ agree_step | same_call parse_expression_agrees ]).
  all: reflexivity.
Qed.

Lemma parse_params_loop_agrees fuel : forall params ts1 ts2,
  separators_replaced false ts1 ts2 = true ->
  agrees eq (parse_params_loop fuel params ts1) (parse_params_loop fuel params ts2).
Proof.
  induction fuel as [|fuel IH]; intros params ts1 ts2 H; [exact I|].
  cbn [parse_params_loop]. agreeing.
  all: try reflexivity.
  all: same_call IH.
Qed.


Section Statements.

Variable parse_statement : M (Node double).

Hypothesis parse_statement_agrees :
  forall ts1 ts2, separators_replaced false ts1 ts2 = true ->
                  agrees eq (parse_statement ts1) (parse_statement ts2).

Lemma parse_block_loop_agrees fuel : forall body ts1 ts2,
  separators_replaced false ts1 ts2 = true ->
  agrees eq (parse_block_loop parse_statement fuel body ts1)
            (parse_block_loop parse_statement fuel body ts2).
Proof.
  induction fuel as [|fuel IH]; intros body ts1 ts2 H; [exact I|].
  cbn [parse_block_loop].
  repeat (cbv beta match; first [ agree_step | same_call parse_statement_agrees ]).
  all: try reflexivity.
  all: same_call IH.
Qed.

Lemma parse_block_agrees fuel ts1 ts2 :
  separators_replaced false ts1 ts2 = true ->
  agrees eq (parse_block parse_statement fuel ts1) (parse_block parse_statement fuel ts2).
Proof.
  intros H. unfold parse_block.
  repeat (cbv beta match; first [ agree_step | same_call parse_block_loop_agrees ]).
  reflexivity.
Qed.

Lemma parse_function_statement_agrees fuel exported is_default ts1 ts2 :
  separators_replaced false ts1 ts2 = true ->
  agrees eq (parse_function_statement parse_statement fuel exported is_default ts1)
            (parse_function_statement parse_statement fuel exported is_default ts2).
Proof.
  intros H. unfold parse_function_statement.
  repeat (cbv beta match;
          first [ agree_step
                | same_call parse_params_loop_agrees
                | same_call parse_block_agrees ]).
  all: reflexivity.
Qed.

Lemma parse_export_statement_agrees fuel ts1 ts2 :
  separators_replaced false ts1 ts2 = true ->
  agrees eq (parse_export_statement stod parse_statement fuel ts1)
            (parse_export_statement stod parse_statement fuel ts2).
Proof.
  intros H. unfold parse_export_statement.
  repeat (cbv beta zeta match;
          first [ agree_step
                | same_call parse_function_statement_agrees
                | same_call parse_variable_statement_agrees
                | same_call parse_expression_agrees
                | same_call parse_export_specifiers_agrees
                | same_call parse_module_specifier_agrees ]).
  all: reflexivity.
Qed.

Ltac statement :=
  repeat (cbv beta zeta match;
          first [ agree_step
                | same_call parse_import_statement_agrees
                | same_call parse_export_statement_agrees
                | same_call parse_function_statement_agrees
                | same_call parse_variable_statement_agrees
                | same_call parse_expression_agrees
                | same_call parse_block_agrees
                | same_call optional_newline_agrees ]).

Lemma bind_current_cons {A} (k : Token -> M A) (t : Token) (ts : TokenStream) :
  bind current k (t :: ts) = k t (t :: ts).
Proof. reflexivity. Qed.

Lemma bind_consume_any_cons {A} (k : Token -> M A) (t : Token) (ts : TokenStream) :
  bind (consume "") k (t :: ts) = k t ts.
Proof. reflexivity. Qed.

(** The statement after [return]: the token that follows the RETURN
    token is the same in the two streams. *)
Lemma parse_return_agrees fuel ts1 ts2 :
  separators_replaced true ts1 ts2 = true ->
  agrees eq
    ((nxt <- current ;;
      val <- (if negb (type nxt =? "NEWLINE") && negb (type nxt =? "RBRACE")
                 && negb (type nxt =? "EOF")
              then (e <- parse_expression stod fuel ;; ret (Some e))
              else ret None) ;;
      optional_newline fuel ;;;
      ret (Return val)) ts1)
    ((nxt <- current ;;
      val <- (if negb (type nxt =? "NEWLINE") && negb (type nxt =? "RBRACE")
                 && negb (type nxt =? "EOF")
              then (e <- parse_expression stod fuel ;; ret (Some e))
              else ret None) ;;
      optional_newline fuel ;;;
      ret (Return val)) ts2).
Proof.
  intros H. destruct ts1 as [|n1 ts1]; [exact I|].
  destruct (separators_replaced_after_return _ _ _ H) as (n2 & ts2' & -> & Hw & H').
  rewrite !bind_current_cons. same_case Hw. statement.
  all: reflexivity.
Qed.

Lemma parse_statement_body_agrees fuel ts1 ts2 :
  separators_replaced false ts1 ts2 = true ->
  agrees eq (parse_statement_body stod parse_statement fuel ts1)
            (parse_statement_body stod parse_statement fuel ts2).
Proof.
  intros H. destruct ts1 as [|t1 ts1]; [exact I|].
  destruct (separators_replaced_cons _ _ _ _ H) as (t2 & ts2' & -> & Ha & Hrest).
  unfold parse_statement_body. rewrite !bind_current_cons.
  destruct Ha as [Hw|[Ht1 Ht2]].
  - same_case Hw. destruct (type t1 =? "RETURN") eqn:Hret.
    + apply String.eqb_eq in Hret. rewrite Hret.
      cbn [String.eqb Ascii.eqb Bool.eqb andb orb negb].
      cbv beta zeta match. rewrite !bind_consume_any_cons.
      now apply parse_return_agrees.
    + statement. all: reflexivity.
  - separator_case Ht1 Ht2. statement. all: reflexivity.
Qed.

End Statements.

Lemma parse_statement_agrees fuel : forall ts1 ts2,
  separators_replaced false ts1 ts2 = true ->
  agrees eq (parse_statement stod fuel ts1) (parse_statement stod fuel ts2).
Proof.
  induction fuel as [|fuel IH]; intros ts1 ts2 H; [exact I|].
  cbn [parse_statement]. now apply parse_statement_body_agrees.
Qed.

Lemma parse_loop_agrees fuel : forall body ts1 ts2,
  separators_replaced false ts1 ts2 = true ->
  agrees eq (parse_loop stod fuel body ts1) (parse_loop stod fuel body ts2).
Proof.
  induction fuel as [|fuel IH]; intros body ts1 ts2 H; [exact I|].
  cbn [parse_loop].
  repeat (cbv beta match; first [ agree_step | same_call parse_statement_agrees ]).
  all: try reflexivity.
  all: same_call IH.
Qed.

(** A stream the parser accepts is accepted, with the same tree, when
    NEWLINE tokens that do not follow a RETURN token are replaced by
    SEMICOLON tokens. *)
Lemma parse_agrees (ts1 ts2 : TokenStream) (module : Module double) :
  separators_replaced false ts1 ts2 = true ->
  parse stod ts1 = Ok module -> parse stod ts2 = Ok module.
Proof.
  intros H. unfold parse, fuel_for.
  rewrite <- (separators_replaced_length _ _ _ H).
  pose proof (parse_loop_agrees (List.length ts1 + 5) [] ts1 ts2 H) as Hloop.
  destruct (parse_loop stod _ [] ts1) as [[b1 r1]| | |]; try discriminate.
  destruct Hloop as (b2 & r2 & -> & <- & _). auto.
Qed.

End Grammar.

End Interchange.

Module Separators.

Import Lexer AST Parser Spec.

(** C2, as the code has it.  A stream the parser accepts is accepted,
    with the same tree, when NEWLINE tokens of it are replaced by SEMICOLON
    tokens, wherever they stand but right after a RETURN token.  There the
    two differ: a NEWLINE ends the statement, a SEMICOLON in its place is
    taken for the start of an expression and the parser throws. *)
Theorem newline_semicolon_interchange {double} (stod : string -> double + string) :
  (forall ts1 ts2 module,
      separators_replaced false ts1 ts2 = true ->
      parse stod ts1 = Ok module -> parse stod ts2 = Ok module)
  /\ parse stod [mkToken "RETURN" "return" 1 1; mkToken "NEWLINE" (String LF "") 1 7;
                 mkToken "EOF" "" 2 1]
     = Ok (make_module [Return None])
  /\ parse stod [mkToken "RETURN" "return" 1 1; mkToken "SEMICOLON" ";" 1 7;
                 mkToken "EOF" "" 1 8]
     = Throw "Unexpected token SEMICOLON at line 1".
Proof.
  split; [|split; reflexivity].
  intros ts1 ts2 module. apply Interchange.parse_agrees.
Qed.

(** The tokens of two lines, and of the two statements on one line with a
    semicolon between them. *)
Lemma newline_semicolon_interchange_witness :
  separators_replaced false
    [mkToken "NAME" "f" 1 1; mkToken "LPAREN" "(" 1 2; mkToken "RPAREN" ")" 1 3;
     mkToken "NEWLINE" (String LF "") 1 4;
     mkToken "RETURN" "return" 2 1; mkToken "NAME" "x" 2 8; mkToken "EOF" "" 2 9]
    [mkToken "NAME" "f" 1 1; mkToken "LPAREN" "(" 1 2; mkToken "RPAREN" ")" 1 3;
     mkToken "SEMICOLON" ";" 1 4;
     mkToken "RETURN" "return" 1 5; mkToken "NAME" "x" 1 12; mkToken "EOF" "" 1 13]
  = true
  /\ parse DecimalText.stod
       [mkToken "NAME" "f" 1 1; mkToken "LPAREN" "(" 1 2; mkToken "RPAREN" ")" 1 3;
        mkToken "NEWLINE" (String LF "") 1 4;
        mkToken "RETURN" "return" 2 1; mkToken "NAME" "x" 2 8; mkToken "EOF" "" 2 9]
     = Ok (make_module [Expr (Call (Name "f") []); Return (Some (Name "x"))])
  /\ parse DecimalText.stod
       [mkToken "NAME" "f" 1 1; mkToken "LPAREN" "(" 1 2; mkToken "RPAREN" ")" 1 3;
        mkToken "SEMICOLON" ";" 1 4;
        mkToken "RETURN" "return" 1 5; mkToken "NAME" "x" 1 12; mkToken "EOF" "" 1 13]
     = Ok (make_module [Expr (Call (Name "f") []); Return (Some (Name "x"))]).
Proof.
  destruct (newline_semicolon_interchange DecimalText.stod) as (Hsame & _ & _).
  split; [reflexivity|]. split; [reflexivity|].
  apply (Hsame
           [mkToken "NAME" "f" 1 1; mkToken "LPAREN" "(" 1 2; mkToken "RPAREN" ")" 1 3;
            mkToken "NEWLINE" (String LF "") 1 4;
            mkToken "RETURN" "return" 2 1; mkToken "NAME" "x" 2 8; mkToken "EOF" "" 2 9]);
    reflexivity.
Defined.

End Separators.

Module LexerInvariants.

Import Lexer Spec StrFacts LexerTotal LexedTokens.

(** A property of the cursor that every iteration keeps holds of the
    stream [tokenize] returns. *)
Lemma tokenize_invariant (P : Cursor -> Prop) (Q : TokenStream -> Prop) (source : string) :
  P (start source) ->
  (forall c c', P c -> tokenize_step c = Next c' -> P c') ->
  (forall c ts, P c -> tokenize_step c = Done ts -> Q ts) ->
  forall ts, tokenize source = Ok ts -> Q ts.
Proof.
  intros Hstart Hnext Hdone. unfold tokenize.
  generalize (S (String.length source)). generalize (start source) Hstart.
  intros c Hc fuel. revert c Hc.
  induction fuel as [|fuel IH]; intros c Hc ts; [discriminate|].
  simpl. destruct (tokenize_step c) as [c'|ts'|what] eqn:E; [| |discriminate].
  - apply IH. exact (Hnext _ _ Hc E).
  - intros [= <-]. exact (Hdone _ _ Hc E).
Qed.

(** What an iteration does to the tokens of the cursor: nothing, or one
    token more, made from the match of a pattern. *)
Lemma tokenize_step_tokens (c c' : Cursor) :
  tokenize_step c = Next c' ->
  tokens c' = tokens c
  \/ exists t, tokens c' = (tokens c ++ [t])%list
               /\ from_pattern t /\ line t = cur_line c /\ column t = cur_column c.
Proof.
  unfold tokenize_step.
  destruct (Str.is_empty (remaining c)); [discriminate|].
  destruct (String.prefix "/*" (remaining c)).
  - destruct (Str.find "*/" (remaining c)); [|discriminate].
    intros [= <-]. now left.
  - destruct (first_match token_patterns (remaining c)) as [[kind text]|] eqn:E;
      [|discriminate].
    destruct (kind =? "NEWLINE") eqn:Hnl.
    + intros [= <-]. right. eexists. split; [reflexivity|]. cbn [line column].
      split; [|split; reflexivity].
      exists (remaining c), kind, text. split; [exact E|].
      apply String.eqb_eq in Hnl. subst kind. split; [reflexivity|].
      split; reflexivity.
    + destruct (_ || _) eqn:Hskip; intros [= <-]; [now left|].
      right. eexists. split; [reflexivity|]. cbn [line column].
      split; [|split; reflexivity].
      exists (remaining c), kind, text. split; [exact E|]. split; [exact Hskip|].
      split; reflexivity.
Qed.

Lemma tokenize_step_eof (c : Cursor) (ts : TokenStream) :
  tokenize_step c = Done ts ->
  ts = (tokens c ++ [mkToken "EOF" "" (cur_line c) (cur_column c)])%list.
Proof.
  unfold tokenize_step.
  destruct (Str.is_empty (remaining c)); [now intros [= <-]|].
  destruct (String.prefix "/*" (remaining c)).
  - destruct (Str.find "*/" (remaining c)); discriminate.
  - destruct (first_match token_patterns (remaining c)) as [[kind text]|]; [|discriminate].
    destruct (kind =? "NEWLINE"); [|destruct (_ || _)]; discriminate.
Qed.

(** Every token of the stream but the last comes from the match of a
    pattern; the last is the EOF token. *)
Lemma tokenize_from_patterns (source : string) (ts : TokenStream) :
  tokenize source = Ok ts ->
  exists body ln col,
    ts = (body ++ [mkToken "EOF" "" ln col])%list /\ Forall from_pattern body.
Proof.
  revert ts.
  apply (tokenize_invariant
           (fun c => Forall from_pattern (tokens c))
           (fun ts => exists body ln col,
                ts = (body ++ [mkToken "EOF" "" ln col])%list
                /\ Forall from_pattern body)).
  - constructor.
  - intros c c' Hc Hstep.
    destruct (tokenize_step_tokens _ _ Hstep) as [->|(t & -> & Ht & _)]; [exact Hc|].
    apply Forall_app. split; [exact Hc | now constructor].
  - intros c ts' Hc Hdone. rewrite (tokenize_step_eof _ _ Hdone). now eexists _, _, _.
Qed.

Lemma pattern_names (rem kind text : string) :
  first_match token_patterns rem = Some (kind, text) ->
  In kind ["NUMBER"; "STRING"; "COMMENT"; "NAME"; "OP"; "NEWLINE"; "SKIP"; "LPAREN";
           "RPAREN"; "LBRACE"; "RBRACE"; "LBRACKET"; "RBRACKET"; "COMMA"; "COLON";
           "DOT"; "SEMICOLON"].
Proof.
  intros (re & Hin & _)%first_match_In. unfold token_patterns in Hin. simpl in Hin.
  repeat (destruct Hin as [[= <- _]|Hin]; [simpl; tauto|]). destruct Hin.
Qed.

Lemma from_pattern_type (t : Token) : from_pattern t -> In (type t) token_types.
Proof.
  intros (rem & kind & text & Hm & Hskip & Hty & _).
  unfold token_types. apply in_or_app.
  destruct ((kind =? "NAME") && is_keyword text) eqn:E.
  - right. rewrite Hty. apply in_map.
    apply andb_true_iff in E as [_ E]. unfold is_keyword in E.
    apply existsb_exists in E as (k & Hin & ->%String.eqb_eq). exact Hin.
  - left. rewrite Hty. apply pattern_names in Hm. simpl in Hm.
    repeat (destruct Hm as [<-|Hm]; [first [discriminate Hskip | simpl; tauto]|]).
    destruct Hm.
Qed.

Lemma token_types_proper (ty : string) :
  In ty token_types -> ty <> "EOF" /\ ty <> "SKIP" /\ ty <> "COMMENT".
Proof.
  unfold token_types, kKeywords. simpl. intros H.
  repeat (destruct H as [<-|H]; [repeat split; discriminate|]). destruct H.
Qed.

(** X1.  The stream [tokenize] returns is made of tokens of the fixed
    types - the patterns but SKIP and COMMENT, and the keywords in upper
    case - followed by one EOF token with an empty text, the only token
    of that type. *)
Theorem stream_token_types (source : string) (ts : TokenStream) :
  tokenize source = Ok ts ->
  exists body eof,
    ts = (body ++ [eof])%list
    /\ type eof = "EOF" /\ value eof = ""
    /\ forall t, In t body ->
         In (type t) token_types
         /\ type t <> "EOF" /\ type t <> "SKIP" /\ type t <> "COMMENT".
Proof.
  intros (body & ln & col & -> & Hbody)%tokenize_from_patterns.
  exists body, (mkToken "EOF" "" ln col). repeat split; try reflexivity.
  all: pose proof (from_pattern_type t (proj1 (Forall_forall _ _) Hbody t H)) as Hty.
  all: try exact Hty; apply (token_types_proper _ Hty).
Qed.

Lemma stream_token_types_witness :
  exists body eof,
    [mkToken "LET" "let" 1 1; mkToken "NAME" "x" 1 5; mkToken "EOF" "" 1 6]
    = (body ++ [eof])%list
    /\ type eof = "EOF" /\ value eof = ""
    /\ forall t, In t body ->
         In (type t) token_types
         /\ type t <> "EOF" /\ type t <> "SKIP" /\ type t <> "COMMENT".
Proof. apply (stream_token_types "let x"). reflexivity. Defined.

Lemma keyword_not_STRING (text : string) :
  is_keyword text = true -> (uppercase text =? "STRING") = false.
Proof.
  unfold is_keyword. intros [k [Hin ->%String.eqb_eq]]%existsb_exists.
  unfold kKeywords in Hin. simpl in Hin.
  repeat (destruct Hin as [<-|Hin]; [reflexivity|]). destruct Hin.
Qed.

Lemma keyword_not_NAME (text : string) :
  is_keyword text = true -> uppercase text <> "NAME".
Proof.
  intros H E. pose proof (keyword_kind text H) as Hk. rewrite E in Hk. discriminate.
Qed.

Lemma match_NAME_identifier (s m : string) :
  match_NAME s = Some m -> identifier m = true.
Proof.
  destruct s as [|c s]; simpl; [discriminate|].
  destruct (is_name_start c) eqn:Hc; [|discriminate]. intros [= <-].
  simpl. rewrite Hc. apply all_chars_take_while.
Qed.

Lemma first_match_NAME (rem text : string) :
  first_match token_patterns rem = Some ("NAME", text) -> match_NAME rem = Some text.
Proof.
  intros (re & Hin & Hre)%first_match_In. unfold token_patterns in Hin. simpl in Hin.
  repeat (destruct Hin as [Heq|Hin]; [inversion Heq; subst; exact Hre|]).
  destruct Hin.
Qed.

Lemma first_match_OP (rem text : string) :
  first_match token_patterns rem = Some ("OP", text) -> match_OP rem = Some text.
Proof.
  intros (re & Hin & Hre)%first_match_In. unfold token_patterns in Hin. simpl in Hin.
  repeat (destruct Hin as [Heq|Hin]; [inversion Heq; subst; exact Hre|]).
  destruct Hin.
Qed.

Lemma first_match_NUMBER (rem text : string) :
  first_match token_patterns rem = Some ("NUMBER", text) -> match_NUMBER rem = Some text.
Proof.
  intros (re & Hin & Hre)%first_match_In. unfold token_patterns in Hin. simpl in Hin.
  repeat (destruct Hin as [Heq|Hin]; [inversion Heq; subst; exact Hre|]).
  destruct Hin.
Qed.

(** The kind of the pattern behind a token whose type is a pattern name
    and the text behind a token that is no STRING. *)
Lemma from_pattern_plain (t : Token) (ty : string) :
  from_pattern t -> type t = ty ->
  In ty ["NUMBER"; "NAME"; "OP"] ->
  exists rem, first_match token_patterns rem = Some (ty, value t)
              /\ ((ty =? "NAME") && is_keyword (value t) = false).
Proof.
  intros (rem & kind & text & Hm & Hskip & Hty & Hval) Ht Hin.
  destruct ((kind =? "NAME") && is_keyword text) eqn:E.
  - exfalso. apply andb_true_iff in E as [_ E].
    pose proof (keyword_kind text E) as Hk. pose proof (pattern_names _ _ _ Hm) as Hp.
    rewrite <- Hty, Ht in Hk. simpl in Hin.
    destruct Hin as [<-|[<-|[<-|[]]]]; try discriminate Hk.
    clear Hk. rewrite Ht in Hty. unfold is_keyword in E.
    apply existsb_exists in E as (k & Hk & ->%String.eqb_eq).
    unfold kKeywords in Hk. simpl in Hk.
    repeat (destruct Hk as [<-|Hk]; [discriminate Hty|]). destruct Hk.
  - rewrite Ht in Hty. subst kind.
    assert (Hs : (type t =? "STRING") = false).
    { rewrite Ht. simpl in Hin. destruct Hin as [<-|[<-|[<-|[]]]]; reflexivity. }
    rewrite Hs in Hval. rewrite Hval. exists rem. split; [exact Hm | exact E].
Qed.

Lemma match_OP_operator (s m : string) : match_OP s = Some m -> In m operators.
Proof.
  unfold match_OP. destruct (find _ _) as [op|] eqn:E.
  - intros [= <-]. apply find_some in E as [Hin _]. simpl in Hin. unfold operators.
    repeat (destruct Hin as [<-|Hin]; [simpl; tauto|]). destruct Hin.
  - destruct s as [|c s]; [discriminate|].
    destruct (is_op_char c) eqn:Hc; [|discriminate]. intros [= <-].
    unfold operators.
    destruct c as [[] [] [] [] [] [] [] []]; try discriminate Hc; simpl; tauto.
Qed.

(** X2.  In the stream [tokenize] returns, a token of type NAME holds an
    identifier that is no keyword, and a token whose type is a keyword in
    upper case holds that keyword: a keyword never comes out as a NAME, and
    nothing but the keyword itself comes out under its type. *)
Theorem keywords_and_names (source : string) (ts : TokenStream) (t : Token) :
  tokenize source = Ok ts -> In t ts ->
  (type t = "NAME" -> identifier (value t) = true /\ is_keyword (value t) = false)
  /\ (In (type t) (List.map uppercase kKeywords) ->
      is_keyword (value t) = true /\ type t = uppercase (value t)).
Proof.
  intros (body & ln & col & -> & Hbody)%tokenize_from_patterns Hin.
  apply in_app_or in Hin as [Hin|[<-|[]]].
  - pose proof (proj1 (Forall_forall _ _) Hbody t Hin) as Ht. split.
    + intros Hname.
      destruct (from_pattern_plain t "NAME" Ht Hname) as (rem & Hm & Hkw); [simpl; tauto|].
      split; [|exact Hkw].
      exact (match_NAME_identifier _ _ (first_match_NAME _ _ Hm)).
    + intros Hkw. destruct Ht as (rem & kind & text & Hm & Hskip & Hty & Hval).
      destruct ((kind =? "NAME") && is_keyword text) eqn:E.
      * apply andb_true_iff in E as [_ E].
        rewrite Hty, (keyword_not_STRING text E) in Hval. rewrite Hval, Hty. now split.
      * exfalso. rewrite Hty in Hkw. apply pattern_names in Hm.
        unfold kKeywords in Hkw. simpl in Hkw, Hm.
        repeat (destruct Hm as [<-|Hm];
                [repeat (destruct Hkw as [Hkw|Hkw]; [discriminate Hkw|]); destruct Hkw|]).
        destruct Hm.
  - split; [discriminate|]. unfold kKeywords. simpl. intros H.
    repeat (destruct H as [H|H]; [discriminate H|]). destruct H.
Qed.

Lemma keywords_and_names_witness :
  (identifier "returned" = true /\ is_keyword "returned" = false)
  /\ (is_keyword "return" = true /\ "RETURN" = uppercase "return").
Proof.
  split.
  - apply (proj1 (keywords_and_names "return returned"
                    [mkToken "RETURN" "return" 1 1; mkToken "NAME" "returned" 1 8;
                     mkToken "EOF" "" 1 16]
                    (mkToken "NAME" "returned" 1 8) eq_refl
                    (or_intror (or_introl eq_refl)))).
    reflexivity.
  - apply (proj2 (keywords_and_names "return returned"
                    [mkToken "RETURN" "return" 1 1; mkToken "NAME" "returned" 1 8;
                     mkToken "EOF" "" 1 16]
                    (mkToken "RETURN" "return" 1 1) eq_refl (or_introl eq_refl))).
    simpl. tauto.
Defined.

Lemma is_digit_decimal_char (c : ascii) :
  is_digit c = true -> is_digit c || Ascii.eqb c "." = true.
Proof. intros ->. reflexivity. Qed.

Lemma count_digits (s : string) : all_chars is_digit s = true -> Str.count "." s = 0.
Proof.
  induction s as [|c s IH]; [reflexivity|]. simpl.
  intros [Hc Hs]%andb_true_iff. rewrite (IH Hs).
  destruct c as [[] [] [] [] [] [] [] []]; try discriminate Hc; reflexivity.
Qed.

Lemma count_app (c : ascii) (a b : string) :
  Str.count c (a ++ b) = Str.count c a + Str.count c b.
Proof. induction a as [|d a IH]; simpl; [reflexivity|]. rewrite IH. lia. Qed.

(** What the pattern NUMBER matches: digits, or digits, a dot and
    digits. *)
Lemma match_NUMBER_decimal (s m : string) :
  match_NUMBER s = Some m ->
  all_chars (fun c => is_digit c || Ascii.eqb c ".") m = true
  /\ Str.count "." m <= 1
  /\ exists c m', m = String c m' /\ is_digit c = true.
Proof.
  unfold match_NUMBER. cbv zeta.
  pose proof (all_chars_take_while is_digit s) as Hds.
  destruct (Str.take_while is_digit s) as [|d ds] eqn:E; [discriminate|].
  cbn [Str.is_empty].
  assert (Hd : is_digit d = true) by (simpl in Hds; now apply andb_true_iff in Hds).
  assert (Hall : all_chars (fun c => is_digit c || Ascii.eqb c ".") (String d ds) = true).
  { revert Hds. apply RoundTrip.all_chars_impl. apply is_digit_decimal_char. }
  destruct (Str.drop _ s) as [|c rest]; [intros [= <-]|].
  - rewrite (count_digits _ Hds). split; [exact Hall|]. split; [lia|]. now exists d, ds.
  - destruct (_ && _) eqn:Hc; intros [= <-].
    + apply andb_true_iff in Hc as [Hc _]. apply Ascii.eqb_eq in Hc as ->.
      pose proof (all_chars_take_while is_digit rest) as Hfs.
      split; [|split].
      * change (String d (ds ++ String "." (Str.take_while is_digit rest)))
          with (String d ds ++ String "." (Str.take_while is_digit rest)).
        rewrite TextFacts.all_chars_app, Hall. simpl.
        revert Hfs. apply RoundTrip.all_chars_impl. apply is_digit_decimal_char.
      * change (String d (ds ++ String "." (Str.take_while is_digit rest)))
          with (String d ds ++ String "." (Str.take_while is_digit rest)).
        rewrite count_app, (count_digits _ Hds). simpl.
        rewrite (count_digits _ Hfs). lia.
      * now exists d, (ds ++ String "." (Str.take_while is_digit rest)).
    + rewrite (count_digits _ Hds). split; [exact Hall|]. split; [lia|]. now exists d, ds.
Qed.

(** X3.  In the stream [tokenize] returns, the text of an OP token is one
    of the sixteen operators, and the text of a NUMBER token begins with a
    digit and is made of digits and at most one dot. *)
Theorem operator_and_number_texts (source : string) (ts : TokenStream) (t : Token) :
  tokenize source = Ok ts -> In t ts ->
  (type t = "OP" -> In (value t) operators)
  /\ (type t = "NUMBER" ->
      all_chars (fun c => is_digit c || Ascii.eqb c ".") (value t) = true
      /\ Str.count "." (value t) <= 1
      /\ exists c rest, value t = String c rest /\ is_digit c = true).
Proof.
  intros (body & ln & col & -> & Hbody)%tokenize_from_patterns Hin.
  apply in_app_or in Hin as [Hin|[<-|[]]]; [|split; discriminate].
  pose proof (proj1 (Forall_forall _ _) Hbody t Hin) as Ht. split; intros Hty.
  - destruct (from_pattern_plain t "OP" Ht Hty) as (rem & Hm & _); [simpl; tauto|].
    exact (match_OP_operator _ _ (first_match_OP _ _ Hm)).
  - destruct (from_pattern_plain t "NUMBER" Ht Hty) as (rem & Hm & _); [simpl; tauto|].
    exact (match_NUMBER_decimal _ _ (first_match_NUMBER _ _ Hm)).
Qed.

Lemma operator_and_number_texts_witness :
  In "<=" operators
  /\ (all_chars (fun c => is_digit c || Ascii.eqb c ".") "2.50" = true
      /\ Str.count "." "2.50" <= 1
      /\ exists c rest, "2.50" = String c rest /\ is_digit c = true).
Proof.
  split.
  - apply (proj1 (operator_and_number_texts "x<=2.50"
                    [mkToken "NAME" "x" 1 1; mkToken "OP" "<=" 1 2;
                     mkToken "NUMBER" "2.50" 1 4; mkToken "EOF" "" 1 8]
                    (mkToken "OP" "<=" 1 2) eq_refl (or_intror (or_introl eq_refl)))).
    reflexivity.
  - apply (proj2 (operator_and_number_texts "x<=2.50"
                    [mkToken "NAME" "x" 1 1; mkToken "OP" "<=" 1 2;
                     mkToken "NUMBER" "2.50" 1 4; mkToken "EOF" "" 1 8]
                    (mkToken "NUMBER" "2.50" 1 4) eq_refl
                    (or_intror (or_intror (or_introl eq_refl))))).
    reflexivity.
Defined.

(** With such a character no pattern matches, whatever follows it. *)
Lemma starts_no_token_no_match (c : ascii) (rest : string) :
  starts_no_token c = true ->
  String.prefix "/*" (String c rest) = false
  /\ first_match token_patterns (String c rest) = None.
Proof.
  destruct c as [[] [] [] [] [] [] [] []]; intros H; try discriminate H;
    split; reflexivity.
Qed.

Lemma tokenize_step_column (c c' : Cursor) :
  (1 <= cur_column c)%Z -> tokenize_step c = Next c' -> (1 <= cur_column c')%Z.
Proof.
  intros Hcol. unfold tokenize_step, size.
  destruct (Str.is_empty (remaining c)); [discriminate|].
  destruct (String.prefix "/*" (remaining c)).
  - destruct (Str.find "*/" (remaining c)) as [e|]; [|discriminate].
    intros [= <-]. cbn [cur_column].
    destruct (0 <? _)%nat; [|lia].
    destruct (Str.find_last_of LF _) as [pos|] eqn:E; [|exact Hcol].
    assert (Hpos : forall s p, Str.find_last_of LF s = Some p -> p < String.length s).
    { clear. induction s as [|d s IH]; simpl; [discriminate|]. intros p.
      destruct (Str.find_last_of LF s) as [i|].
      - intros [= <-]. specialize (IH i eq_refl). lia.
      - destruct (Ascii.eqb d LF); [intros [= <-]; lia | discriminate]. }
    apply Hpos in E. lia.
  - destruct (first_match token_patterns (remaining c)) as [[kind text]|]; [|discriminate].
    destruct (kind =? "NEWLINE"); [|destruct (_ || _)]; intros [= <-]; cbn [cur_column]; lia.
Qed.

Lemma reaches_column (c c' : Cursor) :
  reaches c c' -> (1 <= cur_column c)%Z -> (1 <= cur_column c')%Z.
Proof.
  induction 1 as [c|c c' c'' Hstep _ IH]; [auto|].
  intros H. apply IH. exact (tokenize_step_column _ _ H Hstep).
Qed.

(** *** The message of the unexpected-character error *)

Lemma take_while_all (p : ascii -> bool) (s : string) :
  all_chars p s = true -> Str.take_while p s = s.
Proof.
  induction s as [|c s IH]; cbn [all_chars Str.take_while]; [reflexivity|].
  intros [Hc Hs]%andb_true_iff. now rewrite Hc, IH.
Qed.

Lemma c_str_all (s : string) :
  all_chars (fun c => negb (Ascii.eqb c NUL)) s = true -> Str.c_str s = s.
Proof. apply (take_while_all (fun c => negb (Ascii.eqb c NUL))). Qed.

Lemma of_Z_no_nul (z : Z) :
  all_chars (fun c => negb (Ascii.eqb c NUL)) (Str.of_Z z) = true.
Proof.
  assert (H : forall d, all_chars (fun c => negb (Ascii.eqb c NUL))
                          (NilEmpty.string_of_uint d) = true).
  { induction d; simpl; auto. }
  assert (H0 : forall d, all_chars (fun c => negb (Ascii.eqb c NUL))
                           (NilZero.string_of_uint d) = true).
  { intros d. destruct d; try reflexivity; apply (H (_ d)). }
  unfold Str.of_Z. destruct (Z.to_int z) as [d|d]; simpl; [apply H0|].
  apply (H0 d).
Qed.

(** What the loop throws at a character that begins no token. *)
Lemma unexpected_character_thrown (source : string) (c : Cursor) (ch : ascii)
      (rest : string) :
  reaches (start source) c ->
  remaining c = String ch rest ->
  starts_no_token ch = true ->
  tokenize source
  = Throw (Str.c_str ("Unexpected character '" ++ String ch "" ++ "' at line "
                      ++ Str.of_Z (cur_line c) ++ " column "
                      ++ Str.of_Z (cur_column c))).
Proof.
  intros Hreach Hrem Hch. unfold tokenize.
  destruct (BlockComment.tokenize_loop_reaches _ _ Hreach (S (String.length source)))
    as (fuel' & Hfuel' & ->); [simpl; lia|].
  destruct fuel' as [|fuel']; [lia|].
  simpl. unfold tokenize_step. rewrite Hrem.
  destruct (starts_no_token_no_match ch rest Hch) as [-> ->]. reflexivity.
Qed.

(** X4.  When the loop of [tokenize] comes to a character with which
    no token, comment or white space begins, [tokenize] throws the
    unexpected-character error.  Its message, read as the C string that
    [what()] returns, shows the character and the line and column counters
    of the lexer at that position, both at least 1; when the character is
    NUL the message ends before it, and shows neither the character nor
    the line nor the column. *)
Theorem unexpected_character (source : string) (c : Cursor) (ch : ascii) (rest : string) :
  reaches (start source) c ->
  remaining c = String ch rest ->
  starts_no_token ch = true ->
  (ch <> NUL ->
   tokenize source
   = Throw ("Unexpected character '" ++ String ch "" ++ "' at line "
            ++ Str.of_Z (cur_line c) ++ " column " ++ Str.of_Z (cur_column c)))
  /\ (ch = NUL -> tokenize source = Throw "Unexpected character '")
  /\ (1 <= cur_line c)%Z /\ (1 <= cur_column c)%Z.
Proof.
  intros Hreach Hrem Hch.
  pose proof (unexpected_character_thrown source c ch rest Hreach Hrem Hch) as H.
  split; [|split; [|split]].
  - intros Hnul. rewrite H. f_equal. apply c_str_all.
    rewrite !TextFacts.all_chars_app, !of_Z_no_nul. cbn [all_chars].
    apply Ascii.eqb_neq in Hnul. now rewrite Hnul.
  - intros ->. rewrite H. reflexivity.
  - apply BlockComment.reaches_line in Hreach. exact Hreach.
  - apply (reaches_column _ _ Hreach). simpl. lia.
Qed.

(** On the second line, after a name and a space; and at a NUL. *)
Lemma unexpected_character_witness :
  tokenize (String "a" (String LF "b @ c"))
  = Throw "Unexpected character '@' at line 2 column 3"
  /\ tokenize (String "a" (String LF (String "b" (String " " (String NUL " c")))))
     = Throw "Unexpected character '".
Proof.
  split.
  - apply (unexpected_character
             (String "a" (String LF "b @ c"))
             (mkCursor "@ c" 2 3
                [mkToken "NAME" "a" 1 1; mkToken "NEWLINE" (String LF "") 1 2;
                 mkToken "NAME" "b" 2 1])
             "@" " c").
    + eapply reaches_next; [reflexivity|].
      eapply reaches_next; [reflexivity|].
      eapply reaches_next; [reflexivity|].
      eapply reaches_next; [reflexivity|].
      apply reaches_here.
    + reflexivity.
    + reflexivity.
    + discriminate.
  - apply (unexpected_character
             (String "a" (String LF (String "b" (String " " (String NUL " c")))))
             (mkCursor (String NUL " c") 2 3
                [mkToken "NAME" "a" 1 1; mkToken "NEWLINE" (String LF "") 1 2;
                 mkToken "NAME" "b" 2 1])
             NUL " c").
    + eapply reaches_next; [reflexivity|].
      eapply reaches_next; [reflexivity|].
      eapply reaches_next; [reflexivity|].
      eapply reaches_next; [reflexivity|].
      apply reaches_here.
    + reflexivity.
    + reflexivity.
    + reflexivity.
Defined.

(** *** The literal the generators write for a string *)

Lemma match_string_body_repr (s : string) :
  match_string_body DQUOTE (repr_string_body s ++ String DQUOTE "")
  = Some (repr_string_body s ++ String DQUOTE "").
Proof.
  induction s as [|c s IH]; [reflexivity|].
  cbn [repr_string_body].
  destruct (Ascii.eqb c BACKSLASH) eqn:E1;
    [|destruct (Ascii.eqb c DQUOTE) eqn:E2;
      [|destruct (Ascii.eqb c LF) eqn:E3;
        [|destruct (Ascii.eqb c TAB) eqn:E4;
          [|destruct (Ascii.eqb c CR) eqn:E5]]]].
  1-5: cbn [String.append match_string_body Ascii.eqb Bool.eqb is_dot_char negb andb
              option_map BACKSLASH DQUOTE LF CR TAB];
       now rewrite IH.
  cbn [String.append match_string_body]. rewrite E2, E1. now rewrite IH.
Qed.

Lemma decode_content_repr (s : string) : decode_content (repr_string_body s) = s.
Proof.
  induction s as [|c s IH]; [reflexivity|].
  cbn [repr_string_body].
  destruct (Ascii.eqb c BACKSLASH) eqn:E1;
    [|destruct (Ascii.eqb c DQUOTE) eqn:E2;
      [|destruct (Ascii.eqb c LF) eqn:E3;
        [|destruct (Ascii.eqb c TAB) eqn:E4;
          [|destruct (Ascii.eqb c CR) eqn:E5]]]].
  1-5: match goal with
       | H : Ascii.eqb ?x _ = true |- _ => apply Ascii.eqb_eq in H; subst x
       end;
       cbn; now rewrite IH.
  cbn [String.append decode_content]. rewrite E1. now rewrite IH.
Qed.

(** X5.  The literal the generators write for a string is read back by
    the lexer as one STRING token that holds the string: [repr_string]
    escapes what [decode_string_literal] decodes, whatever the
    characters of the string. *)
Theorem repr_string_lexes_back (s : string) :
  tokenize (repr_string s)
  = Ok [mkToken "STRING" s 1 1; mkToken "EOF" "" 1 (1 + size (repr_string s))]
  /\ decode_string_literal (repr_string s) = s.
Proof.
  assert (Hdecode : decode_string_literal (repr_string s) = s).
  { unfold repr_string. rewrite LexerFacts.decode_quoted. apply decode_content_repr. }
  split; [|exact Hdecode].
  assert (Hfirst : first_match token_patterns (repr_string s)
                   = Some ("STRING", repr_string s)).
  { unfold token_patterns, first_match, repr_string.
    replace (match_NUMBER (String DQUOTE (repr_string_body s ++ String DQUOTE "")))
      with (@None string) by reflexivity.
    unfold match_STRING. cbn [Ascii.eqb Bool.eqb DQUOTE orb].
    now rewrite match_string_body_repr. }
  unfold tokenize.
  change (String.length (repr_string s))
    with (S (String.length (repr_string_body s ++ String DQUOTE ""))).
  cbn [tokenize_loop].
  assert (Hstep : tokenize_step (start (repr_string s))
                  = Next (mkCursor "" 1 (1 + size (repr_string s))
                                   [mkToken "STRING" s 1 1])).
  { unfold tokenize_step, start; cbn [remaining cur_line cur_column tokens].
    replace (Str.is_empty (repr_string s)) with false by reflexivity.
    replace (String.prefix "/*" (repr_string s)) with false by reflexivity.
    rewrite Hfirst. cbn [String.eqb Ascii.eqb Bool.eqb orb andb].
    now rewrite drop_all, Hdecode. }
  rewrite Hstep. reflexivity.
Qed.

(** *** Positions *)

Lemma lines_ascend_snoc (ts : TokenStream) (t : Token) :
  lines_ascend ts -> Forall (fun u => (line u <= line t)%Z) ts ->
  lines_ascend (ts ++ [t])%list.
Proof.
  induction ts as [|u [|v ts] IH]; intros Hasc Hall.
  - exact I.
  - inversion Hall; subst. simpl. auto.
  - destruct Hasc as [Huv Hasc]. inversion Hall; subst.
    split; [exact Huv|]. now apply IH.
Qed.

(** X6.  In the stream [tokenize] returns, every token stands at a line
    and a column that are at least 1, and the lines never decrease from
    one token to the next. *)
Theorem token_positions (source : string) (ts : TokenStream) :
  tokenize source = Ok ts ->
  Forall (fun t => (1 <= line t)%Z /\ (1 <= column t)%Z) ts /\ lines_ascend ts.
Proof.
  revert ts.
  apply (tokenize_invariant
           (fun c => (1 <= cur_line c)%Z /\ (1 <= cur_column c)%Z
                     /\ Forall (fun t => (1 <= line t <= cur_line c)%Z
                                         /\ (1 <= column t)%Z) (tokens c)
                     /\ lines_ascend (tokens c))
           (fun ts => Forall (fun t => (1 <= line t)%Z /\ (1 <= column t)%Z) ts
                      /\ lines_ascend ts)).
  - simpl. repeat split; try lia. constructor.
  - intros c c' (Hl & Hc & Hall & Hasc) Hstep.
    pose proof (BlockComment.tokenize_step_line _ _ Hstep) as Hline.
    pose proof (tokenize_step_column _ _ Hc Hstep) as Hcol.
    assert (Hall' : Forall (fun t => (1 <= line t <= cur_line c')%Z
                                     /\ (1 <= column t)%Z) (tokens c)).
    { revert Hall. apply Forall_impl. intros t. lia. }
    split; [lia|]. split; [exact Hcol|].
    destruct (tokenize_step_tokens _ _ Hstep) as [->|(t & -> & _ & Htl & Htc)]; [now split|].
    split.
    + apply Forall_app. split; [exact Hall'|]. constructor; [lia | constructor].
    + apply lines_ascend_snoc; [exact Hasc|].
      revert Hall. apply Forall_impl. intros u. lia.
  - intros c ts (Hl & Hc & Hall & Hasc) Hdone.
    rewrite (tokenize_step_eof _ _ Hdone). split.
    + apply Forall_app. split.
      * revert Hall. apply Forall_impl. intros t. lia.
      * constructor; [simpl; lia | constructor].
    + apply lines_ascend_snoc; [exact Hasc|].
      revert Hall. apply Forall_impl. intros u. simpl. lia.
Qed.

(** A block comment over two lines between two names. *)
Lemma token_positions_witness :
  Forall (fun t => (1 <= line t)%Z /\ (1 <= column t)%Z)
         [mkToken "NAME" "a" 1 1; mkToken "NAME" "b" 2 4; mkToken "EOF" "" 2 5]
  /\ lines_ascend [mkToken "NAME" "a" 1 1; mkToken "NAME" "b" 2 4; mkToken "EOF" "" 2 5].
Proof.
  apply (token_positions (String "a" (String "/" (String "*" (String LF "*/ b"))))).
  reflexivity.
Defined.

End LexerInvariants.

Module StatementShape.

Import Lexer AST Parser Spec SpawnInvariant.
Open Scope parser_scope.

Create HintDb shape.

Ltac shape_step :=
  lazymatch goal with
  | |- ensures _ (ret _ _) => cbn [ensures ret]
  | |- ensures _ (throw _ _) => exact I
  | |- ensures _ (out_of_fuel _) => exact I
  | |- ensures _ ((if ?c then _ else _) _) => destruct c eqn:?
  | |- ensures _ ((let '(_, _) := ?p in _) _) => destruct p
  | |- ensures _ (bind (if ?c then _ else _) _ _) => destruct c eqn:?
  | |- ensures ?Q (bind (ret ?a) ?k ?ts) => change (ensures Q (k a ts)); cbv beta
  | |- ensures _ (bind _ _ _) =>
      first [ eapply ensures_bind; [solve [eauto with shape] | intros ? ? ?]
            | apply ensures_bind_any; intros ? ? ]
  | |- ensures _ _ => solve [eauto with shape]
  end.

Section Grammar.

Context {double : Type} (stod : string -> double + string).

Let good := fun n : Node double => statement_shape n = true.
Let all_good := fun b : list (Node double) => forallb statement_shape b = true.

Lemma shape_snoc (body : list (Node double)) (n : Node double) :
  forallb statement_shape body = true -> statement_shape n = true ->
  forallb statement_shape (body ++ [n]) = true.
Proof. intros Hb Hn. rewrite forallb_app, Hb; simpl. now rewrite Hn. Qed.

Lemma parse_import_statement_shape fuel ts :
  ensures good (parse_import_statement fuel ts).
Proof.
  unfold parse_import_statement. repeat shape_step; try reflexivity.
  all: cbn [good statement_shape]; assumption.
Qed.

Lemma parse_variable_statement_shape fuel m ts :
  ensures good (parse_variable_statement stod fuel m false false ts)
  /\ ensures good (parse_variable_statement stod fuel m true false ts)
  /\ ensures good (parse_variable_statement stod fuel m true true ts).
Proof.
  unfold parse_variable_statement. repeat split; repeat shape_step; reflexivity.
Qed.

Section Statements.

Variable parse_statement : M (Node double).
Hypothesis parse_statement_shape : forall ts, ensures good (parse_statement ts).

Lemma parse_block_loop_shape fuel : forall body ts,
  forallb statement_shape body = true ->
  ensures all_good (parse_block_loop parse_statement fuel body ts).
Proof.
  induction fuel as [|fuel IH]; intros body ts Hbody; [exact I|].
  cbn [parse_block_loop].
  apply ensures_bind_any; intros tok ts1.
  destruct (negb _); [|exact Hbody].
  destruct (is_separator tok).
  - apply ensures_bind_any; intros _ ts2. now apply IH.
  - eapply ensures_bind; [apply parse_statement_shape|].
    intros stmt ts2 Hstmt. apply IH. now apply shape_snoc.
Qed.

Lemma parse_block_shape fuel ts :
  ensures all_good (parse_block parse_statement fuel ts).
Proof.
  unfold parse_block.
  apply ensures_bind_any; intros _ ts1.
  eapply ensures_bind; [now apply parse_block_loop_shape|].
  intros body ts2 Hbody.
  apply ensures_bind_any; intros _ ts3. exact Hbody.
Qed.

Hint Resolve parse_block_shape parse_import_statement_shape : shape.

Lemma parse_function_statement_shape fuel ts :
  ensures good (parse_function_statement parse_statement fuel false false ts)
  /\ ensures good (parse_function_statement parse_statement fuel true false ts)
  /\ ensures good (parse_function_statement parse_statement fuel true true ts).
Proof.
  unfold parse_function_statement. repeat split; repeat shape_step; assumption.
Qed.

Lemma parse_export_statement_shape fuel ts :
  ensures good (parse_export_statement stod parse_statement fuel ts).
Proof.
  pose proof (fun ts => proj1 (proj2 (parse_function_statement_shape fuel ts))) as Hf1.
  pose proof (fun ts => proj2 (proj2 (parse_function_statement_shape fuel ts))) as Hf2.
  pose proof (fun m ts => proj1 (proj2 (parse_variable_statement_shape fuel m ts))) as Hv1.
  pose proof (fun m ts => proj2 (proj2 (parse_variable_statement_shape fuel m ts))) as Hv2.
  unfold parse_export_statement. repeat shape_step; reflexivity.
Qed.

Hint Resolve parse_export_statement_shape : shape.

Lemma parse_statement_body_shape fuel ts :
  ensures good (parse_statement_body stod parse_statement fuel ts).
Proof.
  pose proof (fun ts => proj1 (parse_function_statement_shape fuel ts)) as Hf.
  pose proof (fun m ts => proj1 (parse_variable_statement_shape fuel m ts)) as Hv.
  unfold parse_statement_body. repeat shape_step.
  all: try assumption; try reflexivity.
  - cbn [good statement_shape]. apply andb_true_iff. split; assumption.
  - cbn [good statement_shape]. apply andb_true_iff. split; [assumption | reflexivity].
Qed.

End Statements.

Lemma parse_statement_shape fuel : forall ts,
  ensures good (parse_statement stod fuel ts).
Proof.
  induction fuel as [|fuel IH]; intros ts; [exact I|].
  cbn [parse_statement]. now apply parse_statement_body_shape.
Qed.

Lemma parse_loop_shape fuel : forall body ts,
  forallb statement_shape body = true ->
  ensures all_good (parse_loop stod fuel body ts).
Proof.
  induction fuel as [|fuel IH]; intros body ts Hbody; [exact I|].
  cbn [parse_loop].
  apply ensures_bind_any; intros tok ts1.
  destruct (negb _); [|exact Hbody].
  destruct (is_separator tok).
  - apply ensures_bind_any; intros _ ts2. now apply IH.
  - eapply ensures_bind; [apply parse_statement_shape|].
    intros stmt ts2 Hstmt. apply IH. now apply shape_snoc.
Qed.

Lemma parse_shape tokens module :
  parse stod tokens = Ok module -> forallb statement_shape (body module) = true.
Proof.
  unfold parse.
  pose proof (parse_loop_shape (fuel_for tokens) [] tokens eq_refl) as H.
  destruct (parse_loop stod (fuel_for tokens) [] tokens) as [[b ts]| | |];
    try discriminate.
  intros [= <-]. exact H.
Qed.

End Grammar.

(** X7.  In every module that [parse] returns, at any depth, the target
    of an assignment is a name or an attribute, a variable or function that
    is the default export is exported, and an import with [from] binds a
    default name, a named import or a namespace. *)
Theorem parsed_statement_shape {double} (stod : string -> double + string)
        (tokens : TokenStream) (module : Module double) :
  parse stod tokens = Ok module -> forallb statement_shape (body module) = true.
Proof. apply parse_shape. Qed.

(** The tokens of an assignment to an attribute. *)
Lemma parsed_statement_shape_witness :
  forallb statement_shape
    [Assign (Attribute (Name "a") "b") (Name "c") : Node DecimalText.double] = true.
Proof.
  apply (parsed_statement_shape DecimalText.stod
           [mkToken "NAME" "a" 1 1; mkToken "DOT" "." 1 2; mkToken "NAME" "b" 1 3;
            mkToken "OP" "=" 1 5; mkToken "NAME" "c" 1 7; mkToken "EOF" "" 1 8]
           (make_module [Assign (Attribute (Name "a") "b") (Name "c")])).
  reflexivity.
Defined.

End StatementShape.

Module StatementStart.

Import Lexer AST Parser Spec.
Open Scope parser_scope.

Lemma bind_throw {A B} (m : M A) (k : A -> M B) (ts : TokenStream) (what : string) :
  m ts = Throw what -> bind m k ts = Throw what.
Proof. intros E. unfold bind. now rewrite E. Qed.

(** A throw of the first call of a sequence is a throw of the sequence. *)
Ltac thrown :=
  repeat lazymatch goal with
         | |- bind _ _ _ = Throw _ => apply bind_throw
         end.

Section Grammar.

Context {double : Type} (stod : string -> double + string).

Lemma parse_expression_rejects (fuel : nat) (tok : Token) (rest : TokenStream) :
  starts_no_statement tok = true ->
  parse_expression stod (2 + fuel) (tok :: rest)
  = Throw ("Unexpected token " ++ type tok ++ " at line " ++ Str.of_Z (line tok)).
Proof.
  unfold starts_no_statement, statement_starts. cbn [existsb].
  intros [Hty Hop]%andb_true_iff.
  apply negb_true_iff in Hty, Hop.
  repeat (apply orb_false_iff in Hty as [? Hty]).
  cbn [Nat.add parse_expression].
  unfold parse_or, parse_and, parse_equality, parse_comparison, parse_term,
    parse_factor.
  thrown.
  cbn [parse_unary]. unfold bind at 1. cbn [current]. rewrite Hop.
  unfold parse_call_expression. thrown.
  unfold parse_primary, bind at 1. cbn [current].
  repeat match goal with
         | H : (type tok =? _) = false |- _ => rewrite H; clear H
         end.
  reflexivity.
Qed.

Lemma parse_statement_rejects (fuel : nat) (tok : Token) (rest : TokenStream) :
  starts_no_statement tok = true ->
  parse_statement stod (3 + fuel) (tok :: rest)
  = Throw ("Unexpected token " ++ type tok ++ " at line " ++ Str.of_Z (line tok)).
Proof.
  intros H. pose proof (parse_expression_rejects fuel tok rest H) as Hexpr.
  unfold starts_no_statement, statement_starts in H. cbn [existsb] in H.
  apply andb_true_iff in H as [Hty _]. apply negb_true_iff in Hty.
  repeat (apply orb_false_iff in Hty as [? Hty]).
  change (3 + fuel) with (S (2 + fuel)).
  cbn [parse_statement]. unfold parse_statement_body.
  unfold bind at 1. cbn [current].
  repeat match goal with
         | H : (type tok =? _) = false |- _ => rewrite H; clear H
         end.
  cbn [orb]. now apply bind_throw.
Qed.

End Grammar.

(** X8.  A token with which no statement begins - [else], [in], [as],
    [from], a closing bracket, a comma, a binary operator, the EOF token of
    an unclosed block, ... - makes [parse_statement] throw the
    unexpected-token error with the type and the line of that token,
    whatever follows it. *)
Theorem statement_start_rejected {double} (stod : string -> double + string)
        (fuel : nat) (tok : Token) (rest : TokenStream) :
  starts_no_statement tok = true ->
  parse_statement stod (3 + fuel) (tok :: rest)
  = Throw ("Unexpected token " ++ type tok ++ " at line " ++ Str.of_Z (line tok)).
Proof. apply parse_statement_rejects. Qed.

(** An [else] on a line of its own. *)
Lemma statement_start_rejected_witness :
  parse_statement DecimalText.stod 10
    [mkToken "ELSE" "else" 2 1; mkToken "LBRACE" "{" 2 6; mkToken "RBRACE" "}" 2 7;
     mkToken "EOF" "" 2 8]
  = Throw "Unexpected token ELSE at line 2".
Proof.
  apply (statement_start_rejected DecimalText.stod 7 (mkToken "ELSE" "else" 2 1)).
  reflexivity.
Defined.

End StatementStart.


Module Associativity.

Import Lexer AST Parser Spec.
Open Scope parser_scope.

Lemma bind_consume_cons {A} (expected : string) (k : Token -> M A)
      (t : Token) (ts : TokenStream) :
  type t = expected -> bind (consume expected) k (t :: ts) = k t ts.
Proof.
  intros <-. unfold bind, consume. rewrite String.eqb_refl.
  now destruct (Str.is_empty (type t)).
Qed.

Lemma bind_match_cons_false {A} (ty : string) (k : bool -> M A)
      (t : Token) (ts : TokenStream) :
  (type t =? ty) = false -> bind (match_ ty) k (t :: ts) = k false (t :: ts).
Proof. intros E. unfold bind, match_. now rewrite E. Qed.

Lemma additive_ends_operand (p : Token * Token) :
  additive_step p = true -> ends_operand (fst p).
Proof.
  unfold additive_step, ends_operand.
  intros [[Hty Hval]%andb_true_iff _]%andb_true_iff.
  apply String.eqb_eq in Hty. rewrite Hty.
  repeat split; try reflexivity. cbn [String.eqb Ascii.eqb Bool.eqb andb existsb].
  apply orb_true_iff in Hval as [->%String.eqb_eq | ->%String.eqb_eq]; reflexivity.
Qed.

Lemma eof_ends_operand (eof : Token) : type eof = "EOF" -> ends_operand eof.
Proof. unfold ends_operand. intros ->. repeat split. Qed.

Section Grammar.

Context {double : Type} (stod : string -> double + string).
Variable parse_expression : M (Expression double).

(** An operand of the chain, parsed by [parse_factor]. *)
Lemma parse_factor_operand (fuel : nat) (x h : Token) (ts : TokenStream) :
  type x = "NAME" -> ends_operand h ->
  parse_factor stod parse_expression (2 + fuel) (x :: h :: ts)
  = Ok (Name (value x), h :: ts).
Proof.
  intros Hx (Hparen & Hdot & Hmul).
  unfold parse_factor. cbn [Nat.add parse_unary].
  rewrite Termination.bind_assoc, Interchange.bind_current_cons, Hx.
  cbn [String.eqb Ascii.eqb Bool.eqb andb].
  unfold parse_call_expression, parse_primary.
  rewrite !Termination.bind_assoc, Interchange.bind_current_cons, Hx.
  cbn [String.eqb Ascii.eqb Bool.eqb].
  rewrite !Termination.bind_assoc, Interchange.bind_consume_any_cons.
  rewrite Termination.bind_ret.
  cbn [parse_call_loop].
  rewrite !Termination.bind_assoc, (bind_match_cons_false _ _ _ _ Hparen).
  cbv beta iota.
  rewrite !Termination.bind_assoc, (bind_match_cons_false _ _ _ _ Hdot).
  cbv beta iota. rewrite Termination.bind_ret.
  cbn [parse_binary_loop]. rewrite Interchange.bind_current_cons, Hmul.
  reflexivity.
Qed.

Lemma chain_head (rest : list (Token * Token)) (eof : Token) :
  forallb additive_step rest = true -> type eof = "EOF" ->
  exists h ts, (flat_map (fun p => [fst p; snd p]) rest ++ [eof])%list = h :: ts
               /\ ends_operand h.
Proof.
  destruct rest as [|p rest]; intros Hrest Heof.
  - exists eof, []. split; [reflexivity | now apply eof_ends_operand].
  - cbn [forallb] in Hrest. apply andb_true_iff in Hrest as [Hp _].
    eexists _, _. split; [reflexivity | now apply additive_ends_operand].
Qed.

(** The loop of [parse_term] along the chain. *)
Lemma parse_term_loop_chain (f : nat) (rest : list (Token * Token)) (eof : Token) :
  forallb additive_step rest = true -> type eof = "EOF" ->
  forall fuel acc,
    List.length rest < fuel ->
    parse_binary_loop ["+"; "-"] (parse_factor stod parse_expression (2 + f)) fuel acc
      (flat_map (fun p => [fst p; snd p]) rest ++ [eof])%list
    = Ok (fold_left (fun acc p => BinaryOp acc (value (fst p)) (Name (value (snd p))))
                    rest acc,
          [eof]).
Proof.
  intros Hrest Heof. induction rest as [|[op name] rest IH]; intros fuel acc Hfuel;
    (destruct fuel as [|fuel]; [cbn [List.length] in Hfuel; lia|]).
  - cbn [flat_map fold_left List.app parse_binary_loop].
    rewrite Interchange.bind_current_cons, Heof. reflexivity.
  - cbn [forallb] in Hrest. apply andb_true_iff in Hrest as [Hp Hrest].
    unfold additive_step in Hp. cbn [fst snd] in Hp.
    apply andb_true_iff in Hp as [[Hty Hval]%andb_true_iff Hname].
    apply String.eqb_eq in Hty, Hname.
    destruct (chain_head rest eof Hrest Heof) as (h & ts & Hts & Hh).
    cbn [flat_map fold_left List.app parse_binary_loop fst snd].
    specialize (IH Hrest fuel (BinaryOp acc (value op) (Name (value name)))).
    rewrite Hts in *.
    rewrite Interchange.bind_current_cons, Hty.
    replace (existsb (String.eqb (value op)) ["+"; "-"]) with true
      by (cbn [existsb]; rewrite orb_false_r; now rewrite Hval).
    cbn [String.eqb Ascii.eqb Bool.eqb andb].
    rewrite (bind_consume_cons "OP" _ _ _ Hty).
    unfold bind at 1. rewrite (parse_factor_operand f name h ts Hname Hh).
    apply IH. cbn [List.length] in Hfuel. lia.
Qed.

(** A level above [parse_term] finds none of its operators at the EOF
    token. *)
Lemma parse_binary_loop_eof (ops : list string) (next : M (Expression double))
      (fuel : nat) (expr : Expression double) (eof : Token) :
  type eof = "EOF" ->
  parse_binary_loop ops next (S fuel) expr [eof] = Ok (expr, [eof]).
Proof.
  intros Heof. cbn [parse_binary_loop]. rewrite Interchange.bind_current_cons, Heof.
  reflexivity.
Qed.

Lemma parse_or_chain (f : nat) (x : Token) (rest : list (Token * Token)) (eof : Token) :
  type x = "NAME" -> forallb additive_step rest = true -> type eof = "EOF" ->
  List.length rest < 2 + f ->
  parse_or stod parse_expression (2 + f) (chain_tokens x rest eof)
  = Ok (left_nested x rest, [eof]).
Proof.
  intros Hx Hrest Heof Hlen.
  destruct (chain_head rest eof Hrest Heof) as (h & ts & Hts & Hh).
  assert (Hterm : parse_term stod parse_expression (2 + f) (chain_tokens x rest eof)
                  = Ok (left_nested x rest, [eof])).
  { unfold parse_term, chain_tokens. unfold bind at 1. rewrite Hts.
    rewrite (parse_factor_operand f x h ts Hx Hh). rewrite <- Hts.
    now apply parse_term_loop_chain. }
  unfold parse_or, parse_and, parse_equality, parse_comparison.
  unfold bind. rewrite Hterm.
  change (2 + f) with (S (S f)).
  now rewrite !parse_binary_loop_eof.
Qed.

End Grammar.

Lemma left_nested_not_assignable {double} (x : Token) (rest : list (Token * Token)) :
  forall acc : Expression double,
    rest <> [] \/ expression_kind acc = NodeKind.BinaryOp ->
    expression_kind
      (fold_left (fun acc p => BinaryOp acc (value (fst p)) (Name (value (snd p))))
                 rest acc)
    = NodeKind.BinaryOp.
Proof.
  induction rest as [|p rest IH]; intros acc [H|H]; try (now elim H); try exact H.
  - cbn [fold_left]. apply IH. now right.
  - cbn [fold_left]. apply IH. now right.
Qed.

Lemma chain_length (x : Token) (rest : list (Token * Token)) (eof : Token) :
  List.length (chain_tokens x rest eof) = 2 * List.length rest + 2.
Proof.
  unfold chain_tokens. cbn [List.length]. rewrite length_app. cbn [List.length].
  induction rest as [|p rest IH]; [reflexivity|].
  cbn [flat_map List.length List.app]. lia.
Qed.

(** X9.  A chain of names joined by the operators [+] and [-] parses to
    the tree that leans to the left, whatever its length: the operators
    of one level associate to the left. *)
Theorem additive_chain_left_nested {double} (stod : string -> double + string)
        (x : Token) (rest : list (Token * Token)) (eof : Token) :
  type x = "NAME" -> forallb additive_step rest = true -> type eof = "EOF" ->
  parse stod (chain_tokens x rest eof) = Ok (make_module [Expr (left_nested x rest)]).
Proof.
  intros Hx Hrest Heof.
  unfold parse, fuel_for. rewrite chain_length.
  replace (2 * List.length rest + 2 + 5) with (S (S (S (2 + (2 * List.length rest + 2)))))
    by lia.
  remember (2 * List.length rest + 2) as f eqn:Hf.
  assert (Hexpr : parse_expression stod (S (2 + f)) (chain_tokens x rest eof)
                  = Ok (left_nested x rest, [eof])).
  { cbn [parse_expression]. apply parse_or_chain; try assumption. lia. }
  assert (Hstmt : parse_statement stod (S (S (2 + f))) (chain_tokens x rest eof)
                  = Ok (Expr (left_nested x rest), [eof])).
  { cbn [parse_statement]. unfold parse_statement_body.
    unfold chain_tokens at 1. rewrite Interchange.bind_current_cons, Hx.
    cbn [String.eqb Ascii.eqb Bool.eqb orb].
    fold (chain_tokens x rest eof).
    unfold bind at 1. rewrite Hexpr.
    cbv beta iota.
    assert (Hnl : optional_newline (S (2 + f)) [eof] = Ok (tt, [eof])).
    { cbn [optional_newline]. rewrite Interchange.bind_current_cons.
      unfold is_separator. rewrite Heof. reflexivity. }
    destruct (_ || _).
    - rewrite !Termination.bind_assoc, Interchange.bind_current_cons, Heof.
      rewrite Termination.bind_ret. cbn [String.eqb Ascii.eqb Bool.eqb andb].
      unfold bind at 1. now rewrite Hnl.
    - rewrite Termination.bind_ret. unfold bind at 1. now rewrite Hnl. }
  cbn [parse_loop]. unfold chain_tokens at 1.
  rewrite Interchange.bind_current_cons. unfold is_separator. rewrite Hx.
  cbn [String.eqb Ascii.eqb Bool.eqb orb negb].
  fold (chain_tokens x rest eof).
  unfold bind at 1. rewrite Hstmt. cbn [List.app].
  rewrite Interchange.bind_current_cons, Heof. reflexivity.
Qed.

(** [a - b + c] is [(a - b) + c]. *)
Lemma additive_chain_left_nested_witness :
  parse_source DecimalText.stod "a - b + c"
  = Ok (make_module
          [Expr (BinaryOp (BinaryOp (Name "a") "-" (Name "b")) "+" (Name "c"))]).
Proof.
  exact (additive_chain_left_nested DecimalText.stod
           (mkToken "NAME" "a" 1 1)
           [(mkToken "OP" "-" 1 3, mkToken "NAME" "b" 1 5);
            (mkToken "OP" "+" 1 7, mkToken "NAME" "c" 1 9)]
           (mkToken "EOF" "" 1 10) eq_refl eq_refl eq_refl).
Defined.

End Associativity.

Module PythonTotal.

Import AST Visit PythonVisitor Spec StrFacts TextFacts PythonFacts.
Open Scope visit_scope.

(** Apply the rules of [follows] along a visitor function; [side] proves
    that the invariant of the stream is kept by an emitted line. *)
Ltac follow side :=
  repeat
    lazymatch goal with
    | |- follows _ _ _ (_ ;; _) => eapply follows_seq
    | |- follows _ _ _ (emit _) => apply follows_emit; side
    | |- follows _ _ _ indent => apply follows_indent
    | |- follows _ _ _ dedent => apply follows_dedent
    | |- follows _ _ _ skip => apply follows_skip
    | |- follows _ _ _ (when _ _) => apply follows_when
    | |- follows _ _ _ (with_temp _ _) => apply follows_with_temp; intros ?
    | |- follows _ _ _ (match ?x with _ => _ end) => destruct x
    | |- follows _ _ _ (for_each (fun _ => _) _) =>
        apply follows_for_each; apply Forall_forall; intros [? ?] ?
    end.

Section Platform.

Context {double : Type} (double_to_string : double -> string).

Let always : string -> Prop := fun _ => True.

Lemma for_each_visit_follows (Inv : string -> Prop) (k : nat) (body : list (Node double)) :
  Forall (fun n => forall k, follows Inv k k (visit double_to_string n)) body ->
  follows Inv k k (for_each (visit double_to_string) body).
Proof.
  intros H. apply follows_for_each. revert H. apply Forall_impl. auto.
Qed.

(** Whatever the tree, [visit] returns, at the indent level at which it
    was called: every [dedent] it makes undoes an [indent] of its own. *)
Lemma visit_follows (n : Node double) :
  forall k, follows always k k (visit double_to_string n).
Proof.
  induction n as [n IH] using Node_children_ind. intros k.
  destruct n; cbn [visit children] in *;
    unfold visit_import, visit_import_from, visit_let, visit_assign, visit_return,
      visit_export_names, visit_export_default, visit_spawn,
      visit_function_def, visit_if, visit_while, visit_for.
  all: try apply Forall_app in IH as [IH1 IH2].
  all: follow ltac:(intros; exact I).
  all: try (apply for_each_visit_follows; assumption).
Qed.

Lemma Expression_nested_ind (P : Expression double -> Prop) :
  (forall id, P (Name id)) ->
  (forall value, P (Number value)) ->
  (forall value, P (String_ value)) ->
  (forall value, P (Boolean value)) ->
  P Null ->
  (forall lhs op rhs, P lhs -> P rhs -> P (BinaryOp lhs op rhs)) ->
  (forall op operand, P operand -> P (UnaryOp op operand)) ->
  (forall func args, P func -> Forall P args -> P (Call func args)) ->
  (forall value attr, P value -> P (Attribute value attr)) ->
  (forall elements, Forall P elements -> P (ListLiteral elements)) ->
  (forall pairs, Forall (fun kv => P (fst kv) /\ P (snd kv)) pairs ->
                 P (DictLiteral pairs)) ->
  forall e, P e.
Proof.
  intros HName HNumber HString HBoolean HNull HBinary HUnary HCall HAttr HList HDict.
  fix IH 1. intros [id|value|value|value| |lhs op rhs|op operand|func args|value attr
                   |elements|pairs].
  - apply HName.
  - apply HNumber.
  - apply HString.
  - apply HBoolean.
  - apply HNull.
  - apply HBinary; apply IH.
  - apply HUnary; apply IH.
  - apply HCall; [apply IH|].
    induction args as [|x args IHargs]; constructor; [apply IH | exact IHargs].
  - apply HAttr; apply IH.
  - apply HList.
    induction elements as [|x xs IHxs]; constructor; [apply IH | exact IHxs].
  - apply HDict.
    induction pairs as [|[key val] ps IHps]; constructor;
      [split; apply IH | exact IHps].
Qed.

Lemma forallb_map_no_newline {A} (f : A -> string) (ok : A -> bool) (xs : list A) :
  Forall (fun x => ok x = true -> word (f x) = true) xs ->
  forallb ok xs = true ->
  forallb no_newline (List.map f xs) = true.
Proof.
  induction 1 as [|x xs Hx _ IH]; simpl; [reflexivity|].
  intros [Hok Hxs]%andb_true_iff.
  now rewrite (word_no_newline _ (Hx Hok)), IH.
Qed.

Lemma render_expression_word (e : Expression double) :
  tidy_expression double_to_string e = true ->
  word (render_expression double_to_string e) = true.
Proof.
  induction e using Expression_nested_ind; cbn [tidy_expression render_expression].
  - auto.
  - auto.
  - intros _. apply word_repr_string.
  - intros _. now destruct value.
  - reflexivity.
  - intros [[Hl Hop]%andb_true_iff Hr]%andb_true_iff.
    apply word_app; [auto|].
    rewrite !no_newline_app, (word_no_newline _ Hop), (word_no_newline _ (IHe2 Hr)).
    reflexivity.
  - intros [Hop He]%andb_true_iff.
    apply word_app; [exact Hop | apply word_no_newline; auto].
  - intros [Hf Hargs]%andb_true_iff.
    apply word_app; [auto|].
    rewrite !no_newline_app. unfold join.
    rewrite no_newline_concat; [reflexivity | reflexivity |].
    now apply (forallb_map_no_newline _ (tidy_expression double_to_string)).
  - intros [Hv Hattr]%andb_true_iff.
    apply word_app; [auto|].
    now rewrite no_newline_app, (word_no_newline _ Hattr).
  - intros Helems. cbn [String.append].
    apply word_cons; [reflexivity|].
    rewrite !no_newline_app. unfold join.
    rewrite no_newline_concat; [reflexivity | reflexivity |].
    now apply (forallb_map_no_newline _ (tidy_expression double_to_string)).
  - intros Hpairs. cbn [String.append].
    apply word_cons; [reflexivity|].
    rewrite !no_newline_app. unfold join.
    rewrite no_newline_concat; [reflexivity | reflexivity |].
    apply (forallb_map_no_newline _
             (fun kv => tidy_expression double_to_string (fst kv)
                        && tidy_expression double_to_string (snd kv)));
      [|exact Hpairs].
    revert H. apply Forall_impl. intros [key val] [Hk Hv]; cbn [fst snd] in *.
    intros [Hkey Hval]%andb_true_iff.
    apply word_app; [auto|].
    exact (word_no_newline _ (Hv Hval)).
Qed.

Lemma word_map_replace (s : string) :
  word s = true -> word (Str.map replace_dot_dash s) = true.
Proof.
  assert (Hlf : forall c, Ascii.eqb (replace_dot_dash c) LF = Ascii.eqb c LF).
  { intros c. unfold replace_dot_dash.
    destruct (Ascii.eqb_spec c "."%char) as [->|_]; [reflexivity|].
    destruct (Ascii.eqb_spec c "-"%char) as [->|_]; reflexivity. }
  destruct s as [|c s]; [discriminate|].
  unfold word, text_ok. rewrite no_newline_map by exact Hlf. simpl.
  rewrite !andb_true_r. intros [Hn Hs]%andb_true_iff. rewrite Hn. simpl.
  unfold replace_dot_dash.
  destruct (Ascii.eqb_spec c "."%char) as [->|_]; [reflexivity|].
  destruct (Ascii.eqb_spec c "-"%char) as [->|_]; [reflexivity | exact Hs].
Qed.

Lemma no_newline_join_words (sep : string) (ws : list string) :
  no_newline sep = true -> forallb word ws = true -> no_newline (join ws sep) = true.
Proof.
  intros Hsep Hws. apply no_newline_concat; [exact Hsep|].
  apply forallb_forall. intros w Hin.
  apply word_no_newline. exact (proj1 (forallb_forall _ _) Hws w Hin).
Qed.

(** What [tidy] says, as facts about the texts the visitor builds. *)
Ltac tidy_facts :=
  repeat match goal with
    | H : (_ && _) = true |- _ => apply andb_true_iff in H; destruct H
    | H : word_if_any (Some _) = true |- _ => cbn [word_if_any] in H
    | H : forallb word_pair ?names = true, Hin : In (_, _) ?names |- _ =>
        pose proof (proj1 (forallb_forall _ _) H _ Hin); clear Hin;
        unfold word_pair in *; cbn [fst snd] in *
    | H : tidy_expression _ ?e = true |- _ =>
        apply render_expression_word in H
    | H : forallb word ?ws = true |- _ =>
        apply (no_newline_join_words ", ") in H; [|reflexivity]
    end;
  repeat match goal with
    | H : word ?x = true |- _ =>
        lazymatch goal with
        | _ : no_newline x = true |- _ => fail
        | _ => pose proof (word_no_newline x H)
        end
    end.

Ltac no_newlines :=
  rewrite ?no_newline_app, ?no_newline_of_Z;
  repeat match goal with
    | H : no_newline ?x = true |- context [no_newline ?x] => rewrite H
    end;
  reflexivity.

Ltac words :=
  first [ reflexivity | assumption | apply word_map_replace; assumption ].

Ltac texts :=
  first [ reflexivity
        | apply word_text_ok; assumption
        | apply text_ok_app; [words | no_newlines]
        | rewrite append_assoc; apply text_ok_app; [words | no_newlines] ].

Lemma for_each_visit_tidy (k : nat) (body : list (Node double)) :
  Forall (fun n => tidy double_to_string word n = true ->
                   forall k, follows well_indented k k (visit double_to_string n)) body ->
  forallb (tidy double_to_string word) body = true ->
  follows well_indented k k (for_each (visit double_to_string) body).
Proof.
  intros H Hbody. apply follows_for_each. apply Forall_forall. intros n Hin.
  apply (proj1 (Forall_forall _ _) H n Hin).
  exact (proj1 (forallb_forall _ _) Hbody n Hin).
Qed.

(** On a tidy tree every line [visit] emits is [text_ok]. *)
Lemma visit_tidy (n : Node double) :
  tidy double_to_string word n = true ->
  forall k, follows well_indented k k (visit double_to_string n).
Proof.
  induction n as [n IH] using Node_children_ind. intros Htidy k.
  destruct n; cbn [visit children tidy] in *;
    unfold visit_import, visit_import_from, visit_let, visit_assign, visit_return,
      visit_export_names, visit_export_default, visit_spawn,
      visit_function_def, visit_if, visit_while, visit_for.
  all: try apply Forall_app in IH as [IH1 IH2].
  all: follow ltac:(intros ? ?; apply well_indented_emit; [assumption|]).
  all: try (apply for_each_visit_tidy; [assumption|]).
  all: repeat match goal with
         | |- context [match ?x with Some _ => _ | None => _ end] => destruct x
         | |- context [if negb ?b then _ else _] => destruct b; cbn [negb]
         | |- context [Str.of_Z ?i] =>
             lazymatch goal with
             | _ : word ("__trif_" ++ _ ++ "_" ++ Str.of_Z i) = true |- _ => fail
             | |- context [("__trif_" ++ ?p ++ "_" ++ Str.of_Z i)] =>
                 pose proof (temp_name_word p i eq_refl)
             end
         end.
  all: tidy_facts.
  all: try assumption.
  all: try texts.
Qed.

End Platform.

End PythonTotal.

Module Indentation.

Import AST Visit PythonVisitor Spec StrFacts
       TextFacts PythonFacts PythonTotal.
Open Scope visit_scope.

Lemma lines_from_closed (s cur t : string) :
  lines_from cur ((s ++ LFs) ++ t) = (lines_from cur (s ++ LFs) ++ lines_from "" t)%list.
Proof.
  revert cur. induction s as [|c s IH]; intros cur; simpl.
  - reflexivity.
  - destruct (Ascii.eqb c LF); [|apply IH].
    rewrite IH. reflexivity.
Qed.

Lemma lines_from_one (l cur : string) :
  no_newline l = true -> lines_from cur (l ++ LFs) = [cur ++ l].
Proof.
  revert cur. induction l as [|c l IH]; intros cur; simpl.
  - now rewrite append_nil_r.
  - unfold no_newline; simpl. intros [Hc Hl]%andb_true_iff.
    apply negb_true_iff in Hc. rewrite Hc, (IH _ Hl).
    now rewrite append_assoc.
Qed.

Lemma well_indented_closed (s : string) :
  well_indented s -> s = "" \/ exists u, s = u ++ LFs.
Proof.
  destruct 1 as [|s k text _ _]; [now left|]. right.
  exists (s ++ Str.spaces (k * 4) ++ text). unfold emitted_line, LFs.
  now rewrite !append_assoc.
Qed.

Lemma no_newline_spaces (n : nat) : no_newline (Str.spaces n) = true.
Proof. induction n; [reflexivity | exact IHn]. Qed.

Lemma leading_spaces_line (n : nat) (text : string) :
  text_ok text = true -> leading_spaces (Str.spaces n ++ text) = n.
Proof.
  intros [_ Hs]%andb_true_iff. apply negb_true_iff in Hs.
  unfold leading_spaces. induction n as [|n IH]; simpl.
  - destruct text as [|c text]; [reflexivity|]. simpl in *. now rewrite Hs.
  - now rewrite IH.
Qed.

Lemma lines_emitted_line (k : nat) (text : string) :
  text_ok text = true -> lines (emitted_line k text) = [Str.spaces (k * 4) ++ text].
Proof.
  intros Hok. unfold lines, emitted_line. rewrite <- append_assoc.
  apply (lines_from_one _ "").
  rewrite no_newline_app, no_newline_spaces.
  now apply andb_true_iff in Hok as [-> _].
Qed.

(** Every line of a stream of emitted lines begins with a multiple of
    four spaces. *)
Lemma well_indented_by_fours (s : string) : well_indented s -> indented_by_fours s.
Proof.
  unfold indented_by_fours.
  induction 1 as [|s k text Hs IH Hok]; [constructor|].
  assert (Hline : Forall (fun l => Nat.modulo (leading_spaces l) 4 = 0)
                         (lines (emitted_line k text))).
  { rewrite (lines_emitted_line k text Hok). constructor; [|constructor].
    rewrite (leading_spaces_line _ _ Hok). apply Nat.Div0.mod_mul. }
  destruct (well_indented_closed s Hs) as [->|[u ->]]; [exact Hline|].
  unfold lines in *. rewrite lines_from_closed. apply Forall_app. now split.
Qed.

Section Platform.

Context {double : Type} (double_to_string : double -> string).

Lemma generate_from_follows (Inv : string -> Prop) (module : Module double) :
  (forall k text s, text_ok text = true -> Inv s -> Inv (s ++ emitted_line k text)) ->
  (forall k, follows Inv k k (for_each (visit double_to_string) (body module))) ->
  follows Inv 0 0 (generate_from double_to_string module).
Proof.
  intros Hemit Hbody. unfold generate_from.
  follow ltac:(intros ? ?; apply Hemit; [reflexivity | assumption]).
  apply Hbody.
Qed.

(** Whatever the module, [generate] returns: the indentation never
    underflows. *)
Lemma python_generate_returns (module : Module double) :
  returns (PythonGenerator.generate double_to_string module).
Proof.
  unfold PythonGenerator.generate, generate.
  assert (Hany : follows (fun _ => True) 0 0 (generate_from double_to_string module)).
  { apply generate_from_follows; [auto|].
    intros k. apply for_each_visit_follows.
    apply Forall_forall. intros n _. apply visit_follows. }
  destruct (Hany init eq_refl I) as (st & E & _ & _).
  rewrite E. now eexists.
Qed.

(** Every [emit] writes four spaces per indent level before its text, so
    every line of the output of a tidy module begins with a multiple of
    four spaces. *)
Lemma python_generate_tidy (module : Module double) (out : string) :
  PythonGenerator.generate double_to_string module = Ok out ->
  forallb (tidy double_to_string word) (body module) = true ->
  indented_by_fours out.
Proof.
  unfold PythonGenerator.generate, generate. intros E Htidy.
  assert (Hwi : follows well_indented 0 0 (generate_from double_to_string module)).
  { apply generate_from_follows.
    - intros k text s Hok Hs. now apply well_indented_emit.
    - intros k. apply for_each_visit_tidy; [|exact Htidy].
      apply Forall_forall. intros n _. apply visit_tidy. }
  destruct (Hwi init eq_refl well_indented_empty) as (st' & E' & _ & Hst').
  rewrite E' in E. injection E as <-.
  now apply well_indented_by_fours.
Qed.

End Platform.

(** What [parse] makes of the tokens of a source text is tidy when its
    module strings are words, on a platform that prints numbers as words. *)
Lemma parse_source_tidy {double} (stod : string -> double + string)
      (double_to_string : double -> string) (source : string) (module : Module double) :
  (forall s d, stod s = inl d -> word (double_to_string d) = true) ->
  parse_source stod source = Ok module ->
  forallb word (flat_map module_strings (body module)) = true ->
  forallb (tidy double_to_string word) (body module) = true.
Proof.
  intros Hnum. unfold parse_source.
  destruct (Lexer.tokenize source) as [tokens| | |] eqn:Etok; try discriminate.
  intros Hparse Hstrings.
  pose proof (TidyParse.parse_tidy stod double_to_string Hnum tokens module
                (LexedTokens.tokenize_lexed source tokens Etok) Hparse) as Htidy.
  apply TidyParse.tidy_body_module_strings; try assumption.
  apply Forall_forall. intros n _. apply TidyParse.tidy_module_strings.
Qed.

(** C9, as the code has it.  Whatever the tree, [generate] returns: the
    indentation never underflows.  Every line of the output begins with a
    multiple of four spaces when no text given to [emit] begins with a space
    or holds a newline: when every name, operator and module string of the
    tree, and every number as printed, is a [word].  For the tree parsed
    from a source text the names and operators are words, which leaves the
    module strings of its import and export statements and the numbers as
    the platform prints them. *)
Theorem python_indentation {double} (stod : string -> double + string)
        (double_to_string : double -> string) :
  (forall module, returns (PythonGenerator.generate double_to_string module))
  /\ (forall module out,
        PythonGenerator.generate double_to_string module = Ok out ->
        forallb (tidy double_to_string word) (body module) = true ->
        indented_by_fours out)
  /\ (forall source module out,
        (forall s d, stod s = inl d -> word (double_to_string d) = true) ->
        parse_source stod source = Ok module ->
        forallb word (flat_map module_strings (body module)) = true ->
        PythonGenerator.generate double_to_string module = Ok out ->
        indented_by_fours out).
Proof.
  split; [apply python_generate_returns|]. split; [apply python_generate_tidy|].
  intros source module out Hnum Hparse Hstrings Hout.
  apply (python_generate_tidy double_to_string module out Hout).
  exact (parse_source_tidy stod double_to_string source module Hnum Hparse Hstrings).
Qed.

(** An import and a function with a condition in it, compiled from the
    source text. *)
Lemma python_indentation_witness :
  exists module out,
    parse_source DecimalText.stod "import os.path; fn f(a) { if a > 0 { return a } }"
    = Ok module
    /\ PythonGenerator.generate DecimalText.double_to_string module = Ok out
    /\ indented_by_fours out.
Proof.
  destruct (python_indentation DecimalText.stod DecimalText.double_to_string)
    as (Hreturns & _ & Hparsed).
  pose (module := make_module
                    [Import "os.path" None;
                     FunctionDef "f" ["a"]
                       [If (BinaryOp (Name "a") ">" (Number "0"))
                           [Return (Some (Name "a"))] []] false false]
                  : Module DecimalText.double).
  assert (Hparse : parse_source DecimalText.stod
                     "import os.path; fn f(a) { if a > 0 { return a } }"
                   = Ok module) by (vm_compute; reflexivity).
  destruct (Hreturns module) as [out Hout].
  exists module, out. split; [exact Hparse|]. split; [exact Hout|].
  apply (Hparsed _ module out TidyParse.decimal_text_numbers Hparse);
    [reflexivity | exact Hout].
Defined.

Lemma badly_indented_line (s : string) :
  existsb badly_indented (lines s) = true -> ~ indented_by_fours s.
Proof.
  unfold indented_by_fours. intros [l [Hin Hbad]]%existsb_exists Hall.
  pose proof (proj1 (Forall_forall _ _) Hall l Hin) as Hl.
  unfold badly_indented in Hbad. rewrite Hl in Hbad. discriminate Hbad.
Qed.

(** C9 as stated fails: the module string of an import is written as it
    is at the start of a line. *)
Lemma import_with_leading_space :
  Parser.parse DecimalText.stod
    [Lexer.mkToken "IMPORT" "import" 1 1; Lexer.mkToken "STRING" " x" 1 8;
     Lexer.mkToken "EOF" "" 1 12]
  = Ok (make_module [Import " x" None])
  /\ exists out,
      PythonGenerator.generate DecimalText.double_to_string
        (make_module [Import " x" None]) = Ok out
      /\ In " x = runtime.import_module(' x')" (lines out)
      /\ ~ indented_by_fours out.
Proof.
  split; [reflexivity|].
  assert (H : match PythonGenerator.generate DecimalText.double_to_string
                      (make_module [Import " x" None]) with
              | Ok out =>
                  existsb (String.eqb " x = runtime.import_module(' x')") (lines out)
                  && existsb badly_indented (lines out)
              | _ => false
              end = true) by (vm_compute; reflexivity).
  destruct (PythonGenerator.generate _ _) as [out| | |]; try discriminate H.
  apply andb_true_iff in H as [Hin Hbad].
  exists out. split; [reflexivity|]. split.
  - apply existsb_exists in Hin as [l [Hl ->%String.eqb_eq]]. exact Hl.
  - now apply badly_indented_line.
Qed.

End Indentation.

Module FunctionReturn.

Import AST Visit PythonVisitor Spec StrFacts TextFacts PythonFacts
       PythonTotal.
Open Scope visit_scope.

Section Platform.

Context {double : Type} (double_to_string : double -> string).

Lemma last_statement_last (body : list (Node double)) :
  List.last (List.map Some body) None = last_statement body.
Proof.
  induction body as [|stmt [|stmt' body] IH]; [reflexivity | reflexivity |].
  exact IH.
Qed.

Lemma kind_Return (stmt : Node double) :
  NodeKind.eqb (kind stmt) NodeKind.Return
  = match stmt with Return _ => true | _ => false end.
Proof. destruct stmt; try reflexivity. now destruct e. Qed.

Lemma last_is_not_Return_spec (body : list (Node double)) :
  body <> [] -> last_is_not_Return body = negb (ends_with_Return body).
Proof.
  unfold last_is_not_Return, ends_with_Return. rewrite last_statement_last.
  destruct (last_statement body) as [stmt|] eqn:E.
  - intros _. rewrite kind_Return. now destruct stmt.
  - intros Hne. destruct body as [|stmt body]; [now elim Hne|].
    exfalso. clear Hne. revert stmt E.
    induction body as [|stmt' body IH]; intros stmt E; [discriminate|].
    exact (IH stmt' E).
Qed.

Lemma seq_run (a b : V State) (st st' : State) :
  a st = Ok st' -> (a ;; b) st = b st'.
Proof. intros E. unfold seq. now rewrite E. Qed.

Lemma seq_assoc (a b c : V State) (st : State) :
  ((a ;; b) ;; c) st = (a ;; (b ;; c)) st.
Proof. unfold seq. now destruct (a st). Qed.

(** What [visit_function_def] does after the statements of the body. *)
Lemma function_tail (name : string) (exported is_default c : bool) (k : nat) (st : State) :
  IndentedEmitter.indent_ (emitter_ st) = S k ->
  (when c (emit "return None") ;;
   dedent ;;
   when exported (emit ("__trif_exports__['" ++ name ++ "'] = " ++ name)) ;;
   when is_default (emit ("__trif_default_export__ = " ++ name)) ;;
   emit "") st
  = Ok (mkState
          (IndentedEmitter.mk
             (IndentedEmitter.stream_ (emitter_ st)
              ++ (if c then emitted_line (S k) "return None" else "")
              ++ export_lines k name exported is_default
              ++ emitted_line k "")
             k)
          (temp_index_ st)).
Proof.
  destruct st as [[stream k'] idx]. cbn [emitter_ IndentedEmitter.indent_]. intros ->.
  unfold export_lines.
  destruct c, exported, is_default;
    unfold seq, when, emit, dedent, skip, IndentedEmitter.emit;
    cbn [IndentedEmitter.dedent IndentedEmitter.indent_ IndentedEmitter.stream_
         emitter_ temp_index_];
    unfold emitted_line; rewrite ?append_assoc; reflexivity.
Qed.

(** C4.  After the statements of the body, [visit_function_def] writes
    the line [return None], one level deeper than the [def] line, exactly
    when the body does not end with a [Return]: when it is empty or its
    last statement is of another kind.  For an empty body the function
    holds that one line and nothing else. *)
Theorem function_def_return_None (name : string) (params : list string)
        (body : list (Node double)) (exported is_default : bool) (st : State) :
  exists after_body,
    for_each (visit double_to_string) body (in_function name params st) = Ok after_body
    /\ visit double_to_string (FunctionDef name params body exported is_default) st
       = Ok (mkState
               (IndentedEmitter.mk
                  (IndentedEmitter.stream_ (emitter_ after_body)
                   ++ (if ends_with_Return body then ""
                       else emitted_line (S (IndentedEmitter.indent_ (emitter_ st)))
                                         "return None")
                   ++ export_lines (IndentedEmitter.indent_ (emitter_ st))
                                   name exported is_default
                   ++ emitted_line (IndentedEmitter.indent_ (emitter_ st)) "")
                  (IndentedEmitter.indent_ (emitter_ st)))
               (temp_index_ after_body))
    /\ (body = [] -> after_body = in_function name params st).
Proof.
  assert (Hbody : follows (fun _ => True) (S (IndentedEmitter.indent_ (emitter_ st)))
                          (S (IndentedEmitter.indent_ (emitter_ st)))
                          (for_each (visit double_to_string) body)).
  { apply for_each_visit_follows. apply Forall_forall. intros n _. apply visit_follows. }
  destruct (Hbody (in_function name params st) eq_refl I) as (after & E & Hk & _).
  exists after. split; [exact E|]. split.
  - cbn [visit]. unfold visit_function_def.
    rewrite (seq_run (emit _) _ st _ eq_refl). rewrite (seq_run indent _ _ _ eq_refl).
    match goal with
    | |- _ ?X = _ => change X with (in_function name params st)
    end.
    destruct body as [|stmt body].
    + cbn [for_each skip] in E. injection E as <-.
      exact (function_tail name exported is_default true _ _ Hk).
    + rewrite (last_is_not_Return_spec (stmt :: body)) by discriminate.
      rewrite seq_assoc, (seq_run _ _ _ _ E). cbn [orb].
      rewrite (function_tail name exported is_default _ _ _ Hk).
      now destruct (ends_with_Return (stmt :: body)).
  - intros ->. cbn [for_each skip] in E. now injection E as <-.
Qed.

End Platform.

End FunctionReturn.

Module JavaScriptTotal.

Import AST Visit JavaScriptVisitor Spec PythonFacts.
Open Scope visit_scope.

Lemma balanced_emit (k : nat) (text : string) : balanced k k (emit text).
Proof. intros st Hk. eexists. split; [reflexivity | exact Hk]. Qed.

Lemma balanced_indent (k : nat) : balanced k (S k) indent.
Proof. intros st Hk. eexists. split; [reflexivity | simpl; now rewrite Hk]. Qed.

Lemma balanced_dedent (k : nat) : balanced (S k) k dedent.
Proof.
  intros st Hk. unfold dedent, IndentedEmitter.dedent. rewrite Hk.
  eexists. split; reflexivity.
Qed.

Lemma balanced_skip (k : nat) : balanced k k skip.
Proof. intros st Hk. now exists st. Qed.

Lemma balanced_seq (k k1 k2 : nat) (a b : V State) :
  balanced k k1 a -> balanced k1 k2 b -> balanced k k2 (a ;; b).
Proof.
  intros Ha Hb st Hk. destruct (Ha st Hk) as (st1 & E1 & Hk1).
  destruct (Hb st1 Hk1) as (st2 & E2 & Hk2).
  exists st2. unfold seq. rewrite E1. auto.
Qed.

Lemma balanced_when (k : nat) (c : bool) (a : V State) :
  balanced k k a -> balanced k k (when c a).
Proof. destruct c; [auto | intros _; apply balanced_skip]. Qed.

Lemma balanced_for_each {A} (k : nat) (f : A -> V State) (xs : list A) :
  Forall (fun x => balanced k k (f x)) xs -> balanced k k (for_each f xs).
Proof.
  induction 1 as [|x xs Hx _ IH]; simpl; [apply balanced_skip|].
  eapply balanced_seq; eassumption.
Qed.

Ltac balance :=
  repeat
    lazymatch goal with
    | |- balanced _ _ (_ ;; _) => eapply balanced_seq
    | |- balanced _ _ (emit _) => apply balanced_emit
    | |- balanced _ _ indent => apply balanced_indent
    | |- balanced _ _ dedent => apply balanced_dedent
    | |- balanced _ _ skip => apply balanced_skip
    | |- balanced _ _ (when _ _) => apply balanced_when
    | |- balanced _ _ (match ?x with _ => _ end) => destruct x
    | |- balanced _ _ (for_each (fun _ => _) _) =>
        apply balanced_for_each; apply Forall_forall; intros [? ?] ?
    end.

Section Platform.

Context {double : Type} (double_to_string : double -> string).

Lemma for_each_visit_balanced (k : nat) (body : list (Node double)) :
  Forall (fun n => forall k, balanced k k (visit double_to_string n)) body ->
  balanced k k (for_each (visit double_to_string) body).
Proof.
  intros H. apply balanced_for_each. revert H. apply Forall_impl. auto.
Qed.

Lemma visit_balanced (n : Node double) :
  forall k, balanced k k (visit double_to_string n).
Proof.
  induction n as [n IH] using Node_children_ind. intros k.
  destruct n; cbn [visit children] in *;
    unfold visit_import, visit_import_from, visit_let, visit_assign, visit_return,
      visit_export_names, visit_export_default, visit_spawn,
      visit_function_def, visit_if, visit_while, visit_for.
  all: try apply Forall_app in IH as [IH1 IH2].
  all: balance.
  all: try (apply for_each_visit_balanced; assumption).
Qed.

(** [JavaScriptGenerator::generate] returns, whatever the module. *)
Lemma generate_returns (module : Module double) :
  returns (JavaScriptGenerator.generate double_to_string module).
Proof.
  unfold JavaScriptGenerator.generate, generate.
  assert (H : balanced 0 0 (generate_from double_to_string module)).
  { unfold generate_from. balance.
    apply for_each_visit_balanced. apply Forall_forall. intros n _.
    apply visit_balanced. }
  destruct (H init eq_refl) as (st & E & _). rewrite E. now eexists.
Qed.

End Platform.

End JavaScriptTotal.

Module CompilerFacts.

Import Compiler Spec.

Section Platform.

Context {double : Type}.
Variable stod : string -> double + string.
Variable double_to_string : double -> string.

(** [compile_source] returns a result that holds the output text, or
    throws. *)
Lemma compile_source_try_total (source : string) (options : CompileOptions) :
  (exists module text,
      compile_source_try stod double_to_string source options
      = Ok (mkResult module (Some text)))
  \/ throws (compile_source_try stod double_to_string source options).
Proof.
  unfold compile_source_try.
  destruct (LexerTotal.tokenize_total source) as [(tokens & -> & Hend)|[what ->]];
    [|right; now exists what].
  cbn [and_then].
  destruct (Termination.parse_total stod tokens
              (Termination.ends_with_EOF_has_eof tokens Hend))
    as [[module ->]|[what ->]]; [|right; now exists what].
  cbn [and_then].
  destruct (target options =? "python").
  - destruct (Indentation.python_generate_returns double_to_string module) as [out ->].
    left. now exists module, out.
  - destruct (_ || _).
    + destruct (JavaScriptTotal.generate_returns double_to_string module) as [out ->].
      left. now exists module, out.
    + destruct (_ || _); [left; now eexists _, _ | right; now eexists].
Qed.

Lemma compile_source_total (source : string) (options : CompileOptions) :
  (exists module text,
      compile_source stod double_to_string source options
      = Ok (mkResult module (Some text)))
  \/ throws (compile_source stod double_to_string source options).
Proof.
  unfold compile_source.
  destruct (compile_source_try_total source options) as [(m & text & ->)|[what ->]].
  - left. now exists m, text.
  - right. destruct (aggressive_errors options); now eexists.
Qed.

(** C1, as the code has it.  A failure inside [compile_source] (lexing,
    parsing, generation, unknown target) surfaces the message of the first
    error as it is when [aggressive_errors] is set, and behind the prefix
    otherwise, and [compile_source] fails in no other way; so the message
    of a run without the flag is the message of the run with it behind the
    prefix.  A file that cannot be opened makes [compile_file] throw its
    own message, the same in both modes; a file that can be opened is
    compiled as its contents. *)
Theorem error_policy :
  (forall source options what,
      compile_source_try stod double_to_string source options = Throw what ->
      compile_source stod double_to_string source options
      = Throw (if aggressive_errors options then what
               else "Compilation failed: " ++ what))
  /\ (forall source options,
         throws (compile_source stod double_to_string source options) ->
         throws (compile_source_try stod double_to_string source options))
  /\ (forall source target what,
         compile_source stod double_to_string source (mkOptions target true) = Throw what ->
         compile_source stod double_to_string source (mkOptions target false)
         = Throw ("Compilation failed: " ++ what))
  /\ (forall source target,
         throws (compile_source stod double_to_string source (mkOptions target false)) ->
         throws (compile_source stod double_to_string source (mkOptions target true)))
  /\ (forall (fs : FileSystem) path options,
         fs path = None ->
         compile_file stod double_to_string fs path options
         = Throw ("Unable to open file: " ++ path))
  /\ (forall (fs : FileSystem) path options contents,
         fs path = Some contents ->
         compile_file stod double_to_string fs path options
         = compile_source stod double_to_string contents options).
Proof.
  assert (Htry : forall source target a,
             compile_source_try stod double_to_string source (mkOptions target a)
             = compile_source_try stod double_to_string source (mkOptions target true)).
  { reflexivity. }
  repeat split.
  - intros source options what E. unfold compile_source. rewrite E.
    now destruct (aggressive_errors options).
  - intros source options. unfold compile_source.
    destruct (compile_source_try _ _ _ _); intros [w Hw]; try discriminate.
    now eexists.
  - intros source target what.
    unfold compile_source. rewrite (Htry source target false). cbn [aggressive_errors].
    destruct (compile_source_try _ _ _ _); try discriminate.
    now intros [= ->].
  - intros source target.
    unfold compile_source. rewrite (Htry source target false). cbn [aggressive_errors].
    destruct (compile_source_try _ _ _ _); intros [w Hw]; try discriminate.
    now eexists.
  - intros fs path options. unfold compile_file. now intros ->.
  - intros fs path options contents. unfold compile_file. now intros ->.
Qed.

End Platform.

(** An unknown character, compiled for the Python target; and a file
    system with one file. *)
Lemma error_policy_witness :
  compile_source DecimalText.stod DecimalText.double_to_string "@" (mkOptions "python" true)
  = Throw "Unexpected character '@' at line 1 column 1"
  /\ throws (compile_source_try DecimalText.stod DecimalText.double_to_string "@"
                                (mkOptions "python" false))
  /\ compile_source DecimalText.stod DecimalText.double_to_string "@" (mkOptions "python" false)
     = Throw "Compilation failed: Unexpected character '@' at line 1 column 1"
  /\ throws (compile_source DecimalText.stod DecimalText.double_to_string "@"
                            (mkOptions "python" true))
  /\ compile_file DecimalText.stod DecimalText.double_to_string
                  (fun path => if path =? "main.trif" then Some "@" else None)
                  "other.trif" (mkOptions "python" false)
     = Throw "Unable to open file: other.trif"
  /\ compile_file DecimalText.stod DecimalText.double_to_string
                  (fun path => if path =? "main.trif" then Some "@" else None)
                  "main.trif" (mkOptions "python" false)
     = compile_source DecimalText.stod DecimalText.double_to_string "@"
                      (mkOptions "python" false).
Proof.
  destruct (error_policy DecimalText.stod DecimalText.double_to_string)
    as (Htry & Honly & Hwrap & Hboth & Hmissing & Hfound).
  split; [|split; [|split; [|split; [|split]]]].
  - apply (Htry "@" (mkOptions "python" true)
                "Unexpected character '@' at line 1 column 1").
    reflexivity.
  - apply (Honly "@" (mkOptions "python" false)). eexists. reflexivity.
  - apply (Hwrap "@" "python" "Unexpected character '@' at line 1 column 1").
    reflexivity.
  - apply (Hboth "@" "python"). eexists. reflexivity.
  - apply (Hmissing _ "other.trif"). reflexivity.
  - apply (Hfound _ "main.trif" _ "@"). reflexivity.
Defined.

(** C1 as stated fails for the I/O error: [compile_file] throws it
    outside the [try] block of [compile_source] and it is not wrapped. *)
Lemma unreadable_file_not_wrapped :
  compile_file DecimalText.stod DecimalText.double_to_string
               (fun _ => None) "missing.trif" (mkOptions "python" false)
  = Throw "Unable to open file: missing.trif"
  /\ String.prefix "Compilation failed: " "Unable to open file: missing.trif" = false.
Proof. split; reflexivity. Qed.

End CompilerFacts.

Module PythonOutput.

Import AST Visit PythonVisitor Spec StrFacts TextFacts
       PythonFacts PythonTotal.
Open Scope visit_scope.

Section Platform.

Context {double : Type} (double_to_string : double -> string).

Section Kept.

Variable Inv : string -> Prop.
Hypothesis Inv_emit : forall k text s, Inv s -> Inv (s ++ emitted_line k text).

(** An invariant of the stream that every emitted line keeps is kept
    by [visit], which returns at the indent level at which it was
    called. *)
Lemma visit_keeps (n : Node double) :
  forall k, follows Inv k k (visit double_to_string n).
Proof.
  induction n as [n IH] using Node_children_ind. intros k.
  destruct n; cbn [visit children] in *;
    unfold visit_import, visit_import_from, visit_let, visit_assign, visit_return,
      visit_export_names, visit_export_default, visit_spawn,
      visit_function_def, visit_if, visit_while, visit_for.
  all: try apply Forall_app in IH as [IH1 IH2].
  all: follow ltac:(intros; apply Inv_emit; assumption).
  all: try (apply for_each_visit_follows; assumption).
Qed.

End Kept.

(** [visit] adds text at the end of the stream. *)
Lemma visit_appends (n : Node double) (st : State) :
  exists st' text,
    visit double_to_string n st = Ok st'
    /\ IndentedEmitter.indent_ (emitter_ st') = IndentedEmitter.indent_ (emitter_ st)
    /\ IndentedEmitter.stream_ (emitter_ st')
       = IndentedEmitter.stream_ (emitter_ st) ++ text.
Proof.
  pose (s0 := IndentedEmitter.stream_ (emitter_ st)).
  assert (H : follows (fun s => exists text, s = s0 ++ text)
                      (IndentedEmitter.indent_ (emitter_ st))
                      (IndentedEmitter.indent_ (emitter_ st))
                      (visit double_to_string n)).
  { apply visit_keeps. intros k text s [t ->]. exists (t ++ emitted_line k text).
    now rewrite append_assoc. }
  destruct (H st eq_refl) as (st' & E & Hk & text & Htext).
  { exists "". unfold s0. now rewrite append_nil_r. }
  now exists st', text.
Qed.

Lemma for_each_visit_appends (body : list (Node double)) : forall st,
  exists st' text,
    for_each (visit double_to_string) body st = Ok st'
    /\ IndentedEmitter.indent_ (emitter_ st') = IndentedEmitter.indent_ (emitter_ st)
    /\ IndentedEmitter.stream_ (emitter_ st')
       = IndentedEmitter.stream_ (emitter_ st) ++ text
    /\ (body = [] -> text = "").
Proof.
  induction body as [|n body IH]; intros st.
  - exists st, "". cbn [for_each skip]. rewrite append_nil_r. repeat split.
  - destruct (visit_appends n st) as (st1 & t1 & E1 & Hk1 & Hs1).
    destruct (IH st1) as (st2 & t2 & E2 & Hk2 & Hs2 & _).
    exists st2, (t1 ++ t2). cbn [for_each]. unfold seq at 1. rewrite E1.
    split; [exact E2|]. split; [congruence|].
    split; [|discriminate]. now rewrite Hs2, Hs1, append_assoc.
Qed.

(** X10.  Whatever the statement and the state of the visitor, [visit]
    of the Python visitor returns; it leaves the indent level as it found
    it, and the stream as it found it with text added at its end. *)
Theorem python_visit_appends (n : Node double) (st : State) :
  exists st' text,
    visit double_to_string n st = Ok st'
    /\ IndentedEmitter.indent_ (emitter_ st') = IndentedEmitter.indent_ (emitter_ st)
    /\ IndentedEmitter.stream_ (emitter_ st')
       = IndentedEmitter.stream_ (emitter_ st) ++ text.
Proof. exact (visit_appends n st). Qed.

(** *** The text a function of the visitor adds to the stream *)

Lemma emits_emit (k : nat) (text : string) :
  emits k k (eq (emitted_line k text)) (emit text).
Proof.
  intros st Hk. eexists _, _. split; [reflexivity|].
  cbn [emit emitter_ IndentedEmitter.emit IndentedEmitter.indent_
       IndentedEmitter.stream_].
  rewrite Hk. repeat split.
Qed.

Lemma emits_indent (k : nat) : emits k (S k) (eq "") indent.
Proof.
  intros st Hk. eexists _, _. split; [reflexivity|].
  cbn [emitter_ IndentedEmitter.indent IndentedEmitter.indent_ IndentedEmitter.stream_].
  rewrite Hk, append_nil_r. repeat split.
Qed.

Lemma emits_dedent (k : nat) : emits (S k) k (eq "") dedent.
Proof.
  intros st Hk. unfold dedent, IndentedEmitter.dedent. rewrite Hk.
  eexists _, _. split; [reflexivity|].
  cbn [emitter_ IndentedEmitter.indent_ IndentedEmitter.stream_].
  rewrite append_nil_r. repeat split.
Qed.

Lemma emits_seq (k k1 k2 : nat) (P Q : string -> Prop) (a b : V State) :
  emits k k1 P a -> emits k1 k2 Q b ->
  emits k k2 (fun t => exists t1 t2, t = t1 ++ t2 /\ P t1 /\ Q t2) (a ;; b).
Proof.
  intros Ha Hb st Hk. destruct (Ha st Hk) as (st1 & t1 & E1 & Hk1 & Hs1 & Ht1).
  destruct (Hb st1 Hk1) as (st2 & t2 & E2 & Hk2 & Hs2 & Ht2).
  exists st2, (t1 ++ t2). unfold seq. rewrite E1. split; [exact E2|].
  split; [exact Hk2|]. split; [now rewrite Hs2, Hs1, append_assoc|].
  now exists t1, t2.
Qed.

Lemma emits_statements (k : nat) (body : list (Node double)) :
  emits k k (fun t => body = [] -> t = "") (for_each (visit double_to_string) body).
Proof.
  intros st Hk.
  destruct (for_each_visit_appends body st) as (st' & text & E & Hk' & Hs & Hempty).
  exists st', text. repeat split; try assumption. congruence.
Qed.

Ltac emitting :=
  repeat
    lazymatch goal with
    | |- emits _ _ _ (_ ;; _) => eapply emits_seq
    | |- emits _ _ _ (emit _) => apply emits_emit
    | |- emits _ _ _ indent => apply emits_indent
    | |- emits _ _ _ dedent => apply emits_dedent
    | |- emits _ _ _ (for_each _ _) => apply emits_statements
    end.

(** *** The stream before a visit *)

Lemma framed_emit (text : string) : framed (emit text).
Proof.
  intros s st. unfold emit, after_text, IndentedEmitter.emit.
  cbn [emitter_ temp_index_ IndentedEmitter.stream_ IndentedEmitter.indent_].
  now rewrite append_assoc.
Qed.

Lemma framed_indent : framed indent.
Proof. intros s st. reflexivity. Qed.

Lemma framed_dedent : framed dedent.
Proof.
  intros s st. unfold dedent, after_text, IndentedEmitter.dedent.
  cbn [emitter_ temp_index_ IndentedEmitter.stream_ IndentedEmitter.indent_].
  now destruct (IndentedEmitter.indent_ (emitter_ st)).
Qed.

Lemma framed_skip : framed skip.
Proof. intros s st. reflexivity. Qed.

Lemma framed_seq (a b : V State) : framed a -> framed b -> framed (a ;; b).
Proof.
  intros Ha Hb s st. unfold seq. rewrite Ha.
  destruct (a st); [apply Hb | reflexivity | reflexivity | reflexivity].
Qed.

Lemma framed_when (c : bool) (a : V State) : framed a -> framed (when c a).
Proof. destruct c; [auto | intros _; apply framed_skip]. Qed.

Lemma framed_for_each {A} (f : A -> V State) (xs : list A) :
  Forall (fun x => framed (f x)) xs -> framed (for_each f xs).
Proof.
  induction 1 as [|x xs Hx _ IH]; cbn [for_each]; [apply framed_skip|].
  now apply framed_seq.
Qed.

Lemma framed_with_temp (prefix : string) (k : string -> V State) :
  (forall name, framed (k name)) -> framed (with_temp prefix k).
Proof.
  intros Hk s st. unfold with_temp, temp.
  cbn [after_text temp_index_ emitter_].
  apply (Hk _ s (mkState (emitter_ st) (temp_index_ st + 1))).
Qed.

Ltac frame :=
  repeat
    lazymatch goal with
    | |- framed (_ ;; _) => apply framed_seq
    | |- framed (emit _) => apply framed_emit
    | |- framed indent => apply framed_indent
    | |- framed dedent => apply framed_dedent
    | |- framed skip => apply framed_skip
    | |- framed (when _ _) => apply framed_when
    | |- framed (with_temp _ _) => apply framed_with_temp; intros ?
    | |- framed (match ?x with _ => _ end) => destruct x
    | |- framed (for_each (fun _ => _) _) =>
        apply framed_for_each; apply Forall_forall; intros [? ?] ?
    end.

(** What [visit] writes does not depend on what was written before. *)
Lemma visit_framed (n : Node double) : framed (visit double_to_string n).
Proof.
  induction n as [n IH] using Node_children_ind.
  destruct n; cbn [visit children] in *;
    unfold visit_import, visit_import_from, visit_let, visit_assign, visit_return,
      visit_export_names, visit_export_default, visit_spawn,
      visit_function_def, visit_if, visit_while, visit_for.
  all: try apply Forall_app in IH as [IH1 IH2].
  all: frame.
  all: try (apply framed_for_each; assumption).
Qed.

Lemma statements_framed (body : list (Node double)) :
  framed (for_each (visit double_to_string) body).
Proof.
  apply framed_for_each. apply Forall_forall. intros n _. apply visit_framed.
Qed.

(** [generate], from the lines before the statements on. *)
Lemma generate_from_statements (module : Module double) :
  generate_from double_to_string module init
  = (for_each (visit double_to_string) (body module) ;;
     emit "" ;;
     emit "runtime.register_module_exports(__name__, __trif_exports__, __trif_default_export__)" ;;
     emit "" ;;
     emit "if __name__ == '__main__':" ;;
     indent ;;
     emit "runtime.default_entry_point(locals())" ;;
     dedent) (after_text python_prelude init).
Proof. reflexivity. Qed.

(** The lines after the statements. *)
Lemma generate_from_epilogue (st : State) :
  IndentedEmitter.indent_ (emitter_ st) = 0 ->
  exists st',
    (emit "" ;;
     emit "runtime.register_module_exports(__name__, __trif_exports__, __trif_default_export__)" ;;
     emit "" ;;
     emit "if __name__ == '__main__':" ;;
     indent ;;
     emit "runtime.default_entry_point(locals())" ;;
     dedent) st = Ok st'
    /\ IndentedEmitter.stream_ (emitter_ st')
       = IndentedEmitter.stream_ (emitter_ st) ++ python_epilogue.
Proof.
  intros Hk.
  assert (H : exists P,
             emits 0 0 P
               (emit "" ;;
                emit "runtime.register_module_exports(__name__, __trif_exports__, __trif_default_export__)" ;;
                emit "" ;;
                emit "if __name__ == '__main__':" ;;
                indent ;;
                emit "runtime.default_entry_point(locals())" ;;
                dedent)
             /\ forall t, P t -> t = python_epilogue).
  { eexists. split.
    - emitting.
    - cbv beta. intros t Ht.
      repeat match goal with
             | H : exists _, _ |- _ => destruct H
             | H : _ /\ _ |- _ => destruct H
             end.
      subst. unfold python_epilogue.
      cbn [String.append]. rewrite ?append_assoc. cbn [String.append].
      reflexivity. }
  destruct H as (P & Hemits & HP).
  destruct (Hemits st Hk) as (st' & t & E & _ & Hs & Ht).
  exists st'. split; [exact E|]. now rewrite Hs, (HP t Ht).
Qed.

(** X11.  Whatever the module, the text the Python generator returns is
    the fixed prelude, then the text that the visits of the statements
    of the module write, in their order, on a new visitor, then the
    fixed epilogue; for a module without statements it is the prelude
    and the epilogue. *)
Theorem python_output_frame (module : Module double) :
  exists st,
    for_each (visit double_to_string) (body module) init = Ok st
    /\ PythonGenerator.generate double_to_string module
       = Ok (python_prelude ++ IndentedEmitter.stream_ (emitter_ st)
             ++ python_epilogue)
    /\ (body module = [] -> IndentedEmitter.stream_ (emitter_ st) = "").
Proof.
  destruct (for_each_visit_appends (body module) init)
    as (st & text & E & Hk & Hs & Hempty).
  exists st. split; [exact E|]. split; [|intros H; rewrite Hs; now rewrite (Hempty H)].
  unfold PythonGenerator.generate, generate.
  rewrite generate_from_statements.
  unfold seq at 1. rewrite statements_framed, E.
  destruct (generate_from_epilogue (after_text python_prelude st)) as (st' & -> & Hs').
  { exact Hk. }
  unfold IndentedEmitter.str. rewrite Hs'.
  cbn [after_text emitter_ IndentedEmitter.stream_].
  now rewrite append_assoc.
Qed.

(** *** The counter of temporary names *)

Lemma counts_emit (text : string) : counts 0 (emit text).
Proof. intros st st' [= <-]. cbn [temp_index_]. lia. Qed.

Lemma counts_indent : counts 0 indent.
Proof. intros st st' [= <-]. cbn [temp_index_]. lia. Qed.

Lemma counts_dedent : counts 0 dedent.
Proof.
  intros st st'. unfold dedent.
  destruct (IndentedEmitter.dedent (emitter_ st)); try discriminate.
  intros [= <-]. cbn [temp_index_]. lia.
Qed.

Lemma counts_skip : counts 0 skip.
Proof. intros st st' [= <-]. lia. Qed.

Lemma counts_seq (n m : nat) (a b : V State) :
  counts n a -> counts m b -> counts (n + m) (a ;; b).
Proof.
  intros Ha Hb st st'. unfold seq. destruct (a st) as [st1| | |] eqn:E; try discriminate.
  intros E2. rewrite (Hb _ _ E2), (Ha _ _ E). lia.
Qed.

Lemma counts_when (c : bool) (a : V State) : counts 0 a -> counts 0 (when c a).
Proof. destruct c; [auto | intros _; apply counts_skip]. Qed.

Lemma counts_for_each_0 {A} (f : A -> V State) (xs : list A) :
  (forall x, counts 0 (f x)) -> counts 0 (for_each f xs).
Proof.
  intros H. induction xs as [|x xs IH]; cbn [for_each]; [apply counts_skip|].
  exact (counts_seq 0 0 _ _ (H x) IH).
Qed.

Lemma counts_for_each (f : Node double -> V State) (xs : list (Node double)) :
  Forall (fun x => counts (temps x) (f x)) xs ->
  counts (list_sum (List.map temps xs)) (for_each f xs).
Proof.
  induction 1 as [|x xs Hx _ IH]; cbn [for_each List.map list_sum];
    [apply counts_skip|].
  now apply counts_seq.
Qed.

Lemma counts_with_temp (n : nat) (prefix : string) (body : string -> V State) :
  (forall name, counts n (body name)) -> counts (S n) (with_temp prefix body).
Proof.
  intros H st st'. unfold with_temp, temp. intros E.
  rewrite (H _ _ _ E). cbn [temp_index_]. lia.
Qed.

Lemma counts_eq (n m : nat) (v : V State) : n = m -> counts n v -> counts m v.
Proof. now intros ->. Qed.

Ltac count :=
  repeat
    lazymatch goal with
    | |- counts _ (_ ;; _) => eapply counts_seq
    | |- counts _ (emit _) => apply counts_emit
    | |- counts _ indent => apply counts_indent
    | |- counts _ dedent => apply counts_dedent
    | |- counts _ skip => apply counts_skip
    | |- counts _ (when _ _) => apply counts_when
    | |- counts _ (with_temp _ _) => eapply counts_with_temp; intros ?
    | |- counts _ (for_each (visit _) _) => apply counts_for_each; assumption
    | |- counts _ (for_each (fun _ => _) _) => apply counts_for_each_0; intros [? ?]
    end.

Lemma visit_counts (n : Node double) : counts (temps n) (visit double_to_string n).
Proof.
  induction n as [n IH] using Node_children_ind.
  destruct n; cbn [visit children temps] in *;
    unfold visit_import, visit_import_from, visit_let, visit_assign, visit_return,
      visit_export_names, visit_export_default, visit_spawn,
      visit_function_def, visit_if, visit_while, visit_for.
  all: try apply Forall_app in IH as [IH1 IH2].
  all: repeat match goal with
         | |- context [match ?x with _ => _ end] => destruct x
         end.
  all: cbn [negb when].
  all: eapply counts_eq; [|solve [count]]; simpl; lia.
Qed.

(** Two counters that give the same temporary name are equal. *)
Lemma temp_name_injective (prefix : string) (i j : Z) :
  "__trif_" ++ prefix ++ "_" ++ Str.of_Z i = "__trif_" ++ prefix ++ "_" ++ Str.of_Z j ->
  i = j.
Proof.
  assert (Hcancel : forall p a b : string, p ++ a = p ++ b -> a = b).
  { induction p as [|c p IHp]; intros a b H; [exact H|].
    injection H as H. now apply IHp. }
  intros H. apply Hcancel, Hcancel, Hcancel in H.
  unfold Str.of_Z in H.
  assert (Hproper : forall z, Z.to_int z <> Decimal.Pos Decimal.Nil
                              /\ Z.to_int z <> Decimal.Neg Decimal.Nil).
  { intros z. destruct z as [|p|p]; cbn [Z.to_int]; split; try discriminate;
      intros [= Hp]; exact (DecimalPos.Unsigned.to_uint_nonnil p Hp). }
  apply DecimalZ.to_int_inj.
  assert (E : Some (Z.to_int i) = Some (Z.to_int j)).
  { rewrite <- (NilZero.isi (Z.to_int i)), <- (NilZero.isi (Z.to_int j)), H;
      try apply Hproper. reflexivity. }
  now injection E.
Qed.

(** X12.  The Python visitor makes one temporary name for every import
    with [from] and every re-export it visits, at any depth, and none
    otherwise: [visit] advances the counter by their number, and the
    names made at different values of the counter differ. *)
Theorem temporary_names_fresh (n : Node double) (st st' : State) :
  visit double_to_string n st = Ok st' ->
  temp_index_ st' = (temp_index_ st + Z.of_nat (temps n))%Z
  /\ forall prefix st1 st2,
       fst (temp prefix st1) = fst (temp prefix st2) ->
       temp_index_ st1 = temp_index_ st2.
Proof.
  intros E. split; [exact (visit_counts n st st' E)|].
  intros prefix st1 st2. unfold temp. cbn [fst]. apply temp_name_injective.
Qed.

End Platform.

(** Two imports with [from], one of them in a function. *)
Lemma temporary_names_fresh_witness :
  exists st',
    visit DecimalText.double_to_string
      (FunctionDef "f" []
         [ImportFrom "a" [("x", "x")] None None; ImportFrom "b" [] (Some "y") None]
         false false) init
    = Ok st'
    /\ temp_index_ st' = (0 + 2)%Z.
Proof.
  destruct (visit_appends DecimalText.double_to_string
              (FunctionDef "f" []
                 [ImportFrom "a" [("x", "x")] None None;
                  ImportFrom "b" [] (Some "y") None] false false) init)
    as (st' & text & E & _).
  exists st'. split; [exact E|].
  exact (proj1 (temporary_names_fresh DecimalText.double_to_string _ _ _ E)).
Defined.

End PythonOutput.

Module JavaScriptOutput.

Import AST Visit JavaScriptVisitor Spec
       StrFacts TextFacts PythonFacts.
Open Scope visit_scope.

Section Rules.

Variable Inv : string -> Prop.

Lemma keeps_emit (k : nat) (text : string) :
  (forall s, Inv s -> Inv (s ++ emitted_line k text)) ->
  keeps Inv k k (emit text).
Proof.
  intros Hemit st Hk Hinv. eexists. split; [reflexivity|].
  simpl. split; [exact Hk|]. rewrite Hk. now apply Hemit.
Qed.

Lemma keeps_indent (k : nat) : keeps Inv k (S k) indent.
Proof.
  intros st Hk Hinv. eexists. split; [reflexivity|]. simpl. now rewrite Hk.
Qed.

Lemma keeps_dedent (k : nat) : keeps Inv (S k) k dedent.
Proof.
  intros st Hk Hinv. unfold dedent, IndentedEmitter.dedent. rewrite Hk.
  eexists. split; [reflexivity|]. now simpl.
Qed.

Lemma keeps_skip (k : nat) : keeps Inv k k skip.
Proof. intros st Hk Hinv. now exists st. Qed.

Lemma keeps_seq (k k1 k2 : nat) (a b : V State) :
  keeps Inv k k1 a -> keeps Inv k1 k2 b -> keeps Inv k k2 (a ;; b).
Proof.
  intros Ha Hb st Hk Hinv. destruct (Ha st Hk Hinv) as (st1 & E1 & Hk1 & Hinv1).
  destruct (Hb st1 Hk1 Hinv1) as (st2 & E2 & Hk2 & Hinv2).
  exists st2. unfold seq. rewrite E1. auto.
Qed.

Lemma keeps_when (k : nat) (c : bool) (a : V State) :
  keeps Inv k k a -> keeps Inv k k (when c a).
Proof. destruct c; [auto | intros _; apply keeps_skip]. Qed.

Lemma keeps_for_each {A} (k : nat) (f : A -> V State) (xs : list A) :
  Forall (fun x => keeps Inv k k (f x)) xs -> keeps Inv k k (for_each f xs).
Proof.
  induction 1 as [|x xs Hx _ IH]; simpl; [apply keeps_skip|].
  eapply keeps_seq; eassumption.
Qed.

End Rules.

Ltac keep side :=
  repeat
    lazymatch goal with
    | |- keeps _ _ _ (_ ;; _) => eapply keeps_seq
    | |- keeps _ _ _ (emit _) => apply keeps_emit; side
    | |- keeps _ _ _ indent => apply keeps_indent
    | |- keeps _ _ _ dedent => apply keeps_dedent
    | |- keeps _ _ _ skip => apply keeps_skip
    | |- keeps _ _ _ (when _ _) => apply keeps_when
    | |- keeps _ _ _ (match ?x with _ => _ end) => destruct x
    | |- keeps _ _ _ (for_each (fun _ => _) _) =>
        apply keeps_for_each; apply Forall_forall; intros [? ?] ?
    end.

Section Platform.

Context {double : Type} (double_to_string : double -> string).

(** The text of a tidy expression is a word, as in the Python visitor. *)
Lemma js_render_expression_word (e : Expression double) :
  tidy_expression double_to_string e = true ->
  word (render_expression double_to_string e) = true.
Proof.
  induction e using PythonTotal.Expression_nested_ind;
    cbn [tidy_expression render_expression].
  - auto.
  - auto.
  - intros _. apply word_repr_string.
  - intros _. now destruct value.
  - reflexivity.
  - intros [[Hl Hop]%andb_true_iff Hr]%andb_true_iff.
    apply word_app; [auto|].
    rewrite !no_newline_app, (word_no_newline _ Hop), (word_no_newline _ (IHe2 Hr)).
    reflexivity.
  - intros [Hop He]%andb_true_iff.
    apply word_app; [exact Hop | apply word_no_newline; auto].
  - intros [Hf Hargs]%andb_true_iff.
    apply word_app; [auto|].
    rewrite !no_newline_app. unfold join.
    rewrite no_newline_concat; [reflexivity | reflexivity |].
    now apply (PythonTotal.forallb_map_no_newline _ (tidy_expression double_to_string)).
  - intros [Hv Hattr]%andb_true_iff.
    apply word_app; [auto|].
    now rewrite no_newline_app, (word_no_newline _ Hattr).
  - intros Helems. cbn [String.append].
    apply word_cons; [reflexivity|].
    rewrite !no_newline_app. unfold join.
    rewrite no_newline_concat; [reflexivity | reflexivity |].
    now apply (PythonTotal.forallb_map_no_newline _ (tidy_expression double_to_string)).
  - intros Hpairs. cbn [String.append].
    apply word_cons; [reflexivity|].
    rewrite !no_newline_app. unfold join.
    rewrite no_newline_concat; [reflexivity | reflexivity |].
    apply (PythonTotal.forallb_map_no_newline _
             (fun kv => tidy_expression double_to_string (fst kv)
                        && tidy_expression double_to_string (snd kv)));
      [|exact Hpairs].
    revert H. apply Forall_impl. intros [key val] [Hk Hv]; cbn [fst snd] in *.
    intros [Hkey Hval]%andb_true_iff.
    apply word_app; [auto|].
    exact (word_no_newline _ (Hv Hval)).
Qed.

(** What [tidy] says, as facts about the texts the visitor builds. *)
Ltac tidy_facts :=
  repeat match goal with
    | H : (_ && _) = true |- _ => apply andb_true_iff in H; destruct H
    | H : word_if_any (Some _) = true |- _ => cbn [word_if_any] in H
    | H : forallb word_pair ?names = true, Hin : In (_, _) ?names |- _ =>
        pose proof (proj1 (forallb_forall _ _) H _ Hin); clear Hin;
        unfold word_pair in *; cbn [fst snd] in *
    | H : tidy_expression _ ?e = true |- _ =>
        apply js_render_expression_word in H
    | H : forallb word ?ws = true |- _ =>
        apply (PythonTotal.no_newline_join_words ", ") in H; [|reflexivity]
    end;
  repeat match goal with
    | H : word ?x = true |- _ =>
        lazymatch goal with
        | _ : no_newline x = true |- _ => fail
        | _ => pose proof (word_no_newline x H)
        end
    end.

Ltac no_newlines :=
  rewrite ?no_newline_app;
  repeat match goal with
    | H : no_newline ?x = true |- context [no_newline ?x] => rewrite H
    end;
  reflexivity.

Ltac texts :=
  first [ reflexivity
        | apply text_ok_app; [first [reflexivity | assumption] | no_newlines]
        | rewrite append_assoc;
          apply text_ok_app; [first [reflexivity | assumption] | no_newlines] ].

Lemma for_each_visit_keeps (Inv : string -> Prop) (k : nat) (body : list (Node double)) :
  Forall (fun n => forall k, keeps Inv k k (visit double_to_string n)) body ->
  keeps Inv k k (for_each (visit double_to_string) body).
Proof.
  intros H. apply keeps_for_each. revert H. apply Forall_impl. auto.
Qed.

Lemma js_for_each_visit_tidy (k : nat) (body : list (Node double)) :
  Forall (fun n => tidy double_to_string no_newline n = true ->
                   forall k, keeps well_indented k k (visit double_to_string n)) body ->
  forallb (tidy double_to_string no_newline) body = true ->
  keeps well_indented k k (for_each (visit double_to_string) body).
Proof.
  intros H Hbody. apply keeps_for_each. apply Forall_forall. intros n Hin.
  apply (proj1 (Forall_forall _ _) H n Hin).
  exact (proj1 (forallb_forall _ _) Hbody n Hin).
Qed.

(** On a tidy tree every line [visit] emits is [text_ok]. *)
Lemma js_visit_tidy (n : Node double) :
  tidy double_to_string no_newline n = true ->
  forall k, keeps well_indented k k (visit double_to_string n).
Proof.
  induction n as [n IH] using Node_children_ind. intros Htidy k.
  destruct n; cbn [visit children tidy] in *;
    unfold visit_import, visit_import_from, visit_let, visit_assign, visit_return,
      visit_export_names, visit_export_default, visit_spawn,
      visit_function_def, visit_if, visit_while, visit_for.
  all: try apply Forall_app in IH as [IH1 IH2].
  all: keep ltac:(intros ? ?; apply well_indented_emit; [assumption|]).
  all: try (apply js_for_each_visit_tidy; [assumption|]).
  all: repeat match goal with
         | |- context [match ?x with Some _ => _ | None => _ end] => destruct x
         | |- context [if ?b then _ else _] => destruct b
         end.
  all: tidy_facts.
  all: try assumption.
  all: try texts.
Qed.

Lemma generate_tidy (module : Module double) (out : string) :
  JavaScriptGenerator.generate double_to_string module = Ok out ->
  forallb (tidy double_to_string no_newline) (body module) = true ->
  indented_by_fours out.
Proof.
  unfold JavaScriptGenerator.generate, generate. intros E Htidy.
  assert (H : keeps well_indented 0 0 (generate_from double_to_string module)).
  { unfold generate_from.
    keep ltac:(intros ? ?; apply well_indented_emit; [assumption | reflexivity]).
    apply js_for_each_visit_tidy; [|exact Htidy].
    apply Forall_forall. intros n _. apply js_visit_tidy. }
  destruct (H init eq_refl well_indented_empty) as (st' & E' & _ & Hst').
  rewrite E' in E. injection E as <-.
  now apply Indentation.well_indented_by_fours.
Qed.

(** The two visitors print an expression alike but for its [Boolean]
    and [Null] literals. *)
Lemma render_expression_same (e : Expression double) :
  no_keyword_literal e = true ->
  render_expression double_to_string e
  = PythonVisitor.render_expression double_to_string e.
Proof.
  induction e using PythonTotal.Expression_nested_ind;
    cbn [no_keyword_literal render_expression PythonVisitor.render_expression];
    try reflexivity; try discriminate.
  - intros [Hl Hr]%andb_true_iff. now rewrite IHe1, IHe2.
  - intros He. now rewrite IHe.
  - intros [Hf Hargs]%andb_true_iff. rewrite IHe by exact Hf.
    replace (List.map (render_expression double_to_string) args)
      with (List.map (PythonVisitor.render_expression double_to_string) args);
      [reflexivity|].
    symmetry. apply map_ext_in. intros x Hin.
    apply (proj1 (Forall_forall _ _) H x Hin).
    exact (proj1 (forallb_forall _ _) Hargs x Hin).
  - intros He. now rewrite IHe.
  - intros Helems.
    replace (List.map (render_expression double_to_string) elements)
      with (List.map (PythonVisitor.render_expression double_to_string) elements);
      [reflexivity|].
    symmetry. apply map_ext_in. intros x Hin.
    apply (proj1 (Forall_forall _ _) H x Hin).
    exact (proj1 (forallb_forall _ _) Helems x Hin).
  - intros Hpairs.
    match goal with
    | |- context [List.map ?f pairs] =>
        replace (List.map f pairs)
          with (List.map (fun kv => PythonVisitor.render_expression double_to_string
                                      (fst kv) ++ ": "
                                    ++ PythonVisitor.render_expression double_to_string
                                         (snd kv)) pairs); [reflexivity|]
    end.
    symmetry. apply map_ext_in. intros [key val] Hin.
    pose proof (proj1 (Forall_forall _ _) H _ Hin) as [Hk Hv].
    pose proof (proj1 (forallb_forall _ _) Hpairs _ Hin) as Hkv.
    cbn [fst snd] in *. apply andb_true_iff in Hkv as [Hkey Hval].
    now rewrite Hk, Hv.
Qed.

End Platform.

(** X13.  Whatever the tree, the JavaScript generator returns: its
    indentation never underflows.  Every line of its output begins with a
    multiple of four spaces when every name and operator of the tree, and
    every number as printed, is non-empty, holds no newline and does not
    begin with a space, and no module string holds a newline; for the
    tree parsed from a source text that leaves the module strings and the
    numbers as the platform prints them. *)
Theorem javascript_indentation {double} (stod : string -> double + string)
        (double_to_string : double -> string) :
  (forall module, returns (JavaScriptGenerator.generate double_to_string module))
  /\ (forall module out,
        JavaScriptGenerator.generate double_to_string module = Ok out ->
        forallb (tidy double_to_string no_newline) (body module) = true ->
        indented_by_fours out)
  /\ (forall source module out,
        (forall s d, stod s = inl d -> word (double_to_string d) = true) ->
        parse_source stod source = Ok module ->
        forallb no_newline (flat_map module_strings (body module)) = true ->
        JavaScriptGenerator.generate double_to_string module = Ok out ->
        indented_by_fours out).
Proof.
  split; [apply JavaScriptTotal.generate_returns|]. split; [apply generate_tidy|].
  intros source module out Hnum Hparse Hstrings Hout.
  apply (generate_tidy double_to_string module out Hout).
  unfold parse_source in Hparse.
  destruct (Lexer.tokenize source) as [tokens| | |] eqn:Etok; try discriminate.
  pose proof (TidyParse.parse_tidy stod double_to_string Hnum tokens module
                (LexedTokens.tokenize_lexed source tokens Etok) Hparse) as Htidy.
  apply TidyParse.tidy_body_module_strings; try assumption.
  apply Forall_forall. intros n _. apply TidyParse.tidy_module_strings.
Qed.

(** An import whose module string begins with a space, and a loop. *)
Lemma javascript_indentation_witness :
  exists module out,
    parse_source DecimalText.stod
      (String "i" (String "m" (String "p" (String "o" (String "r" (String "t"
         (String " " (String DQUOTE (String " " (String "m" (String DQUOTE
            " as m; while m.ok { m.step(1) }")))))))))))
    = Ok module
    /\ JavaScriptGenerator.generate DecimalText.double_to_string module = Ok out
    /\ indented_by_fours out.
Proof.
  destruct (javascript_indentation DecimalText.stod DecimalText.double_to_string)
    as (Hreturns & _ & Hparsed).
  pose (module := make_module
                    [Import " m" (Some "m");
                     While (Attribute (Name "m") "ok")
                           [Expr (Call (Attribute (Name "m") "step") [Number "1"])]]
                  : Module DecimalText.double).
  assert (Hparse : parse_source DecimalText.stod
                     (String "i" (String "m" (String "p" (String "o" (String "r"
                        (String "t" (String " " (String DQUOTE (String " " (String "m"
                           (String DQUOTE " as m; while m.ok { m.step(1) }")))))))))))
                   = Ok module) by (vm_compute; reflexivity).
  destruct (Hreturns module) as [out Hout].
  exists module, out. split; [exact Hparse|]. split; [exact Hout|].
  apply (Hparsed _ module out TidyParse.decimal_text_numbers Hparse);
    [reflexivity | exact Hout].
Defined.

(** X14.  The two generators print an expression that holds no [true],
    [false] or [null] literal as the same text. *)
Theorem expression_text_shared {double} (double_to_string : double -> string)
        (e : Expression double) :
  no_keyword_literal e = true ->
  render_expression double_to_string e
  = PythonVisitor.render_expression double_to_string e.
Proof. apply render_expression_same. Qed.

Lemma expression_text_shared_witness :
  render_expression DecimalText.double_to_string
    (Call (Attribute (Name "a") "f") [BinaryOp (Number "1") "+" (String_ "s")])
  = PythonVisitor.render_expression DecimalText.double_to_string
      (Call (Attribute (Name "a") "f") [BinaryOp (Number "1") "+" (String_ "s")]).
Proof.
  apply (expression_text_shared DecimalText.double_to_string). reflexivity.
Defined.

End JavaScriptOutput.

Module Targets.

Import Compiler Spec.

Section Platform.

Context {double : Type}.
Variable stod : string -> double + string.
Variable double_to_string : double -> string.

Lemma unknown_target_tests (target : string) :
  known_target target = false ->
  (target =? "python") = false
  /\ (target =? "javascript") || (target =? "js") = false
  /\ (target =? "cpp") || (target =? "c++") = false.
Proof.
  unfold known_target. cbn [existsb]. rewrite orb_false_r.
  intros H. repeat (apply orb_false_iff in H as [? H]).
  repeat split; try assumption; apply orb_false_iff; now split.
Qed.

(** X15.  For a target it does not know [compile_source] never returns
    an output: it throws, whatever the source.  The source is read
    first: a source that is lexed and parsed gives the unknown-target
    error with the name of the target, another one gives its own
    error. *)
Theorem unknown_target_rejected (source target : string) (aggressive : bool) :
  known_target target = false ->
  throws (compile_source stod double_to_string source (mkOptions target aggressive))
  /\ (forall module,
         parse_source stod source = Ok module ->
         compile_source stod double_to_string source (mkOptions target aggressive)
         = Throw ((if aggressive then "" else "Compilation failed: ")
                  ++ "Unknown target: " ++ target))
  /\ (forall what,
         parse_source stod source = Throw what ->
         compile_source stod double_to_string source (mkOptions target aggressive)
         = Throw ((if aggressive then "" else "Compilation failed: ") ++ what)).
Proof.
  intros (Hpy & Hjs & Hcpp)%unknown_target_tests.
  assert (Htry :
            compile_source_try stod double_to_string source (mkOptions target aggressive)
            = match parse_source stod source with
              | Ok _ => Throw ("Unknown target: " ++ target)
              | Throw what => Throw what
              | OutOfRange => OutOfRange
              | OutOfFuel => OutOfFuel
              end).
  { unfold compile_source_try, parse_source, and_then. cbn [Compiler.target].
    destruct (Lexer.tokenize source); try reflexivity.
    destruct (Parser.parse stod a); try reflexivity.
    now rewrite Hpy, Hjs, Hcpp. }
  unfold compile_source. rewrite Htry. cbn [aggressive_errors].
  split; [|split].
  - destruct (CompilerFacts.compile_source_try_total stod double_to_string source
                (mkOptions target aggressive)) as [(m & text & E)|[what E]];
      rewrite Htry in E.
    + destruct (parse_source stod source); discriminate.
    + rewrite E. destruct aggressive; now eexists.
  - intros module ->. now destruct aggressive.
  - intros what ->. now destruct aggressive.
Qed.

(** X16.  For the targets [cpp] and [c++] the output of
    [compile_source] is the fixed stub: two sources that compile give
    the same text, whatever they hold. *)
Theorem cpp_output_fixed (source1 source2 target : string) (aggressive : bool)
        (result1 result2 : CompileResult (double := double)) :
  target = "cpp" \/ target = "c++" ->
  compile_source stod double_to_string source1 (mkOptions target aggressive)
  = Ok result1 ->
  compile_source stod double_to_string source2 (mkOptions target aggressive)
  = Ok result2 ->
  output_text result1 = output_text result2
  /\ parse_source stod source1 = Ok (module result1)
  /\ parse_source stod source2 = Ok (module result2).
Proof.
  assert (H : forall source result,
             target = "cpp" \/ target = "c++" ->
             compile_source stod double_to_string source (mkOptions target aggressive)
             = Ok result ->
             output_text result = Some (generate_cpp_stub (module result))
             /\ parse_source stod source = Ok (module result)).
  { intros source result Ht. unfold compile_source, compile_source_try, parse_source,
      and_then. cbn [Compiler.target].
    destruct (Lexer.tokenize source); try (destruct aggressive; discriminate).
    destruct (Parser.parse stod a); try (destruct aggressive; discriminate).
    destruct Ht as [-> | ->]; cbn [String.eqb Ascii.eqb Bool.eqb orb];
      intros [= <-]; split; reflexivity. }
  intros Ht E1 E2.
  destruct (H _ _ Ht E1) as [H1 P1]. destruct (H _ _ Ht E2) as [H2 P2].
  rewrite H1, H2. repeat split; assumption.
Qed.

End Platform.

Lemma unknown_target_rejected_witness :
  throws (compile_source DecimalText.stod DecimalText.double_to_string "let x = 1"
                         (mkOptions "rust" false))
  /\ compile_source DecimalText.stod DecimalText.double_to_string "let x = 1"
                    (mkOptions "rust" false)
     = Throw "Compilation failed: Unknown target: rust"
  /\ compile_source DecimalText.stod DecimalText.double_to_string "let x = @"
                    (mkOptions "rust" false)
     = Throw "Compilation failed: Unexpected character '@' at line 1 column 9".
Proof.
  split; [|split].
  - apply (unknown_target_rejected DecimalText.stod DecimalText.double_to_string
             "let x = 1" "rust" false eq_refl).
  - apply (proj1 (proj2 (unknown_target_rejected DecimalText.stod
                           DecimalText.double_to_string "let x = 1" "rust" false eq_refl))
             (AST.make_module [AST.Let "x" (AST.Number "1") true false false])).
    reflexivity.
  - apply (proj2 (proj2 (unknown_target_rejected DecimalText.stod
                           DecimalText.double_to_string "let x = @" "rust" false eq_refl))
             "Unexpected character '@' at line 1 column 9").
    reflexivity.
Defined.

Lemma cpp_output_fixed_witness :
  output_text (mkResult (AST.make_module [AST.Expr (AST.Name (double := DecimalText.double) "a")])
                        (Some (generate_cpp_stub
                                 (AST.make_module
                                    [AST.Expr (AST.Name (double := DecimalText.double) "a")]))))
  = output_text (mkResult (AST.make_module [AST.Expr (AST.Name (double := DecimalText.double) "b")])
                          (Some (generate_cpp_stub
                                   (AST.make_module
                                      [AST.Expr (AST.Name (double := DecimalText.double) "b")]))))
  /\ parse_source DecimalText.stod "a"
     = Ok (AST.make_module [AST.Expr (AST.Name "a")])
  /\ parse_source DecimalText.stod "b"
     = Ok (AST.make_module [AST.Expr (AST.Name "b")]).
Proof.
  apply (cpp_output_fixed DecimalText.stod DecimalText.double_to_string
           "a" "b" "c++" false
           (mkResult (AST.make_module [AST.Expr (AST.Name "a")])
                     (Some (generate_cpp_stub (AST.make_module [AST.Expr (AST.Name "a")]))))
           (mkResult (AST.make_module [AST.Expr (AST.Name "b")])
                     (Some (generate_cpp_stub (AST.make_module [AST.Expr (AST.Name "b")]))))).
  - now right.
  - reflexivity.
  - reflexivity.
Defined.

End Targets.

Module CommandLine.

Import Compiler Main Spec.

Lemma follows_flag_cons (flag value x : string) (argv : list string) :
  follows_flag flag value argv -> follows_flag flag value (x :: argv).
Proof. intros (b & a & ->). now exists (x :: b), a. Qed.

Lemma read_from_refl (argv : list string) (args : Arguments) :
  read_from argv args args.
Proof. repeat split; now left. Qed.

Lemma read_from_cons (x : string) (argv : list string) (args0 args : Arguments) :
  read_from argv args0 args -> read_from (x :: argv) args0 args.
Proof.
  intros (Hi & Ho & Ht & Ha). repeat split.
  - destruct Hi as [Hi | (v & ? & ? & ? & ?)]; [now left | right].
    exists v. repeat split; try assumption. now right.
  - destruct Ho as [Ho | (v & ? & ?)]; [now left | right].
    exists v. split; [assumption | now apply follows_flag_cons].
  - destruct Ht as [Ht | Ht]; [now left | right; now apply follows_flag_cons].
  - destruct Ha as [Ha | [? ?]]; [now left | right]. split; [assumption | now right].
Qed.

Lemma read_from_head (x : string) (argv : list string) (args0 args : Arguments) :
  read_from [x] args0 args -> read_from (x :: argv) args0 args.
Proof.
  intros (Hi & Ho & Ht & Ha). repeat split.
  - destruct Hi as [Hi | (v & E & [Hv | []] & Hn & E0)]; [now left | right].
    exists v. repeat split; try assumption. now left.
  - destruct Ho as [Ho | (v & _ & b & a & E)]; [now left|].
    destruct b as [|? [|? ?]]; discriminate.
  - destruct Ht as [Ht | (b & a & E)]; [now left|].
    destruct b as [|? [|? ?]]; discriminate.
  - destruct Ha as [Ha | [E [Hv | []]]]; [now left | right].
    split; [assumption | now left].
Qed.

Lemma read_from_trans (argv : list string) (args0 args1 args2 : Arguments) :
  read_from argv args0 args1 -> read_from argv args1 args2 -> read_from argv args0 args2.
Proof.
  intros (Hi1 & Ho1 & Ht1 & Ha1) (Hi2 & Ho2 & Ht2 & Ha2). repeat split.
  - destruct Hi2 as [Hi2 | (v & E & ? & ? & Hn)].
    + rewrite Hi2. exact Hi1.
    + right. exists v. repeat split; try assumption.
      destruct Hi1 as [<- | (v' & E' & _)]; [assumption | congruence].
  - destruct Ho2 as [-> | Ho2]; [exact Ho1 | now right].
  - destruct Ht2 as [-> | Ht2]; [exact Ht1 | now right].
  - destruct Ha2 as [-> | Ha2]; [exact Ha1 | now right].
Qed.

Lemma other_argument_reads (value : string) (args : Arguments) :
  match other_argument value args with
  | Ok args' => read_from [value] args args'
  | Throw what => what = "Unrecognized argument: " ++ value
                  /\ value <> "--aggressive-errors"
                  /\ input args <> None
  | _ => False
  end.
Proof.
  unfold other_argument.
  destruct (value =? "--aggressive-errors") eqn:E.
  - apply String.eqb_eq in E as ->.
    repeat split; cbn; try (now left). right. split; [reflexivity | now left].
  - apply String.eqb_neq in E.
    destruct (input args) eqn:Ein.
    + repeat split; [assumption | discriminate].
    + repeat split; cbn; try (now left). right. exists value.
      repeat split; [now left | assumption | assumption].
Qed.

(** The invariant of the loop of [parse_arguments]. *)
Lemma parse_arguments_from_reads (argv : list string) :
  forall args,
    match parse_arguments_from argv args with
    | Ok args' => read_from argv args args'
    | Throw what => exists value, In value argv
                                  /\ what = "Unrecognized argument: " ++ value
                                  /\ value <> "--aggressive-errors"
    | _ => False
    end.
Proof.
  assert (H : (forall args,
                  match parse_arguments_from argv args with
                  | Ok args' => read_from argv args args'
                  | Throw what => exists value, In value argv
                                                /\ what = "Unrecognized argument: " ++ value
                                                /\ value <> "--aggressive-errors"
                  | _ => False
                  end)
              /\ (forall x args,
                     match parse_arguments_from (x :: argv) args with
                     | Ok args' => read_from (x :: argv) args args'
                     | Throw what => exists value, In value (x :: argv)
                                                   /\ what = "Unrecognized argument: " ++ value
                                                   /\ value <> "--aggressive-errors"
                     | _ => False
                     end)); [|exact (proj1 H)].
  induction argv as [|next rest [IH0 IH1]].
  - split; [intros args; apply read_from_refl|].
    intros x args. cbn [parse_arguments_from].
    pose proof (other_argument_reads x args) as Ho.
    destruct (other_argument x args) as [args'| what | |]; try contradiction.
    + exact Ho.
    + destruct Ho as (-> & ? & _). exists x. repeat split; [now left | assumption].
  - split; [exact (IH1 next)|].
    intros x args.
    assert (Hother :
              match (match other_argument x args with
                     | Ok args' => parse_arguments_from (next :: rest) args'
                     | r => r
                     end) with
              | Ok args' => read_from (x :: next :: rest) args args'
              | Throw what => exists value, In value (x :: next :: rest)
                                            /\ what = "Unrecognized argument: " ++ value
                                            /\ value <> "--aggressive-errors"
              | _ => False
              end).
    { pose proof (other_argument_reads x args) as Ho.
      destruct (other_argument x args) as [args'| what | |]; try contradiction.
      - specialize (IH1 next args').
        destruct (parse_arguments_from (next :: rest) args') as [args''| what | |];
          try contradiction.
        + apply (read_from_trans _ _ args'); [now apply read_from_head|].
          now apply read_from_cons.
        + destruct IH1 as (v & Hin & -> & Hn). exists v. repeat split; [now right | assumption].
      - destruct Ho as (-> & ? & _). exists x. repeat split; [now left | assumption]. }
    change (parse_arguments_from (x :: next :: rest) args)
      with (if x =? "--target" then
              parse_arguments_from rest
                (mkArguments (input args) (output args) next (aggressive_errors args))
            else if x =? "--output" then
              parse_arguments_from rest
                (mkArguments (input args) (Some next) (target args) (aggressive_errors args))
            else match other_argument x args with
                 | Ok args' => parse_arguments_from (next :: rest) args'
                 | r => r
                 end).
    destruct (x =? "--target") eqn:Et; [|destruct (x =? "--output") eqn:Eo];
      [| |exact Hother].
    + apply String.eqb_eq in Et as ->.
      specialize (IH0 (mkArguments (input args) (output args) next (aggressive_errors args))).
      destruct (parse_arguments_from rest _) as [args''| what | |]; try contradiction.
      * eapply read_from_trans; [|apply read_from_cons, read_from_cons, IH0].
        repeat split; cbn; try (now left). right. now exists [], rest.
      * destruct IH0 as (v & Hin & -> & Hn). exists v.
        repeat split; [now right; right | assumption].
    + apply String.eqb_eq in Eo as ->.
      specialize (IH0 (mkArguments (input args) (Some next) (target args)
                                   (aggressive_errors args))).
      destruct (parse_arguments_from rest _) as [args''| what | |]; try contradiction.
      * eapply read_from_trans; [|apply read_from_cons, read_from_cons, IH0].
        repeat split; cbn; try (now left). right. exists next. split; [reflexivity|].
        now exists [], rest.
      * destruct IH0 as (v & Hin & -> & Hn). exists v.
        repeat split; [now right; right | assumption].
Qed.

(** X17.  [parse_arguments] returns or throws for an unrecognized
    argument.  What it returns comes from the command line: the input is
    one of the arguments, the output and the target are the arguments
    that follow [--output] and [--target] (the target is [python]
    otherwise), and errors are aggressive only when the flag is given.
    What it throws names an argument of the command line, which is not the
    flag [--aggressive-errors]. *)
Theorem arguments_from_command_line (argv : list string) :
  (exists args,
      parse_arguments argv = Ok args
      /\ (forall path, input args = Some path -> In path argv)
      /\ (forall path, output args = Some path -> follows_flag "--output" path argv)
      /\ (target args = "python" \/ follows_flag "--target" (target args) argv)
      /\ (aggressive_errors args = true -> In "--aggressive-errors" argv))
  \/ (exists value,
         parse_arguments argv = Throw ("Unrecognized argument: " ++ value)
         /\ In value argv /\ value <> "--aggressive-errors").
Proof.
  unfold parse_arguments.
  pose proof (parse_arguments_from_reads argv default_arguments) as H.
  destruct (parse_arguments_from argv default_arguments) as [args| what | |];
    try contradiction.
  - left. exists args. destruct H as (Hi & Ho & Ht & Ha). cbn in Hi, Ho, Ht, Ha.
    repeat split.
    + intros path E. destruct Hi as [Hi | (v & E' & ? & _)]; congruence.
    + intros path E. destruct Ho as [Ho | (v & E' & ?)]; congruence.
    + exact Ht.
    + intros E. destruct Ha as [Ha | [_ ?]]; [congruence | assumption].
  - right. destruct H as (v & Hin & -> & Hn). now exists v.
Qed.

Lemma parse_arguments_from_two (x next : string) (rest : list string) (args : Arguments) :
  parse_arguments_from (x :: next :: rest) args
  = if x =? "--target" then
      parse_arguments_from rest
        (mkArguments (input args) (output args) next (aggressive_errors args))
    else if x =? "--output" then
      parse_arguments_from rest
        (mkArguments (input args) (Some next) (target args) (aggressive_errors args))
    else match other_argument x args with
         | Ok args' => parse_arguments_from (next :: rest) args'
         | r => r
         end.
Proof. reflexivity. Qed.

Lemma parse_arguments_from_snoc (flag : string) (n : nat) :
  forall argv args0 args,
    (length argv <= n)%nat ->
    last argv "" <> "--target" -> last argv "" <> "--output" ->
    parse_arguments_from argv args0 = Ok args ->
    parse_arguments_from (argv ++ [flag])%list args0 = parse_arguments_from [flag] args.
Proof.
  induction n as [|n IH]; intros argv args0 args Hn Ht Ho.
  - destruct argv; [|cbn in Hn; lia]. now intros [= ->].
  - destruct argv as [|x [|next rest]].
    + now intros [= ->].
    + cbn [last] in Ht, Ho. cbn [app]. rewrite parse_arguments_from_two.
      apply String.eqb_neq in Ht, Ho. rewrite Ht, Ho.
      cbn [parse_arguments_from].
      destruct (other_argument x args0); try discriminate. now intros [= ->].
    + change ((x :: next :: rest) ++ [flag])%list with (x :: next :: (rest ++ [flag]))%list.
      rewrite !parse_arguments_from_two.
      assert (Hrest : last rest "" <> "--target" /\ last rest "" <> "--output").
      { destruct rest as [|y rest']; [split; discriminate|].
        now change (last (x :: next :: y :: rest') "") with (last (y :: rest') "")
          in Ht, Ho. }
      cbn [length] in Hn.
      destruct (x =? "--target"); [|destruct (x =? "--output")].
      * apply IH; [lia | apply Hrest | apply Hrest].
      * apply IH; [lia | apply Hrest | apply Hrest].
      * destruct (other_argument x args0); try discriminate.
        apply (IH (next :: rest)); [cbn [length]; lia | exact Ht | exact Ho].
Qed.

(** X18.  An option that lacks its value is not an error: after
    arguments that are read without error and do not end in [--target] or
    [--output], a last argument [--target] or [--output] is taken for the
    input file when none was given before it, and is the unrecognized
    argument when one was. *)
Theorem option_without_value (argv : list string) (flag : string) (args : Arguments) :
  flag = "--target" \/ flag = "--output" ->
  last argv "" <> "--target" -> last argv "" <> "--output" ->
  parse_arguments argv = Ok args ->
  parse_arguments (argv ++ [flag])%list
  = match input args with
    | None => Ok (mkArguments (Some flag) (output args) (target args)
                              (aggressive_errors args))
    | Some _ => Throw ("Unrecognized argument: " ++ flag)
    end.
Proof.
  intros Hflag Ht Ho E. unfold parse_arguments in *.
  rewrite (parse_arguments_from_snoc flag (length argv) argv _ args (le_n _) Ht Ho E).
  cbn [parse_arguments_from]. unfold other_argument.
  destruct Hflag as [-> | ->]; cbn [String.eqb Ascii.eqb Bool.eqb];
    now destruct (input args).
Qed.

Section Platform.

Context {double : Type}.
Variable stod : string -> double + string.
Variable double_to_string : double -> string.

Lemma compile_file_total (fs : FileSystem) (path : string) (options : CompileOptions) :
  (exists module text,
      compile_file stod double_to_string fs path options
      = Ok (mkResult module (Some text)))
  \/ throws (compile_file stod double_to_string fs path options).
Proof.
  unfold compile_file. destruct (fs path) as [contents|].
  - apply CompilerFacts.compile_source_total.
  - right. now eexists.
Qed.

Lemma main_try_total (w : World) (argv : list string) :
  (exists text, main_try stod double_to_string w argv = Ok (text ++ String LF "", None))
  \/ (exists path text, main_try stod double_to_string w argv = Ok ("", Some (path, text))
                        /\ writable w path = true)
  \/ throws (main_try stod double_to_string w argv).
Proof.
  unfold main_try, parse_arguments.
  pose proof (parse_arguments_from_reads argv default_arguments) as Hargs.
  destruct (parse_arguments_from argv default_arguments) as [args| what | |];
    try contradiction; [|right; right; now eexists].
  clear Hargs. cbn [and_then].
  destruct (input args) as [path|]; [|right; right; now eexists].
  destruct (compile_file_total (files w) path
              (mkOptions (Main.target args) (Main.aggressive_errors args)))
    as [(m & text & ->)|[what ->]]; [|right; right; now eexists].
  cbn [and_then output_text]. unfold write_output.
  destruct (output args) as [out|].
  - destruct (writable w out) eqn:Hw; [|right; right; now eexists].
    right; left. now exists out, text.
  - left. now exists text.
Qed.

(** X19.  [main] returns, whatever the command line and the files: no
    exception leaves it.  It returns 0 with nothing on [std::cerr] and
    the output either on [std::cout], followed by a line end, or in a
    file that could be opened; or an exception left the [try] block, and
    it returns 1 with the message of that exception on [std::cerr],
    after [trifc: ] and before a line end, nothing on [std::cout] and no
    file written.  Without an argument the message is
    [No input file provided]. *)
Theorem main_outcome (w : World) (argv : list string) :
  (exists o,
      main stod double_to_string w argv = Ok o
      /\ ((returns (main_try stod double_to_string w argv) /\ succeeded w o)
          \/ exists what,
               main_try stod double_to_string w argv = Throw what /\ failed what o))
  /\ main stod double_to_string w []
     = Ok (mkOutcome 1 "" ("trifc: No input file provided" ++ String LF "") None).
Proof.
  split; [|reflexivity].
  unfold main.
  destruct (main_try_total w argv) as [[text ->]|[(path & text & -> & Hw)|[what ->]]].
  - eexists. split; [reflexivity|]. left. split; [now eexists|].
    repeat split. left. now exists text.
  - eexists. split; [reflexivity|]. left. split; [now eexists|].
    repeat split. right. now exists path, text.
  - eexists. split; [reflexivity|]. right. exists what. repeat split.
Qed.

(** X20.  What [main] prints is what [compile_source] makes of the
    input file, once the arguments are read and the file is: the message
    of [compile_source] on [std::cerr], after [trifc: ], when it throws;
    and when it returns, its output text: on [std::cout] with a line
    end when there is no [--output], in the output file, without the
    line end, when the path can be opened, and the message for the path
    otherwise. *)
Theorem main_writes_output (w : World) (argv : list string) (args : Arguments)
        (path source : string) :
  parse_arguments argv = Ok args ->
  input args = Some path ->
  files w path = Some source ->
  (exists what,
      compile_source stod double_to_string source
                     (mkOptions (Main.target args) (Main.aggressive_errors args))
      = Throw what
      /\ main stod double_to_string w argv
         = Ok (mkOutcome 1 "" ("trifc: " ++ what ++ String LF "") None))
  \/ (exists module text,
         compile_source stod double_to_string source
                        (mkOptions (Main.target args) (Main.aggressive_errors args))
         = Ok (mkResult module (Some text))
         /\ main stod double_to_string w argv
            = Ok match output args with
                 | None => mkOutcome 0 (text ++ String LF "") "" None
                 | Some out =>
                     if writable w out then mkOutcome 0 "" "" (Some (out, text))
                     else mkOutcome 1 ""
                            ("trifc: Unable to write to output path: " ++ out
                             ++ String LF "") None
                 end).
Proof.
  intros Ea Ei Ef. unfold main, main_try, compile_file.
  rewrite Ea. cbn [and_then]. rewrite Ei, Ef.
  destruct (CompilerFacts.compile_source_total stod double_to_string source
              (mkOptions (Main.target args) (Main.aggressive_errors args)))
    as [(m & text & ->)|[what ->]].
  - right. exists m, text. split; [reflexivity|].
    cbn [and_then output_text]. unfold write_output.
    destruct (output args) as [out|]; [|reflexivity].
    now destruct (writable w out).
  - left. exists what. now split.
Qed.

End Platform.

Lemma parse_arguments_examples :
  parse_arguments ["--output"; "out.py"; "main.trif"; "--target"; "js"]
  = Ok (mkArguments (Some "main.trif") (Some "out.py") "js" false)
  /\ parse_arguments ["a.trif"; "b.trif"] = Throw "Unrecognized argument: b.trif".
Proof. split; reflexivity. Qed.

Lemma option_without_value_witness :
  parse_arguments (["--aggressive-errors"] ++ ["--target"])%list
  = Ok (mkArguments (Some "--target") None "python" true)
  /\ parse_arguments (["main.trif"] ++ ["--output"])%list
     = Throw "Unrecognized argument: --output".
Proof.
  split.
  - apply (option_without_value ["--aggressive-errors"] "--target"
             (mkArguments None None "python" true)).
    + now left.
    + discriminate.
    + discriminate.
    + reflexivity.
  - apply (option_without_value ["main.trif"] "--output"
             (mkArguments (Some "main.trif") None "python" false)).
    + now right.
    + discriminate.
    + discriminate.
    + reflexivity.
Defined.

Lemma main_writes_output_witness :
  exists text,
    PythonGenerator.generate DecimalText.double_to_string
      (AST.make_module [AST.Let "x" (AST.Number "1") true false false]) = Ok text
    /\ main DecimalText.stod DecimalText.double_to_string example_world
            ["main.trif"; "--output"; "out.py"]
       = Ok (mkOutcome 0 "" "" (Some ("out.py", text))).
Proof.
  destruct (main_writes_output DecimalText.stod DecimalText.double_to_string example_world
              ["main.trif"; "--output"; "out.py"]
              (mkArguments (Some "main.trif") (Some "out.py") "python" false)
              "main.trif" "let x = 1" eq_refl eq_refl eq_refl)
    as [(what & E & _)|(module & text & E & H)].
  - vm_compute in E. discriminate E.
  - exists text. split; [|exact H].
    vm_compute in E. injection E as _ <-. vm_compute. reflexivity.
Defined.

End CommandLine.

Module Positions.

Import Lexer Spec StrFacts LexerFacts.

(** *** Positions in a text *)

Lemma position_after_app (a b : string) : forall ln col,
  position_after (a ++ b) ln col
  = position_after b (fst (position_after a ln col)) (snd (position_after a ln col)).
Proof.
  induction a as [|c a IH]; intros ln col; cbn [append position_after fst snd];
    [reflexivity|].
  destruct (Ascii.eqb c LF); apply IH.
Qed.

Lemma position_after_one_line (s : string) : forall ln col,
  no_newline s = true -> position_after s ln col = (ln, (col + size s)%Z).
Proof.
  unfold no_newline, size.
  induction s as [|c s IH]; intros ln col H; cbn [position_after String.length].
  - f_equal. lia.
  - cbn [all_chars] in H. apply andb_true_iff in H as [Hc Hs].
    apply negb_true_iff in Hc. rewrite Hc, (IH _ _ Hs). f_equal. lia.
Qed.

Lemma position_after_line (s : string) : forall ln col,
  fst (position_after s ln col) = (ln + Z.of_nat (Str.count LF s))%Z.
Proof.
  induction s as [|c s IH]; intros ln col; cbn [position_after Str.count fst].
  - lia.
  - destruct (Ascii.eqb c LF); rewrite IH; lia.
Qed.

Lemma find_last_of_None (s : string) :
  Str.find_last_of LF s = None -> no_newline s = true.
Proof.
  unfold no_newline. induction s as [|c s IH]; cbn [Str.find_last_of all_chars];
    [reflexivity|].
  destruct (Str.find_last_of LF s); [discriminate|].
  destruct (Ascii.eqb c LF); [discriminate|]. intros _. now rewrite IH.
Qed.

Lemma position_after_column (s : string) : forall pos ln col,
  Str.find_last_of LF s = Some pos ->
  snd (position_after s ln col) = (size s - Z.of_nat pos)%Z.
Proof.
  unfold size.
  induction s as [|c s IH]; intros pos ln col;
    cbn [Str.find_last_of position_after String.length]; [discriminate|].
  destruct (Str.find_last_of LF s) as [i|] eqn:E.
  - intros [= <-]. destruct (Ascii.eqb c LF); rewrite (IH i) by reflexivity; lia.
  - destruct (Ascii.eqb c LF); [|discriminate]. intros [= <-].
    rewrite position_after_one_line by now apply find_last_of_None.
    unfold size. cbn [snd]. lia.
Qed.

Lemma count_one_line (s : string) : no_newline s = true -> Str.count LF s = 0.
Proof.
  unfold no_newline. induction s as [|c s IH]; cbn [all_chars Str.count]; [reflexivity|].
  intros [Hc Hs]%andb_true_iff. apply negb_true_iff in Hc. now rewrite Hc, IH.
Qed.

Lemma count_zero (s : string) : Str.count LF s = 0 -> no_newline s = true.
Proof.
  unfold no_newline. induction s as [|c s IH]; cbn [all_chars Str.count]; [reflexivity|].
  destruct (Ascii.eqb c LF); [discriminate|]. intros H. now rewrite IH.
Qed.

(** The position after a block comment, as the loop computes it. *)
Lemma position_after_comment (value : string) (ln col : Z) :
  position_after value ln col
  = ((ln + Z.of_nat (Str.count LF value))%Z,
     if (0 <? Str.count LF value)%nat then
       match Str.find_last_of LF value with
       | Some pos => (size value - Z.of_nat pos)%Z
       | None => col
       end
     else (col + size value)%Z).
Proof.
  rewrite (surjective_pairing (position_after value ln col)), position_after_line.
  f_equal.
  destruct (0 <? Str.count LF value)%nat eqn:E.
  - destruct (Str.find_last_of LF value) as [pos|] eqn:Epos.
    + now apply position_after_column.
    + apply find_last_of_None, count_one_line in Epos.
      apply Nat.ltb_lt in E. lia.
  - apply Nat.ltb_ge in E.
    rewrite position_after_one_line by (apply count_zero; lia). reflexivity.
Qed.

(** *** What the patterns match *)

Lemma take_while_start (p : ascii -> bool) (s : string) :
  exists rest, s = Str.take_while p s ++ rest.
Proof.
  induction s as [|c s [rest IH]]; cbn [Str.take_while]; [now exists ""|].
  destruct (p c); [|now eexists].
  exists rest. cbn [append]. now rewrite <- IH.
Qed.

Lemma take_start (n : nat) : forall s, exists rest, s = Str.take n s ++ rest.
Proof.
  induction n as [|n IH]; intros s; [now exists s|].
  destruct s as [|c s]; [now exists ""|].
  destruct (IH s) as [rest E]. exists rest. cbn [Str.take append]. now rewrite <- E.
Qed.

Lemma prefix_start (a : string) : forall s,
  String.prefix a s = true -> exists rest, s = a ++ rest.
Proof.
  induction a as [|c a IH]; intros s; [now exists s|].
  destruct s as [|d s]; cbn [String.prefix]; [discriminate|].
  destruct (ascii_dec c d) as [<-|]; [|discriminate].
  intros [rest ->]%IH. now exists rest.
Qed.

Lemma drop_start (m rest s : string) :
  s = m ++ rest -> Str.drop (String.length m) s = rest.
Proof. intros ->. apply drop_app_length. Qed.

Lemma no_newline_cons (c : ascii) (s : string) :
  no_newline (String c s) = negb (Ascii.eqb c LF) && no_newline s.
Proof. reflexivity. Qed.

Lemma no_newline_append (s t : string) :
  no_newline (s ++ t) = no_newline s && no_newline t.
Proof.
  induction s as [|c s IH]; [reflexivity|].
  cbn [append]. rewrite !no_newline_cons, IH. apply andb_assoc.
Qed.

(** A newline of a string literal is in what it is decoded to, as
    itself or after the backslash before it. *)
Lemma decode_content_newline (n : nat) : forall s,
  (String.length s <= n)%nat ->
  no_newline (decode_content s) = true -> no_newline s = true.
Proof.
  induction n as [|n IH]; intros s Hn.
  - destruct s; [reflexivity | cbn in Hn; lia].
  - destruct s as [|c s]; [reflexivity|]. cbn [String.length] in Hn.
    cbn [decode_content].
    destruct (Ascii.eqb c BACKSLASH) eqn:Hc.
    + apply Ascii.eqb_eq in Hc as ->.
      destruct s as [|next s]; [reflexivity|]. cbn [String.length] in Hn.
      rewrite !no_newline_cons.
      destruct (Ascii.eqb next LF) eqn:Hnext.
      * apply Ascii.eqb_eq in Hnext as ->. discriminate.
      * intros [_ H]%andb_true_iff. cbn [negb andb].
        apply IH; [lia | exact H].
    + rewrite !no_newline_cons. intros [-> H]%andb_true_iff.
      apply IH; [lia | exact H].
Qed.

Lemma match_string_body_start (q : ascii) (n : nat) : forall s m,
  (String.length s <= n)%nat ->
  match_string_body q s = Some m ->
  (exists rest, s = m ++ rest) /\ exists payload, m = payload ++ String q "".
Proof.
  induction n as [|n IH]; intros s m Hn.
  - destruct s; [discriminate | cbn in Hn; lia].
  - destruct s as [|c s]; [discriminate|]. cbn [String.length] in Hn.
    cbn [match_string_body].
    destruct (Ascii.eqb c q) eqn:Hq.
    + apply Ascii.eqb_eq in Hq as ->. intros [= <-].
      split; [now exists s | now exists ""].
    + destruct (Ascii.eqb c BACKSLASH).
      * destruct s as [|d s]; [discriminate|]. cbn [String.length] in Hn.
        destruct (is_dot_char d); [|discriminate].
        destruct (match_string_body q s) as [m'|] eqn:E; [|discriminate].
        intros [= <-].
        destruct (IH s m' ltac:(lia) E) as [[rest ->] [payload ->]].
        split; [now exists rest | now exists (String c (String d payload))].
      * destruct (match_string_body q s) as [m'|] eqn:E; [|discriminate].
        intros [= <-].
        destruct (IH s m' ltac:(lia) E) as [[rest ->] [payload ->]].
        split; [now exists rest | now exists (String c payload)].
Qed.

Lemma match_NUMBER_start : matches_start "NUMBER" match_NUMBER.
Proof.
  intros s m H. split; [|repeat split; try discriminate; intros _ _;
                         exact (TextFacts.word_no_newline _ (TidyParse.match_NUMBER_word _ _ H))].
  revert H. unfold match_NUMBER. cbv zeta.
  destruct (Str.is_empty (Str.take_while is_digit s)); [discriminate|].
  destruct (take_while_start is_digit s) as [rest E].
  rewrite (drop_start _ _ _ E).
  destruct rest as [|c rest]; [intros [= <-]; now exists ""|].
  destruct (Ascii.eqb c "." && negb (Str.is_empty (Str.take_while is_digit rest)));
    intros [= <-]; [|exists (String c rest); exact E].
  destruct (take_while_start is_digit rest) as [rest' E'].
  exists rest'. rewrite append_assoc. cbn [append]. now rewrite <- E'.
Qed.

Lemma match_STRING_start : matches_start "STRING" match_STRING.
Proof.
  intros s m. unfold match_STRING.
  destruct s as [|c s]; [discriminate|].
  destruct (Ascii.eqb c DQUOTE || Ascii.eqb c SQUOTE) eqn:Hq; [|discriminate].
  destruct (match_string_body c s) as [body|] eqn:E; [|discriminate].
  intros [= <-].
  destruct (match_string_body_start c _ s body (le_n _) E) as [[rest ->] [payload ->]].
  split; [now exists rest|]. repeat split; try discriminate; try congruence.
  intros _. rewrite decode_quoted. intros H.
  apply (decode_content_newline _ _ (le_n _)) in H.
  rewrite no_newline_cons, no_newline_append, H.
  apply orb_true_iff in Hq as [->%Ascii.eqb_eq | ->%Ascii.eqb_eq]; reflexivity.
Qed.

Lemma match_COMMENT_start : matches_start "COMMENT" match_COMMENT.
Proof.
  intros s m. unfold match_COMMENT.
  destruct (String.prefix "//" s) eqn:E; [|discriminate]. intros [= <-].
  apply prefix_start in E as [rest ->]. cbn [Str.drop append].
  split; [|repeat split; try discriminate; intros _ _;
           apply (LexedTokens.all_chars_take_while (fun c => negb (Ascii.eqb c LF)))].
  destruct (take_while_start (fun c => negb (Ascii.eqb c LF)) rest) as [rest' E].
  exists rest'. cbn [append]. now rewrite <- E.
Qed.

Lemma match_NAME_start : matches_start "NAME" match_NAME.
Proof.
  intros s m H. split; [|repeat split; try discriminate; intros _ _;
                         exact (TextFacts.word_no_newline _ (LexedTokens.match_NAME_word _ _ H))].
  revert H. unfold match_NAME. destruct s as [|c s]; [discriminate|].
  destruct (is_name_start c); [|discriminate]. intros [= <-].
  destruct (take_while_start is_name_char s) as [rest E].
  exists rest. cbn [append]. now rewrite <- E.
Qed.

Lemma match_OP_start : matches_start "OP" match_OP.
Proof.
  intros s m H. split; [|repeat split; try discriminate; intros _ _;
                         exact (TextFacts.word_no_newline _ (LexedTokens.match_OP_word _ _ H))].
  revert H. unfold match_OP.
  destruct (find _ _) as [op|] eqn:E.
  - intros [= <-]. apply find_some in E as [_ E]. cbv beta in E.
    exact (prefix_start _ _ E).
  - destruct s as [|c s]; [discriminate|].
    destruct (is_op_char c); [|discriminate]. intros [= <-]. now exists s.
Qed.

Lemma match_SKIP_start : matches_start "SKIP" match_SKIP.
Proof.
  intros s m. unfold match_SKIP. cbv zeta.
  destruct (Str.is_empty _); [discriminate|]. intros [= <-].
  split; [apply take_while_start|]. repeat split; try discriminate. intros _ _.
  apply (RoundTrip.all_chars_impl (fun c => Ascii.eqb c " " || Ascii.eqb c TAB));
    [|apply LexedTokens.all_chars_take_while].
  intros c [->%Ascii.eqb_eq | ->%Ascii.eqb_eq]%orb_true_iff; reflexivity.
Qed.

Lemma match_char_start (name : string) (c : ascii) :
  (name = "NEWLINE" -> c = LF) -> (name <> "NEWLINE" -> Ascii.eqb c LF = false) ->
  name <> "STRING" ->
  matches_start name (match_char c).
Proof.
  intros Hnl Hother Hstr s m. unfold match_char.
  destruct s as [|d s]; [discriminate|].
  destruct (Ascii.eqb d c) eqn:E; [|discriminate].
  apply Ascii.eqb_eq in E as ->. intros [= <-].
  split; [now exists s|]. repeat split.
  - intros ->%Hnl. reflexivity.
  - intros H. now destruct Hstr.
  - intros H _. rewrite no_newline_cons, (Hother H). reflexivity.
Qed.

Lemma token_patterns_start :
  Forall (fun p => matches_start (fst p) (snd p)) token_patterns.
Proof.
  unfold token_patterns.
  repeat (apply Forall_cons; [|]); try apply Forall_nil; cbn [fst snd].
  - apply match_NUMBER_start.
  - apply match_STRING_start.
  - apply match_COMMENT_start.
  - apply match_NAME_start.
  - apply match_OP_start.
  - apply match_char_start; [reflexivity | now intros [] | discriminate].
  - apply match_SKIP_start.
  - apply match_char_start; [discriminate | reflexivity | discriminate].
  - apply match_char_start; [discriminate | reflexivity | discriminate].
  - apply match_char_start; [discriminate | reflexivity | discriminate].
  - apply match_char_start; [discriminate | reflexivity | discriminate].
  - apply match_char_start; [discriminate | reflexivity | discriminate].
  - apply match_char_start; [discriminate | reflexivity | discriminate].
  - apply match_char_start; [discriminate | reflexivity | discriminate].
  - apply match_char_start; [discriminate | reflexivity | discriminate].
  - apply match_char_start; [discriminate | reflexivity | discriminate].
  - apply match_char_start; [discriminate | reflexivity | discriminate].
Qed.

Lemma first_match_start (rem kind text : string) :
  first_match token_patterns rem = Some (kind, text) ->
  (exists rest, rem = text ++ rest)
  /\ (kind = "NEWLINE" -> text = String LF "")
  /\ (kind = "STRING" -> no_newline (decode_string_literal text) = true ->
      no_newline text = true)
  /\ (kind <> "NEWLINE" -> kind <> "STRING" -> no_newline text = true).
Proof.
  intros (re & Hin & Hre)%LexedTokens.first_match_In.
  pose proof (proj1 (Forall_forall _ _) token_patterns_start _ Hin) as H.
  exact (H rem text Hre).
Qed.

(** *** The loop keeps track of the position *)

Lemma tracked_start (source : string) : tracked source (start source).
Proof. exists "". split; [reflexivity|]. intros _. split; [reflexivity | constructor]. Qed.

Lemma tracked_advance (source consumed text rest : string) (ts : TokenStream)
      (ln col : Z) (c' : Cursor) (new : list Token) :
  source = consumed ++ text ++ rest ->
  (forallb on_one_line ts = true ->
   (ln, col) = position_of consumed /\ Forall (located source) ts) ->
  remaining c' = rest ->
  tokens c' = (ts ++ new)%list ->
  (forallb on_one_line new = true ->
   (cur_line c', cur_column c') = position_after text ln col) ->
  (forall t, In t new ->
             line t = ln /\ column t = col
             /\ value t = (if type t =? "STRING" then decode_string_literal text
                           else text)) ->
  tracked source c'.
Proof.
  intros Hsrc Hpos Hrem Htok Hnext Hnew.
  exists (consumed ++ text). split; [now rewrite Hrem, append_assoc|].
  rewrite Htok, forallb_app. intros [Hts Hn]%andb_true_iff.
  destruct (Hpos Hts) as [Hat Hloc]. split.
  - rewrite (Hnext Hn). unfold position_of. rewrite position_after_app.
    fold (position_of consumed). now rewrite <- Hat.
  - apply Forall_app. split; [exact Hloc|].
    apply Forall_forall. intros t Ht. destruct (Hnew t Ht) as (Hl & Hc & Hv).
    exists consumed, text, rest. split; [exact Hsrc|]. split; [|exact Hv].
    now rewrite Hl, Hc.
Qed.

Lemma tokenize_step_tracked (source : string) (c c' : Cursor) :
  tracked source c -> tokenize_step c = Next c' -> tracked source c'.
Proof.
  intros (consumed & Hsrc & Hpos). unfold tokenize_step.
  destruct (Str.is_empty (remaining c)); [discriminate|].
  destruct (String.prefix "/*" (remaining c)).
  - destruct (Str.find "*/" (remaining c)) as [e|]; [|discriminate].
    intros [= <-].
    destruct (take_start (e + 2) (remaining c)) as [rest E].
    apply (tracked_advance source consumed (Str.take (e + 2) (remaining c)) rest
             (tokens c) (cur_line c) (cur_column c) _ []).
    + now rewrite <- E.
    + exact Hpos.
    + cbn [remaining]. now apply drop_start.
    + cbn [tokens]. now rewrite app_nil_r.
    + intros _. cbn [cur_line cur_column]. now rewrite position_after_comment.
    + intros t [].
  - destruct (first_match token_patterns (remaining c)) as [[kind text]|] eqn:Em;
      [|discriminate].
    destruct (first_match_start _ _ _ Em) as ([rest E] & Hnl & Hstr & Hother).
    destruct (kind =? "NEWLINE") eqn:Ek.
    + apply String.eqb_eq in Ek. intros [= <-].
      apply (tracked_advance source consumed text rest
               (tokens c) (cur_line c) (cur_column c) _
               [mkToken kind text (cur_line c) (cur_column c)]).
      * now rewrite <- E.
      * exact Hpos.
      * cbn [remaining]. now apply drop_start.
      * reflexivity.
      * intros _. cbn [cur_line cur_column]. now rewrite (Hnl Ek).
      * intros t [<- | []]. cbn [line column value type]. now rewrite Ek.
    + apply String.eqb_neq in Ek.
      destruct ((kind =? "SKIP") || (kind =? "COMMENT")) eqn:Es; intros [= <-].
      * apply (tracked_advance source consumed text rest
                 (tokens c) (cur_line c) (cur_column c) _ []).
        -- now rewrite <- E.
        -- exact Hpos.
        -- cbn [remaining]. now apply drop_start.
        -- cbn [tokens]. now rewrite app_nil_r.
        -- intros _. cbn [cur_line cur_column].
           rewrite position_after_one_line; [reflexivity|].
           apply Hother; [exact Ek|].
           apply orb_true_iff in Es as [->%String.eqb_eq | ->%String.eqb_eq];
             discriminate.
        -- intros t [].
      * apply (tracked_advance source consumed text rest
                 (tokens c) (cur_line c) (cur_column c) _
                 [mkToken (if (kind =? "NAME") && is_keyword text
                           then uppercase text else kind)
                          (if (if (kind =? "NAME") && is_keyword text
                               then uppercase text else kind) =? "STRING"
                           then decode_string_literal text else text)
                          (cur_line c) (cur_column c)]).
        -- now rewrite <- E.
        -- exact Hpos.
        -- cbn [remaining]. now apply drop_start.
        -- reflexivity.
        -- cbn [forallb cur_line cur_column]. rewrite andb_true_r.
           unfold on_one_line. cbn [type value]. intros H.
           rewrite position_after_one_line; [reflexivity|].
           destruct (kind =? "STRING") eqn:Estr.
           ++ apply String.eqb_eq in Estr. subst kind.
              cbn [String.eqb Ascii.eqb Bool.eqb andb] in H. now apply Hstr.
           ++ apply String.eqb_neq in Estr. now apply Hother.
        -- intros t [<- | []]. cbn [line column value type]. repeat split.
Qed.

(** X21.  The positions of the tokens are true.  In the stream
    [tokenize] returns, when no STRING token holds a newline, every
    token is made of a piece of the source - its text, or for a STRING
    token the literal that is decoded to it - and its line and column are
    those of the first character of the piece, lines and columns counted
    from 1; the EOF token stands at the end of the source. *)
Theorem token_positions_true (source : string) (ts : TokenStream) :
  tokenize source = Ok ts ->
  forallb on_one_line ts = true ->
  Forall (located source) ts
  /\ exists body eof, ts = (body ++ [eof])%list
                      /\ (line eof, column eof) = position_of source.
Proof.
  revert ts.
  apply (LexerInvariants.tokenize_invariant
           (tracked source)
           (fun ts => forallb on_one_line ts = true ->
                      Forall (located source) ts
                      /\ exists body eof, ts = (body ++ [eof])%list
                                          /\ (line eof, column eof) = position_of source)).
  - apply tracked_start.
  - intros c c'. apply tokenize_step_tracked.
  - intros c ts (consumed & Hsrc & Hpos). unfold tokenize_step.
    destruct (remaining c) as [|ch rem] eqn:Hrem; cbn [Str.is_empty].
    + intros [= <-]. rewrite forallb_app. intros [Hts _]%andb_true_iff.
      destruct (Hpos Hts) as [Hat Hloc]. rewrite append_nil_r in Hsrc. subst consumed.
      split.
      * apply Forall_app. split; [exact Hloc|]. constructor; [|constructor].
        exists source, "", "". cbn [line column value type].
        split; [now rewrite append_nil_r|]. split; [exact Hat | reflexivity].
      * eexists _, _. split; [reflexivity|]. exact Hat.
    + destruct (String.prefix "/*" (String ch rem)).
      * destruct (Str.find "*/" (String ch rem)); discriminate.
      * destruct (first_match token_patterns (String ch rem)) as [[kind text]|];
          [|discriminate].
        destruct (kind =? "NEWLINE"); [|destruct (_ || _)]; discriminate.
Qed.

Lemma token_positions_true_witness :
  exists ts,
    tokenize ("/* a" ++ String LF " b */ let s = 'hi'" ++ String LF "  s.t") = Ok ts
    /\ forallb on_one_line ts = true
    /\ Forall (located ("/* a" ++ String LF " b */ let s = 'hi'" ++ String LF "  s.t")) ts
    /\ exists body eof, ts = (body ++ [eof])%list
                        /\ (line eof, column eof) = (3, 6)%Z.
Proof.
  eexists. split; [vm_compute; reflexivity|]. split; [reflexivity|].
  apply (token_positions_true
           ("/* a" ++ String LF " b */ let s = 'hi'" ++ String LF "  s.t")).
  - vm_compute. reflexivity.
  - reflexivity.
Defined.

(** *** The counters, by the literals as they are written *)

Lemma first_match_STRING (rem text : string) :
  first_match token_patterns rem = Some ("STRING", text) ->
  match_STRING rem = Some text.
Proof.
  intros (re & Hin & Hre)%LexedTokens.first_match_In.
  simpl in Hin.
  repeat (destruct Hin as [Heq | Hin]; [inversion Heq; subst; try exact Hre|]).
  destruct Hin.
Qed.

Lemma stands_at_advance (source consumed text rest : string) (ln col : Z) (c' : Cursor) :
  source = consumed ++ text ++ rest ->
  (ln, col) = position_of consumed ->
  remaining c' = rest ->
  (cur_line c', cur_column c') = position_after text ln col ->
  stands_at source c'.
Proof.
  intros Hsrc Hat Hrem Hnext. exists (consumed ++ text).
  split; [now rewrite Hrem, append_assoc|].
  rewrite Hnext. unfold position_of. rewrite position_after_app.
  fold (position_of consumed). now rewrite <- Hat.
Qed.

(** An iteration keeps the counters true, but for a string literal that
    holds a newline. *)
Lemma tokenize_step_stands (source : string) (c c' : Cursor) :
  stands_at source c ->
  literal_on_one_line c = true ->
  tokenize_step c = Next c' ->
  stands_at source c'.
Proof.
  intros (consumed & Hsrc & Hat) Hline. unfold tokenize_step.
  destruct (Str.is_empty (remaining c)); [discriminate|].
  destruct (String.prefix "/*" (remaining c)).
  - destruct (Str.find "*/" (remaining c)) as [e|]; [|discriminate].
    intros [= <-].
    destruct (take_start (e + 2) (remaining c)) as [rest E].
    apply (stands_at_advance source consumed (Str.take (e + 2) (remaining c)) rest
             (cur_line c) (cur_column c)).
    + now rewrite <- E.
    + exact Hat.
    + cbn [remaining]. now apply drop_start.
    + cbn [cur_line cur_column]. now rewrite position_after_comment.
  - destruct (first_match token_patterns (remaining c)) as [[kind text]|] eqn:Em;
      [|discriminate].
    destruct (first_match_start _ _ _ Em) as ([rest E] & Hnl & _ & Hother).
    assert (Hone : kind <> "NEWLINE" -> no_newline text = true).
    { intros Hk. destruct (kind =? "STRING") eqn:Estr.
      - apply String.eqb_eq in Estr. subst kind.
        apply first_match_STRING in Em. unfold literal_on_one_line in Hline.
        now rewrite Em in Hline.
      - apply String.eqb_neq in Estr. now apply Hother. }
    destruct (kind =? "NEWLINE") eqn:Ek.
    + apply String.eqb_eq in Ek. intros [= <-].
      apply (stands_at_advance source consumed text rest (cur_line c) (cur_column c)).
      * now rewrite <- E.
      * exact Hat.
      * cbn [remaining]. now apply drop_start.
      * cbn [cur_line cur_column]. now rewrite (Hnl Ek).
    + apply String.eqb_neq in Ek.
      destruct ((kind =? "SKIP") || (kind =? "COMMENT")); intros [= <-].
      * apply (stands_at_advance source consumed text rest (cur_line c) (cur_column c)).
        -- now rewrite <- E.
        -- exact Hat.
        -- cbn [remaining]. now apply drop_start.
        -- cbn [cur_line cur_column].
           now rewrite position_after_one_line by (apply Hone, Ek).
      * apply (stands_at_advance source consumed text rest (cur_line c) (cur_column c)).
        -- now rewrite <- E.
        -- exact Hat.
        -- cbn [remaining]. now apply drop_start.
        -- cbn [cur_line cur_column].
           now rewrite position_after_one_line by (apply Hone, Ek).
Qed.

Lemma passes_stands (source : string) (n : nat) : forall c path e,
  passes n c = Some (path, e) ->
  forallb literal_on_one_line path = true ->
  stands_at source c ->
  reaches c e /\ stands_at source e.
Proof.
  induction n as [|n IH]; intros c path e; cbn [passes].
  - intros [= <- <-] _ H. split; [apply reaches_here | exact H].
  - destruct (tokenize_step c) as [c'| |] eqn:Estep; try discriminate.
    destruct (passes n c') as [[cs e']|] eqn:Erest; [|discriminate].
    intros [= <- <-]. cbn [forallb]. intros [Hc Hcs]%andb_true_iff Hat.
    destruct (IH c' cs e' Erest Hcs (tokenize_step_stands _ _ _ Hat Hc Estep))
      as [Hreach Hstands].
    split; [exact (reaches_next _ _ _ Estep Hreach) | exact Hstands].
Qed.

(** X22.  The counters of the lexer are true.  At the position the loop
    of [tokenize] comes to after any number of iterations, when none of
    the string literals read on the way holds a newline in its text as it
    is written (an escape [\n] is none), the line and column counters -
    the ones the error messages print - are the line and the column of
    the first character that is not read yet. *)
Theorem lexer_counters_true (source : string) (n : nat) (path : list Cursor)
        (c : Cursor) :
  passes n (start source) = Some (path, c) ->
  forallb literal_on_one_line path = true ->
  reaches (start source) c
  /\ exists consumed,
       source = consumed ++ remaining c
       /\ (cur_line c, cur_column c) = position_of consumed.
Proof.
  intros Hpasses Hpath.
  apply (passes_stands source n (start source) path c Hpasses Hpath).
  exists "". split; reflexivity.
Qed.

(** After a comment of two lines and a literal with an escaped
    newline. *)
Lemma lexer_counters_true_witness :
  reaches (start ("/* b" ++ String LF " */ " ++ String DQUOTE ("a" ++ String BACKSLASH ("n" ++ String DQUOTE " @"))))
          (mkCursor "@" 2 11 [mkToken "STRING" ("a" ++ String LF "") 2 5])
  /\ exists consumed,
       "/* b" ++ String LF " */ " ++ String DQUOTE ("a" ++ String BACKSLASH ("n" ++ String DQUOTE " @"))
       = consumed ++ "@"
       /\ (2, 11)%Z = position_of consumed.
Proof.
  apply (lexer_counters_true
           ("/* b" ++ String LF " */ "
            ++ String DQUOTE ("a" ++ String BACKSLASH ("n" ++ String DQUOTE " @")))
           4
           [start ("/* b" ++ String LF " */ "
                   ++ String DQUOTE ("a" ++ String BACKSLASH ("n" ++ String DQUOTE " @")));
            mkCursor (" " ++ String DQUOTE ("a" ++ String BACKSLASH ("n" ++ String DQUOTE " @")))
                     2 4 [];
            mkCursor (String DQUOTE ("a" ++ String BACKSLASH ("n" ++ String DQUOTE " @")))
                     2 5 [];
            mkCursor " @" 2 10 [mkToken "STRING" ("a" ++ String LF "") 2 5]]
           (mkCursor "@" 2 11 [mkToken "STRING" ("a" ++ String LF "") 2 5])).
  - reflexivity.
  - reflexivity.
Defined.

(** *** A string literal that holds a newline *)

Lemma decode_content_no_backslash (s : string) :
  all_chars (fun c => negb (Ascii.eqb c BACKSLASH)) s = true -> decode_content s = s.
Proof.
  induction s as [|c s IH]; cbn [all_chars decode_content]; [reflexivity|].
  intros [Hc Hs]%andb_true_iff. apply negb_true_iff in Hc. now rewrite Hc, IH.
Qed.

(** X23.  The lexer does not count the newlines of a string literal.  A
    literal whose payload holds neither its quote nor a backslash is read
    as one STRING token that holds the payload, newlines included, and
    the EOF token after it is put at line 1, whereas the source ends at
    line 1 plus the number of newlines of the payload. *)
Theorem literal_newlines_not_counted (q : ascii) (payload : string) :
  q = DQUOTE \/ q = SQUOTE ->
  all_chars (fun c => negb (Ascii.eqb c q) && negb (Ascii.eqb c BACKSLASH)) payload = true ->
  tokenize (quoted q payload)
  = Ok [mkToken "STRING" payload 1 1;
        mkToken "EOF" "" 1 (1 + size (quoted q payload))]
  /\ fst (position_of (quoted q payload)) = (1 + Z.of_nat (Str.count LF payload))%Z.
Proof.
  intros Hq Hpayload. split.
  - assert (Hm : match_STRING (quoted q payload) = Some (quoted q payload)).
    { unfold quoted, match_STRING.
      replace (Ascii.eqb q DQUOTE || Ascii.eqb q SQUOTE) with true
        by (destruct Hq as [-> | ->]; reflexivity).
      now rewrite match_string_body_plain. }
    assert (Hfirst : first_match token_patterns (quoted q payload)
                     = Some ("STRING", quoted q payload)).
    { unfold token_patterns, first_match.
      replace (match_NUMBER (quoted q payload)) with (@None string)
        by (destruct Hq as [-> | ->]; reflexivity).
      now rewrite Hm. }
    unfold tokenize.
    change (String.length (quoted q payload))
      with (S (String.length (payload ++ String q ""))).
    cbn [tokenize_loop].
    unfold tokenize_step at 1, start; cbn [remaining cur_line cur_column tokens].
    replace (Str.is_empty (quoted q payload)) with false by reflexivity.
    replace (String.prefix "/*" (quoted q payload)) with false
      by (destruct Hq as [-> | ->]; reflexivity).
    rewrite Hfirst. cbn [String.eqb Ascii.eqb Bool.eqb orb andb].
    rewrite drop_all. unfold quoted at 2. rewrite decode_quoted.
    rewrite decode_content_no_backslash; [reflexivity|].
    revert Hpayload. apply RoundTrip.all_chars_impl.
    now intros c [_ H]%andb_true_iff.
  - unfold position_of. rewrite position_after_line. unfold quoted.
    cbn [Str.count].
    replace (Ascii.eqb q LF) with false by (destruct Hq as [-> | ->]; reflexivity).
    assert (Hcount : forall s, Str.count LF (s ++ String q "") = Str.count LF s).
    { induction s as [|c s IH]; cbn [append Str.count].
      - replace (Ascii.eqb q LF) with false by (destruct Hq as [-> | ->]; reflexivity).
        reflexivity.
      - now rewrite IH. }
    rewrite Hcount. lia.
Qed.

Lemma literal_newlines_not_counted_witness :
  tokenize (quoted DQUOTE ("a" ++ String LF "b"))
  = Ok [mkToken "STRING" ("a" ++ String LF "b") 1 1; mkToken "EOF" "" 1 6]
  /\ fst (position_of (quoted DQUOTE ("a" ++ String LF "b"))) = 2%Z.
Proof.
  apply (literal_newlines_not_counted DQUOTE ("a" ++ String LF "b")).
  - now left.
  - reflexivity.
Defined.

End Positions.

Module Grouping.

Import Lexer AST Parser Compiler Spec StrFacts.

Section Platform.

Context {double : Type}.
Variable double_to_string : double -> string.

Lemma not_own_left_operand (a : Expression double) :
  forall op b, a <> BinaryOp a op b.
Proof.
  induction a; intros op' b'; try discriminate.
  intros [= H _ _]. exact (IHa1 _ _ H).
Qed.

Lemma not_own_operand (a : Expression double) :
  forall op, a <> UnaryOp op a.
Proof.
  induction a; intros op'; try discriminate.
  intros [= _ H]. exact (IHa _ H).
Qed.

(** X24.  The generators print no parentheses around an operation.
    Two binary operations nested to the left and nested to the right -
    the trees of [(a + b) * c] and of [a + (b * c)], which differ - are
    printed as the same text by the Python and by the JavaScript
    generator, and so are the negation of an operation and the
    operation on a negation, [-(a + b)] and [(-a) + b]: the grouping of
    the source is not in the output. *)
Theorem grouping_not_printed (a b c : Expression double) (op1 op2 : string) :
  (BinaryOp (BinaryOp a op1 b) op2 c <> BinaryOp a op1 (BinaryOp b op2 c)
   /\ PythonVisitor.render_expression double_to_string (BinaryOp (BinaryOp a op1 b) op2 c)
      = PythonVisitor.render_expression double_to_string
          (BinaryOp a op1 (BinaryOp b op2 c))
   /\ JavaScriptVisitor.render_expression double_to_string
        (BinaryOp (BinaryOp a op1 b) op2 c)
      = JavaScriptVisitor.render_expression double_to_string
          (BinaryOp a op1 (BinaryOp b op2 c)))
  /\ (UnaryOp op1 (BinaryOp a op2 b) <> BinaryOp (UnaryOp op1 a) op2 b
      /\ PythonVisitor.render_expression double_to_string (UnaryOp op1 (BinaryOp a op2 b))
         = PythonVisitor.render_expression double_to_string
             (BinaryOp (UnaryOp op1 a) op2 b)
      /\ JavaScriptVisitor.render_expression double_to_string
           (UnaryOp op1 (BinaryOp a op2 b))
         = JavaScriptVisitor.render_expression double_to_string
             (BinaryOp (UnaryOp op1 a) op2 b)).
Proof.
  split; split; try discriminate.
  - intros [= H _ _]. symmetry in H. exact (not_own_left_operand _ _ _ H).
  - cbn [PythonVisitor.render_expression JavaScriptVisitor.render_expression].
    split; now rewrite !append_assoc.
  - cbn [PythonVisitor.render_expression JavaScriptVisitor.render_expression].
    split; now rewrite !append_assoc.
Qed.

End Platform.

(** The two groupings of a source text compile to the same Python. *)
Lemma grouping_example :
  exists text,
    compile_source DecimalText.stod DecimalText.double_to_string "(a + b) * c"
      (mkOptions "python" false)
    = Ok (mkResult
            (make_module
               [Expr (BinaryOp (BinaryOp (Name "a") "+" (Name "b")) "*" (Name "c"))])
            (Some text))
    /\ compile_source DecimalText.stod DecimalText.double_to_string "a + b * c"
         (mkOptions "python" false)
       = Ok (mkResult
               (make_module
                  [Expr (BinaryOp (Name "a") "+" (BinaryOp (Name "b") "*" (Name "c")))])
               (Some text)).
Proof.
  eexists. split; [vm_compute; reflexivity|]. vm_compute. reflexivity.
Qed.

End Grouping.

Module ModuleName.

Import AST Visit JavaScriptVisitor Spec
       StrFacts TextFacts PythonFacts JavaScriptOutput Indentation.
Open Scope visit_scope.

(** *** Lines of a stream *)

Lemma lines_with_app (start s t : string) :
  whole_lines s -> lines_with start (s ++ t) = (lines_with start s + lines_with start t)%nat.
Proof.
  unfold lines_with, lines. intros [-> | [u ->]]; [reflexivity|].
  now rewrite Indentation.lines_from_closed, filter_app, length_app.
Qed.

Lemma whole_lines_emit (s : string) (k : nat) (text : string) :
  whole_lines (s ++ emitted_line k text).
Proof.
  right. exists (s ++ Str.spaces (k * 4) ++ text). unfold emitted_line, LFs.
  now rewrite !append_assoc.
Qed.

(** A line more keeps the lines there are. *)
Lemma holds_lines_emit (start : string) (c k : nat) (text s : string) :
  holds_lines start c s -> holds_lines start c (s ++ emitted_line k text).
Proof.
  intros [Hw Hc]. split; [apply whole_lines_emit|].
  rewrite lines_with_app by exact Hw. lia.
Qed.

Lemma lines_from_start (start : string) : forall cur x,
  no_newline start = true ->
  lines_from cur (start ++ x) = lines_from (cur ++ start) x.
Proof.
  induction start as [|c start IH]; intros cur x; cbn [append lines_from].
  - now rewrite append_nil_r.
  - unfold no_newline. cbn [all_chars]. intros [Hc Hs]%andb_true_iff.
    apply negb_true_iff in Hc. rewrite Hc, IH by exact Hs.
    now rewrite append_assoc.
Qed.

Lemma lines_from_head (x : string) : forall cur,
  exists l ls, lines_from cur (x ++ LFs) = (cur ++ l) :: ls.
Proof.
  induction x as [|c x IH]; intros cur; cbn [append lines_from LFs].
  - exists "", []. cbn. now rewrite append_nil_r.
  - destruct (Ascii.eqb c LF).
    + exists "", (lines_from "" (x ++ LFs)). now rewrite append_nil_r.
    + destruct (IH (cur ++ String c "")) as (l & ls & ->).
      exists (String c l), ls. now rewrite append_assoc.
Qed.

Lemma prefix_append (a b : string) : String.prefix a (a ++ b) = true.
Proof.
  induction a as [|c a IH]; cbn [append String.prefix]; [now destruct b|].
  destruct (ascii_dec c c) as [_|H]; [exact IH | now destruct H].
Qed.

(** A line that begins with [start], at indent level 0, is one line more. *)
Lemma holds_lines_first (start : string) (c : nat) (rest s : string) :
  no_newline start = true ->
  holds_lines start c s -> holds_lines start (S c) (s ++ emitted_line 0 (start ++ rest)).
Proof.
  intros Hstart [Hw Hc]. split; [apply whole_lines_emit|].
  rewrite lines_with_app by exact Hw.
  assert (1 <= lines_with start (emitted_line 0 (start ++ rest)))%nat; [|lia].
  unfold lines_with, lines, emitted_line. cbn [Nat.mul Str.spaces append].
  rewrite append_assoc, lines_from_start by exact Hstart.
  destruct (lines_from_head rest ("" ++ start)) as (l & ls & E).
  fold LFs. rewrite E. cbn [filter append]. rewrite prefix_append.
  cbn [List.length]. lia.
Qed.

(** *** The visitor *)

Lemma moves_seq (P Q R : string -> Prop) (k k1 k2 : nat) (a b : V State) :
  moves P Q k k1 a -> moves Q R k1 k2 b -> moves P R k k2 (a ;; b).
Proof.
  intros Ha Hb st Hk Hinv. destruct (Ha st Hk Hinv) as (st1 & E1 & Hk1 & Hinv1).
  destruct (Hb st1 Hk1 Hinv1) as (st2 & E2 & Hk2 & Hinv2).
  exists st2. unfold seq. rewrite E1. auto.
Qed.

Lemma moves_emit (P Q : string -> Prop) (k : nat) (text : string) :
  (forall s, P s -> Q (s ++ emitted_line k text)) -> moves P Q k k (emit text).
Proof.
  intros Hemit st Hk Hinv. eexists. split; [reflexivity|].
  simpl. split; [exact Hk|]. rewrite Hk. now apply Hemit.
Qed.

Section Platform.

Context {double : Type} (double_to_string : double -> string).

(** What every line keeps, [visit] keeps. *)
Lemma visit_keeps_lines (Inv : string -> Prop) (n : Node double) :
  (forall k text s, Inv s -> Inv (s ++ emitted_line k text)) ->
  forall k, keeps Inv k k (visit double_to_string n).
Proof.
  intros Hemit.
  induction n as [n IH] using Node_children_ind. intros k.
  destruct n; cbn [visit children] in *;
    unfold visit_import, visit_import_from, visit_let, visit_assign, visit_return,
      visit_export_names, visit_export_default, visit_spawn,
      visit_function_def, visit_if, visit_while, visit_for.
  all: try apply Forall_app in IH as [IH1 IH2].
  all: keep ltac:(intros; apply Hemit; assumption).
  all: try (apply for_each_visit_keeps; assumption).
Qed.

(** A statement at indent level 0 that imports a module adds a line
    that begins with the declaration of [__mod]. *)
Lemma visit_declares (n : Node double) (c : nat) :
  moves (holds_lines module_declaration c)
        (holds_lines module_declaration (c + (if imports_module n then 1 else 0)))
        0 0 (visit double_to_string n).
Proof.
  destruct (imports_module n) eqn:E.
  - replace (c + 1)%nat with (S c) by lia.
    destruct n; try discriminate E; cbn [visit].
    + unfold visit_import_from.
      eapply moves_seq.
      * apply moves_emit. intros s Hs.
        apply (holds_lines_first module_declaration c
                 ("await runtime.importModule('" ++ module ++ "');") s eq_refl Hs).
      * change (keeps (holds_lines module_declaration (S c)) 0 0
                  (match namespace_name with
                   | Some ns => emit ("const " ++ ns ++ " = __mod;")
                   | None => skip
                   end ;;
                   match default_name with
                   | Some d => emit ("const " ++ d ++ " = runtime.extractDefault(__mod);")
                   | None => skip
                   end ;;
                   for_each (fun '(source, alias) =>
                               emit ("const " ++ alias
                                     ++ " = runtime.extractExport(__mod, '"
                                     ++ source ++ "');")) names)).
        keep ltac:(intros; apply holds_lines_emit; assumption).
    + destruct source as [src|]; [|discriminate E].
      unfold visit_export_names.
      eapply moves_seq.
      * apply moves_emit. intros s Hs.
        apply (holds_lines_first module_declaration c
                 ("await runtime.importModule('" ++ src ++ "');") s eq_refl Hs).
      * change (keeps (holds_lines module_declaration (S c)) 0 0
                  (for_each (fun '(source, alias) =>
                               emit ("__trif_exports__.set('" ++ alias
                                     ++ "', runtime.extractExport(__mod, '"
                                     ++ source ++ "'));")) names)).
        keep ltac:(intros; apply holds_lines_emit; assumption).
  - rewrite Nat.add_0_r.
    apply (visit_keeps_lines (holds_lines module_declaration c)).
    intros k text s. apply holds_lines_emit.
Qed.

Lemma body_declares (body : list (Node double)) : forall c,
  moves (holds_lines module_declaration c)
        (holds_lines module_declaration
           (c + List.length (List.filter imports_module body)))
        0 0 (for_each (visit double_to_string) body).
Proof.
  induction body as [|n body IH]; intros c.
  - cbn [filter List.length for_each]. rewrite Nat.add_0_r.
    intros st Hk H. now exists st.
  - cbn [for_each filter].
    eapply moves_seq; [apply visit_declares|].
    destruct (imports_module n); cbn [List.length].
    + replace (c + S (List.length (List.filter imports_module body)))%nat
        with ((c + 1) + List.length (List.filter imports_module body))%nat by lia.
      apply IH.
    + rewrite Nat.add_0_r. apply IH.
Qed.

(** X25.  The JavaScript generator declares the same constant for
    every module it imports.  Its output holds at least as many lines
    that begin, without indentation, with [const __mod = ] as the
    module has imports with [from] and exports with [from] among its
    statements: with two of them the constant is declared twice at the
    top level of the output. *)
Theorem javascript_module_name_reused (module : Module double) (out : string) :
  JavaScriptGenerator.generate double_to_string module = Ok out ->
  (List.length (List.filter imports_module (body module))
   <= lines_with module_declaration out)%nat.
Proof.
  unfold JavaScriptGenerator.generate, generate. intros E.
  assert (H : moves (holds_lines module_declaration 0)
                    (holds_lines module_declaration
                       (0 + List.length (List.filter imports_module (body module))))
                    0 0 (generate_from double_to_string module)).
  { unfold generate_from.
    eapply moves_seq; [apply moves_emit; intros s; apply holds_lines_emit|].
    eapply moves_seq; [apply moves_emit; intros s; apply holds_lines_emit|].
    eapply moves_seq; [apply moves_emit; intros s; apply holds_lines_emit|].
    eapply moves_seq; [apply moves_emit; intros s; apply holds_lines_emit|].
    eapply moves_seq; [apply body_declares|].
    eapply moves_seq; [apply moves_emit; intros s; apply holds_lines_emit|].
    eapply moves_seq; [apply moves_emit; intros s; apply holds_lines_emit|].
    apply moves_emit; intros s; apply holds_lines_emit. }
  destruct (H init eq_refl) as (st' & E' & _ & _ & Hc).
  { split; [now left | apply Nat.le_0_l]. }
  rewrite E' in E. injection E as <-. exact Hc.
Qed.

End Platform.

Lemma javascript_module_name_reused_witness :
  exists out,
    parse_source DecimalText.stod "import { a } from 'm'; import { b } from 'n'"
    = Ok (make_module [ImportFrom "m" [("a", "a")] None None;
                       ImportFrom "n" [("b", "b")] None None])
    /\ JavaScriptGenerator.generate DecimalText.double_to_string
         (make_module [ImportFrom "m" [("a", "a")] None None;
                       ImportFrom "n" [("b", "b")] None None]) = Ok out
    /\ (2 <= lines_with module_declaration out)%nat.
Proof.
  eexists. split; [vm_compute; reflexivity|]. split; [vm_compute; reflexivity|].
  apply (javascript_module_name_reused DecimalText.double_to_string
           (make_module [ImportFrom "m" [("a", "a")] None None;
                         ImportFrom "n" [("b", "b")] None None])).
  vm_compute. reflexivity.
Defined.

End ModuleName.
